(** * Exam voice assistance: turn taking, context gate and command grammar

    A shallow embedding of the voice core of the application:

    - [JsString] and [Regex]: the fragment of JavaScript strings and
      regular expressions that the command interpreters rely on;
    - [ExamCommand]: the option-letter heuristic of
      [ExamPage.handleVoiceCommand];
    - [Speech]: [SpeechService] (speechService.js) together with the event
      loop it runs on (timers, engine callbacks, promises);
    - [Screen]: [ScreenContextService] and the voice handlers of
      [ExamPage] and [HomePage], with the auto-submit countdown;
    - [Grading], [ExamService], [OfflineService] and [Metrics]: the
      grading of the answers, the attempt limits and the randomization
      of an exam, the queue of the submissions made offline, and the
      tracker of the evaluation metrics.

    Characters are code units below 256; a JavaScript string is a
    [list ascii] (written as a [string] literal and converted). *)

From Stdlib Require Import String Ascii Bool Arith NArith Lia List.
From Stdlib Require Import DecimalString.

From Stdlib Require DecimalNat.
From Stdlib Require Import ZArith.
From Stdlib Require Import QArith Lqa.
From Stdlib Require Import Permutation.
Import ListNotations.
Close Scope Q_scope.

Set Implicit Arguments.

(* ===================================================================== *)
(** * JavaScript strings *)
(* ===================================================================== *)

Module JsString.

Definition jsstring := list ascii.

Definition lit (s : string) : jsstring := list_ascii_of_string s.

Definition code (c : ascii) : nat := nat_of_ascii c.

Definition between (lo hi : nat) (c : ascii) : bool :=
(lo <=? code c) && (code c <=? hi).

(** [\s] on code units below 256: TAB, LF, VT, FF, CR, SPACE, NBSP. *)
Definition isSpace (c : ascii) : bool :=
between 9 13 c || (code c =? 32) || (code c =? 160).

Definition isDigit (c : ascii) : bool := between 48 57 c.

Definition isUpper (c : ascii) : bool := between 65 90 c.

Definition isLower (c : ascii) : bool := between 97 122 c.

(** [\w]: letters, digits and the underscore. *)
Definition isWord (c : ascii) : bool :=
isUpper c || isLower c || isDigit c || (code c =? 95).

(** Latin-1 letters with a lower-case form: A-Z, and 192-222 but 215. *)
Definition hasLower (c : ascii) : bool :=
isUpper c || (between 192 222 c && negb (code c =? 215)).

(** Latin-1 letters whose upper-case form is again below 256:
  a-z, and 224-254 but 247. *)
Definition hasUpper (c : ascii) : bool :=
isLower c || (between 224 254 c && negb (code c =? 247)).

Definition lowerChar (c : ascii) : ascii :=
if hasLower c then ascii_of_nat (code c + 32) else c.

Definition upperChar (c : ascii) : ascii :=
if hasUpper c then ascii_of_nat (code c - 32) else c.

Definition toLowerCase (s : jsstring) : jsstring := map lowerChar s.

Definition toUpperCase (s : jsstring) : jsstring := map upperChar s.

Fixpoint trimStart (s : jsstring) : jsstring :=
match s with
| c :: s' => if isSpace c then trimStart s' else s
| [] => []
end.

Definition trimEnd (s : jsstring) : jsstring := rev (trimStart (rev s)).

Definition trim (s : jsstring) : jsstring := trimEnd (trimStart s).

Definition eqb (a b : jsstring) : bool :=
if list_eq_dec ascii_dec a b then true else false.

Fixpoint startsWith (p s : jsstring) : bool :=
match p, s with
| [], _ => true
| a :: p', b :: s' => if ascii_dec a b then startsWith p' s' else false
| _ :: _, [] => false
end.

(** [s.includes(p)] *)
Fixpoint includes (p s : jsstring) : bool :=
startsWith p s ||
match s with
| [] => false
| _ :: s' => includes p s'
end.

(** [s.slice(-n)]: the last [n] code units, the whole of a shorter [s]. *)
Definition sliceLast (n : nat) (s : jsstring) : jsstring :=
skipn (length s - n) s.

(** [text.charCodeAt(0)] *)
Definition charCodeAt0 (s : jsstring) : option nat :=
match s with
| c :: _ => Some (code c)
| [] => None
end.

End JsString.

(* ===================================================================== *)
(** * Regular expressions *)
(* ===================================================================== *)

Module Regex.
Import JsString.

(** The constructs that occur in the regular expressions of the two
  handlers; those of the exam screen carry the [i] flag. *)
Inductive regex : Type :=
| WordB                          (* \b *)
| EndAnchor                      (* $ *)
| Lit (s : string)               (* literal text, modulo case *)
| Exact (s : string)             (* literal text *)
| Set_ (cls : ascii -> bool)     (* one character of a class *)
| Star (cls : ascii -> bool)     (* cls*, greedy *)
| Plus (cls : ascii -> bool)     (* cls+, greedy *)
| Opt (r : regex)                (* (?:r)?, greedy *)
| Alt (r1 r2 : regex)            (* r1|r2 *)
| Seq (r1 r2 : regex)            (* r1 r2 *)
| Group (r : regex).             (* (r), the capture group 1 *)

(** A position in the subject: the character before it, and the rest. *)
Record pos := { before : option ascii; rest : jsstring }.

Definition wordAt (c : option ascii) : bool :=
match c with
| Some a => isWord a
| None => false
end.

Definition atWordBoundary (p : pos) : bool :=
xorb (wordAt (before p)) (wordAt (hd_error (rest p))).

Definition sameLetter (a b : ascii) : bool :=
if ascii_dec (upperChar a) (upperChar b) then true else false.

Definition sameChar (a b : ascii) : bool :=
if ascii_dec a b then true else false.

Fixpoint litAt (same : ascii -> ascii -> bool) (l : jsstring) (p : pos)
: option pos :=
match l with
| [] => Some p
| a :: l' =>
    match rest p with
    | c :: s' =>
        if same a c
        then litAt same l' {| before := Some c; rest := s' |}
        else None
    | [] => None
    end
end.

(** A match: where it ends and what group 1 captured. *)
Record result := { stop : pos; group1 : option jsstring }.

Section Matcher.
Variable A : Type.

(** Greedy iteration of a character class: as many characters as
possible, giving one back at a time while the continuation fails. *)
Fixpoint star (cls : ascii -> bool) (k : pos -> option A)
     (b : option ascii) (s : jsstring) : option A :=
  match s with
  | c :: s' =>
  if cls c then
    match star cls k (Some c) s' with
    | Some r => Some r
    | None => k {| before := b; rest := s |}
    end
  else k {| before := b; rest := s |}
  | [] => k {| before := b; rest := s |}
  end.
End Matcher.

(** Backtracking matcher in continuation-passing style: [k] receives the
  position after [r] and the capture so far. *)
Fixpoint run (r : regex) (p : pos) (cap : option jsstring)
       (k : pos -> option jsstring -> option result) : option result :=
match r with
| WordB => if atWordBoundary p then k p cap else None
| EndAnchor => match rest p with [] => k p cap | _ :: _ => None end
| Lit s =>
    match litAt sameLetter (lit s) p with
    | Some p' => k p' cap
    | None => None
    end
| Exact s =>
    match litAt sameChar (lit s) p with
    | Some p' => k p' cap
    | None => None
    end
| Set_ cls =>
    match rest p with
    | c :: s' =>
        if cls c then k {| before := Some c; rest := s' |} cap else None
    | [] => None
    end
| Star cls => star cls (fun p' => k p' cap) (before p) (rest p)
| Plus cls =>
    match rest p with
    | c :: s' =>
        if cls c
        then star cls (fun p' => k p' cap) (Some c) s'
        else None
    | [] => None
    end
| Opt r1 =>
    match run r1 p cap k with
    | Some res => Some res
    | None => k p cap
    end
| Alt r1 r2 =>
    match run r1 p cap k with
    | Some res => Some res
    | None => run r2 p cap k
    end
| Seq r1 r2 => run r1 p cap (fun p' cap' => run r2 p' cap' k)
| Group r1 =>
    run r1 p cap
        (fun p' _ =>
           k p' (Some (firstn (length (rest p) - length (rest p'))
                              (rest p))))
end.

Definition matchAt (r : regex) (p : pos) : option result :=
run r p None (fun p' cap => Some {| stop := p'; group1 := cap |}).

(** [s.match(r)] without the [g] flag: the leftmost match. *)
Fixpoint searchFrom (r : regex) (b : option ascii) (s : jsstring)
: option result :=
match matchAt r {| before := b; rest := s |} with
| Some res => Some res
| None =>
    match s with
    | c :: s' => searchFrom r (Some c) s'
    | [] => None
    end
end.

Definition search (r : regex) (s : jsstring) : option result :=
searchFrom r None s.

(** [s.matchAll(r)] with the [g] flag: the successive matches, each
  search resuming where the previous match stopped ([skip] counts the
  characters of the previous match still to step over; an empty match
  advances by one character). *)
Fixpoint matchAllFrom (r : regex) (skip : nat) (b : option ascii)
       (s : jsstring) : list result :=
match skip with
| S n =>
    match s with
    | c :: s' => matchAllFrom r n (Some c) s'
    | [] => []
    end
| O =>
    match matchAt r {| before := b; rest := s |} with
    | Some res =>
        res ::
        match s with
        | c :: s' =>
            matchAllFrom r
              (pred (length s - length (rest (stop res)))) (Some c) s'
        | [] => []
        end
    | None =>
        match s with
        | c :: s' => matchAllFrom r 0 (Some c) s'
        | [] => []
        end
    end
end.

Definition matchAll (r : regex) (s : jsstring) : list result :=
matchAllFrom r 0 None s.

(** [match[1]], the empty string standing for an unset group. *)
Definition capture (res : result) : jsstring :=
match group1 res with
| Some g => g
| None => []
end.

End Regex.

(* ===================================================================== *)
(** * Option letters in the exam context *)
(* ===================================================================== *)

Module ExamCommand.
Import JsString Regex.

Declare Scope regex_scope.
Delimit Scope regex_scope with re.
Notation "r1 +> r2" := (Seq r1 r2)
(at level 61, right associativity) : regex_scope.
Notation "r1 || r2" := (Alt r1 r2) : regex_scope.

(** [[a-d]] under the [i] flag *)
Definition letterAD (c : ascii) : bool := between 65 68 (upperChar c).

(** [(?:option\s+)?([a-d])] *)
Definition optionLetter : regex :=
(Opt (Lit "option" +> Plus isSpace) +> Group (Set_ letterAD))%re.

(** [/\b(?:select|choose|pick)\s+(?:option\s+)?([a-d])\s*$/i] *)
Definition selectAtEnd : regex :=
(WordB +> (Lit "select" || (Lit "choose" || Lit "pick")) +> Plus isSpace +>
 optionLetter +> Star isSpace +> EndAnchor)%re.

(** [/\b(?:option\s+)?([a-d])\s*$/i] *)
Definition optionAtEnd : regex :=
(WordB +> optionLetter +> Star isSpace +> EndAnchor)%re.

(** [/\b(?:option\s+)?([a-d])\b/i], also used with the [g] flag *)
Definition optionWord : regex := (WordB +> optionLetter +> WordB)%re.

Definition endPatterns : list regex := [selectAtEnd; optionAtEnd].

(** [match[1].toUpperCase()] *)
Definition letterOf (m : result) : jsstring := toUpperCase (capture m).

(** [if (!selectedLetter)]: [null] and the empty string are falsy. *)
Definition unset (selectedLetter : option jsstring) : bool :=
match selectedLetter with
| None | Some [] => true
| Some (_ :: _) => false
end.

(** [for (const pattern of endPatterns) { ... break; }] *)
Fixpoint firstEndMatch (patterns : list regex) (command : jsstring)
: option jsstring :=
match patterns with
| [] => None
| pattern :: patterns' =>
    match search pattern command with
    | Some m => Some (letterOf m)
    | None => firstEndMatch patterns' command
    end
end.

(** The letter chosen by [handleVoiceCommand] for a multiple-choice
  question (ExamPage.js, lines 720-754); [command] is the transcript
  after [toLowerCase().trim()]. *)
Definition selectLetter (command : jsstring) : option jsstring :=
let selectedLetter := firstEndMatch endPatterns command in
let selectedLetter :=
  if unset selectedLetter then
    let lastPart := sliceLast 15 command in
    match search optionWord lastPart with
    | Some lastMatch => Some (letterOf lastMatch)
    | None => selectedLetter
    end
  else selectedLetter in
let selectedLetter :=
  if unset selectedLetter then
    let allMatches := matchAll optionWord command in
    match rev allMatches with
    | m :: _ => Some (letterOf m)
    | [] => selectedLetter
    end
  else selectedLetter in
selectedLetter.

(** [selectedLetter.charCodeAt(0) - 65] *)
Definition optionIndex (selectedLetter : jsstring) : nat :=
match charCodeAt0 selectedLetter with
| Some n => n - 65
| None => 0
end.

(** ** The three searches named by the specification *)

(** (a) a command phrase anchored at the end of the transcript *)
Definition endAnchored (command : jsstring) : option jsstring :=
match search selectAtEnd command with
| Some m => Some (letterOf m)
| None => option_map letterOf (search optionAtEnd command)
end.

(** (b) a letter within the final 15 characters *)
Definition withinFinal15 (command : jsstring) : option jsstring :=
option_map letterOf (search optionWord (sliceLast 15 command)).

(** (c) the last occurrence anywhere in the string *)
Definition lastAnywhere (command : jsstring) : option jsstring :=
option_map letterOf (last (map Some (matchAll optionWord command)) None).

Definition orElse (a b : option jsstring) : option jsstring :=
match a with
| Some _ => a
| None => b
end.

Definition resolveByPriority (command : jsstring) : option jsstring :=
orElse (endAnchored command)
       (orElse (withinFinal15 command) (lastAnywhere command)).

End ExamCommand.

(* ===================================================================== *)
(** * The speech service and its event loop *)
(* ===================================================================== *)

Module Speech.
Import JsString.

Definition TimerId := nat.
Definition PromiseId := nat.
Definition UtteranceId := nat.
Definition Callback := nat.

(** The [options] object handed on to the engines. *)
Definition Options := list (string * string).

(** An entry of [speechQueue]: [{ text, options }]. *)
Record SpeechRequest := { text : jsstring; options : Options }.

(** An error object of an engine: its [error] and [message] fields. *)
Record EngineError := {
err_error : option jsstring;
err_message : option jsstring }.

(** What [onRecognitionErrorCallback] receives: [{ type, message }]. *)
Record RecognitionError := {
type : option jsstring;
message : option jsstring }.

(** One entry of a recognition event (or the event itself, when it has
  no [results]); an absent field is [None]. *)
Record SttResult := {
transcript : option jsstring;
alt_text : option jsstring;
isFinal : option bool }.

(** A 'result' event: its [results] array, if any, and its own fields. *)
Record SttEvent := {
results : option (list SttResult);
own : SttResult }.

(** The fields set by the constructor of [SpeechService]; a callback is
  the identity of the registered function, [currentRecognition] is
  [null] or [true], [currentRecognitionSubscriptions] is [null] or the
  pair of listeners. *)
Record SpeechService := {
isSpeaking : bool;
isListening : bool;
isInitialized : bool;
speechQueue : list SpeechRequest;
currentRecognition : bool;
currentRecognitionSubscriptions : bool;
onSpeechEndCallback : option Callback;
onRecognitionResultCallback : option Callback;
onRecognitionErrorCallback : option Callback;
silenceTimeout : option TimerId;
silenceTimeoutDuration : N;
lastSpokenMessage : option jsstring }.

Definition constructor : SpeechService :=
{| isSpeaking := false;
   isListening := false;
   isInitialized := false;
   speechQueue := [];
   currentRecognition := false;
   currentRecognitionSubscriptions := false;
   onSpeechEndCallback := None;
   onRecognitionResultCallback := None;
   onRecognitionErrorCallback := None;
   silenceTimeout := None;
   silenceTimeoutDuration := 10000%N;
   lastSpokenMessage := None |}.

(** ** Suspended code

  The continuation of an [async] method after an [await], and the
  bodies of the [setTimeout] callbacks. [waiters] are the promises
  that settle when the utterance does: the promise returned by
  [speak], followed by those chained on it with
  [.then(resolve).catch(reject)]. *)
Inductive Task : Type :=
| SpeakDelay (t : jsstring) (o : Options) (waiters : list PromiseId)
  (* speak, after [await this.stopListening()] *)
| SpeakStart (t : jsstring) (o : Options) (waiters : list PromiseId)
  (* speak, after the 500 ms *)
| ListenTry (o : Options) (p : PromiseId)
  (* startListening, after the 800 ms *)
| ListenStart (o : Options) (p : PromiseId)
  (* startListening, after [await this.stopListening()] *)
| PostSpeech (waiters : list PromiseId)
  (* the 300 ms callback of [onDone] *)
| SilenceTimeout
  (* the callback of the silence timer *)
| DeliverResult (t : jsstring)
  (* the 0 ms callback of a final result *)
| CleanupRest (p : PromiseId).
  (* cleanup, after [await this.stopListening()] *)

Record Timer := { tid : TimerId; deadline : N; task : Task }.

Inductive Outcome : Type :=
| Resolved
| Rejected (e : EngineError).

(** What the service does to its collaborators, most recent first. *)
Inductive Output : Type :=
| TtsSpeak (u : UtteranceId) (t : jsstring) (o : Options)
| TtsStop
| TtsEnded (u : UtteranceId)
| SttStart (o : Options)
| SttStop
| SttAbort
| SpeechEnd (cb : Callback)
| RecognitionResult (cb : Callback) (t : jsstring)
| RecognitionErrorCb (cb : Callback) (e : RecognitionError).

(** The service in its environment: the clock and the pending timers,
  the pending microtasks, the utterances whose terminal callback the
  text-to-speech engine still owes, the settled promises, whether the
  recognition engine refuses to start, and the outputs so far. *)
Record World := {
svc : SpeechService;
now : N;
nextId : nat;
timers : list Timer;
micro : list Task;
live : list (UtteranceId * list PromiseId);
settled : list (PromiseId * Outcome);
sttFault : option EngineError;
trace : list Output }.

Definition boot : World :=
{| svc := constructor; now := 0%N; nextId := 0; timers := []; micro := [];
   live := []; settled := []; sttFault := None; trace := [] |}.

(** ** Field updates *)

Definition setSpeaking (b : bool) (s : SpeechService) : SpeechService :=
{| isSpeaking := b;
   isListening := isListening s;
   isInitialized := isInitialized s;
   speechQueue := speechQueue s;
   currentRecognition := currentRecognition s;
   currentRecognitionSubscriptions := currentRecognitionSubscriptions s;
   onSpeechEndCallback := onSpeechEndCallback s;
   onRecognitionResultCallback := onRecognitionResultCallback s;
   onRecognitionErrorCallback := onRecognitionErrorCallback s;
   silenceTimeout := silenceTimeout s;
   silenceTimeoutDuration := silenceTimeoutDuration s;
   lastSpokenMessage := lastSpokenMessage s |}.

Definition setListening (b : bool) (s : SpeechService) : SpeechService :=
{| isSpeaking := isSpeaking s;
   isListening := b;
   isInitialized := isInitialized s;
   speechQueue := speechQueue s;
   currentRecognition := currentRecognition s;
   currentRecognitionSubscriptions := currentRecognitionSubscriptions s;
   onSpeechEndCallback := onSpeechEndCallback s;
   onRecognitionResultCallback := onRecognitionResultCallback s;
   onRecognitionErrorCallback := onRecognitionErrorCallback s;
   silenceTimeout := silenceTimeout s;
   silenceTimeoutDuration := silenceTimeoutDuration s;
   lastSpokenMessage := lastSpokenMessage s |}.

Definition setQueue (q : list SpeechRequest) (s : SpeechService)
: SpeechService :=
{| isSpeaking := isSpeaking s;
   isListening := isListening s;
   isInitialized := isInitialized s;
   speechQueue := q;
   currentRecognition := currentRecognition s;
   currentRecognitionSubscriptions := currentRecognitionSubscriptions s;
   onSpeechEndCallback := onSpeechEndCallback s;
   onRecognitionResultCallback := onRecognitionResultCallback s;
   onRecognitionErrorCallback := onRecognitionErrorCallback s;
   silenceTimeout := silenceTimeout s;
   silenceTimeoutDuration := silenceTimeoutDuration s;
   lastSpokenMessage := lastSpokenMessage s |}.

Definition setRecognition (b : bool) (s : SpeechService) : SpeechService :=
{| isSpeaking := isSpeaking s;
   isListening := isListening s;
   isInitialized := isInitialized s;
   speechQueue := speechQueue s;
   currentRecognition := b;
   currentRecognitionSubscriptions := currentRecognitionSubscriptions s;
   onSpeechEndCallback := onSpeechEndCallback s;
   onRecognitionResultCallback := onRecognitionResultCallback s;
   onRecognitionErrorCallback := onRecognitionErrorCallback s;
   silenceTimeout := silenceTimeout s;
   silenceTimeoutDuration := silenceTimeoutDuration s;
   lastSpokenMessage := lastSpokenMessage s |}.

Definition setSubscriptions (b : bool) (s : SpeechService)
: SpeechService :=
{| isSpeaking := isSpeaking s;
   isListening := isListening s;
   isInitialized := isInitialized s;
   speechQueue := speechQueue s;
   currentRecognition := currentRecognition s;
   currentRecognitionSubscriptions := b;
   onSpeechEndCallback := onSpeechEndCallback s;
   onRecognitionResultCallback := onRecognitionResultCallback s;
   onRecognitionErrorCallback := onRecognitionErrorCallback s;
   silenceTimeout := silenceTimeout s;
   silenceTimeoutDuration := silenceTimeoutDuration s;
   lastSpokenMessage := lastSpokenMessage s |}.

Definition setCallbacks (e r x : option Callback) (s : SpeechService)
: SpeechService :=
{| isSpeaking := isSpeaking s;
   isListening := isListening s;
   isInitialized := isInitialized s;
   speechQueue := speechQueue s;
   currentRecognition := currentRecognition s;
   currentRecognitionSubscriptions := currentRecognitionSubscriptions s;
   onSpeechEndCallback := e;
   onRecognitionResultCallback := r;
   onRecognitionErrorCallback := x;
   silenceTimeout := silenceTimeout s;
   silenceTimeoutDuration := silenceTimeoutDuration s;
   lastSpokenMessage := lastSpokenMessage s |}.

Definition setSilenceTimeout (t : option TimerId) (s : SpeechService)
: SpeechService :=
{| isSpeaking := isSpeaking s;
   isListening := isListening s;
   isInitialized := isInitialized s;
   speechQueue := speechQueue s;
   currentRecognition := currentRecognition s;
   currentRecognitionSubscriptions := currentRecognitionSubscriptions s;
   onSpeechEndCallback := onSpeechEndCallback s;
   onRecognitionResultCallback := onRecognitionResultCallback s;
   onRecognitionErrorCallback := onRecognitionErrorCallback s;
   silenceTimeout := t;
   silenceTimeoutDuration := silenceTimeoutDuration s;
   lastSpokenMessage := lastSpokenMessage s |}.

Definition setLastSpoken (m : option jsstring) (s : SpeechService)
: SpeechService :=
{| isSpeaking := isSpeaking s;
   isListening := isListening s;
   isInitialized := isInitialized s;
   speechQueue := speechQueue s;
   currentRecognition := currentRecognition s;
   currentRecognitionSubscriptions := currentRecognitionSubscriptions s;
   onSpeechEndCallback := onSpeechEndCallback s;
   onRecognitionResultCallback := onRecognitionResultCallback s;
   onRecognitionErrorCallback := onRecognitionErrorCallback s;
   silenceTimeout := silenceTimeout s;
   silenceTimeoutDuration := silenceTimeoutDuration s;
   lastSpokenMessage := m |}.

(** [this.<field> = ...] *)
Definition this (f : SpeechService -> SpeechService) (w : World) : World :=
{| svc := f (svc w); now := now w; nextId := nextId w;
   timers := timers w; micro := micro w; live := live w;
   settled := settled w; sttFault := sttFault w; trace := trace w |}.

Definition emit (o : Output) (w : World) : World :=
{| svc := svc w; now := now w; nextId := nextId w;
   timers := timers w; micro := micro w; live := live w;
   settled := settled w; sttFault := sttFault w; trace := o :: trace w |}.

(** A fresh identifier is [nextId w]; [bump] consumes it. *)
Definition bump (w : World) : World :=
{| svc := svc w; now := now w; nextId := S (nextId w);
   timers := timers w; micro := micro w; live := live w;
   settled := settled w; sttFault := sttFault w; trace := trace w |}.

Definition withTimers (ts : list Timer) (w : World) : World :=
{| svc := svc w; now := now w; nextId := nextId w;
   timers := ts; micro := micro w; live := live w;
   settled := settled w; sttFault := sttFault w; trace := trace w |}.

Definition withMicro (ms : list Task) (w : World) : World :=
{| svc := svc w; now := now w; nextId := nextId w;
   timers := timers w; micro := ms; live := live w;
   settled := settled w; sttFault := sttFault w; trace := trace w |}.

Definition withLive (l : list (UtteranceId * list PromiseId)) (w : World)
: World :=
{| svc := svc w; now := now w; nextId := nextId w;
   timers := timers w; micro := micro w; live := l;
   settled := settled w; sttFault := sttFault w; trace := trace w |}.

Definition withSettled (l : list (PromiseId * Outcome)) (w : World)
: World :=
{| svc := svc w; now := now w; nextId := nextId w;
   timers := timers w; micro := micro w; live := live w;
   settled := l; sttFault := sttFault w; trace := trace w |}.

Definition withFault (f : option EngineError) (w : World) : World :=
{| svc := svc w; now := now w; nextId := nextId w;
   timers := timers w; micro := micro w; live := live w;
   settled := settled w; sttFault := f; trace := trace w |}.

Definition withNow (n : N) (w : World) : World :=
{| svc := svc w; now := n; nextId := nextId w;
   timers := timers w; micro := micro w; live := live w;
   settled := settled w; sttFault := sttFault w; trace := trace w |}.

(** ** Timers, microtasks and promises *)

(** [setTimeout(task, delay)]; the handle is the [nextId] before. *)
Definition setTimeout (k : Task) (delay : N) (w : World) : World :=
bump (withTimers
        (timers w ++
         [{| tid := nextId w; deadline := (now w + delay)%N; task := k |}])
        w).

Definition clearTimeout (id : TimerId) (w : World) : World :=
withTimers (filter (fun t => negb (tid t =? id)) (timers w)) w.

(** The continuation of an [await] on an already settled promise. *)
Definition await (k : Task) (w : World) : World :=
withMicro (micro w ++ [k]) w.

(** A promise settles once: later settlements are ignored. *)
Definition outcome (w : World) (p : PromiseId) : option Outcome :=
option_map snd (find (fun e => fst e =? p) (settled w)).

Definition settle1 (o : Outcome) (w : World) (p : PromiseId) : World :=
match outcome w p with
| Some _ => w
| None => withSettled ((p, o) :: settled w) w
end.

Definition settle (o : Outcome) (ps : list PromiseId) (w : World) : World :=
fold_left (settle1 o) ps w.

(** ** The methods of [SpeechService] *)

(** [value || fallback] on a string field *)
Definition orDefault (v : option jsstring) (d : string) : jsstring :=
match v with
| Some (c :: r) => c :: r
| Some [] | None => lit d
end.

Definition truthy (v : option jsstring) : bool :=
match v with
| Some (_ :: _) => true
| Some [] | None => false
end.

(** [if (this.silenceTimeout) { clearTimeout(...); this.silenceTimeout = null; }] *)
Definition clearSilence (w : World) : World :=
match silenceTimeout (svc w) with
| Some id => this (setSilenceTimeout None) (clearTimeout id w)
| None => w
end.

(** [stopListening] (lines 329-367): the subscriptions are removed and
  forgotten, the recognition is marked inactive. *)
Definition stopListening (w : World) : World :=
let w := clearSilence w in
let w :=
  if currentRecognition (svc w) then
    let w := emit SttStop w in
    let w := this (setSubscriptions false) w in
    this (setRecognition false) w
  else w in
this (setListening false) w.

(** [abortListening] (lines 372-410) *)
Definition abortListening (w : World) : World :=
let w :=
  if currentRecognition (svc w) then
    let w := emit SttAbort w in
    let w := this (setSubscriptions false) w in
    this (setRecognition false) w
  else w in
let w := clearSilence w in
this (setListening false) w.

(** [stopSpeaking] (lines 119-125) *)
Definition stopSpeaking (w : World) : World :=
if isSpeaking (svc w) then
  let w := emit TtsStop w in
  let w := this (setSpeaking false) w in
  this (setQueue []) w
else w.

(** [!text || text.trim() === ''] *)
Definition blank (t : jsstring) : bool :=
match t with
| [] => true
| _ :: _ => eqb (trim t) []
end.

(** [speak], lines 70-113: the flag is raised and the utterance handed
  to the engine, which owes it one of [onDone], [onStopped] and
  [onError]. *)
Definition speakStart (t : jsstring) (o : Options)
         (waiters : list PromiseId) (w : World) : World :=
let w := this (setSpeaking true) w in
let w := this (setLastSpoken (Some t)) w in
let u := nextId w in
let w := bump w in
let w := withLive (live w ++ [(u, waiters)]) w in
emit (TtsSpeak u t o) w.

(** [speak], lines 55-68 *)
Definition speakBody (t : jsstring) (o : Options)
         (waiters : list PromiseId) (w : World) : World :=
if blank t then settle Resolved waiters w
else if isSpeaking (svc w) then
  let w :=
    this (fun s =>
            setQueue (speechQueue s ++ [{| text := t; options := o |}]) s)
         w in
  settle Resolved waiters w
else if isListening (svc w) then
  let w := stopListening w in
  await (SpeakDelay t o waiters) w
else speakStart t o waiters w.

(** [if (this.onSpeechEndCallback) { this.onSpeechEndCallback(); }] *)
Definition notifySpeechEnd (w : World) : World :=
match onSpeechEndCallback (svc w) with
| Some cb => emit (SpeechEnd cb) w
| None => w
end.

(** The callback of the 300 ms timer of [onDone] (lines 83-95) *)
Definition postSpeech (waiters : list PromiseId) (w : World) : World :=
match speechQueue (svc w) with
| next :: queue' =>
    let w := this (setQueue queue') w in
    speakBody (text next) (options next) waiters w
| [] =>
    let w := notifySpeechEnd w in
    settle Resolved waiters w
end.

(** [startListening], lines 152-323: the flag is raised, the silence
  timer armed, the listeners installed and the engine started; when
  the engine refuses, the three nested [catch] blocks run. *)
Definition listenStart (o : Options) (p : PromiseId) (w : World) : World :=
let w := this (setListening true) w in
let w :=
  match silenceTimeout (svc w) with
  | Some id => clearTimeout id w
  | None => w
  end in
let id := nextId w in
let w := setTimeout SilenceTimeout (silenceTimeoutDuration (svc w)) w in
let w := this (setSilenceTimeout (Some id)) w in
let w := this (setSubscriptions false) w in
let w := this (setSubscriptions true) w in
match sttFault w with
| None =>
    let w := emit (SttStart o) w in
    let w := this (setRecognition true) w in
    settle Resolved [p] w
| Some startError =>
    (* catch (startError) *)
    let w := this (setSubscriptions false) w in
    let w := this (setListening false) w in
    (* catch (apiError) *)
    let w := this (setListening false) w in
    let w :=
      match onRecognitionErrorCallback (svc w) with
      | Some cb =>
          emit (RecognitionErrorCb cb
                  {| type := Some (lit "unknown");
                     message :=
                       Some (orDefault (err_message startError)
                                       "Failed to start recognition") |})
               w
      | None => w
      end in
    (* catch (error) *)
    let w := this (setListening false) w in
    let w :=
      match onRecognitionErrorCallback (svc w) with
      | Some cb =>
          emit (RecognitionErrorCb cb
                  {| type := None;
                     message := err_message startError |})
               w
      | None => w
      end in
    settle Resolved [p] w
end.

(** [startListening], lines 146-150 *)
Definition listenTry (o : Options) (p : PromiseId) (w : World) : World :=
if currentRecognition (svc w) then
  let w := stopListening w in
  await (ListenStart o p) w
else listenStart o p w.

(** [startListening], lines 131-144 *)
Definition startListening (o : Options) (p : PromiseId) (w : World)
: World :=
if isListening (svc w) then settle Resolved [p] w
else if isSpeaking (svc w) then
  let w := stopSpeaking w in
  setTimeout (ListenTry o p) 800 w
else listenTry o p w.

(** [cleanup], lines 446-449: what follows [await this.stopListening()] *)
Definition cleanupRest (p : PromiseId) (w : World) : World :=
let w := this (setCallbacks None None None) w in
let w := this (setLastSpoken None) w in
settle Resolved [p] w.

(** [cleanup], lines 443-445: the callbacks and the last message are
  dropped one microtask after the engines are stopped. *)
Definition cleanup (p : PromiseId) (w : World) : World :=
let w := stopSpeaking w in
let w := stopListening w in
await (CleanupRest p) w.

(** ** The callbacks handed to the engines *)

(** [results[0]] of [event.results || [event]] *)
Definition firstResult (e : SttEvent) : option SttResult :=
match results e with
| Some rs => hd_error rs
| None => Some (own e)
end.

(** [firstResult.transcript || firstResult.text || firstResult], when it
  is a string *)
Definition transcriptOf (r : SttResult) : option jsstring :=
if truthy (transcript r) then transcript r
else if truthy (alt_text r) then alt_text r
else None.

Definition finalOf (e : SttEvent) (r : SttResult) : bool :=
match isFinal (own e) with
| Some b => b
| None =>
    match isFinal r with
    | Some b => b
    | None => true
    end
end.

(** The 'result' listener (lines 199-256); [None] is a falsy event. *)
Definition onResult (event : option SttEvent) (w : World) : World :=
let w := clearSilence w in
match event with
| None => w
| Some e =>
    match firstResult e with
    | None => w
    | Some r =>
        match transcriptOf r, onRecognitionResultCallback (svc w) with
        | Some t, Some _ =>
            if eqb (trim t) [] then w
            else if finalOf e r then
              let w := this (setListening false) w in
              setTimeout (DeliverResult (trim t)) 0 w
            else w
        | _, _ => w
        end
    end
end.

(** The 'error' listener (lines 258-272) *)
Definition onError (e : EngineError) (w : World) : World :=
let w := clearSilence w in
let w := this (setListening false) w in
match onRecognitionErrorCallback (svc w) with
| Some cb =>
    emit (RecognitionErrorCb cb
            {| type := Some (orDefault (err_error e) "unknown");
               message :=
                 Some (orDefault (err_message e)
                                 "Speech recognition error") |})
         w
| None => w
end.

Definition silence_timeout : RecognitionError :=
{| type := Some (lit "silence_timeout");
   message := Some (lit "No input detected. Please say a command.") |}.

(** The callback of the silence timer (lines 160-167) *)
Definition onSilence (w : World) : World :=
match isListening (svc w), onRecognitionErrorCallback (svc w) with
| true, Some cb => emit (RecognitionErrorCb cb silence_timeout) w
| _, _ => w
end.

(** The 0 ms callback of a final result (lines 228-236) *)
Definition deliverResult (t : jsstring) (w : World) : World :=
match onRecognitionResultCallback (svc w) with
| Some cb => emit (RecognitionResult cb t) w
| None => w
end.

(** [onDone] (lines 79-96) *)
Definition onDone (waiters : list PromiseId) (w : World) : World :=
let w := this (setSpeaking false) w in
setTimeout (PostSpeech waiters) 300 w.

(** [onStopped] (lines 97-103) *)
Definition onStopped (waiters : list PromiseId) (w : World) : World :=
let w := this (setSpeaking false) w in
let w := notifySpeechEnd w in
settle Resolved waiters w.

(** [onError] of [Speech.speak] (lines 104-111) *)
Definition onSpeakError (e : EngineError) (waiters : list PromiseId)
         (w : World) : World :=
let w := this (setSpeaking false) w in
let w := notifySpeechEnd w in
settle (Rejected e) waiters w.

(** ** The event loop

  What can happen to the service: a caller invokes a public method
  (from a task, or from a microtask while others are still pending), a
  pending microtask runs, the earliest timer fires, or an engine calls
  back. Timers and engine callbacks are tasks: the pending microtasks
  run before them. A callback of the application is recorded in the
  trace; what it calls in turn is a later event. *)
Inductive Event : Type :=
| CallSpeak (t : jsstring) (o : Options)
| CallStopSpeaking
| CallStartListening (o : Options)
| CallStopListening
| CallAbortListening
| CallCleanup
| CallSetOnSpeechEnd (cb : option Callback)
| CallSetOnRecognitionResult (cb : option Callback)
| CallSetOnRecognitionError (cb : option Callback)
| Microtask
| Tick
| TtsDone (u : UtteranceId)
| TtsStopped (u : UtteranceId)
| TtsError (u : UtteranceId) (e : EngineError)
| SttResultEv (e : option SttEvent)
| SttErrorEv (e : EngineError)
| EngineFault (f : option EngineError).

Definition runTask (k : Task) (w : World) : World :=
match k with
| SpeakDelay t o waiters => setTimeout (SpeakStart t o waiters) 500 w
| SpeakStart t o waiters => speakStart t o waiters w
| ListenTry o p => listenTry o p w
| ListenStart o p => listenStart o p w
| PostSpeech waiters => postSpeech waiters w
| SilenceTimeout => onSilence w
| DeliverResult t => deliverResult t w
| CleanupRest p => cleanupRest p w
end.

(** The microtask checkpoint: the pending continuations run in order
  (none of them awaits again). *)
Definition drain (w : World) : World :=
fold_left (fun w k => runTask k w) (micro w) (withMicro [] w).

(** The pending timer that fires next: the earliest deadline, the
  oldest timer among equal deadlines. *)
Fixpoint earliest (ts : list Timer) : option Timer :=
match ts with
| [] => None
| t :: ts' =>
    match earliest ts' with
    | Some u => if (deadline u <? deadline t)%N then Some u else Some t
    | None => Some t
    end
end.

Definition fire (w : World) : World :=
match earliest (timers w) with
| Some t =>
    let w := clearTimeout (tid t) w in
    let w := withNow (N.max (now w) (deadline t)) w in
    runTask (task t) w
| None => w
end.

(** The terminal callback of a live utterance; the engine owes none to
  an utterance it does not hold. *)
Definition ended (u : UtteranceId)
         (k : list PromiseId -> World -> World) (w : World) : World :=
match find (fun e => fst e =? u) (live w) with
| Some (_, waiters) =>
    let w := withLive (filter (fun e => negb (fst e =? u)) (live w)) w in
    k waiters (emit (TtsEnded u) w)
| None => w
end.

(** The recognition engine calls the listeners while they are installed. *)
Definition heard (k : World -> World) (w : World) : World :=
if currentRecognitionSubscriptions (svc w) then k w else w.

Definition step (w : World) (e : Event) : World :=
match e with
| CallSpeak t o => speakBody t o [nextId w] (bump w)
| CallStopSpeaking => stopSpeaking w
| CallStartListening o => startListening o (nextId w) (bump w)
| CallStopListening => settle Resolved [nextId w] (stopListening (bump w))
| CallAbortListening => settle Resolved [nextId w] (abortListening (bump w))
| CallCleanup => cleanup (nextId w) (bump w)
| CallSetOnSpeechEnd cb =>
    this (fun s => setCallbacks cb (onRecognitionResultCallback s)
                                (onRecognitionErrorCallback s) s) w
| CallSetOnRecognitionResult cb =>
    this (fun s => setCallbacks (onSpeechEndCallback s) cb
                                (onRecognitionErrorCallback s) s) w
| CallSetOnRecognitionError cb =>
    this (fun s => setCallbacks (onSpeechEndCallback s)
                                (onRecognitionResultCallback s) cb s) w
| Microtask =>
    match micro w with
    | k :: ks => runTask k (withMicro ks w)
    | [] => w
    end
| Tick => fire (drain w)
| TtsDone u => ended u onDone (drain w)
| TtsStopped u => ended u onStopped (drain w)
| TtsError u e => ended u (onSpeakError e) (drain w)
| SttResultEv e => heard (onResult e) (drain w)
| SttErrorEv e => heard (onError e) (drain w)
| EngineFault f => withFault f w
end.

(** The world after a sequence of events. *)
Definition run (w : World) (es : list Event) : World := fold_left step es w.

(** ** Observations *)

(** The promise returned by the next asynchronous call. *)
Definition nextPromise (w : World) : PromiseId := nextId w.

(** What [await p] yields to the caller once [p] is settled: [inl tt]
  when the call returns, [inr e] when it throws [e]. *)
Definition awaited (w : World) (p : PromiseId)
: option (unit + EngineError) :=
match outcome w p with
| Some Resolved => Some (inl tt)
| Some (Rejected e) => Some (inr e)
| None => None
end.

(** The texts handed to the text-to-speech engine, oldest first. *)
Fixpoint spoken (tr : list Output) : list jsstring :=
match tr with
| [] => []
| TtsSpeak _ t _ :: tr' => spoken tr' ++ [t]
| _ :: tr' => spoken tr'
end.

Definition isSilenceTimeout (o : Output) : bool :=
match o with
| RecognitionErrorCb _ e =>
    match type e with
    | Some t => eqb t (lit "silence_timeout")
    | None => false
    end
| _ => false
end.

(** How many [silence_timeout] errors the application has received. *)
Definition silenceErrors (w : World) : nat :=
length (filter isSilenceTimeout (trace w)).

(** The turn state as a caller observes it. *)
Inductive TurnState : Type := Idle | Speaking | Listening | Both.

Definition turnState (w : World) : TurnState :=
match isSpeaking (svc w), isListening (svc w) with
| false, false => Idle
| true, false => Speaking
| false, true => Listening
| true, true => Both
end.

(** [getLastSpokenMessage] (lines 436-438) *)
Definition getLastSpokenMessage (w : World) : option jsstring :=
  lastSpokenMessage (svc w).

End Speech.

(* ===================================================================== *)
(** * The screen context *)
(* ===================================================================== *)

Module ScreenContext.
Import JsString.

(** [currentScreenContext] is ["HOME"], ["EXAM"] or [null]. *)
Record ScreenContextService := {
currentScreenContext : option jsstring;
listeners : list nat }.

Definition constructor : ScreenContextService :=
{| currentScreenContext := None; listeners := [] |}.

Definition HOME : option jsstring := Some (lit "HOME").
Definition EXAM : option jsstring := Some (lit "EXAM").

Definition sameContext (a b : option jsstring) : bool :=
match a, b with
| Some x, Some y => eqb x y
| None, None => true
| _, _ => false
end.

(** [setContext]: an unknown context is refused; the listeners are told
  the new and the previous context. *)
Definition setContext (context : option jsstring)
         (s : ScreenContextService)
: ScreenContextService *
  list (nat * option jsstring * option jsstring) :=
if sameContext context HOME || sameContext context EXAM
   || sameContext context None
then
  let previousContext := currentScreenContext s in
  ({| currentScreenContext := context; listeners := listeners s |},
   map (fun listener => (listener, context, previousContext))
       (listeners s))
else (s, []).

Definition getContext (s : ScreenContextService) : option jsstring :=
currentScreenContext s.

Definition isCommandValid (command : jsstring) (context : option jsstring)
         (s : ScreenContextService) : bool :=
sameContext (currentScreenContext s) context.

Definition subscribe (listener : nat) (s : ScreenContextService)
: ScreenContextService :=
{| currentScreenContext := currentScreenContext s;
   listeners := listeners s ++ [listener] |}.

Definition reset (s : ScreenContextService) := setContext None s.

(** [this.listeners.indexOf(listener)] *)
Fixpoint indexOf (listener : nat) (ls : list nat) : option nat :=
  match ls with
  | [] => None
  | l :: ls' =>
      if l =? listener then Some 0
      else option_map S (indexOf listener ls')
  end.

(** [this.listeners.splice(index, 1)] *)
Definition splice1 (index : nat) (ls : list nat) : list nat :=
  firstn index ls ++ skipn (S index) ls.

(** The function returned by [subscribe] (lines 588-593) *)
Definition unsubscribe (listener : nat) (s : ScreenContextService)
  : ScreenContextService :=
  match indexOf listener (listeners s) with
  | Some index =>
      {| currentScreenContext := currentScreenContext s;
         listeners := splice1 index (listeners s) |}
  | None => s
  end.

End ScreenContext.

(* ===================================================================== *)
(** * Dialog code: effects on the collaborators *)
(* ===================================================================== *)

Module Dialog.
Import JsString.

(** A recorded answer: [{ questionId, answer }] (the time stamp is left
  out). *)
Record Answer := { questionId : jsstring; answer : jsstring }.

(** The callbacks the screens hand to [setTimeout]. *)
Inductive Later : Type :=
| ReadCurrentQuestion
  (* [readCurrentQuestion()] *)
| RereadThenListen
  (* [readCurrentQuestion()], then after 1000 ms [startListening()]
     if the context is EXAM and the service is idle *)
| ListenIfContext (context : option jsstring)
  (* [startListening()] if this is the context *)
| ListenIfNotSpeaking
  (* [startListening()] if the context is EXAM and nothing is spoken *)
| ListenIfIdle
  (* [startListening()] if the context is EXAM and the service idle *)
| NavigateHome.
  (* [navigation.navigate("HomePage")] *)

(** What a screen asks of its collaborators, in order. *)
Inductive Effect : Type :=
| SpeechStopListening
| SpeechStopSpeaking
| SpeechSpeak (t : jsstring)
| SpeechStartListening
| SpeechCleanup
| Wait (ms : nat)
| SetTimeout (k : Later) (ms : nat)
| SubmitExam (examId uid : jsstring) (answers : list Answer)
| Navigate (screen : string) (examId : jsstring)
| GoBack
| Notify (listener : nat) (context previousContext : option jsstring).

(** What the collaborators answer: which spoken texts the speech
  service rejects, whether the submission sink rejects, the summary
  spoken after grading, whether an exam may be attempted (and the
  message otherwise; [None] when the check itself fails), and the
  last message the speech service spoke. *)
Record Env := {
ttsFails : jsstring -> bool;
sinkFails : bool;
scoresMessage : list Answer -> jsstring;
canAttemptExam : jsstring -> jsstring -> option (bool * option jsstring);
getLastSpokenMessage : option jsstring }.

(** An [async] function over the state [S] of a screen: the state
  after, the effects in order, and the value returned, [None] when
  the function threw. *)
Section Async.
Variable S : Type.

Record Ran (A : Type) := { after : S; did : list Effect; value : option A }.

Definition M (A : Type) := S -> Ran A.

Definition ret (A : Type) (a : A) : M A :=
  fun s => {| after := s; did := []; value := Some a |}.

Definition bind (A B : Type) (m : M A) (f : A -> M B) : M B :=
  fun s =>
match m s with
| {| after := s1; did := e1; value := Some a |} =>
    match f a s1 with
    | {| after := s2; did := e2; value := v |} =>
        {| after := s2; did := e1 ++ e2; value := v |}
    end
| {| after := s1; did := e1; value := None |} =>
    {| after := s1; did := e1; value := None |}
end.

(** [try { m } catch { h }] *)
Definition catch (A : Type) (m : M A) (h : M A) : M A :=
  fun s =>
match m s with
| {| after := s1; did := e1; value := Some a |} =>
    {| after := s1; did := e1; value := Some a |}
| {| after := s1; did := e1; value := None |} =>
    match h s1 with
    | {| after := s2; did := e2; value := v |} =>
        {| after := s2; did := e1 ++ e2; value := v |}
    end
end.

(** [try { m } finally { f }] *)
Definition finally (A : Type) (m : M A) (f : M unit) : M A :=
  fun s =>
match m s with
| {| after := s1; did := e1; value := v |} =>
    match f s1 with
    | {| after := s2; did := e2; value := Some _ |} =>
        {| after := s2; did := e1 ++ e2; value := v |}
    | {| after := s2; did := e2; value := None |} =>
        {| after := s2; did := e1 ++ e2; value := None |}
    end
end.

Definition get : M S :=
  fun s => {| after := s; did := []; value := Some s |}.

Definition modify (f : S -> S) : M unit :=
  fun s => {| after := f s; did := []; value := Some tt |}.

Definition perform (e : Effect) : M unit :=
  fun s => {| after := s; did := [e]; value := Some tt |}.

Definition performAll (es : list Effect) : M unit :=
  fun s => {| after := s; did := es; value := Some tt |}.

(** [await speechService.speak(t)] *)
Definition speak (env : Env) (t : jsstring) : M unit :=
  fun s => {| after := s; did := [SpeechSpeak t];
          value := if ttsFails env t then None else Some tt |}.

End Async.

Arguments ret {S A} a.
Arguments bind {S A B} m f.
Arguments catch {S A} m h.
Arguments finally {S A} m f.
Arguments get {S}.
Arguments modify {S} f.
Arguments perform {S} e.
Arguments performAll {S} es.
Arguments speak {S} env t.

Declare Scope async_scope.
Delimit Scope async_scope with async.
Notation "x <- m ;; k" := (bind m (fun x => k))
(at level 61, m at next level, right associativity) : async_scope.
Notation "m ;; k" := (bind m (fun _ => k))
(at level 61, right associativity) : async_scope.

(** [eligibility.message || "You cannot start this exam."] *)
Definition orElseText (m : option jsstring) : jsstring :=
match m with
| Some (c :: r) => c :: r
| Some [] | None => lit "You cannot start this exam."
end.

(** Template strings *)
Definition cat (parts : list jsstring) : jsstring := concat parts.

Definition ofNat (n : nat) : jsstring :=
lit (NilEmpty.string_of_uint (Nat.to_uint n)).

(** [parseInt(digits, 10)] on a run of decimal digits *)
Definition parseInt (digits : jsstring) : nat :=
fold_left (fun n c => 10 * n + (code c - 48)) digits 0.

End Dialog.

(* ===================================================================== *)
(** * The exam screen *)
(* ===================================================================== *)

Module ExamPage.
Import JsString ScreenContext Dialog ExamCommand.
Local Open Scope async_scope.

Inductive QuestionType : Type := MultipleChoice | Written.

(** A question as [transformQuestions] leaves it: only a
  multiple-choice question has [options]. *)
Record Question := {
id : jsstring;
question : jsstring;
qtype : QuestionType;
options : option (list jsstring) }.

Record Exam := {
examId : jsstring;
title : jsstring;
questions : list Question }.

(** The state and the refs of the component that the voice code reads
  and writes, with the process-wide screen context. *)
Record Page := {
screenContextService : ScreenContextService;
exam : option Exam;
uid : option jsstring;
submitting : bool;
timeRemaining : nat;
currentQuestionIndexRef : nat;
totalQuestionsRef : nat;
answersRef : list Answer;
isProcessingCommandRef : bool;
isWaitingForConfirmationRef : bool }.

Definition setScreenContext (c : ScreenContextService) (p : Page) : Page :=
{| screenContextService := c; exam := exam p; uid := uid p;
   submitting := submitting p; timeRemaining := timeRemaining p;
   currentQuestionIndexRef := currentQuestionIndexRef p;
   totalQuestionsRef := totalQuestionsRef p; answersRef := answersRef p;
   isProcessingCommandRef := isProcessingCommandRef p;
   isWaitingForConfirmationRef := isWaitingForConfirmationRef p |}.

Definition setSubmitting (b : bool) (p : Page) : Page :=
{| screenContextService := screenContextService p; exam := exam p;
   uid := uid p; submitting := b; timeRemaining := timeRemaining p;
   currentQuestionIndexRef := currentQuestionIndexRef p;
   totalQuestionsRef := totalQuestionsRef p; answersRef := answersRef p;
   isProcessingCommandRef := isProcessingCommandRef p;
   isWaitingForConfirmationRef := isWaitingForConfirmationRef p |}.

Definition setTimeRemaining (n : nat) (p : Page) : Page :=
{| screenContextService := screenContextService p; exam := exam p;
   uid := uid p; submitting := submitting p; timeRemaining := n;
   currentQuestionIndexRef := currentQuestionIndexRef p;
   totalQuestionsRef := totalQuestionsRef p; answersRef := answersRef p;
   isProcessingCommandRef := isProcessingCommandRef p;
   isWaitingForConfirmationRef := isWaitingForConfirmationRef p |}.

Definition setCurrentQuestionIndex (n : nat) (p : Page) : Page :=
{| screenContextService := screenContextService p; exam := exam p;
   uid := uid p; submitting := submitting p;
   timeRemaining := timeRemaining p;
   currentQuestionIndexRef := n;
   totalQuestionsRef := totalQuestionsRef p; answersRef := answersRef p;
   isProcessingCommandRef := isProcessingCommandRef p;
   isWaitingForConfirmationRef := isWaitingForConfirmationRef p |}.

Definition setAnswers (a : list Answer) (p : Page) : Page :=
{| screenContextService := screenContextService p; exam := exam p;
   uid := uid p; submitting := submitting p;
   timeRemaining := timeRemaining p;
   currentQuestionIndexRef := currentQuestionIndexRef p;
   totalQuestionsRef := totalQuestionsRef p; answersRef := a;
   isProcessingCommandRef := isProcessingCommandRef p;
   isWaitingForConfirmationRef := isWaitingForConfirmationRef p |}.

Definition setProcessing (b : bool) (p : Page) : Page :=
{| screenContextService := screenContextService p; exam := exam p;
   uid := uid p; submitting := submitting p;
   timeRemaining := timeRemaining p;
   currentQuestionIndexRef := currentQuestionIndexRef p;
   totalQuestionsRef := totalQuestionsRef p; answersRef := answersRef p;
   isProcessingCommandRef := b;
   isWaitingForConfirmationRef := isWaitingForConfirmationRef p |}.

Definition setWaiting (b : bool) (p : Page) : Page :=
{| screenContextService := screenContextService p; exam := exam p;
   uid := uid p; submitting := submitting p;
   timeRemaining := timeRemaining p;
   currentQuestionIndexRef := currentQuestionIndexRef p;
   totalQuestionsRef := totalQuestionsRef p; answersRef := answersRef p;
   isProcessingCommandRef := isProcessingCommandRef p;
   isWaitingForConfirmationRef := b |}.

(** [screenContextService.setContext(c)] *)
Definition changeContext (c : option jsstring) : M Page unit :=
p <- get ;;
match setContext c (screenContextService p) with
| (service, notes) =>
    modify (setScreenContext service) ;;
    performAll (map (fun n => Notify (fst (fst n)) (snd (fst n)) (snd n))
                    notes)
end.

(** [currentExam?.questions?.[currentIndex]] *)
Definition currentQuestion (p : Page) : option Question :=
match exam p with
| Some e => nth_error (questions e) (currentQuestionIndexRef p)
| None => None
end.

(** [totalQuestionsRef.current || currentExam?.questions?.length || 0] *)
Definition totalQuestions (p : Page) : nat :=
match totalQuestionsRef p with
| S n => S n
| O =>
    match exam p with
    | Some e => length (questions e)
    | None => 0
    end
end.

(** [currentIndex === totalQuestions - 1] *)
Definition isLastQuestion (p : Page) : bool :=
totalQuestions p =? currentQuestionIndexRef p + 1.

(** [user?.uid], when truthy *)
Definition userId (p : Page) : option jsstring :=
match uid p with
| Some (c :: r) => Some (c :: r)
| Some [] | None => None
end.

(** [saveAnswer] (lines 429-470): the answer of the current question is
  replaced by the trimmed text, an empty one is refused. *)
Definition saveAnswer (a : jsstring) (p : Page) : Page :=
match currentQuestion p with
| None => p
| Some q =>
    let trimmedAnswer := trim a in
    match trimmedAnswer with
    | [] => p
    | _ :: _ =>
        let filtered :=
          filter (fun entry => negb (eqb (questionId entry) (id q)))
                 (answersRef p) in
        setAnswers
          (filtered ++ [{| questionId := id q; answer := trimmedAnswer |}])
          p
    end
end.

(** [getCurrentAnswer] (lines 421-427), on the answers the ref holds *)
Definition getCurrentAnswer (p : Page) : jsstring :=
  match currentQuestion p with
  | None => []
  | Some q =>
      match find (fun entry => eqb (questionId entry) (id q))
                 (answersRef p) with
      | Some entry => answer entry
      | None => []
      end
  end.

Section Handlers.
Variable env : Env.

(** [String.fromCharCode(65 + index)] *)
Definition letter (index : nat) : jsstring := [ascii_of_nat (65 + index)].

(** The loop over the options of [readCurrentQuestion] *)
Fixpoint readOptions (index : nat) (opts : list jsstring)
  : M Page unit :=
  match opts with
  | [] => ret tt
  | o :: opts' =>
  speak env (cat [lit "Option "; letter index; lit ": "; o; lit ". "]) ;;
  match opts' with
  | [] => ret tt
  | _ :: _ => perform (Wait 200)
  end ;;
  readOptions (S index) opts'
  end.

(** [readCurrentQuestion] (lines 581-627) *)
Definition readCurrentQuestion : M Page unit :=
  p <- get ;;
  match currentQuestion p with
  | None => ret tt
  | Some q =>
  catch
    (speak env (cat [lit "Question ";
                     ofNat (currentQuestionIndexRef p + 1);
                     lit ". "; question q; lit ". "]) ;;
     perform (Wait 300) ;;
     match qtype q, options q with
     | MultipleChoice, Some (o :: opts) => readOptions 0 (o :: opts)
     | _, _ => ret tt
     end)
    (ret tt)
  end.

(** [handleNextQuestion] (lines 484-540) *)
Definition handleNextQuestion : M Page unit :=
  p <- get ;;
  match exam p with
  | None => ret tt
  | Some _ =>
  if totalQuestions p =? 0 then ret tt
  else if currentQuestionIndexRef p + 1 <? totalQuestions p then
    modify (setCurrentQuestionIndex (currentQuestionIndexRef p + 1)) ;;
    perform (SetTimeout ReadCurrentQuestion 300)
  else readCurrentQuestion
  end.

(** [handlePreviousQuestion] (lines 542-576) *)
Definition handlePreviousQuestion : M Page unit :=
  p <- get ;;
  match currentQuestionIndexRef p with
  | S prevIndex =>
  modify (setCurrentQuestionIndex prevIndex) ;;
  perform (SetTimeout ReadCurrentQuestion 300)
  | O => speak env (lit "You are already on the first question.")
  end.

(** [submitExamAnswers] (lines 243-364); the research metrics are left
out. *)
Definition submitExamAnswers : M Page unit :=
  p <- get ;;
  match exam p, userId p with
  | Some e, Some u =>
  modify (setSubmitting true) ;;
  modify (setWaiting false) ;;
  catch
    (perform SpeechStopListening ;;
     perform SpeechStopSpeaking ;;
     p <- get ;;
     let latestAnswers := answersRef p in
     perform (SubmitExam (examId e) u latestAnswers) ;;
     (if sinkFails env
      then (fun s => {| after := s; did := []; value := None |})
      else ret tt) ;;
     speak env (lit "Your exam has been submitted successfully.") ;;
     speak env (scoresMessage env latestAnswers) ;;
     changeContext HOME ;;
     perform (SetTimeout NavigateHome 1000))
    (speak env (lit "Failed to submit exam. Please try again.") ;;
     modify (setSubmitting false))
  | _, _ => ret tt
  end.

(** [handleAutoSubmit] (lines 366-369) *)
Definition handleAutoSubmit : M Page unit := submitExamAnswers.

(** [handleSubmitCommand] (lines 899-915) *)
Definition handleSubmitCommand : M Page unit :=
  modify (setWaiting true) ;;
  speak env (lit "Are you sure you want to submit the exam? Say yes to confirm or no to cancel.") ;;
  perform (SetTimeout ListenIfIdle 1000).

(** [handleExitCommand] (lines 918-923) *)
Definition handleExitCommand : M Page unit :=
  speak env (lit "Exiting exam.") ;;
  perform SpeechCleanup ;;
  changeContext HOME ;;
  perform GoBack.

(** The answer of a multiple-choice question (lines 756-821) *)
Definition selectOption (selectedLetter : jsstring) (opts : list jsstring)
  : M Page unit :=
  let optionIndex := optionIndex selectedLetter in
  match nth_error opts optionIndex with
  | Some selectedOption =>
  modify (saveAnswer selectedOption) ;;
  p <- get ;;
  (if isLastQuestion p then
     speak env (cat [lit "Option "; selectedLetter; lit " selected: ";
                     selectedOption;
                     lit ". This is the last question. Say submit to finish the exam."])
   else
     speak env (cat [lit "Option "; selectedLetter; lit " selected: ";
                     selectedOption;
                     lit ". Say next question to continue."])) ;;
  modify (setProcessing false) ;;
  perform (SetTimeout ListenIfNotSpeaking 1500)
  | None =>
  speak env (lit "Invalid option. Please choose A, B, C, or D.") ;;
  modify (setProcessing false) ;;
  perform (SetTimeout ListenIfNotSpeaking 1500)
  end.

(** The navigation and control commands (lines 832-868) *)
Definition navigate (command : jsstring) : M Page unit :=
  p <- get ;;
  if includes (lit "next") command then
if isLastQuestion p then
  speak env (lit "You are on the last question. Please select an answer, then say submit to finish the exam.")
else handleNextQuestion
  else if includes (lit "previous") command
      || includes (lit "back") command then
handlePreviousQuestion
  else if includes (lit "repeat") command
      || includes (lit "read") command
      || includes (lit "again") command then
readCurrentQuestion
  else if includes (lit "submit") command
      || includes (lit "finish") command then
handleSubmitCommand
  else if includes (lit "exit") command
      || includes (lit "quit") command
      || includes (lit "leave") command then
handleExitCommand
  else
speak env (lit "Sorry, I did not understand that command. Please try again.").

(** The [try] block of [handleVoiceCommand] (lines 702-868) *)
Definition interpret (command : jsstring) : M Page unit :=
  perform SpeechStopListening ;;
  p <- get ;;
  match currentQuestion p with
  | Some {| qtype := MultipleChoice; options := Some opts |} =>
  match selectLetter command with
  | Some (c :: r) => selectOption (c :: r) opts
  | Some [] | None => navigate command
  end
  | _ => navigate command
  end.

(** [handleVoiceCommand] from line 700 on: the guard is taken, the
[try] block runs, [catch] apologises, [finally] releases the guard
and re-opens listening unless a confirmation is awaited. *)
Definition processCommand (command : jsstring) : M Page unit :=
  modify (setProcessing true) ;;
  finally
(catch (interpret command)
       (speak env (lit "Sorry, an error occurred. Please try again.")))
(modify (setProcessing false) ;;
 p <- get ;;
 if isWaitingForConfirmationRef p then ret tt
 else perform (SetTimeout (ListenIfContext EXAM) 500)).

(** The confirmed submission (lines 666-671) in its two parts: the
handler is suspended at [await speechService.speak("Submitting exam.")]
while the text is spoken, the confirmation flag still raised, and
resumes when the speech has ended; what the page runs in between (a
tick of the countdown, say) finds the state the first part has left. *)
Definition confirmSubmit : M Page unit :=
  modify (setProcessing true) ;;
  perform SpeechStopListening ;;
  speak env (lit "Submitting exam.").

Definition confirmSubmitResumed : M Page unit :=
  modify (setWaiting false) ;;
  submitExamAnswers.

(** [handleVoiceCommand] (lines 630-896) *)
Definition handleVoiceCommand (transcript : jsstring) : M Page unit :=
  p <- get ;;
  if isProcessingCommandRef p then ret tt
  else
match transcript with
| [] => ret tt
| _ :: _ =>
    let command := trim (toLowerCase transcript) in
    if negb (sameContext (getContext (screenContextService p)) EXAM)
    then ret tt
    else if isWaitingForConfirmationRef p
            && eqb command (lit "yes") then
      confirmSubmit ;;
      confirmSubmitResumed
    else if isWaitingForConfirmationRef p
            && eqb command (lit "no") then
      modify (setProcessing true) ;;
      perform SpeechStopListening ;;
      speak env (lit "Returning to current question.") ;;
      modify (setWaiting false) ;;
      perform (SetTimeout RereadThenListen 500) ;;
      modify (setProcessing false)
    else processCommand command
end.

(** The countdown (lines 389-406): the interval runs while an exam is
loaded, time remains and nothing is being submitted; a tick that
finds at most one second left starts the submission, without
awaiting it, and leaves zero. *)
Definition countdownRuns (p : Page) : bool :=
  match exam p with
  | Some _ => (0 <? timeRemaining p) && negb (submitting p)
  | None => false
  end.

Definition tick : M Page unit :=
  p <- get ;;
  if countdownRuns p then
if timeRemaining p <=? 1 then
  (fun s =>
     match handleAutoSubmit s with
     | {| after := s1; did := e1; value := _ |} =>
         {| after := setTimeRemaining 0 s1; did := e1; value := Some tt |}
     end)
else modify (setTimeRemaining (timeRemaining p - 1))
  else ret tt.

End Handlers.

(** How often the submission sink is called. *)
Definition isSubmit (e : Effect) : bool :=
match e with
| SubmitExam _ _ _ => true
| _ => false
end.

Definition submissions (es : list Effect) : nat :=
length (filter isSubmit es).



End ExamPage.

(* ===================================================================== *)
(** * The home screen *)
(* ===================================================================== *)

Module HomePage.
Import JsString Regex ScreenContext Dialog.
Local Open Scope async_scope.

Record ExamInfo := { examId : jsstring; title : jsstring }.

Record Page := {
screenContextService : ScreenContextService;
examsRef : list ExamInfo;
uid : option jsstring;
isProcessingCommandRef : bool }.

Definition setScreenContext (c : ScreenContextService) (p : Page) : Page :=
{| screenContextService := c; examsRef := examsRef p; uid := uid p;
   isProcessingCommandRef := isProcessingCommandRef p |}.

Definition setProcessing (b : bool) (p : Page) : Page :=
{| screenContextService := screenContextService p;
   examsRef := examsRef p; uid := uid p;
   isProcessingCommandRef := b |}.

Definition changeContext (c : option jsstring) : M Page unit :=
p <- get ;;
match setContext c (screenContextService p) with
| (service, notes) =>
    modify (setScreenContext service) ;;
    performAll (map (fun n => Notify (fst (fst n)) (snd (fst n)) (snd n))
                    notes)
end.

Definition userId (p : Page) : option jsstring :=
match uid p with
| Some (c :: r) => Some (c :: r)
| Some [] | None => None
end.

(** [/select exam number (\d+)/] *)
Definition selectExamNumber : regex :=
Seq (Exact "select exam number ") (Group (Plus isDigit)).

(** [/begin exam (\d+)/] *)
Definition beginExam : regex :=
Seq (Exact "begin exam ") (Group (Plus isDigit)).

Definition welcome : jsstring :=
lit "Welcome. You are on the home screen. Say list exams to hear available exams. Say begin exam followed by the number to start an exam. For example, begin exam 1.".

Section Handlers.
Variable env : Env.

(** The [forEach] of [handleListExams] *)
Fixpoint listing (index : nat) (exams : list ExamInfo) : jsstring :=
  match exams with
  | [] => []
  | e :: exams' =>
  cat [lit "Exam "; ofNat (index + 1); lit ": "; title e; lit ". "]
  ++ listing (S index) exams'
  end.

(** [handleListExams] (lines 299-315) *)
Definition handleListExams : M Page unit :=
  p <- get ;;
  match examsRef p with
  | [] => speak env (lit "No exams are available at this time.")
  | currentExams =>
  speak env
    (cat [lit "Available exams are: "; listing 0 currentExams;
          lit "Say begin exam followed by the exam number to start. For example, begin exam 1."])
  end.

(** [handleSelectExam] (lines 318-371) *)
Definition handleSelectExam (examNumber : nat) : M Page unit :=
  p <- get ;;
  match examsRef p with
  | [] => speak env (lit "No exams are available.")
  | currentExams =>
  match examNumber with
  | O =>
      speak env
        (cat [lit "Invalid exam number. Please select a number between 1 and ";
              ofNat (length currentExams); lit "."])
  | S index =>
      match nth_error currentExams index with
      | None =>
          speak env
            (cat [lit "Invalid exam number. Please select a number between 1 and ";
                  ofNat (length currentExams); lit "."])
      | Some selectedExam =>
          match userId p with
          | None =>
              speak env (lit "You must be logged in to start an exam.")
          | Some u =>
              catch
                (match canAttemptExam env (examId selectedExam) u with
                 | None =>
                     fun s => {| after := s; did := []; value := None |}
                 | Some (false, m) =>
                     speak env (orElseText m)
                 | Some (true, _) =>
                     speak env (cat [title selectedExam;
                                     lit " selected. Starting exam."]) ;;
                     changeContext EXAM ;;
                     perform (Navigate "ExamPage" (examId selectedExam))
                 end)
                (speak env
                   (lit "Failed to start the exam. Please try again."))
          end
      end
  end
  end.

(** [handleRepeat] (lines 374-383) *)
Definition handleRepeat : M Page unit :=
  match getLastSpokenMessage env with
  | Some (c :: r) => speak env (c :: r)
  | Some [] | None => speak env welcome
  end.

(** [handleExit] (lines 386-390) *)
Definition handleExit : M Page unit :=
  speak env (lit "Exiting application.") ;;
  perform SpeechCleanup.

(** The [try] block of [handleVoiceCommand] (lines 246-279) *)
Definition interpret (command : jsstring) : M Page unit :=
  perform SpeechStopListening ;;
  if includes (lit "list exams") command
 || eqb command (lit "list exam") then handleListExams
  else if includes (lit "select exam number") command
      || includes (lit "begin exam") command then
let m :=
  match search selectExamNumber command with
  | Some m => Some m
  | None => search beginExam command
  end in
match m with
| Some found =>
    match capture found with
    | _ :: _ => handleSelectExam (parseInt (capture found))
    | [] =>
        speak env (lit "Please say begin exam followed by the exam number. For example, begin exam 1.")
    end
| None =>
    speak env (lit "Please say begin exam followed by the exam number. For example, begin exam 1.")
end
  else if eqb command (lit "repeat") then handleRepeat
  else if eqb command (lit "exit") then handleExit
  else
speak env (lit "Sorry, I did not understand that command. Please try again.").

(** [handleVoiceCommand] (lines 225-296) *)
Definition handleVoiceCommand (transcript : jsstring) : M Page unit :=
  p <- get ;;
  if isProcessingCommandRef p then ret tt
  else
match trim transcript with
| [] => ret tt
| _ :: _ =>
    let command := trim (toLowerCase transcript) in
    if negb (sameContext (getContext (screenContextService p)) HOME)
    then ret tt
    else
      modify (setProcessing true) ;;
      finally
        (catch (interpret command)
               (speak env
                  (lit "Sorry, an error occurred. Please try again.")))
        (modify (setProcessing false) ;;
         perform (SetTimeout (ListenIfContext HOME) 500))
end.

End Handlers.

End HomePage.

(* ===================================================================== *)
(** * Grading (utils/grading.js) *)
(* ===================================================================== *)

Module Grading.
Import JsString Dialog.

(** A number read as an array index: absent, [null], or an integer. *)
Inductive Index : Type :=
| Undefined
| Null
| Num (z : Z).

(** A question as stored with an exam; an absent field is [None]. *)
Record Question := {
  id : option jsstring;
  question : option jsstring;
  text : option jsstring;
  type : option jsstring;
  options : option (list jsstring);
  correctIndex : Index;
  correctAnswer : option jsstring;
  expectedAnswer : option jsstring }.

(** A string field used as a condition. *)
Definition truthy (v : option jsstring) : bool :=
  match v with
  | Some (_ :: _) => true
  | Some [] | None => false
  end.

(** [a || b] on string fields *)
Definition orElse (a b : option jsstring) : option jsstring :=
  if truthy a then a else b.

(** [value || ""] *)
Definition orEmpty (v : option jsstring) : jsstring :=
  match v with
  | Some t => t
  | None => []
  end.

(** [array[index]]; [undefined] out of the array. *)
Definition at_ (A : Type) (array : list A) (index : Index) : option A :=
  match index with
  | Num z => if (z <? 0)%Z then None else nth_error array (Z.to_nat z)
  | Undefined | Null => None
  end.

(** The scores [gradeQuestion] gives: [null], 0, 0.7 and 1. *)
Inductive Score : Type := NoScore | Zero | Partial | Full.

(** The result of [gradeQuestion]; [shownAnswer] is its [correctAnswer]
    field, [None] when absent or [null]; [requiresManualGrading] is
    [false] when absent. *)
Record Grade := {
  isCorrect : option bool;
  score : Score;
  feedback : string;
  graded : bool;
  shownAnswer : option jsstring;
  requiresManualGrading : bool }.

Definition isMultipleChoice (q : Question) : bool :=
  match type q with
  | Some t => eqb t (lit "multiple-choice") || eqb t (lit "Multiple Choice")
  | None => false
  end.

Definition isWritten (q : Question) : bool :=
  match type q with
  | Some t => eqb t (lit "written") || eqb t (lit "Written Answer")
  | None => false
  end.

(** [text.replace(/\s+/g, " ")]; [inRun] when the previous code unit
    was white space. *)
Fixpoint collapseSpaces (inRun : bool) (s : jsstring) : jsstring :=
  match s with
  | [] => []
  | c :: s' =>
      if isSpace c then
        if inRun then collapseSpaces true s'
        else " "%char :: collapseSpaces true s'
      else c :: collapseSpaces false s'
  end.

(** [text.replace(/[^\w\s]/g, "")] *)
Definition dropPunctuation (s : jsstring) : jsstring :=
  filter (fun c => isWord c || isSpace c) s.

(** [normalizeText] (lines 93-99) *)
Definition normalizeText (t : jsstring) : jsstring :=
  dropPunctuation (collapseSpaces false (toLowerCase (trim t))).

(** [text.split(/\s+/)]; [inRun] when the previous code unit was white
    space. *)
Fixpoint splitSpaces (inRun : bool) (s : jsstring) : list jsstring :=
  match s with
  | [] => [[]]
  | c :: s' =>
      if isSpace c then
        if inRun then splitSpaces true s'
        else [] :: splitSpaces true s'
      else
        match splitSpaces false s' with
        | f :: fs => (c :: f) :: fs
        | [] => [[c]]
        end
  end.

(** The key concepts of the expected answer (lines 116-118) *)
Definition expectedWords (normalizedExpected : jsstring) : list jsstring :=
  filter (fun w => 3 <? length w) (splitSpaces false normalizedExpected).

Definition studentWords (normalizedStudent : jsstring) : list jsstring :=
  splitSpaces false normalizedStudent.

(** Lines 122-124 *)
Definition matchedWords (expected student : list jsstring)
  : list jsstring :=
  filter (fun word =>
            existsb (fun sw => includes word sw || includes sw word)
                    student)
         expected.

(** The multiple-choice branch (lines 22-74) *)
Definition gradeMultipleChoice (q : Question) (studentAnswer : jsstring)
  : Grade :=
  let correctAnswer :=
    if negb (truthy (correctAnswer q)) then
      match options q, correctIndex q with
      | Some opts, Num z => at_ opts (Num z)
      | _, _ => correctAnswer q
      end
    else correctAnswer q in
  match correctAnswer with
  | Some (c :: r) =>
      let correctAnswer := c :: r in
      let normalizedStudentAnswer := trim studentAnswer in
      let normalizedCorrectAnswer := trim correctAnswer in
      let isCorrect := eqb normalizedStudentAnswer normalizedCorrectAnswer in
      {| isCorrect := Some isCorrect;
         score := if isCorrect then Full else Zero;
         feedback := if isCorrect then "Correct" else "Incorrect";
         graded := true;
         shownAnswer := Some correctAnswer;
         requiresManualGrading := false |}
  | Some [] | None =>
      {| isCorrect := Some false;
         score := Zero;
         feedback := "No correct answer defined";
         graded := false;
         shownAnswer := None;
         requiresManualGrading := false |}
  end.

(** The written branch (lines 77-158). The ratio of matched words is
    compared with 0.7 and 0.5 on whole numbers. *)
Definition gradeWritten (q : Question) (studentAnswer : jsstring) : Grade :=
  match orElse (expectedAnswer q) (correctAnswer q) with
  | Some (c :: r) =>
      let expectedAnswer := c :: r in
      let normalizedStudent := normalizeText studentAnswer in
      let normalizedExpected := normalizeText expectedAnswer in
      if eqb normalizedStudent normalizedExpected then
        {| isCorrect := Some true; score := Full; feedback := "Correct";
           graded := true; shownAnswer := Some expectedAnswer;
           requiresManualGrading := false |}
      else
        let expectedWords := expectedWords normalizedExpected in
        let studentWords := studentWords normalizedStudent in
        let matched := length (matchedWords expectedWords studentWords) in
        let total := length expectedWords in
        if (0 <? total) && (7 * total <=? 10 * matched) then
          {| isCorrect := Some true; score := Full;
             feedback := "Correct (keyword match)";
             graded := true; shownAnswer := Some expectedAnswer;
             requiresManualGrading := false |}
        else if (0 <? total) && (total <=? 2 * matched) then
          {| isCorrect := Some true; score := Partial;
             feedback := "Partially correct";
             graded := true; shownAnswer := Some expectedAnswer;
             requiresManualGrading := false |}
        else
          {| isCorrect := Some false; score := Zero;
             feedback := "Incorrect";
             graded := true; shownAnswer := Some expectedAnswer;
             requiresManualGrading := false |}
  | Some [] | None =>
      {| isCorrect := None; score := NoScore;
         feedback := "Pending manual grading - no expected answer provided";
         graded := false; shownAnswer := None;
         requiresManualGrading := true |}
  end.

(** [gradeQuestion] (lines 12-168); an absent argument is [None]. *)
Definition gradeQuestion (question : option Question)
           (studentAnswer : option jsstring) : Grade :=
  match question, studentAnswer with
  | Some q, Some a =>
      if isMultipleChoice q then gradeMultipleChoice q a
      else if isWritten q then gradeWritten q a
      else
        {| isCorrect := Some false; score := Zero;
           feedback := "Unknown question type";
           graded := false; shownAnswer := None;
           requiresManualGrading := false |}
  | _, _ =>
      {| isCorrect := Some false; score := Zero;
         feedback := "No answer provided";
         graded := false; shownAnswer := None;
         requiresManualGrading := false |}
  end.

(** ** [gradeExam] *)

(** [answerMap.set(key, value)] on the entries in insertion order *)
Fixpoint mapSet (key value : jsstring) (m : list (jsstring * jsstring))
  : list (jsstring * jsstring) :=
  match m with
  | [] => [(key, value)]
  | (k, v) :: m' =>
      if eqb k key then (k, value) :: m'
      else (k, v) :: mapSet key value m'
  end.

(** [answerMap.get(key)] *)
Fixpoint mapGet (key : jsstring) (m : list (jsstring * jsstring))
  : option jsstring :=
  match m with
  | [] => None
  | (k, v) :: m' => if eqb k key then Some v else mapGet key m'
  end.

(** Lines 182-187 *)
Definition answerMap (answers : list Answer) : list (jsstring * jsstring) :=
  fold_left (fun m a =>
               match questionId a with
               | _ :: _ => mapSet (questionId a) (answer a) m
               | [] => m
               end)
            answers [].

(** [question.id || `q${index + 1}`] *)
Definition keyOf (q : Question) (index : nat) : jsstring :=
  match id q with
  | Some (c :: r) => c :: r
  | Some [] | None => cat [lit "q"; ofNat (index + 1)]
  end.

Record GradedQuestion := {
  gq_questionId : jsstring;
  gq_questionText : jsstring;
  gq_questionType : option jsstring;
  gq_studentAnswer : jsstring;
  gq_grade : Grade }.

(** The counts of the summary; the scores, which are floating-point
    numbers, are left out. *)
Record Summary := {
  totalQuestions : nat;
  answeredQuestions : nat;
  multipleChoiceQuestions : nat;
  multipleChoiceCorrect : nat;
  writtenQuestions : nat;
  writtenCorrect : nat;
  totalPossible : nat;
  gradedAutomatically : nat;
  pendingManualGrading : nat }.

Record Results := {
  gradedQuestions : list GradedQuestion;
  summary : Summary }.

(** The accumulators of the loop (lines 189-196) *)
Record Tally := {
  t_graded : list GradedQuestion;
  t_multipleChoiceCorrect : nat;
  t_multipleChoiceTotal : nat;
  t_writtenQuestionsTotal : nat;
  t_gradedWrittenQuestions : nat;
  t_totalPossible : nat }.

(** The body of [questions.forEach] (lines 198-237) *)
Definition gradeOne (m : list (jsstring * jsstring)) (t : Tally)
           (q : Question) (index : nat) : Tally :=
  let studentAnswer := mapGet (keyOf q index) m in
  let gradeResult := gradeQuestion (Some q) studentAnswer in
  let gradedQuestion :=
    {| gq_questionId := keyOf q index;
       gq_questionText := orEmpty (orElse (question q) (text q));
       gq_questionType := type q;
       gq_studentAnswer := orEmpty studentAnswer;
       gq_grade := gradeResult |} in
  let correct :=
    match isCorrect gradeResult with
    | Some true => true
    | _ => false
    end in
  if isMultipleChoice q then
    {| t_graded := t_graded t ++ [gradedQuestion];
       t_multipleChoiceCorrect :=
         if correct then S (t_multipleChoiceCorrect t)
         else t_multipleChoiceCorrect t;
       t_multipleChoiceTotal := S (t_multipleChoiceTotal t);
       t_writtenQuestionsTotal := t_writtenQuestionsTotal t;
       t_gradedWrittenQuestions := t_gradedWrittenQuestions t;
       t_totalPossible := S (t_totalPossible t) |}
  else if isWritten q then
    {| t_graded := t_graded t ++ [gradedQuestion];
       t_multipleChoiceCorrect := t_multipleChoiceCorrect t;
       t_multipleChoiceTotal := t_multipleChoiceTotal t;
       t_writtenQuestionsTotal := S (t_writtenQuestionsTotal t);
       t_gradedWrittenQuestions :=
         if graded gradeResult && correct
         then S (t_gradedWrittenQuestions t)
         else t_gradedWrittenQuestions t;
       t_totalPossible := S (t_totalPossible t) |}
  else
    {| t_graded := t_graded t ++ [gradedQuestion];
       t_multipleChoiceCorrect := t_multipleChoiceCorrect t;
       t_multipleChoiceTotal := t_multipleChoiceTotal t;
       t_writtenQuestionsTotal := t_writtenQuestionsTotal t;
       t_gradedWrittenQuestions := t_gradedWrittenQuestions t;
       t_totalPossible := t_totalPossible t |}.

Fixpoint gradeAll (m : list (jsstring * jsstring)) (t : Tally)
         (index : nat) (questions : list Question) : Tally :=
  match questions with
  | [] => t
  | q :: questions' =>
      gradeAll m (gradeOne m t q index) (S index) questions'
  end.

(** [gradeExam] (lines 176-272), on two arrays *)
Definition gradeExam (questions : list Question) (answers : list Answer)
  : Results :=
  let t :=
    gradeAll (answerMap answers)
             {| t_graded := [];
                t_multipleChoiceCorrect := 0;
                t_multipleChoiceTotal := 0;
                t_writtenQuestionsTotal := 0;
                t_gradedWrittenQuestions := 0;
                t_totalPossible := 0 |}
             0 questions in
  {| gradedQuestions := t_graded t;
     summary :=
       {| totalQuestions := length questions;
          answeredQuestions := length answers;
          multipleChoiceQuestions := t_multipleChoiceTotal t;
          multipleChoiceCorrect := t_multipleChoiceCorrect t;
          writtenQuestions := t_writtenQuestionsTotal t;
          writtenCorrect := t_gradedWrittenQuestions t;
          totalPossible := t_totalPossible t;
          gradedAutomatically := t_totalPossible t;
          pendingManualGrading := 0 |} |}.

End Grading.

(* ===================================================================== *)
(** * The exam service (speechService.js, lines 457-1275) *)
(* ===================================================================== *)

Module ExamService.
Import JsString Dialog Grading.

(** ** Attempt limits *)

(** A finite number of JavaScript is the rational it stands for, and
    the arithmetic below is exact, as that of JavaScript is on the whole
    numbers up to [2^53 - 1] and on the halves among them; [ofCount n]
    is the whole number [n]. *)
Definition ofCount (n : nat) : Q := inject_Z (Z.of_nat n).

(** An exam document: [maxAttempts], the questions and the two
    randomization flags; the other fields are [details]. The field
    [maxAttempts] is whatever number was stored ([createExam] stores
    [examData.maxAttempts || 1] as it comes), [None] when it is absent
    or [NaN]. *)
Record Exam (D : Type) := {
  maxAttempts : option Q;
  questions : option (list Question);
  shuffleQuestions : bool;
  shuffleOptions : bool;
  details : D }.

(** The result of [canAttemptExam]. *)
Record Eligibility := {
  canAttempt : bool;
  attemptsUsed : nat;
  eligibleFor : Q;
  remaining : Q;
  message : jsstring }.

(** [getAttemptCount] (lines 1134-1147): [size] is the number of
    submissions found, [None] when the query fails. *)
Definition getAttemptCount (size : option nat) : nat :=
  match size with
  | Some n => n
  | None => 0
  end.

(** [exam.maxAttempts || 1]: zero is falsy, as an absent field is;
    every other number is taken as it is. *)
Definition maxAttemptsOr1 (m : option Q) : Q :=
  match m with
  | Some q => if Qeq_bool q 0 then 1%Q else q
  | None => 1%Q
  end.

(** [a < b] on numbers *)
Definition lessThan (a b : Q) : bool := negb (Qle_bool b a).

(** [canAttemptExam] (lines 1156-1200): [exam] is what [getExam]
    returns, [None] when it throws; [eligibleFor] is the field
    [maxAttempts] of the result; [toText] is the text of a number in a
    template string. *)
Definition canAttemptExam (D : Type) (toText : Q -> jsstring)
           (exam : option (Exam D)) (size : option nat) : Eligibility :=
  match exam with
  | Some exam =>
      let maxAttempts := maxAttemptsOr1 (maxAttempts exam) in
      let attemptsUsed := getAttemptCount size in
      let canAttempt := lessThan (ofCount attemptsUsed) maxAttempts in
      let remaining := (maxAttempts - ofCount attemptsUsed)%Q in
      let message :=
        if canAttempt then
          if Qeq_bool remaining 1 then lit "This is your last attempt."
          else if attemptsUsed =? 0 then
            if Qeq_bool maxAttempts 1
            then lit "You have 1 attempt for this exam."
            else cat [lit "You have "; toText maxAttempts;
                      lit " attempts for this exam."]
          else
            cat [lit "You have "; toText remaining; lit " attempt";
                 (if lessThan 1 remaining then lit "s" else []);
                 lit " remaining."]
        else lit "You have used all your attempts for this exam." in
      {| canAttempt := canAttempt;
         attemptsUsed := attemptsUsed;
         eligibleFor := maxAttempts;
         remaining := if canAttempt then remaining else 0%Q;
         message := message |}
  | None =>
      {| canAttempt := false;
         attemptsUsed := 0;
         eligibleFor := 1%Q;
         remaining := 0%Q;
         message :=
           lit "Error checking attempt eligibility. Please try again." |}
  end.

(** ** Randomization *)

(** [Math.floor(Math.random() * n)] at the [k]-th call of
    [Math.random]. *)
Definition Random := nat -> nat -> nat.

(** [array[i] = v], inside the array *)
Fixpoint assign (A : Type) (i : nat) (v : A) (array : list A) : list A :=
  match array, i with
  | [], _ => []
  | _ :: array', O => v :: array'
  | a :: array', S i' => a :: assign i' v array'
  end.

(** [[array[i], array[j]] = [array[j], array[i]]] for two indices
    inside the array; [None] stands for what JavaScript does with an
    index outside of it, which the loop of [shuffleArray] never
    produces. *)
Definition swap (A : Type) (i j : nat) (array : list A)
  : option (list A) :=
  match nth_error array i, nth_error array j with
  | Some x, Some y => Some (assign j x (assign i y array))
  | _, _ => None
  end.

(** The loop of [shuffleArray], from index [i] down to 1; [k] counts
    the calls of [Math.random]. *)
Fixpoint shuffleFrom (A : Type) (random : Random) (k i : nat)
         (shuffled : list A) : option (list A * nat) :=
  match i with
  | O => Some (shuffled, k)
  | S i' =>
      let j := random k (i + 1) in
      match swap i j shuffled with
      | Some shuffled' => shuffleFrom random (S k) i' shuffled'
      | None => None
      end
  end.

(** [shuffleArray] (lines 1211-1218) *)
Definition shuffleArray (A : Type) (random : Random) (k : nat)
           (array : list A) : option (list A * nat) :=
  shuffleFrom random k (length array - 1) array.

(** [options.indexOf(value)], [-1] when absent *)
Fixpoint indexOf (value : jsstring) (array : list jsstring) : Z :=
  match array with
  | [] => (-1)%Z
  | a :: array' =>
      if eqb a value then 0%Z
      else
        let i := indexOf value array' in
        if (i <? 0)%Z then (-1)%Z else (i + 1)%Z
  end.

(** The body of [questions.map] (lines 1242-1266) *)
Definition shuffleOptionsOf (random : Random) (k : nat) (q : Question)
  : option (Question * nat) :=
  match isMultipleChoice q, options q with
  | true, Some opts =>
      let correctAnswerText :=
        match correctIndex q with
        | Undefined => correctAnswer q
        | index => at_ opts index
        end in
      match shuffleArray random k opts with
      | Some (shuffledOptions, k') =>
          let newCorrectIndex :=
            match correctAnswerText with
            | Some t => indexOf t shuffledOptions
            | None => (-1)%Z
            end in
          Some ({| id := id q;
                   question := question q;
                   text := text q;
                   type := type q;
                   options := Some shuffledOptions;
                   correctIndex := Num newCorrectIndex;
                   correctAnswer := correctAnswerText;
                   expectedAnswer := expectedAnswer q |}, k')
      | None => None
      end
  | _, _ => Some (q, k)
  end.

Fixpoint shuffleAllOptions (random : Random) (k : nat)
         (questions : list Question) : option (list Question * nat) :=
  match questions with
  | [] => Some ([], k)
  | q :: questions' =>
      match shuffleOptionsOf random k q with
      | Some (q', k') =>
          match shuffleAllOptions random k' questions' with
          | Some (rest, k'') => Some (q' :: rest, k'')
          | None => None
          end
      | None => None
      end
  end.

(** The result of [getExamWithRandomization]: the exam, its questions
    and the flag [wasShuffled]. *)
Record Randomized (D : Type) := {
  source : Exam D;
  asked : list Question;
  wasShuffled : bool }.

(** [getExamWithRandomization] (lines 1225-1275), once [getExam] has
    returned [exam]. *)
Definition getExamWithRandomization (D : Type) (random : Random)
           (exam : Exam D) : option (Randomized D) :=
  let questions :=
    match questions exam with
    | Some qs => qs
    | None => []
    end in
  match (if shuffleQuestions exam then shuffleArray random 0 questions
         else Some (questions, 0)) with
  | Some (questions, k) =>
      match (if shuffleOptions exam
             then shuffleAllOptions random k questions
             else Some (questions, k)) with
      | Some (questions, _) =>
          Some {| source := exam;
                  asked := questions;
                  wasShuffled :=
                    shuffleQuestions exam || shuffleOptions exam |}
      | None => None
      end
  | None => None
  end.

(** ** Submissions *)

(** [status] of the submission document (lines 888-891) *)
Definition statusOf (gradingResults : option Results) : string :=
  match gradingResults with
  | Some r =>
      if 0 <? pendingManualGrading (summary r) then "pending" else "graded"
  | None => "graded"
  end.

End ExamService.

(* ===================================================================== *)
(** * The offline queue (offlineService.js) *)
(* ===================================================================== *)

Module OfflineService.
Import JsString.

Section Store.
(** The answers and the grading results of a submission, the answers
    saved for an exam in progress and the cached exams: values that
    [JSON.parse] reads back as [JSON.stringify] wrote them. *)
Variables (A G L C : Type).

Record Submission := {
  examId : jsstring;
  studentId : jsstring;
  answers : A;
  gradingResults : G;
  queuedAt : jsstring }.

(** The items of [AsyncStorage] that the service uses: [cached_exams],
    [pending_submissions] and, by exam, [offline_answers_<examId>]. *)
Record Storage := {
  cachedExams : option C;
  pendingSubmissions : option (list Submission);
  offlineAnswers : list (jsstring * L) }.

(** Which calls of [AsyncStorage] reject. *)
Record Faults := {
  getItemFails : bool;
  setItemFails : bool;
  removeItemFails : bool }.

Definition setPending (l : list Submission) (st : Storage) : Storage :=
  {| cachedExams := cachedExams st;
     pendingSubmissions := Some l;
     offlineAnswers := offlineAnswers st |}.

(** [getPendingSubmissions] (lines 200-208) *)
Definition getPendingSubmissions (f : Faults) (st : Storage)
  : list Submission :=
  if getItemFails f then []
  else
    match pendingSubmissions st with
    | Some l => l
    | None => []
    end.

(** [getPendingSubmissionCount] (lines 214-217) *)
Definition getPendingSubmissionCount (f : Faults) (st : Storage) : nat :=
  length (getPendingSubmissions f st).

(** [p.examId === examId && p.studentId === studentId] *)
Definition sameSubmission (examId' studentId' : jsstring) (p : Submission)
  : bool :=
  eqb (examId p) examId' && eqb (studentId p) studentId'.

(** [queueSubmission] (lines 159-194); [now] is the time stamp. *)
Definition queueSubmission (f : Faults) (now : jsstring)
           (examId' studentId' : jsstring) (answers' : A)
           (gradingResults' : G) (st : Storage) : Storage * bool :=
  let pending := getPendingSubmissions f st in
  let alreadyQueued :=
    existsb (sameSubmission examId' studentId') pending in
  let queue :=
    if alreadyQueued then
      map (fun p =>
             if sameSubmission examId' studentId' p then
               {| examId := examId p;
                  studentId := studentId p;
                  answers := answers';
                  gradingResults := gradingResults';
                  queuedAt := now |}
             else p)
          pending
    else
      pending ++ [{| examId := examId';
                     studentId := studentId';
                     answers := answers';
                     gradingResults := gradingResults';
                     queuedAt := now |}] in
  if setItemFails f then (st, false)
  else (setPending queue st, true).

(** [clearLocalAnswers] (lines 141-149) *)
Definition clearLocalAnswers (f : Faults) (examId' : jsstring)
           (st : Storage) : Storage :=
  if removeItemFails f then st
  else
    {| cachedExams := cachedExams st;
       pendingSubmissions := pendingSubmissions st;
       offlineAnswers :=
         filter (fun e => negb (eqb (fst e) examId')) (offlineAnswers st) |}.

(** The state of the loop of [syncPendingSubmissions]: the storage,
    the submissions handed to [submitFunction] so far, the failed ones
    and the count of the others. *)
Record Sync := {
  store : Storage;
  calls : list Submission;
  failed : list Submission;
  synced : nat }.

(** The body of the loop (lines 234-250); [accepts] tells whether
    [submitFunction] resolves. *)
Definition syncOne (f : Faults) (accepts : bool) (s : Sync)
           (submission : Submission) : Sync :=
  if accepts then
    {| store := clearLocalAnswers f (examId submission) (store s);
       calls := calls s ++ [submission];
       failed := failed s;
       synced := S (synced s) |}
  else
    {| store := store s;
       calls := calls s ++ [submission];
       failed := failed s ++ [submission];
       synced := synced s |}.

(** The loop; [submitFunction n] tells whether the [n]-th call
    resolves. *)
Fixpoint syncAll (f : Faults) (submitFunction : nat -> bool) (n : nat)
         (s : Sync) (pending : list Submission) : Sync :=
  match pending with
  | [] => s
  | submission :: pending' =>
      syncAll f submitFunction (S n)
              (syncOne f (submitFunction n) s submission) pending'
  end.

(** [syncPendingSubmissions] (lines 224-256): the storage afterwards,
    the calls of [submitFunction], and the counts [(synced, failed)]
    returned, [None] when the function throws. *)
Definition syncPendingSubmissions (f : Faults)
           (submitFunction : nat -> bool) (st : Storage)
  : Storage * list Submission * option (nat * nat) :=
  match getPendingSubmissions f st with
  | [] => (st, [], Some (0, 0))
  | pending =>
      let s :=
        syncAll f submitFunction 0
                {| store := st; calls := []; failed := []; synced := 0 |}
                pending in
      if setItemFails f then (store s, calls s, None)
      else (setPending (failed s) (store s), calls s,
            Some (synced s, length (failed s)))
  end.

End Store.

End OfflineService.

(* ===================================================================== *)
(** * The metrics tracker (evaluationMetrics.js, lines 202-317) *)
(* ===================================================================== *)

Module Metrics.
Import JsString.

(** [currentQuestionData]; the time stamps are left out. *)
Record QuestionData := {
  questionIndex : nat;
  questionType : option jsstring;
  readAloudCount : nat;
  voiceAnswerAttempts : nat;
  voiceRetries : nat;
  answerMethod : option jsstring;
  wasAnswered : bool }.

Record Features := {
  autoReadQuestions : bool;
  voiceNavigation : bool;
  voiceAnswers : bool;
  readAloud : bool }.

Record Tracker := {
  totalVoiceCommands : nat;
  totalReadAloudRequests : nat;
  totalVoiceAnswers : nat;
  totalVoiceRetries : nat;
  questionMetrics : list QuestionData;
  currentQuestionData : option QuestionData;
  featuresUsed : Features }.

(** [createMetricsTracker] (lines 202-226) *)
Definition createMetricsTracker : Tracker :=
  {| totalVoiceCommands := 0;
     totalReadAloudRequests := 0;
     totalVoiceAnswers := 0;
     totalVoiceRetries := 0;
     questionMetrics := [];
     currentQuestionData := None;
     featuresUsed :=
       {| autoReadQuestions := false;
          voiceNavigation := false;
          voiceAnswers := false;
          readAloud := false |} |}.

(** [startQuestion] (lines 229-241) *)
Definition startQuestion (index : nat) (type : option jsstring)
           (t : Tracker) : Tracker :=
  {| totalVoiceCommands := totalVoiceCommands t;
     totalReadAloudRequests := totalReadAloudRequests t;
     totalVoiceAnswers := totalVoiceAnswers t;
     totalVoiceRetries := totalVoiceRetries t;
     questionMetrics := questionMetrics t;
     currentQuestionData :=
       Some {| questionIndex := index;
               questionType := type;
               readAloudCount := 0;
               voiceAnswerAttempts := 0;
               voiceRetries := 0;
               answerMethod := None;
               wasAnswered := false |};
     featuresUsed := featuresUsed t |}.

(** [endQuestion] (lines 243-253): the data is marked, and a copy of it
    is pushed. *)
Definition endQuestion (answered : bool) (method : option jsstring)
           (t : Tracker) : Tracker :=
  match currentQuestionData t with
  | Some d =>
      let d' :=
        {| questionIndex := questionIndex d;
           questionType := questionType d;
           readAloudCount := readAloudCount d;
           voiceAnswerAttempts := voiceAnswerAttempts d;
           voiceRetries := voiceRetries d;
           answerMethod := method;
           wasAnswered := answered |} in
      {| totalVoiceCommands := totalVoiceCommands t;
         totalReadAloudRequests := totalReadAloudRequests t;
         totalVoiceAnswers := totalVoiceAnswers t;
         totalVoiceRetries := totalVoiceRetries t;
         questionMetrics := questionMetrics t ++ [d'];
         currentQuestionData := Some d';
         featuresUsed := featuresUsed t |}
  | None => t
  end.

(** [logReadAloud] (lines 255-261) *)
Definition logReadAloud (t : Tracker) : Tracker :=
  {| totalVoiceCommands := totalVoiceCommands t;
     totalReadAloudRequests := S (totalReadAloudRequests t);
     totalVoiceAnswers := totalVoiceAnswers t;
     totalVoiceRetries := totalVoiceRetries t;
     questionMetrics := questionMetrics t;
     currentQuestionData :=
       option_map
         (fun d =>
            {| questionIndex := questionIndex d;
               questionType := questionType d;
               readAloudCount := S (readAloudCount d);
               voiceAnswerAttempts := voiceAnswerAttempts d;
               voiceRetries := voiceRetries d;
               answerMethod := answerMethod d;
               wasAnswered := wasAnswered d |})
         (currentQuestionData t);
     featuresUsed :=
       {| autoReadQuestions := autoReadQuestions (featuresUsed t);
          voiceNavigation := voiceNavigation (featuresUsed t);
          voiceAnswers := voiceAnswers (featuresUsed t);
          readAloud := true |} |}.

(** [logVoiceAnswer] (lines 263-278) *)
Definition logVoiceAnswer (wasSuccessful : bool) (t : Tracker) : Tracker :=
  {| totalVoiceCommands := totalVoiceCommands t;
     totalReadAloudRequests := totalReadAloudRequests t;
     totalVoiceAnswers := S (totalVoiceAnswers t);
     totalVoiceRetries :=
       if wasSuccessful then totalVoiceRetries t
       else S (totalVoiceRetries t);
     questionMetrics := questionMetrics t;
     currentQuestionData :=
       option_map
         (fun d =>
            {| questionIndex := questionIndex d;
               questionType := questionType d;
               readAloudCount := readAloudCount d;
               voiceAnswerAttempts := S (voiceAnswerAttempts d);
               voiceRetries :=
                 if wasSuccessful then voiceRetries d
                 else S (voiceRetries d);
               answerMethod := answerMethod d;
               wasAnswered := wasAnswered d |})
         (currentQuestionData t);
     featuresUsed :=
       {| autoReadQuestions := autoReadQuestions (featuresUsed t);
          voiceNavigation := voiceNavigation (featuresUsed t);
          voiceAnswers := true;
          readAloud := readAloud (featuresUsed t) |} |}.

(** [logVoiceCommand] (lines 280-287) *)
Definition logVoiceCommand (command : jsstring) (wasRecognized : bool)
           (t : Tracker) : Tracker :=
  {| totalVoiceCommands := S (totalVoiceCommands t);
     totalReadAloudRequests := totalReadAloudRequests t;
     totalVoiceAnswers := totalVoiceAnswers t;
     totalVoiceRetries :=
       if wasRecognized then totalVoiceRetries t
       else S (totalVoiceRetries t);
     questionMetrics := questionMetrics t;
     currentQuestionData := currentQuestionData t;
     featuresUsed :=
       {| autoReadQuestions := autoReadQuestions (featuresUsed t);
          voiceNavigation := true;
          voiceAnswers := voiceAnswers (featuresUsed t);
          readAloud := readAloud (featuresUsed t) |} |}.

(** [logAutoRead] (lines 289-291) *)
Definition logAutoRead (t : Tracker) : Tracker :=
  {| totalVoiceCommands := totalVoiceCommands t;
     totalReadAloudRequests := totalReadAloudRequests t;
     totalVoiceAnswers := totalVoiceAnswers t;
     totalVoiceRetries := totalVoiceRetries t;
     questionMetrics := questionMetrics t;
     currentQuestionData := currentQuestionData t;
     featuresUsed :=
       {| autoReadQuestions := true;
          voiceNavigation := voiceNavigation (featuresUsed t);
          voiceAnswers := voiceAnswers (featuresUsed t);
          readAloud := readAloud (featuresUsed t) |} |}.

(** [completedQuestions] of [getMetrics] (line 302) *)
Definition completedQuestions (t : Tracker) : nat :=
  length (filter wasAnswered (questionMetrics t)).

End Metrics.

(* ===================================================================== *)
(** * Vocabulary for the properties of the option grammar *)
(* ===================================================================== *)

Module ExamCommandProps.
Import JsString Regex ExamCommand.

(** No capture group inside. *)
Fixpoint groupFree (r : regex) : bool :=
match r with
| Group _ => false
| Opt r1 => groupFree r1
| Alt r1 r2 | Seq r1 r2 => groupFree r1 && groupFree r2
| _ => true
end.

(** The one group is [([a-d])] and lies on every path. *)
Inductive CapturesLetter : regex -> Prop :=
| captures_group :
  CapturesLetter (Group (Set_ letterAD))
| captures_after (r1 r2 : regex) :
  groupFree r1 = true -> CapturesLetter r2 -> CapturesLetter (Seq r1 r2)
| captures_before (r1 r2 : regex) :
  CapturesLetter r1 -> groupFree r2 = true -> CapturesLetter (Seq r1 r2).

(** [p'] lies further in the subject than [p]: what is left at [p] ends
  with what is left at [p']. *)
Definition Further (p p' : pos) : Prop :=
exists u : jsstring, rest p = u ++ rest p'.

(** The patterns anchored at the end: the letter, white space and the
  end of the subject, after a prefix without a group. *)
Inductive EndPattern : regex -> Prop :=
| end_letter :
  EndPattern (optionLetter +> Star isSpace +> EndAnchor)%re
| end_after (r1 r2 : regex) :
  groupFree r1 = true -> EndPattern r2 -> EndPattern (Seq r1 r2).

(** The letters an option can be selected by. *)
Definition optionLetters : list jsstring :=
[lit "A"; lit "B"; lit "C"; lit "D"].

(** ** The three searches in the words of the specification *)

(** The final [n] characters of a string, the whole of a shorter one. *)
Definition finalChars (n : nat) (s : jsstring) : jsstring :=
rev (firstn n (rev s)).

(** The letter matches of a string, from left to right: the letters of
  a-d, in either case, that are a word by themselves, neither preceded
  nor followed by a letter, a digit or an underscore; [b] is the
  character before [s]. *)
Fixpoint letterMatches (b : option ascii) (s : jsstring) : list ascii :=
match s with
| [] => []
| c :: s' =>
    if letterAD c && negb (wordAt b) && negb (wordAt (hd_error s'))
    then c :: letterMatches (Some c) s'
    else letterMatches (Some c) s'
end.

(** The letter as the handler names it: in upper case. *)
Definition letterName (c : ascii) : jsstring := [upperChar c].

(** (a) the letter at the tail: the last character of the command,
  white space apart, when it is a letter of a-d that is a word by
  itself (the command is read from its end) *)
Definition letterAtTail (command : jsstring) : option jsstring :=
match trimStart (rev command) with
| x :: pre =>
    if letterAD x && negb (wordAt (hd_error pre))
    then Some (letterName x)
    else None
| [] => None
end.

(** (b) the first letter match within the final 15 characters, taken
  by themselves *)
Definition firstInFinal15 (command : jsstring) : option jsstring :=
option_map letterName
           (hd_error (letterMatches None (finalChars 15 command))).

(** (c) the last letter match anywhere in the command *)
Definition lastOccurrence (command : jsstring) : option jsstring :=
option_map letterName
           (last (map Some (letterMatches None command)) None).

End ExamCommandProps.

(* ===================================================================== *)
(** * Vocabulary for the properties of the speech service *)
(* ===================================================================== *)

Module SpeechProps.
Import JsString Speech.

(** ** Nothing left to say

  A world is calm when the queue is empty and no suspended [speak] is
  pending: until [speak] is called again, nothing reaches the
  text-to-speech engine. *)

Definition speaksLater (k : Task) : bool :=
match k with
| SpeakDelay _ _ _ | SpeakStart _ _ _ => true
| _ => false
end.

Record Calm (w : World) : Prop := {
calm_queue : speechQueue (svc w) = [];
calm_micro : Forall (fun k => speaksLater k = false) (micro w);
calm_timers : Forall (fun t => speaksLater (task t) = false) (timers w) }.

(** Calm, and the same texts spoken as [said]. *)
Definition Hushed (said : list jsstring) (w : World) : Prop :=
Calm w /\ spoken (trace w) = said.

Definition isTtsSpeak (o : Output) : bool :=
match o with
| TtsSpeak _ _ _ => true
| _ => false
end.

Definition isCallSpeak (e : Event) : bool :=
match e with
| CallSpeak _ _ => true
| _ => false
end.

Definition sampleError : EngineError :=
{| err_error := Some (lit "audio"); err_message := Some (lit "no output") |}.

(** ** The queue at work

  The schedules in which [speak] is only called while the service is
  speaking, the engine finishes utterances and timers fire. *)
Inductive queueing : World -> list Event -> Prop :=
| queueing_nil (w : World) :
  queueing w []
| queueing_speak (w : World) (t : jsstring) (o : Options) (es : list Event) :
  isSpeaking (svc w) = true ->
  queueing (step w (CallSpeak t o)) es ->
  queueing w (CallSpeak t o :: es)
| queueing_done (w : World) (u : UtteranceId) (es : list Event) :
  queueing (step w (TtsDone u)) es ->
  queueing w (TtsDone u :: es)
| queueing_tick (w : World) (es : list Event) :
  queueing (step w Tick) es ->
  queueing w (Tick :: es).

(** The texts asked for by a schedule, in order of arrival ([speak]
  returns at once on a blank text). *)
Fixpoint requested (es : list Event) : list jsstring :=
match es with
| [] => []
| CallSpeak t _ :: es' =>
    if blank t then requested es' else t :: requested es'
| _ :: es' => requested es'
end.

(** The utterances handed to the engine whose end it has not reported
  yet, according to a trace (most recent output first). *)
Fixpoint unfinished (tr : list Output) : list UtteranceId :=
match tr with
| [] => []
| TtsSpeak u _ _ :: tr' => u :: unfinished tr'
| TtsEnded u :: tr' => remove Nat.eq_dec u (unfinished tr')
| _ :: tr' => unfinished tr'
end.

(** Every utterance was handed to the engine after all the earlier ones
  had ended. *)
Fixpoint oneAtATime (tr : list Output) : Prop :=
match tr with
| [] => True
| TtsSpeak _ _ _ :: tr' => unfinished tr' = [] /\ oneAtATime tr'
| _ :: tr' => oneAtATime tr'
end.

(** A service at rest: idle, nothing queued, nothing pending. *)
Record AtRest (w : World) : Prop := {
rest_speaking : isSpeaking (svc w) = false;
rest_listening : isListening (svc w) = false;
rest_queue : speechQueue (svc w) = [];
rest_timers : timers w = [];
rest_micro : micro w = [];
rest_live : live w = [];
rest_unfinished : unfinished (trace w) = [];
rest_order : oneAtATime (trace w) }.

(** Where the service is between two utterances of a queueing schedule. *)
Inductive Phase (w : World) : Prop :=
| InUtterance (u : UtteranceId) (ws : list PromiseId) :
  isSpeaking (svc w) = true ->
  live w = [(u, ws)] ->
  timers w = [] ->
  unfinished (trace w) = [u] ->
  Phase w
| InBuffer (ws : list PromiseId) (id : TimerId) (d : N) :
  isSpeaking (svc w) = false ->
  live w = [] ->
  timers w = [{| tid := id; deadline := d; task := PostSpeech ws |}] ->
  unfinished (trace w) = [] ->
  Phase w
| Drained :
  isSpeaking (svc w) = false ->
  live w = [] ->
  timers w = [] ->
  speechQueue (svc w) = [] ->
  unfinished (trace w) = [] ->
  Phase w.

(** The invariant of a queueing schedule: the texts spoken so far
  followed by those queued are the texts that [arrived], in order. *)
Record Fifo (arrived : list jsstring) (w : World) : Prop := {
fifo_listening : isListening (svc w) = false;
fifo_micro : micro w = [];
fifo_texts : Forall (fun r => blank (text r) = false) (speechQueue (svc w));
fifo_phase : Phase w;
fifo_one : oneAtATime (trace w);
fifo_order : spoken (trace w) ++ map text (speechQueue (svc w)) = arrived }.

(** The engine finishes the utterance it holds, if any, and the
  post-speech buffer elapses. *)
Definition finishCurrent (w : World) : World :=
match live w with
| (u, _) :: _ => step (step w (TtsDone u)) Tick
| [] => step w Tick
end.

(** ** Taking turns

  What is still to run: the continuations of the two transitions
  ([speak] stops the recognition and waits, [startListening] stops the
  speech and waits) and the timers of the service. *)
Definition listensLater (k : Task) : bool :=
match k with
| ListenTry _ _ | ListenStart _ _ => true
| _ => false
end.

Definition triesLater (k : Task) : bool :=
match k with
| ListenTry _ _ => true
| _ => false
end.

(** The continuations of an [await]; the other tasks are timer
  callbacks. *)
Definition continuation (k : Task) : bool :=
match k with
| SpeakDelay _ _ _ | ListenStart _ _ | CleanupRest _ => true
| _ => false
end.

(** The timer callbacks that raise no flag. *)
Definition harmless (k : Task) : bool :=
match k with
| PostSpeech _ | SilenceTimeout | DeliverResult _ => true
| _ => false
end.

(** Every pending microtask satisfies [inMicro], every pending timer
  callback [inTimers]. *)
Definition Tasks (inMicro inTimers : Task -> bool) (w : World) : Prop :=
Forall (fun k => inMicro k = true) (micro w)
/\ Forall (fun t => inTimers (task t) = true) (timers w).

Definition nonePending (P : Task -> bool) (w : World) : Prop :=
Tasks (fun k => negb (P k)) (fun k => negb (P k)) w.

Definition WellPlaced (w : World) : Prop :=
Tasks continuation (fun k => negb (continuation k)) w.

(** How a piece of the service may change the world: it awaits nothing,
  adds harmless timers at most, leaves the queue or empties it, and
  raises [isSpeaking] only if [speaks], [isListening] only if
  [listens]. *)
Record Frame (speaks listens : bool) (w w' : World) : Prop := {
fr_micro : micro w' = micro w;
fr_tasks :
  forall a b, (forall k, harmless k = true -> b k = true) ->
              Tasks a b w -> Tasks a b w';
fr_queue :
  speechQueue (svc w') = speechQueue (svc w)
  \/ speechQueue (svc w') = [];
fr_speaking :
  speaks = false ->
  isSpeaking (svc w') = true -> isSpeaking (svc w) = true;
fr_listening :
  listens = false ->
  isListening (svc w') = true -> isListening (svc w) = true }.

(** Whose turn it is. While the service speaks or is about to, it does
  not listen and no recognition is about to start; while it listens or
  is about to, it does not speak, no speech is about to start, and a
  recognition that waits for the speech to stop finds the queue
  empty. *)
Definition SpeakersTurn (w : World) : Prop :=
isListening (svc w) = false /\ nonePending listensLater w.

Definition ListenersTurn (w : World) : Prop :=
isSpeaking (svc w) = false
/\ nonePending speaksLater w
/\ (nonePending triesLater w \/ speechQueue (svc w) = []).

Definition Exclusive (w : World) : Prop :=
WellPlaced w /\ (SpeakersTurn w \/ ListenersTurn w).

(** No transition is under way. *)
Definition Settled (w : World) : Prop :=
nonePending speaksLater w /\ nonePending listensLater w.

Definition startsTurn (e : Event) : bool :=
match e with
| CallSpeak _ _ | CallStartListening _ => true
| _ => false
end.

(** The schedules of a caller that waits for a transition to be over
  before it calls [speak] or [startListening] again. *)
Inductive serialized : World -> list Event -> Prop :=
| serialized_nil (w : World) :
  serialized w []
| serialized_cons (w : World) (e : Event) (es : list Event) :
  (startsTurn e = true -> Settled w) ->
  serialized (step w e) es ->
  serialized w (e :: es).

(** The same, as a check that runs. *)
Definition noneb (P : Task -> bool) (w : World) : bool :=
forallb (fun k => negb (P k)) (micro w)
&& forallb (fun t => negb (P (task t))) (timers w).

Definition settledb (w : World) : bool :=
noneb speaksLater w && noneb listensLater w.

Fixpoint serializedb (w : World) (es : list Event) : bool :=
match es with
| [] => true
| e :: es' =>
    (negb (startsTurn e) || settledb w) && serializedb (step w e) es'
end.

End SpeechProps.
(* ===================================================================== *)
(** * The screens as one interface *)
(* ===================================================================== *)

Module Screens.
Import JsString ScreenContext Dialog.

(** The screens that register voice commands. *)
Inductive Screen : Type := ExamScreen | HomeScreen.

Definition pageOf (s : Screen) : Type :=
match s with
| ExamScreen => ExamPage.Page
| HomeScreen => HomePage.Page
end.

(** The context a screen sets when it takes the voice focus. *)
Definition registeredContext (s : Screen) : option jsstring :=
match s with
| ExamScreen => EXAM
| HomeScreen => HOME
end.

(** [screenContextService.getContext()] as the screen reads it *)
Definition contextOf (s : Screen) : pageOf s -> option jsstring :=
match s with
| ExamScreen => fun p => getContext (ExamPage.screenContextService p)
| HomeScreen => fun p => getContext (HomePage.screenContextService p)
end.

(** The function the screen registers with [setOnRecognitionResult]. *)
Definition handler (s : Screen) : Env -> jsstring -> M (pageOf s) unit :=
match s with
| ExamScreen => ExamPage.handleVoiceCommand
| HomeScreen => HomePage.handleVoiceCommand
end.

(** A call that returns at once: nothing done, nothing changed. *)
Definition dropped (S : Type) (p : S) : Ran S unit :=
{| after := p; did := []; value := Some tt |}.

End Screens.


(* ===================================================================== *)
(** * Vocabulary for the properties of the exam screen *)
(* ===================================================================== *)

Module ExamPageProps.
Import JsString ScreenContext Dialog ExamPage.

(** What leaves a pending confirmation pending *)
Definition keepsWaiting (m : M Page unit) : Prop :=
forall s, isWaitingForConfirmationRef s = true ->
          isWaitingForConfirmationRef (after (m s)) = true.

(** What never calls the submission sink *)
Definition neverSubmits (A : Type) (m : M Page A) : Prop :=
forall s, submissions (did (m s)) = 0.

(** A sample exam *)

Definition quietEnv : Env :=
{| ttsFails := fun _ => false;
   sinkFails := false;
   scoresMessage := fun _ => lit "Exam completed.";
   canAttemptExam := fun _ _ => Some (true, None);
   getLastSpokenMessage := None |}.

Definition sampleExam : Exam :=
{| examId := lit "exam-1";
   title := lit "Arithmetic";
   questions :=
     [ {| id := lit "q1"; question := lit "Name a prime number";
          qtype := Written; options := None |};
       {| id := lit "q2"; question := lit "Two plus two";
          qtype := MultipleChoice;
          options := Some [lit "three"; lit "four"] |} ] |}.

(** The first question is shown, the student has said "submit" and is
  asked to confirm; one second is left. *)
Definition awaitingPage : Page :=
{| screenContextService :=
     {| currentScreenContext := EXAM; listeners := [] |};
   exam := Some sampleExam;
   uid := Some (lit "student-1");
   submitting := false;
   timeRemaining := 1;
   currentQuestionIndexRef := 0;
   totalQuestionsRef := 2;
   answersRef := [];
   isProcessingCommandRef := false;
   isWaitingForConfirmationRef := true |}.

(** The same screen after the student has left for the home screen. *)
Definition leftPage : Page :=
setScreenContext {| currentScreenContext := HOME; listeners := [] |}
                 awaitingPage.

(** The handler of a confirming "yes", with what else the page runs
  while the acknowledgement is spoken: between the two parts of the
  confirmed submission. *)
Definition confirmWhile (env : Env) (between : M Page unit)
: M Page unit :=
bind (confirmSubmit env)
     (fun _ => bind between (fun _ => confirmSubmitResumed env)).

End ExamPageProps.

(* ===================================================================== *)
(** * Vocabulary for the properties of the screens *)
(* ===================================================================== *)

Module ScreenContextProps.
Import JsString ScreenContext.

(** What a client can call on the service. *)
Inductive Call : Type :=
| CallSetContext (context : option jsstring)
| CallReset
| CallSubscribe (listener : nat)
| CallUnsubscribe (listener : nat).

Definition call (s : ScreenContextService) (c : Call)
  : ScreenContextService :=
  match c with
  | CallSetContext context => fst (setContext context s)
  | CallReset => fst (reset s)
  | CallSubscribe listener => subscribe listener s
  | CallUnsubscribe listener => unsubscribe listener s
  end.

Definition calls (cs : list Call) : ScreenContextService :=
  fold_left call cs constructor.

End ScreenContextProps.

Module DialogProps.
Import JsString Dialog.

(** An invariant of the state that a piece of code keeps, whether it
    returns or throws. *)
Definition Keeps (S : Type) (I : S -> Prop) (A : Type) (m : M S A) : Prop :=
  forall s, I s -> I (after (m s)).

(** The texts handed to [speechService.speak], in order. *)
Fixpoint spokenTexts (es : list Effect) : list jsstring :=
  match es with
  | [] => []
  | SpeechSpeak t :: es' => t :: spokenTexts es'
  | _ :: es' => spokenTexts es'
  end.

Definition isNavigate (e : Effect) : bool :=
  match e with
  | Navigate _ _ => true
  | _ => false
  end.

End DialogProps.

Module ExamPageMoreProps.
Import JsString ScreenContext Dialog ExamPage DialogProps.
Local Open Scope async_scope.

(** What the handlers may do to the page without breaking [I]. *)
Record Stable (I : Page -> Prop) : Prop := {
  st_context : forall c p, I p -> I (setScreenContext c p);
  st_submitting : forall b p, I p -> I (setSubmitting b p);
  st_waiting : forall b p, I p -> I (setWaiting b p);
  st_processing : forall b p, I p -> I (setProcessing b p);
  st_answer : forall a p, I p -> I (saveAnswer a p);
  st_next :
    forall p, currentQuestionIndexRef p + 1 < totalQuestions p ->
              I p ->
              I (setCurrentQuestionIndex (currentQuestionIndexRef p + 1) p);
  st_previous :
    forall p n, currentQuestionIndexRef p = S n ->
                I p -> I (setCurrentQuestionIndex n p) }.

(** The current question is one of the exam. *)
Definition InRange (p : Page) : Prop :=
  currentQuestionIndexRef p < totalQuestions p.

(** No question has two recorded answers. *)
Definition OneAnswerEach (p : Page) : Prop :=
  NoDup (map questionId (answersRef p)).

(** The recorded answers are answers to questions of the exam, one
    a question. *)
Definition AnswersOfExam (p : Page) : Prop :=
  NoDup (map questionId (answersRef p))
  /\ incl (map questionId (answersRef p))
          (match exam p with
           | Some e => map id (questions e)
           | None => []
           end).

(** [n] ticks of the one-second interval *)
Fixpoint ticks (env : Env) (n : nat) : M Page unit :=
  match n with
  | O => ret tt
  | S n' => tick env ;; ticks env n'
  end.

(** [text.split(sep)] *)
Fixpoint split (sep : ascii) (s : jsstring) : list jsstring :=
  match s with
  | [] => [[]]
  | c :: s' =>
      if ascii_dec c sep then [] :: split sep s'
      else
        match split sep s' with
        | f :: fs => (c :: f) :: fs
        | [] => [[c]]
        end
  end.


(** What [readCurrentQuestion] has to say: the question, then every
    option of a multiple-choice question under its letter. *)
Fixpoint optionLines (index : nat) (opts : list jsstring) : list jsstring :=
  match opts with
  | [] => []
  | o :: opts' =>
      cat [lit "Option "; letter index; lit ": "; o; lit ". "]
      :: optionLines (S index) opts'
  end.

Definition questionLines (p : Page) : list jsstring :=
  match currentQuestion p with
  | None => []
  | Some q =>
      cat [lit "Question "; ofNat (currentQuestionIndexRef p + 1);
           lit ". "; question q; lit ". "]
      :: match qtype q, options q with
         | MultipleChoice, Some opts => optionLines 0 opts
         | _, _ => []
         end
  end.

(** The texts of [lines] up to the first one the speech service
    rejects, that one included. *)
Fixpoint upToRejected (env : Env) (lines : list jsstring)
  : list jsstring :=
  match lines with
  | [] => []
  | t :: lines' =>
      if ttsFails env t then [t] else t :: upToRejected env lines'
  end.

End ExamPageMoreProps.

Module HomePageProps.
Import JsString ScreenContext Dialog HomePage.

(** A sample home screen: two exams listed, one listener of the
    context, a student logged in. *)
Definition sampleHome : Page :=
  {| screenContextService :=
       {| currentScreenContext := HOME; listeners := [7] |};
     examsRef := [{| examId := lit "e1"; title := lit "Algebra" |};
                  {| examId := lit "e2"; title := lit "Botany" |}];
     uid := Some (lit "student-1");
     isProcessingCommandRef := false |}.

End HomePageProps.

(* ===================================================================== *)
(** * Vocabulary for further properties of the speech service *)
(* ===================================================================== *)

Module SpeechMoreProps.
Import JsString Speech SpeechProps.

(** The text most recently handed to the text-to-speech engine. *)
Definition lastSpoken (tr : list Output) : option jsstring :=
  last (map Some (spoken tr)) None.

Definition isCleanup (e : Event) : bool :=
  match e with
  | CallCleanup => true
  | _ => false
  end.

(** The continuation of [cleanup], which forgets the last message. *)
Definition cleansLater (k : Task) : bool :=
  match k with
  | CleanupRest _ => true
  | _ => false
  end.

(** The continuations and the timers of the service other than the
    silence timer and the continuation of [cleanup]. *)
Definition ordinary (k : Task) : bool :=
  match k with
  | SilenceTimeout | CleanupRest _ => false
  | _ => true
  end.

(** The service holds the last text it handed to the engine, and no
    [cleanup] is about to forget it. *)
Record Remembers (w : World) : Prop := {
  rm_last : getLastSpokenMessage w = lastSpoken (trace w);
  rm_pending : nonePending cleansLater w }.

(** The calls of the service to the callbacks of the application. *)
Definition isAppCall (o : Output) : bool :=
  match o with
  | SpeechEnd _ | RecognitionResult _ _ | RecognitionErrorCb _ _ => true
  | _ => false
  end.

Definition appCalls (tr : list Output) : list Output :=
  filter isAppCall tr.

(** The calls that register a callback. *)
Definition registers (e : Event) : bool :=
  match e with
  | CallSetOnSpeechEnd _ | CallSetOnRecognitionResult _
  | CallSetOnRecognitionError _ => true
  | _ => false
  end.

(** No callback is registered. *)
Definition Detached (w : World) : Prop :=
  onSpeechEndCallback (svc w) = None
  /\ onRecognitionResultCallback (svc w) = None
  /\ onRecognitionErrorCallback (svc w) = None.

Definition isSilenceTimer (t : Timer) : bool :=
  match task t with
  | SilenceTimeout => true
  | _ => false
  end.

(** The pending timers have distinct handles, all handed out already,
    and a pending silence timer is the one whose handle the service
    holds in [silenceTimeout]. *)
Record Tracked (w : World) : Prop := {
  tr_fresh : Forall (fun t => tid t < nextId w) (timers w);
  tr_distinct : NoDup (map tid (timers w));
  tr_silence :
    Forall (fun t => isSilenceTimer t = true ->
                     silenceTimeout (svc w) = Some (tid t))
           (timers w) }.

(** What a piece of the service leaves alone: the callbacks, unless it
    drops all three; the calls to the application, when none is
    registered; the tracking of the timers; and, unless it [talks], the
    last spoken message, the texts handed to the engine and the absence
    of a pending [cleanup]. *)
Record Same (talks : bool) (w w' : World) : Prop := {
  sm_last :
    talks = false ->
    lastSpokenMessage (svc w') = lastSpokenMessage (svc w);
  sm_spoken : talks = false -> spoken (trace w') = spoken (trace w);
  sm_pending :
    talks = false ->
    nonePending cleansLater w -> nonePending cleansLater w';
  sm_callbacks :
    Detached w'
    \/ (onSpeechEndCallback (svc w') = onSpeechEndCallback (svc w)
        /\ onRecognitionResultCallback (svc w')
           = onRecognitionResultCallback (svc w)
        /\ onRecognitionErrorCallback (svc w')
           = onRecognitionErrorCallback (svc w));
  sm_calls : Detached w -> appCalls (trace w') = appCalls (trace w);
  sm_tracked : Tracked w -> Tracked w' }.

(** [startListening], lines 152-167: the flag, the previous silence
    timer, the new one. *)
Definition armSilence (w : World) : World :=
  let w := this (setListening true) w in
  let w :=
    match silenceTimeout (svc w) with
    | Some id => clearTimeout id w
    | None => w
    end in
  let id := nextId w in
  let w := setTimeout SilenceTimeout (silenceTimeoutDuration (svc w)) w in
  this (setSilenceTimeout (Some id)) w.

(** The outputs which are neither an utterance nor a call to the
    application. *)
Definition quietOutput (o : Output) : bool :=
  negb (isTtsSpeak o) && negb (isAppCall o).

(** The calls which end a listening session. *)
Definition stops (e : Event) : bool :=
  match e with
  | CallStopListening | CallAbortListening => true
  | _ => false
  end.

(** A transcript as the application should receive it: not empty, and
    with no white space around it. *)
Definition cleanText (t : jsstring) : Prop := t <> [] /\ trim t = t.

Definition cleanTask (k : Task) : Prop :=
  match k with
  | DeliverResult t => cleanText t
  | _ => True
  end.

Definition cleanOutput (o : Output) : Prop :=
  match o with
  | RecognitionResult _ t => cleanText t
  | _ => True
  end.

(** Every transcript delivered, or waiting to be, is clean. *)
Record Clean (w : World) : Prop := {
  cl_timers : Forall (fun t => cleanTask (task t)) (timers w);
  cl_micro : Forall cleanTask (micro w);
  cl_trace : Forall cleanOutput (trace w) }.

(** The transcripts handed to [onRecognitionResultCallback], oldest
    first. *)
Fixpoint transcripts (tr : list Output) : list jsstring :=
  match tr with
  | [] => []
  | RecognitionResult _ t :: tr' => transcripts tr' ++ [t]
  | _ :: tr' => transcripts tr'
  end.

End SpeechMoreProps.

(* ===================================================================== *)
(** * Vocabulary for the properties of the exam service *)
(* ===================================================================== *)

Module ExamServiceProps.
Import JsString Grading ExamService.

(** [Math.floor(Math.random() * n)] lies in [0, n - 1]. *)
Definition lawful (random : Random) : Prop :=
  forall k n, 0 < n -> random k n < n.

(** A generator: the [k]-th draw below [n]. *)
Definition sampleRandom : Random := fun k n => (7 * k + 3) mod n.

(** The option that the index of a question marks as the correct one. *)
Definition keyed (q : Question) : option jsstring :=
  match options q with
  | Some opts => at_ opts (correctIndex q)
  | None => None
  end.

(** [q'] is [q] with its options in another order: the other fields
    that the student is asked about are the same, and the option that
    the index marks as correct has the same text. *)
Record Rearranged (q q' : Question) : Prop := {
  ra_id : id q' = id q;
  ra_question : question q' = question q;
  ra_text : text q' = text q;
  ra_type : type q' = type q;
  ra_expected : expectedAnswer q' = expectedAnswer q;
  ra_options :
    match options q, options q' with
    | Some opts, Some opts' => Permutation opts' opts
    | None, None => True
    | _, _ => False
    end;
  ra_keyed : forall a, keyed q = Some a -> keyed q' = Some a }.

(** [Number.MAX_SAFE_INTEGER] *)
Definition maxSafeInteger : Z := 9007199254740991.

(** What the attempt limit of an exam is meant to be, and what
    [canAttemptExam] does not check: a whole number, when there is
    one (and one that a number of JavaScript holds exactly). *)
Definition wholeLimit (m : option Q) : Prop :=
  match m with
  | Some q =>
      exists z : Z, (0 <= z <= maxSafeInteger)%Z /\ (q == inject_Z z)%Q
  | None => True
  end.

End ExamServiceProps.

(* ===================================================================== *)
(** * Vocabulary for the properties of the offline queue and the tracker *)
(* ===================================================================== *)

Module OfflineServiceProps.
Import JsString OfflineService.

Section Outcomes.
Variables (A G : Type).

(** The submissions that [submitFunction] accepts, and those it
    rejects, when it is called on each in turn from its [n]-th call. *)
Fixpoint accepted (submitFunction : nat -> bool) (n : nat)
         (pending : list (Submission A G)) : list (Submission A G) :=
  match pending with
  | [] => []
  | s :: pending' =>
      if submitFunction n then s :: accepted submitFunction (S n) pending'
      else accepted submitFunction (S n) pending'
  end.

Fixpoint rejected (submitFunction : nat -> bool) (n : nat)
         (pending : list (Submission A G)) : list (Submission A G) :=
  match pending with
  | [] => []
  | s :: pending' =>
      if submitFunction n then rejected submitFunction (S n) pending'
      else s :: rejected submitFunction (S n) pending'
  end.

(** One submission by exam and student. *)
Definition OnePerStudent (pending : list (Submission A G)) : Prop :=
  NoDup (map (fun p => (examId p, studentId p)) pending).

End Outcomes.

Definition noFaults : Faults :=
  {| getItemFails := false; setItemFails := false;
     removeItemFails := false |}.

(** A queue of two submissions, with the answers of both exams saved. *)
Definition sampleStorage : Storage nat nat nat nat :=
  {| cachedExams := None;
     pendingSubmissions :=
       Some [{| examId := lit "e1"; studentId := lit "s1"; answers := 1;
                gradingResults := 10; queuedAt := lit "t1" |};
             {| examId := lit "e2"; studentId := lit "s1"; answers := 2;
                gradingResults := 20; queuedAt := lit "t2" |}];
     offlineAnswers := [(lit "e1", 1); (lit "e2", 2)] |}.

End OfflineServiceProps.

Module MetricsProps.
Import JsString Metrics.

(** The methods of the tracker. *)
Inductive Call : Type :=
| StartQuestion (index : nat) (type : option jsstring)
| EndQuestion (wasAnswered : bool) (answerMethod : option jsstring)
| LogReadAloud
| LogVoiceAnswer (wasSuccessful : bool)
| LogVoiceCommand (command : jsstring) (wasRecognized : bool)
| LogAutoRead.

Definition call (t : Tracker) (c : Call) : Tracker :=
  match c with
  | StartQuestion index type => startQuestion index type t
  | EndQuestion answered method => endQuestion answered method t
  | LogReadAloud => logReadAloud t
  | LogVoiceAnswer wasSuccessful => logVoiceAnswer wasSuccessful t
  | LogVoiceCommand command wasRecognized =>
      logVoiceCommand command wasRecognized t
  | LogAutoRead => logAutoRead t
  end.

Definition calls (cs : list Call) : Tracker :=
  fold_left call cs createMetricsTracker.

(** The counts of a question stay within those of the session. *)
Definition Within (t : Tracker) (d : QuestionData) : Prop :=
  voiceRetries d <= voiceAnswerAttempts d
  /\ voiceAnswerAttempts d <= totalVoiceAnswers t
  /\ readAloudCount d <= totalReadAloudRequests t.

Record Consistent (t : Tracker) : Prop := {
  co_retries :
    totalVoiceRetries t <= totalVoiceAnswers t + totalVoiceCommands t;
  co_navigation :
    voiceNavigation (featuresUsed t) = (0 <? totalVoiceCommands t);
  co_answers : voiceAnswers (featuresUsed t) = (0 <? totalVoiceAnswers t);
  co_readAloud :
    readAloud (featuresUsed t) = (0 <? totalReadAloudRequests t);
  co_current :
    match currentQuestionData t with
    | Some d => Within t d
    | None => True
    end;
  co_recorded : Forall (Within t) (questionMetrics t);
  co_completed : completedQuestions t <= length (questionMetrics t) }.

End MetricsProps.
(* ===================================================================== *)
(** * Facts about strings and contexts *)
(* ===================================================================== *)

Section StringFacts.
Import JsString ScreenContext.

Lemma eqb_spec (a b : jsstring) : eqb a b = true <-> a = b.
Proof.
unfold eqb. destruct (list_eq_dec ascii_dec a b); split; congruence.
Qed.

Lemma eqb_refl (a : jsstring) : eqb a a = true.
Proof. now apply eqb_spec. Qed.

Lemma eqb_neq (a b : jsstring) : a <> b -> eqb a b = false.
Proof.
intro H. destruct (eqb a b) eqn:E; [|reflexivity].
now apply eqb_spec in E.
Qed.

Lemma sameContext_spec (a b : option jsstring) :
sameContext a b = true <-> a = b.
Proof.
destruct a as [x|], b as [y|]; simpl; try (split; congruence).
rewrite eqb_spec. split; congruence.
Qed.

Lemma sameContext_neq (a b : option jsstring) :
a <> b -> sameContext a b = false.
Proof.
intro H. destruct (sameContext a b) eqn:E; [|reflexivity].
now apply sameContext_spec in E.
Qed.

End StringFacts.



(* ===================================================================== *)
(** * The option letter *)
(* ===================================================================== *)

Section OptionLetter.
Import JsString Regex ExamCommand ExamCommandProps.

(** ** What a match captures *)

Lemma star_continues (A : Type) (cls : ascii -> bool)
    (k : pos -> option A) (s : jsstring) :
forall (b : option ascii) (res : A),
  star cls k b s = Some res -> exists p', k p' = Some res.
Proof.
induction s as [|c s IH]; intros b res H; cbn [star] in H.
- eauto.
- destruct (cls c); [|eauto].
  destruct (star cls k (Some c) s) eqn:E.
  + inversion H; subst. eauto.
  + eauto.
Qed.

(** A regular expression without a group hands the capture on. *)
Lemma run_groupFree (r : regex) :
groupFree r = true ->
forall p cap k res,
  run r p cap k = Some res -> exists p', k p' cap = Some res.
Proof.
induction r as [| |s|s|cls|cls|cls|r IH|r1 IH1 r2 IH2|r1 IH1 r2 IH2|r IH];
  intros G p cap k res H; cbn [run groupFree] in *.
- destruct (atWordBoundary p); [eauto|discriminate].
- destruct (rest p); [eauto|discriminate].
- destruct (litAt sameLetter (lit s) p); [eauto|discriminate].
- destruct (litAt sameChar (lit s) p); [eauto|discriminate].
- destruct (rest p) as [|c s']; [discriminate|].
  destruct (cls c); [eauto|discriminate].
- now apply star_continues in H.
- destruct (rest p) as [|c s']; [discriminate|].
  destruct (cls c); [|discriminate].
  now apply star_continues in H.
- destruct (run r p cap k) eqn:E.
  + inversion H; subst. eauto.
  + eauto.
- apply andb_prop in G. destruct G as [G1 G2].
  destruct (run r1 p cap k) eqn:E.
  + inversion H; subst. eauto.
  + eauto.
- apply andb_prop in G. destruct G as [G1 G2].
  apply IH1 in H; [|exact G1]. destruct H as [p' H].
  now apply IH2 in H.
- discriminate G.
Qed.

(** A regular expression of the option grammar captures one letter. *)
Lemma run_capturesLetter (r : regex) :
CapturesLetter r ->
forall p cap k res,
  run r p cap k = Some res ->
  exists p' c, letterAD c = true /\ k p' (Some [c]) = Some res.
Proof.
induction 1 as [|r1 r2 G1 C2 IH2|r1 r2 C1 IH1 G2];
  intros p cap k res H; cbn [run] in H.
- destruct (rest p) as [|c s'] eqn:E; [discriminate|].
  destruct (letterAD c) eqn:Hc; [|discriminate].
  cbn [rest length] in H.
  replace (S (length s') - length s') with 1 in H by lia.
  cbn [firstn] in H. eauto.
- apply (run_groupFree _ G1) in H. destruct H as [p' H].
  now apply IH2 in H.
- apply IH1 in H. destruct H as (p' & c & Hc & H).
  apply (run_groupFree _ G2) in H. destruct H as [p'' H]. eauto.
Qed.

Lemma matchAt_letter (r : regex) (p : pos) (m : result) :
CapturesLetter r -> matchAt r p = Some m ->
exists c, letterAD c = true /\ capture m = [c].
Proof.
intros C H. unfold matchAt in H.
apply (run_capturesLetter C) in H. destruct H as (p' & c & Hc & H).
inversion H; subst. exists c. now split.
Qed.

Lemma searchFrom_matchAt (r : regex) (s : jsstring) :
forall (b : option ascii) (m : result),
  searchFrom r b s = Some m -> exists p, matchAt r p = Some m.
Proof.
induction s as [|c s IH]; intros b m H; cbn [searchFrom] in H.
- destruct (matchAt r _) eqn:E; [|discriminate].
  inversion H; subst. eauto.
- destruct (matchAt r _) eqn:E.
  + inversion H; subst. eauto.
  + eauto.
Qed.

Lemma search_letter (r : regex) (s : jsstring) (m : result) :
CapturesLetter r -> search r s = Some m ->
exists c, letterAD c = true /\ capture m = [c].
Proof.
intros C H. apply searchFrom_matchAt in H. destruct H as [p H].
eauto using matchAt_letter.
Qed.

Lemma matchAllFrom_matchAt (r : regex) (s : jsstring) :
forall (skip : nat) (b : option ascii) (m : result),
  In m (matchAllFrom r skip b s) -> exists p, matchAt r p = Some m.
Proof.
induction s as [|c s IH]; intros skip b m H.
- destruct skip; cbn [matchAllFrom] in H; [|destruct H].
  destruct (matchAt r _) eqn:E; [|destruct H].
  destruct H as [->|[]]. eauto.
- destruct skip; cbn [matchAllFrom] in H; [|eauto].
  destruct (matchAt r _) eqn:E; [|eauto].
  destruct H as [->|H]; eauto.
Qed.

Lemma optionLetter_captures : CapturesLetter optionLetter.
Proof. apply captures_after; [reflexivity|constructor]. Qed.

Lemma selectAtEnd_captures : CapturesLetter selectAtEnd.
Proof.
unfold selectAtEnd.
do 3 (apply captures_after; [reflexivity|]).
apply captures_before; [apply optionLetter_captures|reflexivity].
Qed.

Lemma optionAtEnd_captures : CapturesLetter optionAtEnd.
Proof.
unfold optionAtEnd. apply captures_after; [reflexivity|].
apply captures_before; [apply optionLetter_captures|reflexivity].
Qed.

Lemma optionWord_captures : CapturesLetter optionWord.
Proof.
unfold optionWord. apply captures_after; [reflexivity|].
apply captures_before; [apply optionLetter_captures|reflexivity].
Qed.

(** The letter of a match is one of A, B, C and D. *)
Lemma letterOf_option (m : result) (c : ascii) :
letterAD c = true -> capture m = [c] -> In (letterOf m) optionLetters.
Proof.
intros Hc Hm. unfold letterOf. rewrite Hm. cbn [toUpperCase map].
unfold letterAD, between in Hc.
apply andb_prop in Hc. destruct Hc as [H1 H2].
apply Nat.leb_le in H1, H2.
assert (E : upperChar c = ascii_of_nat (code (upperChar c)))
  by (unfold code; now rewrite ascii_nat_embedding).
rewrite E.
assert (Hn : code (upperChar c) = 65 \/ code (upperChar c) = 66
             \/ code (upperChar c) = 67 \/ code (upperChar c) = 68)
  by lia.
unfold optionLetters.
destruct Hn as [-> | [-> | [-> | ->]]]; cbn; auto.
Qed.

Lemma search_option (r : regex) (s : jsstring) (m : result) :
CapturesLetter r -> search r s = Some m ->
In (letterOf m) optionLetters.
Proof.
intros C H. destruct (search_letter s C H) as (c & Hc & Hm).
eauto using letterOf_option.
Qed.

Lemma option_set (l : jsstring) :
In l optionLetters -> unset (Some l) = false.
Proof.
unfold optionLetters. intros [<-|[<-|[<-|[<-|[]]]]]; reflexivity.
Qed.

Lemma last_rev (A : Type) (l : list A) (d : A) :
last l d = match rev l with x :: _ => x | [] => d end.
Proof.
induction l as [|a l IH] using rev_ind; [reflexivity|].
rewrite last_last, rev_app_distr. reflexivity.
Qed.


(** ** Where a match ends *)

(** [p'] lies further in the subject than [p]. *)
Lemma litAt_further (same : ascii -> ascii -> bool) (l : jsstring) :
forall p p', litAt same l p = Some p' -> Further p p'.
Proof.
induction l as [|a l IH]; intros p p' H; cbn [litAt] in H.
- inversion H; subst. now exists [].
- destruct (rest p) as [|c s'] eqn:E; [discriminate|].
  destruct (same a c); [|discriminate].
  apply IH in H. destruct H as [u Hu]. cbn [rest] in Hu.
  exists (c :: u). rewrite E, Hu. reflexivity.
Qed.

Lemma further_refl (p : pos) : Further p p.
Proof. now exists []. Qed.

Lemma further_trans (p q r : pos) : Further p q -> Further q r -> Further p r.
Proof.
intros [u Hu] [v Hv]. exists (u ++ v). rewrite Hu, Hv.
now rewrite app_assoc.
Qed.

(** What [cls*] consumes is a run of [cls]. *)
Lemma star_run (A : Type) (cls : ascii -> bool)
    (k : pos -> option A) (s : jsstring) :
forall (b : option ascii) (res : A),
  star cls k b s = Some res ->
  exists u p', s = u ++ rest p' /\ forallb cls u = true
               /\ k p' = Some res.
Proof.
induction s as [|c s IH]; intros b res H; cbn [star] in H.
- exists [], {| before := b; rest := [] |}. now repeat split.
- destruct (cls c) eqn:Hc.
  + destruct (star cls k (Some c) s) eqn:E.
    * inversion H; subst. apply IH in E.
      destruct E as (u & p' & Hs & Hu & Hk).
      exists (c :: u), p'. cbn [forallb app]. rewrite Hc, Hu, Hs.
      now repeat split.
    * exists [], {| before := b; rest := c :: s |}. now repeat split.
  + exists [], {| before := b; rest := c :: s |}. now repeat split.
Qed.

Lemma run_further (r : regex) :
groupFree r = true ->
forall p cap k res,
  run r p cap k = Some res ->
  exists p', Further p p' /\ k p' cap = Some res.
Proof.
induction r as [| |s|s|cls|cls|cls|r IH|r1 IH1 r2 IH2|r1 IH1 r2 IH2|r IH];
  intros G p cap k res H; cbn [run groupFree] in *.
- destruct (atWordBoundary p); [|discriminate].
  eauto using further_refl.
- destruct (rest p); [|discriminate]. eauto using further_refl.
- destruct (litAt sameLetter (lit s) p) eqn:E; [|discriminate].
  eauto using litAt_further.
- destruct (litAt sameChar (lit s) p) eqn:E; [|discriminate].
  eauto using litAt_further.
- destruct (rest p) as [|c s'] eqn:E; [discriminate|].
  destruct (cls c); [|discriminate].
  eexists. split; [|exact H]. exists [c]. now rewrite E.
- apply star_run in H. destruct H as (u & p' & Hs & _ & Hk).
  exists p'. split; [now exists u|exact Hk].
- destruct (rest p) as [|c s'] eqn:E; [discriminate|].
  destruct (cls c); [|discriminate].
  apply star_run in H. destruct H as (u & p' & Hs & _ & Hk).
  exists p'. split; [|exact Hk]. exists (c :: u). now rewrite E, Hs.
- destruct (run r p cap k) eqn:E.
  + inversion H; subst. eauto.
  + eauto using further_refl.
- apply andb_prop in G. destruct G as [G1 G2].
  destruct (run r1 p cap k) eqn:E.
  + inversion H; subst. eauto.
  + eauto.
- apply andb_prop in G. destruct G as [G1 G2].
  apply IH1 in H; [|exact G1]. destruct H as (p' & F1 & H).
  apply IH2 in H; [|exact G2]. destruct H as (p'' & F2 & H).
  eauto using further_trans.
- discriminate G.
Qed.

Lemma run_seq (r1 r2 : regex) (p : pos) (cap : option jsstring)
    (k : pos -> option jsstring -> option result) :
run (Seq r1 r2) p cap k = run r1 p cap (fun p' cap' => run r2 p' cap' k).
Proof. reflexivity. Qed.

(** A match of an end pattern captures the last character of the subject
  that is not white space. *)
Lemma endPattern_run (r : regex) :
EndPattern r ->
forall p cap m,
  run r p cap (fun p' cap' => Some {| stop := p'; group1 := cap' |})
  = Some m ->
  exists u c v, rest p = u ++ c :: v /\ forallb isSpace v = true
                /\ letterAD c = true /\ capture m = [c].
Proof.
induction 1 as [|r1 r2 G E IH]; intros p cap m H.
- rewrite run_seq in H. unfold optionLetter in H. rewrite run_seq in H.
  apply (@run_further (Opt (Lit "option" +> Plus isSpace)%re) eq_refl) in H.
  destruct H as (p2 & [u2 F2] & H). cbn [run] in H.
  destruct (rest p2) as [|c s3] eqn:E; [discriminate|].
  destruct (letterAD c) eqn:Hc; [|discriminate].
  cbn [rest length] in H.
  replace (S (length s3) - length s3) with 1 in H by lia.
  cbn [firstn before rest] in H.
  apply star_run in H. destruct H as (v & p4 & Hs & Hv & H).
  destruct (rest p4) eqn:E4; [|discriminate].
  inversion H; subst. rewrite app_nil_r in *.
  exists u2, c, v. now repeat split.
- rewrite run_seq in H.
  apply (run_further _ G) in H. destruct H as (p1 & [u1 F1] & H).
  apply IH in H. destruct H as (u & c & v & Hr & Hv & Hc & Hm).
  exists (u1 ++ u), c, v. rewrite F1, Hr, <- app_assoc.
  now repeat split.
Qed.

Lemma selectAtEnd_end : EndPattern selectAtEnd.
Proof.
unfold selectAtEnd. do 3 (apply end_after; [reflexivity|]). constructor.
Qed.

Lemma optionAtEnd_end : EndPattern optionAtEnd.
Proof.
unfold optionAtEnd. apply end_after; [reflexivity|]. constructor.
Qed.

Lemma searchFrom_position (r : regex) (s : jsstring) :
forall (b : option ascii) (m : result),
  searchFrom r b s = Some m ->
  exists z p, s = z ++ rest p /\ matchAt r p = Some m.
Proof.
induction s as [|c s IH]; intros b m H; cbn [searchFrom] in H.
- destruct (matchAt r _) eqn:E; [|discriminate].
  inversion H; subst. exists [], {| before := b; rest := [] |}. now split.
- destruct (matchAt r _) eqn:E.
  + inversion H; subst.
    exists [], {| before := b; rest := c :: s |}. now split.
  + apply IH in H. destruct H as (z & p & Hs & Hm).
    exists (c :: z), p. rewrite Hs. now split.
Qed.

Lemma last_nonempty (A : Type) (l : list A) :
forall x d d', last (x :: l) d = last (x :: l) d'.
Proof.
induction l as [|y l IH]; intros x d d'; [reflexivity|].
change (last (y :: l) d = last (y :: l) d'). apply IH.
Qed.

(** The search does not miss a match. *)
Lemma searchFrom_complete (r : regex) (z : jsstring) :
forall (b : option ascii) (s : jsstring),
  searchFrom r b (z ++ s) = None ->
  matchAt r {| before := last (map Some z) b; rest := s |} = None.
Proof.
induction z as [|c z IH]; intros b s H.
- cbn [app map last] in *. destruct s; cbn [searchFrom] in H;
    destruct (matchAt r _); congruence.
- cbn [app searchFrom] in H.
  destruct (matchAt r _); [discriminate|].
  apply IH in H.
  replace (last (map Some (c :: z)) b) with (last (map Some z) (Some c));
    [exact H|].
  cbn [map]. destruct z as [|a z]; [reflexivity|].
  cbn [map]. rewrite (last_nonempty _ _ (Some c) b). reflexivity.
Qed.

Lemma letterAD_word (x : ascii) : letterAD x = true -> isWord x = true.
Proof.
unfold letterAD, isWord, isUpper, isLower, upperChar, hasUpper, isLower,
  between.
intro H.
destruct ((97 <=? code x) && (code x <=? 122)) eqn:L; cbn [orb] in *.
- now rewrite orb_true_r.
- destruct (_ && negb _) eqn:E; cbn [orb] in *.
  + unfold code in *. rewrite nat_ascii_embedding in H.
    * apply andb_prop in E. destruct E as [E _].
      apply andb_prop in E. destruct E as [E1 E2].
      apply andb_prop in H. destruct H as [H1 H2].
      apply Nat.leb_le in E1, H2. lia.
    * apply andb_prop in E. destruct E as [E _].
      apply andb_prop in E. destruct E as [E1 E2].
      apply Nat.leb_le in E1, E2. lia.
  + apply andb_prop in H. destruct H as [H1 H2].
    apply Nat.leb_le in H1, H2.
    replace (65 <=? code x) with true by (symmetry; apply Nat.leb_le; lia).
    replace (code x <=? 90) with true by (symmetry; apply Nat.leb_le; lia).
    reflexivity.
Qed.

Lemma letterAD_not_space (x : ascii) :
letterAD x = true -> isSpace x = false.
Proof.
intro H. destruct (isSpace x) eqn:S; [|reflexivity].
exfalso. revert H S.
unfold letterAD, isSpace, upperChar, hasUpper, isLower, between.
destruct ((97 <=? code x) && (code x <=? 122)) eqn:L; cbn [orb].
- apply andb_prop in L. destruct L as [L1 L2].
  apply Nat.leb_le in L1, L2. intros _ S.
  repeat (apply orb_prop in S; destruct S as [S|S]).
  + apply andb_prop in S. destruct S as [_ S]. apply Nat.leb_le in S. lia.
  + apply Nat.eqb_eq in S. lia.
  + apply Nat.eqb_eq in S. lia.
- destruct (_ && negb _) eqn:E.
  + apply andb_prop in E. destruct E as [E _].
    apply andb_prop in E. destruct E as [E1 E2].
    apply Nat.leb_le in E1, E2.
    intros _ S.
    repeat (apply orb_prop in S; destruct S as [S|S]).
    * apply andb_prop in S. destruct S as [_ S].
      apply Nat.leb_le in S. lia.
    * apply Nat.eqb_eq in S. lia.
    * apply Nat.eqb_eq in S. lia.
  + intros H S. apply andb_prop in H. destruct H as [H1 H2].
    apply Nat.leb_le in H1, H2.
    repeat (apply orb_prop in S; destruct S as [S|S]).
    * apply andb_prop in S. destruct S as [_ S].
      apply Nat.leb_le in S. lia.
    * apply Nat.eqb_eq in S. lia.
    * apply Nat.eqb_eq in S. lia.
Qed.

(** In a subject that ends with the letter [x], an end pattern can only
  capture [x]. *)
Lemma endPattern_captures_last (r : regex) (pre : jsstring)
    (x : ascii) (m : result) :
EndPattern r ->
letterAD x = true ->
search r (pre ++ [x]) = Some m ->
capture m = [x].
Proof.
intros G Hx H. unfold search in H.
apply searchFrom_position in H. destruct H as (z & p & Hs & H).
apply (endPattern_run G) in H.
destruct H as (u & c & v & Hr & Hv & Hc & Hm).
rewrite Hr in Hs. rewrite Hm.
destruct v as [|y v] using rev_ind.
- replace (z ++ u ++ [c]) with ((z ++ u) ++ [c]) in Hs
    by now rewrite <- app_assoc.
  apply app_inj_tail in Hs. destruct Hs as [_ <-]. reflexivity.
- exfalso.
  replace (z ++ u ++ c :: v ++ [y]) with ((z ++ u ++ c :: v) ++ [y]) in Hs
    by (now rewrite <- !app_assoc).
  apply app_inj_tail in Hs. destruct Hs as [_ <-].
  rewrite forallb_app in Hv. apply andb_prop in Hv. destruct Hv as [_ Hv].
  cbn [forallb] in Hv. rewrite (letterAD_not_space _ Hx) in Hv.
  discriminate Hv.
Qed.

(** The bare letter at the end of the subject matches [optionAtEnd]. *)
Lemma optionAtEnd_at_last (b : option ascii) (x : ascii) :
wordAt b = false -> letterAD x = true ->
matchAt optionAtEnd {| before := b; rest := [x] |} <> None.
Proof.
intros Hb Hx. unfold matchAt, optionAtEnd, optionLetter.
cbn [run]. unfold atWordBoundary. cbn [before rest hd_error wordAt].
rewrite Hb, (letterAD_word _ Hx). cbn [xorb].
assert (L : forall k,
           match litAt sameLetter (lit "option")
                       {| before := b; rest := [x] |} with
           | Some p' => k p'
           | None => None
           end = (None : option result)).
{ intro k. cbn [lit list_ascii_of_string litAt rest].
  destruct (sameLetter "o" x); reflexivity. }
rewrite L. cbn [rest]. rewrite Hx. cbn [star rest]. discriminate.
Qed.

(** Whatever precedes it, a lone letter that ends the command is the
  letter chosen. *)
Lemma lone_letter_at_end (pre : jsstring) (x : ascii) :
letterAD x = true ->
wordAt (last (map Some pre) None) = false ->
selectLetter (pre ++ [x]) = Some [upperChar x].
Proof.
intros Hx Hb.
unfold selectLetter, endPatterns. cbn [firstEndMatch]. cbv zeta.
destruct (search selectAtEnd (pre ++ [x])) as [m|] eqn:E1.
{ unfold letterOf.
  rewrite (@endPattern_captures_last _ pre x m selectAtEnd_end Hx E1).
  cbn [toUpperCase map unset]. reflexivity. }
destruct (search optionAtEnd (pre ++ [x])) as [m|] eqn:E2.
{ unfold letterOf.
  rewrite (@endPattern_captures_last _ pre x m optionAtEnd_end Hx E2).
  cbn [toUpperCase map unset]. reflexivity. }
exfalso. unfold search in E2. apply searchFrom_complete in E2.
now apply (@optionAtEnd_at_last _ x Hb Hx).
Qed.

Lemma last_some_cons (c : ascii) (z : jsstring) (b : option ascii) :
last (map Some (c :: z)) b = last (map Some z) (Some c).
Proof.
cbn [map]. destruct z as [|a z]; [reflexivity|].
cbn [map]. rewrite (last_nonempty _ _ (Some c) b). reflexivity.
Qed.

Lemma last_some_app (u v : jsstring) (b : option ascii) :
last (map Some (u ++ v)) b = last (map Some v) (last (map Some u) b).
Proof.
revert b. induction u as [|c u IH]; intro b; [reflexivity|].
change ((c :: u) ++ v) with (c :: (u ++ v)).
now rewrite !last_some_cons, IH.
Qed.

(** What a literal consumes, and where the match stands then. *)
Lemma litAt_run (same : ascii -> ascii -> bool) (l : jsstring) :
forall p p',
  litAt same l p = Some p' ->
  exists u, rest p = u ++ rest p'
            /\ Forall2 (fun a c => same a c = true) l u
            /\ before p' = last (map Some u) (before p).
Proof.
induction l as [|a l IH]; intros p p' H; cbn [litAt] in H.
- inversion H; subst. exists []. repeat split. constructor.
- destruct (rest p) as [|c s'] eqn:E; [discriminate|].
  destruct (same a c) eqn:S; [|discriminate].
  apply IH in H. destruct H as (u & Hu & F & B). cbn [rest before] in *.
  exists (c :: u). rewrite Hu, last_some_cons. repeat split; auto.
Qed.

(** What [cls*] consumes, and where the match stands then. *)
Lemma star_run_before (A : Type) (cls : ascii -> bool)
    (k : pos -> option A) (s : jsstring) :
forall (b : option ascii) (res : A),
  star cls k b s = Some res ->
  exists u t, s = u ++ t /\ forallb cls u = true
              /\ k {| before := last (map Some u) b; rest := t |}
                 = Some res.
Proof.
induction s as [|c s IH]; intros b res H; cbn [star] in H.
- exists [], []. now repeat split.
- destruct (cls c) eqn:Hc.
  + destruct (star cls k (Some c) s) eqn:E.
    * inversion H; subst. apply IH in E.
      destruct E as (u & t & Hs & Hu & Hk).
      exists (c :: u), t. cbn [forallb app].
      rewrite Hc, Hu, Hs, last_some_cons. now repeat split.
    * exists [], (c :: s). now repeat split.
  + exists [], (c :: s). now repeat split.
Qed.

Lemma sameLetter_letterAD (a c : ascii) :
sameLetter a c = true -> letterAD c = letterAD a.
Proof.
unfold sameLetter, letterAD.
destruct (ascii_dec (upperChar a) (upperChar c)) as [E|]; [|discriminate].
now rewrite E.
Qed.

Lemma space_not_word (c : ascii) : isSpace c = true -> isWord c = false.
Proof.
unfold isSpace, isWord, isUpper, isLower, isDigit, between. intro S.
repeat (apply orb_prop in S; destruct S as [S|S]).
- apply andb_prop in S. destruct S as [S1 S2].
  apply Nat.leb_le in S1, S2.
  repeat match goal with
         | |- context [?a <=? ?b] =>
             destruct (Nat.leb_spec a b); try lia
         | |- context [?a =? ?b] =>
             destruct (Nat.eqb_spec a b); try lia
         end; reflexivity.
- apply Nat.eqb_eq in S. rewrite S. reflexivity.
- apply Nat.eqb_eq in S. rewrite S. reflexivity.
Qed.

Lemma space_not_letterAD (c : ascii) : isSpace c = true -> letterAD c = false.
Proof.
intro S. destruct (letterAD c) eqn:L; [|reflexivity].
apply letterAD_not_space in L. congruence.
Qed.

Lemma sameLetter_noLetter (l u : jsstring) :
Forall2 (fun a c => sameLetter a c = true) l u ->
forallb (fun c => negb (letterAD c)) l = true ->
forallb (fun c => negb (letterAD c)) u = true.
Proof.
induction 1 as [|a c l u Hac F IH]; intro N; [reflexivity|].
cbn [forallb] in *. apply andb_prop in N. destruct N as [Na N].
now rewrite (sameLetter_letterAD _ _ Hac), Na, IH.
Qed.

(** The optional prefix of [optionLetter]: nothing, or "option" and
  white space, which hold no letter match and end on a boundary. *)
Lemma optionPrefix_run (p : pos) (cap : option jsstring)
    (k : pos -> option jsstring -> option result) (res : result) :
run (Opt (Lit "option" +> Plus isSpace)%re) p cap k = Some res ->
k p cap = Some res
\/ exists u t,
     rest p = u ++ t
     /\ forallb (fun c => negb (letterAD c)) u = true
     /\ wordAt (last (map Some u) (before p)) = false
     /\ k {| before := last (map Some u) (before p); rest := t |} cap
        = Some res.
Proof.
intro H. cbn [run] in H.
destruct (litAt sameLetter (lit "option") p) as [p1|] eqn:L; [|now left].
destruct (rest p1) as [|c s1] eqn:R1; [now left|].
destruct (isSpace c) eqn:Sc; [|now left].
destruct (star isSpace _ (Some c) s1) as [r|] eqn:S; [|now left].
inversion H; subst r. right.
apply litAt_run in L. destruct L as (u & Hu & F & B).
apply star_run_before in S. destruct S as (v & t & Hv & Sv & Hk).
exists (u ++ c :: v), t.
assert (Lv : last (map Some (u ++ c :: v)) (before p)
             = last (map Some v) (Some c)).
{ now rewrite last_some_app, last_some_cons. }
rewrite Lv. repeat split.
- rewrite Hu, R1, Hv, <- app_assoc. reflexivity.
- rewrite forallb_app. apply andb_true_intro. split.
  + now apply (sameLetter_noLetter F).
  + cbn [forallb]. rewrite (space_not_letterAD _ Sc). cbn [negb andb].
    clear - Sv. induction v as [|y v IH]; [reflexivity|].
    cbn [forallb] in *. apply andb_prop in Sv. destruct Sv as [Sy Sv].
    now rewrite (space_not_letterAD _ Sy), IH.
- assert (Hl : exists y, last (map Some v) (Some c) = Some y
                         /\ isSpace y = true).
  { clear - Sc Sv. revert c Sc.
    induction v as [|y v IH]; intros c Sc; [exists c; now split|].
    cbn [forallb] in Sv. apply andb_prop in Sv. destruct Sv as [Sy Sv].
    rewrite last_some_cons. now apply IH. }
  destruct Hl as (y & -> & Sy). cbn [wordAt]. now apply space_not_word.
- exact Hk.
Qed.

Lemma run_wordB (p : pos) (cap : option jsstring)
    (k : pos -> option jsstring -> option result) :
run WordB p cap k = if atWordBoundary p then k p cap else None.
Proof. reflexivity. Qed.

Lemma run_group (r : regex) (p : pos) (cap : option jsstring)
    (k : pos -> option jsstring -> option result) :
run (Group r) p cap k
= run r p cap
      (fun p' _ =>
         k p' (Some (firstn (length (rest p) - length (rest p'))
                            (rest p)))).
Proof. reflexivity. Qed.

Lemma run_set (cls : ascii -> bool) (p : pos) (cap : option jsstring)
    (k : pos -> option jsstring -> option result) :
run (Set_ cls) p cap k
= match rest p with
  | c :: s' =>
      if cls c then k {| before := Some c; rest := s' |} cap else None
  | [] => None
  end.
Proof. reflexivity. Qed.

(** A match of [optionWord] captures a letter match of the subject, and
  stops behind it; no letter match lies before it. *)
Lemma optionWord_match (b : option ascii) (s : jsstring) (m : result) :
matchAt optionWord {| before := b; rest := s |} = Some m ->
exists u x t,
  s = u ++ x :: t
  /\ forallb (fun c => negb (letterAD c)) u = true
  /\ letterAD x = true
  /\ wordAt (last (map Some u) b) = false
  /\ wordAt (hd_error t) = false
  /\ capture m = [x]
  /\ rest (stop m) = t.
Proof.
unfold matchAt, optionWord. rewrite run_seq, run_wordB.
assert (K : forall p,
           run (Group (Set_ letterAD)) p None
               (fun p' cap' =>
                  run WordB p' cap'
                      (fun p'' cap'' =>
                         Some {| stop := p''; group1 := cap'' |}))
           = Some m ->
           exists x t, rest p = x :: t /\ letterAD x = true
                       /\ wordAt (hd_error t) = false
                       /\ capture m = [x] /\ rest (stop m) = t).
{ intros p Hp. rewrite run_group, run_set in Hp.
  destruct (rest p) as [|x t]; [discriminate|].
  destruct (letterAD x) eqn:Lx; [|discriminate].
  rewrite run_wordB in Hp.
  destruct (atWordBoundary _) eqn:Wx; [|discriminate].
  injection Hp as <-. exists x, t. unfold capture.
  cbn [rest group1 stop].
  unfold atWordBoundary in Wx. cbn [before rest wordAt] in Wx. 
  rewrite (letterAD_word _ Lx) in Wx.
  destruct (wordAt (hd_error t)); [discriminate|].
  repeat split; auto.
  destruct (length t) as [|n]; [reflexivity|].
  replace (S n - n) with 1 by lia. reflexivity. }
destruct (atWordBoundary _) eqn:W; [|discriminate].
rewrite run_seq. unfold optionLetter. rewrite run_seq.
intro H. apply optionPrefix_run in H.
destruct H as [H|(u & t & Hu & Nu & Wu & H)].
- apply K in H. cbn [rest] in H.
  destruct H as (x & t & -> & Lx & Wt & Cm & Sm).
  exists [], x, t. cbn [app forallb map last].
  unfold atWordBoundary in W. cbn [before rest hd_error wordAt] in W.
  rewrite (letterAD_word _ Lx) in W.
  destruct (wordAt b); [discriminate|]. now repeat split.
- apply K in H. cbn [rest before] in *.
  destruct H as (x & t' & -> & Lx & Wt & Cm & Sm).
  exists u, x, t'. now repeat split.
Qed.

(** A letter match is matched where it stands. *)
Lemma optionWord_at_letter (b : option ascii) (x : ascii) (t : jsstring) :
letterAD x = true -> wordAt b = false -> wordAt (hd_error t) = false ->
matchAt optionWord {| before := b; rest := x :: t |} <> None.
Proof.
intros Lx Wb Wt. unfold matchAt, optionWord, optionLetter. cbn [run].
unfold atWordBoundary. cbn [before rest hd_error wordAt].
rewrite Wb, Wt, (letterAD_word _ Lx), Lx. cbn [xorb].
destruct (match litAt sameLetter (lit "option") _ with
          | Some _ => _ | None => _ end); discriminate.
Qed.

(** ** The letter matches of a command *)

Lemma letterMatches_skip (u t : jsstring) :
forall b,
  forallb (fun c => negb (letterAD c)) u = true ->
  letterMatches b (u ++ t) = letterMatches (last (map Some u) b) t.
Proof.
induction u as [|c u IH]; intros b N; [reflexivity|].
cbn [app letterMatches forallb] in *.
apply andb_prop in N. destruct N as [Nc N].
apply negb_true_iff in Nc. rewrite Nc. cbn [andb].
rewrite last_some_cons. now apply IH.
Qed.

Lemma letterMatches_letter (b : option ascii) (x : ascii) (t : jsstring) :
letterAD x = true -> wordAt b = false -> wordAt (hd_error t) = false ->
letterMatches b (x :: t) = x :: letterMatches (Some x) t.
Proof. intros Lx Wb Wt. cbn [letterMatches]. now rewrite Lx, Wb, Wt. Qed.

Lemma letterMatches_none (b : option ascii) (c : ascii) (t : jsstring) :
matchAt optionWord {| before := b; rest := c :: t |} = None ->
letterMatches b (c :: t) = letterMatches (Some c) t.
Proof.
intro H. cbn [letterMatches].
destruct (letterAD c && negb (wordAt b) && negb (wordAt (hd_error t)))
  eqn:E; [|reflexivity].
exfalso. apply andb_prop in E. destruct E as [E Wt].
apply andb_prop in E. destruct E as [Lc Wb].
apply negb_true_iff in Wb, Wt.
now apply (@optionWord_at_letter b c t Lc Wb Wt).
Qed.

Lemma optionWord_nil (b : option ascii) :
matchAt optionWord {| before := b; rest := [] |} = None.
Proof.
destruct (matchAt optionWord _) as [m|] eqn:E; [|reflexivity].
apply optionWord_match in E. destruct E as (u & x & t & Hs & _).
destruct u; discriminate Hs.
Qed.

(** The leftmost match of [optionWord] captures the first letter match
  of the subject. *)
Lemma searchFrom_optionWord (s : jsstring) :
forall b,
  option_map capture (searchFrom optionWord b s)
  = option_map (fun x => [x]) (hd_error (letterMatches b s)).
Proof.
induction s as [|c s IH]; intro b; cbn [searchFrom].
- now rewrite optionWord_nil.
- destruct (matchAt optionWord _) as [m|] eqn:E.
  + apply optionWord_match in E.
    destruct E as (u & x & t & Hs & Nu & Lx & Wu & Wt & Cm & Sm).
    rewrite Hs, (@letterMatches_skip u (x :: t) b Nu),
      (@letterMatches_letter _ x t Lx Wu Wt).
    cbn [option_map hd_error]. now rewrite Cm.
  + rewrite (@letterMatches_none b c s E). apply IH.
Qed.

(** Stepping over the rest of the previous match. *)
Lemma matchAllFrom_skip (r : regex) (v t : jsstring) :
forall b,
  matchAllFrom r (length v) b (v ++ t)
  = matchAllFrom r 0 (last (map Some v) b) t.
Proof.
induction v as [|c v IH]; intro b; [reflexivity|].
cbn [length app matchAllFrom]. now rewrite IH, last_some_cons.
Qed.

(** The successive matches of [optionWord] capture the letter matches
  of the subject, one after the other. *)
Lemma matchAllFrom_optionWord (n : nat) :
forall s b,
  length s <= n ->
  map capture (matchAllFrom optionWord 0 b s)
  = map (fun x => [x]) (letterMatches b s).
Proof.
induction n as [|n IH]; intros s b L.
- destruct s; [|cbn [length] in L; lia].
  cbn [matchAllFrom]. now rewrite optionWord_nil.
- destruct s as [|c s].
  { cbn [matchAllFrom]. now rewrite optionWord_nil. }
  cbn [length] in L. cbn [matchAllFrom].
  destruct (matchAt optionWord _) as [m|] eqn:E.
  + apply optionWord_match in E.
    destruct E as (u & x & t & Hs & Nu & Lx & Wu & Wt & Cm & Sm).
    rewrite Hs at 2. rewrite (@letterMatches_skip u (x :: t) b Nu),
      (@letterMatches_letter _ x t Lx Wu Wt).
    cbn [map]. rewrite Cm, Sm. f_equal.
    destruct u as [|c' u]; cbn [app] in Hs; injection Hs as Hc Ht;
      subst c s.
    * cbn [length].
      replace (pred (S (length t) - length t)) with 0 by lia.
      apply IH. lia.
    * replace (pred (length (c' :: u ++ x :: t) - length t))
        with (length (u ++ [x]))
        by (cbn [length]; rewrite !length_app; cbn [length]; lia).
      replace (u ++ x :: t) with ((u ++ [x]) ++ t)
        by (now rewrite <- app_assoc).
      rewrite matchAllFrom_skip, last_some_app. cbn [map last].
      apply IH. rewrite length_app in L. cbn [length] in L. lia.
  + rewrite (@letterMatches_none b c s E). apply IH. lia.
Qed.

Lemma matchAll_optionWord (s : jsstring) :
map capture (matchAll optionWord s)
= map (fun x => [x]) (letterMatches None s).
Proof. apply (@matchAllFrom_optionWord (length s)). lia. Qed.

Lemma sliceLast_finalChars (n : nat) (s : jsstring) :
sliceLast n s = finalChars n s.
Proof.
unfold sliceLast, finalChars. now rewrite firstn_rev, rev_involutive.
Qed.

Lemma last_map_some (A B : Type) (f : A -> B) (l : list A) :
option_map f (last (map Some l) None) = last (map Some (map f l)) None.
Proof.
induction l as [|a l IH] using rev_ind; [reflexivity|].
rewrite !map_app. cbn [map]. now rewrite !last_last.
Qed.

(** (b) is the first letter match of the final 15 characters. *)
Lemma withinFinal15_first (command : jsstring) :
withinFinal15 command = firstInFinal15 command.
Proof.
unfold withinFinal15, firstInFinal15, search.
rewrite sliceLast_finalChars.
pose proof (@searchFrom_optionWord (finalChars 15 command) None) as H.
destruct (searchFrom optionWord None _) as [m|];
  destruct (hd_error _) as [x|]; try discriminate H; [|reflexivity].
cbn [option_map] in *. unfold letterOf, letterName.
inversion H as [Hm]. now rewrite Hm.
Qed.

(** (c) is the last letter match of the command. *)
Lemma lastAnywhere_last (command : jsstring) :
lastAnywhere command = lastOccurrence command.
Proof.
unfold lastAnywhere, lastOccurrence. rewrite !last_map_some.
f_equal. f_equal.
pose proof (matchAll_optionWord command) as H.
apply (f_equal (map toUpperCase)) in H. rewrite !map_map in H.
exact H.
Qed.


(** ** The letter at the tail *)

Lemma searchFrom_where (r : regex) (s : jsstring) :
forall (b : option ascii) (m : result),
  searchFrom r b s = Some m ->
  exists z t,
    s = z ++ t
    /\ matchAt r {| before := last (map Some z) b; rest := t |} = Some m.
Proof.
induction s as [|c s IH]; intros b m H; cbn [searchFrom] in H.
- destruct (matchAt r _) eqn:E; [|discriminate].
  inversion H; subst. exists [], []. now split.
- destruct (matchAt r _) eqn:E.
  + inversion H; subst. exists [], (c :: s). now split.
  + apply IH in H. destruct H as (z & t & Hs & Hm).
    exists (c :: z), t. rewrite Hs, last_some_cons. now split.
Qed.

(** The letter, white space and the end of the subject: the letter is
  the last character but white space, and is not preceded by a word
  character when the optional prefix was matched. *)
Lemma letterAtEnd_run (p : pos) (cap : option jsstring) (m : result) :
run (optionLetter +> Star isSpace +> EndAnchor)%re p cap
    (fun p' cap' => Some {| stop := p'; group1 := cap' |})
= Some m ->
exists u x v,
  rest p = u ++ x :: v
  /\ forallb isSpace v = true
  /\ letterAD x = true
  /\ capture m = [x]
  /\ (u = [] \/ wordAt (last (map Some u) (before p)) = false).
Proof.
assert (K : forall q c,
           run (Group (Set_ letterAD)) q c
               (fun p' cap' =>
                  run (Star isSpace +> EndAnchor)%re p' cap'
                      (fun p'' cap'' =>
                         Some {| stop := p''; group1 := cap'' |}))
           = Some m ->
           exists x v, rest q = x :: v /\ forallb isSpace v = true
                       /\ letterAD x = true /\ capture m = [x]).
{ intros q c Hq. rewrite run_group, run_set in Hq.
  destruct (rest q) as [|x t]; [discriminate|].
  destruct (letterAD x) eqn:Lx; [|discriminate].
  rewrite run_seq in Hq. cbn [run before rest] in Hq.
  apply star_run in Hq. destruct Hq as (v & p4 & Hs & Hv & Hq).
  destruct (rest p4) eqn:E4; [|discriminate].
  injection Hq as <-. rewrite app_nil_r in Hs. subst t.
  exists x, v. unfold capture. cbn [group1].
  repeat split; auto.
  destruct (length v) as [|n]; [reflexivity|].
  replace (S n - n) with 1 by lia. reflexivity. }
rewrite run_seq. unfold optionLetter. rewrite run_seq.
intro H. apply optionPrefix_run in H.
destruct H as [H|(u & t & Hu & Nu & Wu & H)]; apply K in H.
- destruct H as (x & v & Hr & Hv & Lx & Cm).
  exists [], x, v. repeat split; auto.
- cbn [rest] in H. destruct H as (x & v & -> & Hv & Lx & Cm).
  exists u, x, v. repeat split; auto.
Qed.

Lemma optionAtEnd_match (b : option ascii) (s : jsstring) (m : result) :
matchAt optionAtEnd {| before := b; rest := s |} = Some m ->
exists u x v,
  s = u ++ x :: v
  /\ forallb isSpace v = true
  /\ letterAD x = true
  /\ capture m = [x]
  /\ wordAt (last (map Some u) b) = false.
Proof.
unfold matchAt, optionAtEnd. rewrite run_seq, run_wordB.
destruct (atWordBoundary _) eqn:W; [|discriminate].
intro H. apply letterAtEnd_run in H. cbn [rest before] in H.
destruct H as (u & x & v & Hs & Hv & Lx & Cm & [->|Wu]).
- exists [], x, v. repeat split; auto.
  subst s. unfold atWordBoundary in W.
  cbn [app before rest hd_error wordAt map last] in *.
  rewrite (letterAD_word _ Lx) in W. now destruct (wordAt b).
- exists u, x, v. now repeat split.
Qed.

Lemma spaces_last (v : jsstring) :
forall c,
  isSpace c = true -> forallb isSpace v = true ->
  wordAt (last (map Some v) (Some c)) = false.
Proof.
induction v as [|y v IH]; intros c Sc Sv.
- cbn [map last wordAt]. now apply space_not_word.
- cbn [forallb] in Sv. apply andb_prop in Sv. destruct Sv as [Sy Sv].
  rewrite last_some_cons. now apply IH.
Qed.

Lemma selectAtEnd_match (b : option ascii) (s : jsstring) (m : result) :
matchAt selectAtEnd {| before := b; rest := s |} = Some m ->
exists u x v,
  s = u ++ x :: v
  /\ forallb isSpace v = true
  /\ letterAD x = true
  /\ capture m = [x]
  /\ wordAt (last (map Some u) b) = false.
Proof.
unfold matchAt, selectAtEnd. rewrite run_seq, run_wordB.
destruct (atWordBoundary _); [|discriminate].
rewrite run_seq. intro H.
apply (@run_further (Lit "select" || (Lit "choose" || Lit "pick"))%re
                    eq_refl) in H.
destruct H as (p1 & [u1 F1] & H). cbn [rest] in F1.
rewrite run_seq in H. cbn [run] in H.
destruct (rest p1) as [|c s1] eqn:R1; [discriminate|].
destruct (isSpace c) eqn:Sc; [|discriminate].
apply star_run_before in H. destruct H as (v1 & t & Hs1 & Sv1 & H).
apply letterAtEnd_run in H. cbn [rest before] in H.
destruct H as (u & x & v & Ht & Hv & Lx & Cm & Wu).
exists (u1 ++ c :: v1 ++ u), x, v.
repeat split; auto.
- rewrite F1, Hs1, Ht, <- !app_assoc. cbn [app].
  now rewrite <- app_assoc.
- replace (u1 ++ c :: v1 ++ u) with ((u1 ++ c :: v1) ++ u)
    by (now rewrite <- app_assoc).
  rewrite last_some_app.
  assert (E : last (map Some (u1 ++ c :: v1)) b
              = last (map Some v1) (Some c))
    by (now rewrite last_some_app, last_some_cons).
  rewrite E. destruct Wu as [->|Wu]; [|exact Wu].
  cbn [map last]. now apply spaces_last.
Qed.

(** What a search anchored at the end finds is the letter at the tail
  of the command. *)
Lemma endSearch_tail (r : regex) (command : jsstring) (m : result) :
r = selectAtEnd \/ r = optionAtEnd ->
search r command = Some m ->
exists pre x v,
  command = pre ++ x :: v
  /\ forallb isSpace v = true
  /\ letterAD x = true
  /\ wordAt (last (map Some pre) None) = false
  /\ capture m = [x].
Proof.
intros Hr H. unfold search in H. apply searchFrom_where in H.
destruct H as (z & t & Hc & H).
assert (M : exists u x v,
           t = u ++ x :: v /\ forallb isSpace v = true
           /\ letterAD x = true /\ capture m = [x]
           /\ wordAt (last (map Some u) (last (map Some z) None))
              = false).
{ destruct Hr as [->| ->];
    [now apply selectAtEnd_match|now apply optionAtEnd_match]. }
destruct M as (u & x & v & Ht & Hv & Lx & Cm & Wu).
exists (z ++ u), x, v. rewrite last_some_app, Hc, Ht, <- app_assoc.
now repeat split.
Qed.

Lemma trimStart_spaces (v t : jsstring) :
forallb isSpace v = true -> trimStart (v ++ t) = trimStart t.
Proof.
induction v as [|c v IH]; intro H; [reflexivity|].
cbn [forallb] in H. apply andb_prop in H. destruct H as [Hc H].
cbn [app trimStart]. rewrite Hc. now apply IH.
Qed.

Lemma forallb_rev (A : Type) (f : A -> bool) (l : list A) :
forallb f (rev l) = forallb f l.
Proof.
induction l as [|a l IH]; [reflexivity|].
cbn [rev forallb]. rewrite forallb_app, IH. cbn [forallb].
now rewrite andb_true_r, andb_comm.
Qed.

Lemma hd_rev_last (pre : jsstring) :
hd_error (rev pre) = last (map Some pre) None.
Proof.
induction pre as [|c pre IH] using rev_ind; [reflexivity|].
rewrite rev_app_distr, map_app. cbn [rev app hd_error map].
now rewrite last_last.
Qed.

(** The letter at the tail of [pre ++ x :: v], [v] being white space. *)
Lemma letterAtTail_at (pre v : jsstring) (x : ascii) :
forallb isSpace v = true -> letterAD x = true ->
letterAtTail (pre ++ x :: v)
= if negb (wordAt (last (map Some pre) None))
  then Some (letterName x) else None.
Proof.
intros Hv Lx. unfold letterAtTail.
rewrite rev_app_distr. cbn [rev]. rewrite <- app_assoc. cbn [app].
rewrite trimStart_spaces by (now rewrite forallb_rev).
cbn [trimStart]. rewrite (letterAD_not_space _ Lx), Lx, hd_rev_last.
reflexivity.
Qed.

(** A command with a letter at its tail is the letter, what precedes
  it and the white space that follows. *)
Lemma letterAtTail_shape (command l : jsstring) :
letterAtTail command = Some l ->
exists pre x v,
  command = pre ++ x :: v
  /\ forallb isSpace v = true
  /\ letterAD x = true
  /\ wordAt (last (map Some pre) None) = false.
Proof.
unfold letterAtTail. intro H.
assert (T : forall s, exists v,
           s = v ++ trimStart s /\ forallb isSpace v = true).
{ induction s as [|c s [v [Hs Hv]]]; [now exists []|].
  cbn [trimStart]. destruct (isSpace c) eqn:Sc.
  - exists (c :: v). cbn [app forallb]. rewrite Sc, Hv.
    split; [now rewrite <- Hs|reflexivity].
  - now exists []. }
destruct (T (rev command)) as (v & Hs & Hv).
destruct (trimStart (rev command)) as [|x pre]; [discriminate H|].
destruct (letterAD x) eqn:Lx; [|discriminate H].
destruct (wordAt (hd_error pre)) eqn:W; [discriminate H|].
exists (rev pre), x, (rev v).
rewrite <- (rev_involutive command), Hs, rev_app_distr. cbn [rev].
rewrite <- app_assoc, forallb_rev, <- hd_rev_last, rev_involutive.
now repeat split.
Qed.

(** The letter at the tail, with the white space that follows it,
  matches [optionAtEnd]. *)
Lemma optionAtEnd_at_tail (b : option ascii) (x : ascii) (v : jsstring) :
wordAt b = false -> letterAD x = true -> forallb isSpace v = true ->
matchAt optionAtEnd {| before := b; rest := x :: v |} <> None.
Proof.
intros Hb Hx Hv. unfold matchAt, optionAtEnd, optionLetter.
cbn [run]. unfold atWordBoundary. cbn [before rest hd_error wordAt].
rewrite Hb, (letterAD_word _ Hx). cbn [xorb].
assert (L : forall k,
           match litAt sameLetter (lit "option")
                       {| before := b; rest := x :: v |} with
           | Some p' => k p'
           | None => None
           end = (None : option result)).
{ intro k. cbn [lit list_ascii_of_string litAt rest].
  destruct (sameLetter "o" x) eqn:S; [|reflexivity].
  apply sameLetter_letterAD in S. rewrite Hx in S. discriminate S. }
rewrite L. cbn [rest]. rewrite Hx.
assert (S : forall (A : Type) (k : pos -> option A) s c,
           forallb isSpace s = true ->
           (forall p, rest p = [] -> k p <> None) ->
           star isSpace k c s <> None).
{ intros A k s. induction s as [|y s IH]; intros c Hs Hk; cbn [star].
  - now apply Hk.
  - cbn [forallb] in Hs. apply andb_prop in Hs. destruct Hs as [Hy Hs].
    rewrite Hy. specialize (IH (Some y) Hs Hk).
    now destruct (star isSpace k (Some y) s). }
apply S; [exact Hv|].
intros p Hp. rewrite Hp. discriminate.
Qed.

(** (a) is the letter at the tail. *)
Lemma endAnchored_tail (command : jsstring) :
endAnchored command = letterAtTail command.
Proof.
assert (Sound : forall r m,
           r = selectAtEnd \/ r = optionAtEnd ->
           search r command = Some m ->
           letterAtTail command = Some (letterOf m)).
{ intros r m Hr H. apply (@endSearch_tail r command m Hr) in H.
  destruct H as (pre & x & v & -> & Hv & Lx & Wp & Cm).
  rewrite (@letterAtTail_at pre v x Hv Lx), Wp. unfold letterOf.
  now rewrite Cm. }
unfold endAnchored.
destruct (search selectAtEnd command) as [m|] eqn:E1.
{ symmetry. apply (Sound selectAtEnd); auto. }
destruct (search optionAtEnd command) as [m|] eqn:E2.
{ symmetry. apply (Sound optionAtEnd); auto. }
cbn [option_map].
destruct (letterAtTail command) as [l|] eqn:T; [|reflexivity].
exfalso. apply letterAtTail_shape in T.
destruct T as (pre & x & v & -> & Hv & Lx & Wp).
unfold search in E2. apply searchFrom_complete in E2.
now apply (@optionAtEnd_at_tail _ x v Wp Lx Hv).
Qed.

(** C4. For every command the letter chosen for a multiple-choice
  question is found in this order of priority: (a) a command phrase
  anchored at the end of the command, (b) a letter within its final 15
  characters, (c) the last occurrence of a letter anywhere in it; the
  letter found is one of A, B, C and D. A lone letter that ends the
  command is found by (a) and is therefore chosen whatever precedes it:
  "option a select option d" resolves to D, and so does "d" alone.
  Search (a) finds the letter of a-d that ends the command, white
  space apart, when it is a word by itself, and nothing else; search
  (b) looks at the final 15 characters only and finds the first letter
  of a-d there that is a word by itself; search (c) finds the last such
  letter of the whole command. So "b then c please" resolves
  to B by (b), "b is wrong so it is option c i think" to C by (b), the
  "b" lying before the final 15 characters, and "a or b is what i would
  say here" to B by (c). *)
Theorem option_letter_priority (command : jsstring) :
selectLetter command = resolveByPriority command
/\ (forall l, selectLetter command = Some l -> In l optionLetters)
/\ (forall pre x,
       command = pre ++ [x] ->
       letterAD x = true ->
       wordAt (last (map Some pre) None) = false ->
       endAnchored command = Some [upperChar x]
       /\ selectLetter command = Some [upperChar x])
/\ selectLetter (lit "option a select option d") = Some (lit "D")
/\ selectLetter (lit "d") = Some (lit "D")
/\ length (finalChars 15 command) = Nat.min 15 (length command)
/\ (exists pre, command = pre ++ finalChars 15 command)
/\ endAnchored command = letterAtTail command
/\ withinFinal15 command = firstInFinal15 command
/\ lastAnywhere command = lastOccurrence command
/\ selectLetter command
   = orElse (letterAtTail command)
            (orElse (firstInFinal15 command) (lastOccurrence command))
/\ selectLetter (lit "b then c please") = Some (lit "B")
/\ selectLetter (lit "b is wrong so it is option c i think")
   = Some (lit "C")
/\ selectLetter (lit "a or b is what i would say here") = Some (lit "B").
Proof.
assert (E : selectLetter command = resolveByPriority command).
{ unfold selectLetter, resolveByPriority, endAnchored, withinFinal15,
    lastAnywhere, endPatterns.
  cbn [firstEndMatch]. cbv zeta.
  destruct (search selectAtEnd command) as [m|] eqn:E1.
  { rewrite !(option_set (search_option _ selectAtEnd_captures E1)).
    reflexivity. }
  destruct (search optionAtEnd command) as [m|] eqn:E2.
  { cbn [option_map orElse].
    rewrite !(option_set (search_option _ optionAtEnd_captures E2)).
    reflexivity. }
  cbn [unset option_map orElse].
  destruct (search optionWord (sliceLast 15 command)) as [m|] eqn:E3.
  { rewrite !(option_set (search_option _ optionWord_captures E3)).
    reflexivity. }
  cbn [unset option_map orElse].
  rewrite last_rev, <- map_rev.
  destruct (rev (matchAll optionWord command)); reflexivity. }
split; [exact E|]. split; [|split; [|split; [reflexivity|]]].
3:{ split; [reflexivity|].
    split.
    { unfold finalChars. now rewrite length_rev, length_firstn, length_rev. }
    split.
    { exists (rev (skipn 15 (rev command))). unfold finalChars.
      now rewrite <- rev_app_distr, firstn_skipn, rev_involutive. }
    split; [apply endAnchored_tail|].
    split; [apply withinFinal15_first|].
    split; [apply lastAnywhere_last|].
    split; [|repeat split].
    rewrite E. unfold resolveByPriority.
    now rewrite endAnchored_tail, withinFinal15_first, lastAnywhere_last. }
- intros l H. rewrite E in H.
  unfold resolveByPriority, endAnchored, withinFinal15, lastAnywhere in H.
  destruct (search selectAtEnd command) as [m|] eqn:E1.
  { inversion H; subst. eauto using search_option, selectAtEnd_captures. }
  destruct (search optionAtEnd command) as [m|] eqn:E2.
  { inversion H; subst. eauto using search_option, optionAtEnd_captures. }
  destruct (search optionWord (sliceLast 15 command)) as [m|] eqn:E3.
  { inversion H; subst. eauto using search_option, optionWord_captures. }
  cbn [option_map orElse] in H.
  rewrite last_rev, <- map_rev in H.
  destruct (rev (matchAll optionWord command)) as [|m ms] eqn:E4;
    [discriminate H|].
  cbn [map option_map] in H. inversion H; subst.
  assert (Hin : In m (matchAll optionWord command)).
  { apply in_rev. rewrite E4. now left. }
  apply matchAllFrom_matchAt in Hin. destruct Hin as [p Hp].
  destruct (@matchAt_letter _ _ _ optionWord_captures Hp) as (c & Hc & Hm).
  eauto using letterOf_option.
- intros pre x -> Hx Hb.
  pose proof (@lone_letter_at_end pre x Hx Hb) as L.
  split; [|exact L].
  rewrite E in L. unfold resolveByPriority in L.
  destruct (endAnchored (pre ++ [x])) as [l|] eqn:A; [exact L|].
  exfalso. unfold endAnchored in A.
  destruct (search selectAtEnd (pre ++ [x])); [discriminate A|].
  destruct (search optionAtEnd (pre ++ [x])) eqn:E2; [discriminate A|].
  unfold search in E2. apply searchFrom_complete in E2.
  now apply (@optionAtEnd_at_last _ x Hb Hx).
Qed.

Lemma option_letter_priority_witness :
endAnchored (lit "option a select option d") = Some (lit "D")
/\ selectLetter (lit "option a select option d") = Some (lit "D").
Proof.
apply (proj1 (proj2 (proj2
  (option_letter_priority (lit "option a select option d"))))
         (lit "option a select option ") "d"%char);
  reflexivity.
Defined.

End OptionLetter.

(* ===================================================================== *)
(** * The speech service: single steps *)
(* ===================================================================== *)

Section SpeechSteps.
Import JsString Speech SpeechProps.

(** Projections of updated worlds compute. *)
Ltac world :=
cbn [svc now nextId timers micro live settled sttFault trace
     this emit bump withTimers withMicro withLive withSettled withFault
     withNow setTimeout clearTimeout await
     isSpeaking isListening isInitialized speechQueue currentRecognition
     currentRecognitionSubscriptions onSpeechEndCallback
     onRecognitionResultCallback onRecognitionErrorCallback
     silenceTimeout silenceTimeoutDuration lastSpokenMessage
     setSpeaking setListening setQueue setRecognition setSubscriptions
     setCallbacks setSilenceTimeout setLastSpoken] in *.

Lemma outcome_settle1_same (o : Outcome) (w : World) (p : PromiseId) :
outcome w p = None -> outcome (settle1 o w p) p = Some o.
Proof.
intro H. unfold settle1. rewrite H.
unfold outcome. cbn [settled withSettled find fst].
now rewrite Nat.eqb_refl.
Qed.

Lemma settle1_svc (o : Outcome) (w : World) (p : PromiseId) :
svc (settle1 o w p) = svc w /\ trace (settle1 o w p) = trace w
/\ timers (settle1 o w p) = timers w /\ micro (settle1 o w p) = micro w
/\ live (settle1 o w p) = live w /\ nextId (settle1 o w p) = nextId w
/\ now (settle1 o w p) = now w /\ sttFault (settle1 o w p) = sttFault w.
Proof. unfold settle1. destruct (outcome w p); repeat split. Qed.

Lemma settle_frame (o : Outcome) (ps : list PromiseId) :
forall w,
  svc (settle o ps w) = svc w /\ trace (settle o ps w) = trace w
  /\ timers (settle o ps w) = timers w /\ micro (settle o ps w) = micro w
  /\ live (settle o ps w) = live w /\ nextId (settle o ps w) = nextId w
  /\ now (settle o ps w) = now w /\ sttFault (settle o ps w) = sttFault w.
Proof.
induction ps as [|p ps IH]; intro w; cbn [settle fold_left].
- repeat split.
- destruct (IH (settle1 o w p)) as (A & B & C & D & E & F & G & H).
  destruct (settle1_svc o w p) as (A' & B' & C' & D' & E' & F' & G' & H').
  unfold settle in *.
  repeat split; congruence.
Qed.

(** C6, as stated, fails: [speak] is called twice in a row; the promise
  returned by the second call is already resolved although its text has
  not been handed to the engine. *)
Lemma queued_speak_resolves_before_spoken :
let w1 := step boot (CallSpeak (lit "Question one") []) in
let p := nextPromise w1 in
let w2 := step w1 (CallSpeak (lit "Option A") []) in
isSpeaking (svc w1) = true
/\ awaited w2 p = Some (inl tt)
/\ ~ In (lit "Option A") (spoken (trace w2)).
Proof.
cbv zeta. split; [reflexivity|]. split; [reflexivity|].
vm_compute. intros [H|[]]. discriminate H.
Qed.

(** C6, amended. A call to [speak] made while the service is speaking
  appends the request to the queue and returns a promise that resolves
  at once, before the text is spoken: nothing is handed to the engine
  by the call. *)
Theorem speak_while_speaking_resolves_at_once
      (w : World) (t : jsstring) (o : Options) :
isSpeaking (svc w) = true ->
blank t = false ->
outcome w (nextPromise w) = None ->
let w' := step w (CallSpeak t o) in
awaited w' (nextPromise w) = Some (inl tt)
/\ speechQueue (svc w')
   = speechQueue (svc w) ++ [{| text := t; options := o |}]
/\ trace w' = trace w
/\ isSpeaking (svc w') = true.
Proof.
intros Hs Hb Hf w'. subst w'. unfold nextPromise in *.
cbn [step]. unfold speakBody. rewrite Hb. world. rewrite Hs.
cbn [settle fold_left].
match goal with
| |- context [settle1 Resolved ?x ?p] =>
    destruct (settle1_svc Resolved x p) as (A & B & _);
    pose proof (@outcome_settle1_same Resolved x p Hf) as C
end.
unfold awaited. rewrite C, A, B. world. now rewrite Hs.
Qed.

Lemma speak_while_speaking_resolves_at_once_witness :
let w := step boot (CallSpeak (lit "Question one") []) in
awaited (step w (CallSpeak (lit "Option A") [])) (nextPromise w)
= Some (inl tt).
Proof.
cbv zeta.
refine (proj1 (@speak_while_speaking_resolves_at_once
                 (step boot (CallSpeak (lit "Question one") []))
                 (lit "Option A") [] _ _ _)); reflexivity.
Defined.

(** ** Nothing left to say *)

Lemma hushed_this (said : list jsstring) (f : SpeechService -> SpeechService)
    (w : World) :
(forall s, speechQueue s = [] -> speechQueue (f s) = []) ->
Hushed said w -> Hushed said (this f w).
Proof.
intros Hf [[Q M T] S]. split; [split|]; world; auto.
Qed.

Lemma hushed_emit (said : list jsstring) (o : Output) (w : World) :
isTtsSpeak o = false -> Hushed said w -> Hushed said (emit o w).
Proof.
intros Ho [[Q M T] S]. split; [split|]; world; auto.
destruct o; try discriminate Ho; exact S.
Qed.

Lemma hushed_bump (said : list jsstring) (w : World) :
Hushed said w -> Hushed said (bump w).
Proof. intros [[Q M T] S]. split; [split|]; world; auto. Qed.

Lemma hushed_withNow (said : list jsstring) (n : N) (w : World) :
Hushed said w -> Hushed said (withNow n w).
Proof. intros [[Q M T] S]. split; [split|]; world; auto. Qed.

Lemma hushed_withLive (said : list jsstring)
    (l : list (UtteranceId * list PromiseId)) (w : World) :
Hushed said w -> Hushed said (withLive l w).
Proof. intros [[Q M T] S]. split; [split|]; world; auto. Qed.

Lemma hushed_withFault (said : list jsstring) (f : option EngineError)
    (w : World) :
Hushed said w -> Hushed said (withFault f w).
Proof. intros [[Q M T] S]. split; [split|]; world; auto. Qed.

Lemma hushed_setTimeout (said : list jsstring) (k : Task) (d : N)
    (w : World) :
speaksLater k = false -> Hushed said w -> Hushed said (setTimeout k d w).
Proof.
intros Hk [[Q M T] S]. split; [split|]; world; auto.
apply Forall_app. split; [exact T|]. now constructor.
Qed.

Lemma hushed_clearTimeout (said : list jsstring) (id : TimerId) (w : World) :
Hushed said w -> Hushed said (clearTimeout id w).
Proof.
intros [[Q M T] S]. split; [split|]; world; auto.
rewrite Forall_forall in *. intros t Ht. apply filter_In in Ht.
now apply T.
Qed.

Lemma hushed_await (said : list jsstring) (k : Task) (w : World) :
speaksLater k = false -> Hushed said w -> Hushed said (await k w).
Proof.
intros Hk [[Q M T] S]. split; [split|]; world; auto.
apply Forall_app. split; [exact M|]. now constructor.
Qed.

Lemma hushed_settle (said : list jsstring) (o : Outcome)
    (ps : list PromiseId) (w : World) :
Hushed said w -> Hushed said (settle o ps w).
Proof.
intros [[Q M T] S].
destruct (settle_frame o ps w) as (A & B & C & D & _).
split; [split|]; congruence.
Qed.

Ltac break :=
repeat match goal with
       | |- context [match ?x with _ => _ end] => destruct x
       end.

Ltac hush :=
repeat first
  [ assumption
  | apply hushed_settle
  | apply hushed_setTimeout; [reflexivity|]
  | apply hushed_await; [reflexivity|]
  | apply hushed_clearTimeout
  | apply hushed_emit; [reflexivity|]
  | apply hushed_this; [intros ? ?; first [assumption | reflexivity]|]
  | apply hushed_bump | apply hushed_withNow | apply hushed_withLive
  | apply hushed_withFault ].

Lemma hushed_clearSilence (said : list jsstring) (w : World) :
Hushed said w -> Hushed said (clearSilence w).
Proof. intro H. unfold clearSilence. break; hush. Qed.

Lemma hushed_stopListening (said : list jsstring) (w : World) :
Hushed said w -> Hushed said (stopListening w).
Proof.
intro H. apply hushed_clearSilence in H. unfold stopListening.
break; hush.
Qed.

Lemma hushed_abortListening (said : list jsstring) (w : World) :
Hushed said w -> Hushed said (abortListening w).
Proof.
intro H. unfold abortListening.
apply hushed_this; [auto|]. apply hushed_clearSilence.
break; hush.
Qed.

Lemma hushed_stopSpeaking (said : list jsstring) (w : World) :
Hushed said w -> Hushed said (stopSpeaking w).
Proof. intro H. unfold stopSpeaking. break; hush. Qed.

Lemma hushed_listenStart (said : list jsstring) (o : Options)
    (p : PromiseId) (w : World) :
Hushed said w -> Hushed said (listenStart o p w).
Proof.
intro H. unfold listenStart. break; hush.
Qed.

Lemma hushed_listenTry (said : list jsstring) (o : Options)
    (p : PromiseId) (w : World) :
Hushed said w -> Hushed said (listenTry o p w).
Proof.
intro H. unfold listenTry. break.
- apply hushed_await; [reflexivity|]. now apply hushed_stopListening.
- now apply hushed_listenStart.
Qed.

Lemma hushed_startListening (said : list jsstring) (o : Options)
    (p : PromiseId) (w : World) :
Hushed said w -> Hushed said (startListening o p w).
Proof.
intro H. unfold startListening.
destruct (isListening (svc w)); [hush|].
destruct (isSpeaking (svc w)).
- apply hushed_setTimeout; [reflexivity|]. now apply hushed_stopSpeaking.
- now apply hushed_listenTry.
Qed.

Lemma hushed_notifySpeechEnd (said : list jsstring) (w : World) :
Hushed said w -> Hushed said (notifySpeechEnd w).
Proof.
intro H. unfold notifySpeechEnd. break; hush.
Qed.

Lemma hushed_postSpeech (said : list jsstring) (ws : list PromiseId)
    (w : World) :
Hushed said w -> Hushed said (postSpeech ws w).
Proof.
intro H. unfold postSpeech.
destruct H as [[Q M T] S]. rewrite Q.
apply hushed_settle, hushed_notifySpeechEnd. now repeat split.
Qed.

Lemma hushed_runTask (said : list jsstring) (k : Task) (w : World) :
speaksLater k = false -> Hushed said w -> Hushed said (runTask k w).
Proof.
intros Hk H. destruct k; try discriminate Hk; cbn [runTask].
- now apply hushed_listenTry.
- now apply hushed_listenStart.
- now apply hushed_postSpeech.
- unfold onSilence. break; hush.
- unfold deliverResult. break; hush.
- unfold cleanupRest. hush.
Qed.

Lemma hushed_fold (said : list jsstring) (ks : list Task) :
Forall (fun k => speaksLater k = false) ks ->
forall w, Hushed said w ->
          Hushed said (fold_left (fun w k => runTask k w) ks w).
Proof.
induction 1 as [|k ks Hk Hks IH]; intros w H; cbn [fold_left]; auto.
apply IH. now apply hushed_runTask.
Qed.

Lemma hushed_drain (said : list jsstring) (w : World) :
Hushed said w -> Hushed said (drain w).
Proof.
intro H. unfold drain. apply hushed_fold.
- apply H.
- destruct H as [[Q M T] S]. split; [split|]; world; auto.
Qed.

Lemma earliest_In (ts : list Timer) (t : Timer) :
earliest ts = Some t -> In t ts.
Proof.
revert t. induction ts as [|a ts IH]; intros t H; cbn [earliest] in H.
- discriminate H.
- destruct (earliest ts) as [u|].
  + destruct (deadline u <? deadline a)%N; inversion H; subst.
    * right. now apply IH.
    * now left.
  + inversion H. now left.
Qed.

Lemma hushed_fire (said : list jsstring) (w : World) :
Hushed said w -> Hushed said (fire w).
Proof.
intro H. unfold fire. destruct (earliest (timers w)) as [t|] eqn:E; auto.
apply hushed_runTask.
- destruct H as [[Q M T] S]. rewrite Forall_forall in T.
  apply T. now apply earliest_In.
- hush.
Qed.

Lemma hushed_ended (said : list jsstring) (u : UtteranceId)
    (k : list PromiseId -> World -> World) (w : World) :
(forall ws x, Hushed said x -> Hushed said (k ws x)) ->
Hushed said w -> Hushed said (ended u k w).
Proof.
intros Hk H. unfold ended.
break; auto. apply Hk. hush.
Qed.

Lemma hushed_onResult (said : list jsstring) (e : option SttEvent)
    (w : World) :
Hushed said w -> Hushed said (onResult e w).
Proof.
intro H. apply hushed_clearSilence in H. unfold onResult.
break; hush.
Qed.

Lemma hushed_onError (said : list jsstring) (e : EngineError) (w : World) :
Hushed said w -> Hushed said (onError e w).
Proof.
intro H. apply hushed_clearSilence in H. unfold onError.
break; hush.
Qed.

(** Short of a new call to [speak], a calm world stays calm and silent. *)
Lemma hushed_step (said : list jsstring) (w : World) (e : Event) :
isCallSpeak e = false -> Hushed said w -> Hushed said (step w e).
Proof.
intros He H. destruct e; try discriminate He; cbn [step].
- now apply hushed_stopSpeaking.
- apply hushed_startListening. hush.
- apply hushed_settle, hushed_stopListening. hush.
- apply hushed_settle, hushed_abortListening. hush.
- unfold cleanup. apply hushed_await; [reflexivity|].
  apply hushed_stopListening, hushed_stopSpeaking. hush.
- hush.
- hush.
- hush.
- destruct (micro w) as [|k ks] eqn:E; auto.
  destruct H as [[Q M T] S]. rewrite E in M. inversion M; subst.
  apply hushed_runTask; auto.
  split; [split|]; world; auto.
- now apply hushed_fire, hushed_drain.
- apply hushed_ended; [|now apply hushed_drain].
  intros ws x Hx. unfold onDone. hush.
- apply hushed_ended; [|now apply hushed_drain].
  intros ws x Hx. unfold onStopped.
  apply hushed_settle, hushed_notifySpeechEnd. hush.
- apply hushed_ended; [|now apply hushed_drain].
  intros ws x Hx. unfold onSpeakError.
  apply hushed_settle, hushed_notifySpeechEnd. hush.
- unfold heard. apply hushed_drain in H.
  break; auto. now apply hushed_onResult.
- unfold heard. apply hushed_drain in H.
  break; auto. now apply hushed_onError.
- hush.
Qed.

Lemma hushed_run (said : list jsstring) (es : list Event) :
forallb (fun e => negb (isCallSpeak e)) es = true ->
forall w, Hushed said w -> Hushed said (run w es).
Proof.
induction es as [|e es IH]; intros He w H; cbn [run fold_left]; auto.
cbn [forallb] in He. apply andb_prop in He. destruct He as [He1 He2].
apply IH; auto. apply hushed_step; auto.
now destruct (isCallSpeak e).
Qed.

(** ** Promises *)

Lemma outcome_settle1 (o : Outcome) (w : World) (q p : PromiseId) :
outcome (settle1 o w q) p
= match outcome w p with
  | Some x => Some x
  | None => if q =? p then Some o else None
  end.
Proof.
unfold settle1. destruct (outcome w q) eqn:Eq.
- destruct (outcome w p) eqn:Ep; [reflexivity|].
  destruct (q =? p) eqn:E; [|reflexivity].
  apply Nat.eqb_eq in E. congruence.
- unfold outcome in *. cbn [settled withSettled find fst].
  destruct (q =? p) eqn:E.
  + apply Nat.eqb_eq in E. subst q. now rewrite Eq.
  + match goal with |- ?x = _ => destruct x; reflexivity end.
Qed.

Lemma outcome_settle (o : Outcome) (ps : list PromiseId) :
forall (w : World) (p : PromiseId),
  In p ps -> outcome w p = None -> outcome (settle o ps w) p = Some o.
Proof.
induction ps as [|q ps IH]; intros w p Hin Hp; [destruct Hin|].
cbn [settle fold_left].
assert (Hq : outcome (settle1 o w q) p
             = if q =? p then Some o else None)
  by now rewrite outcome_settle1, Hp.
destruct (q =? p) eqn:E.
- clear IH Hin. revert Hq. generalize (settle1 o w q). clear.
  induction ps as [|r ps IH]; intros x Hx; [exact Hx|].
  cbn [fold_left]. apply IH. now rewrite outcome_settle1, Hx.
- destruct Hin as [->|Hin]; [now rewrite Nat.eqb_refl in E|].
  now apply IH.
Qed.

(** ** C10 *)

(** C10, as stated, fails: the request queued while speaking is dropped
  by [stopSpeaking], but its completion signal does not stay pending
  for ever: it was resolved when the request was queued. *)
Lemma discarded_request_is_resolved :
let w1 := step boot (CallSpeak (lit "Question one") []) in
let p := nextPromise w1 in
let w2 := step w1 (CallSpeak (lit "Option A") []) in
let w3 := step w2 CallStopSpeaking in
map text (speechQueue (svc w2)) = [lit "Option A"]
/\ speechQueue (svc w3) = []
/\ awaited w3 p = Some (inl tt).
Proof. repeat split. Qed.

(** C10, amended. Stopping the speech while the service is speaking
  empties the queue and settles no promise (the completion signals of
  the queued requests were resolved when they were queued); unless a
  suspended [speak] is pending, nothing reaches the engine afterwards
  until [speak] is called again, so the dropped requests stay unspoken.
  [startListening] called while speaking (and not listening) discards
  the queue in the same way. *)
Theorem stopSpeaking_discards_queue
      (w : World) (o : Options) (es : list Event) :
isSpeaking (svc w) = true ->
Forall (fun k => speaksLater k = false) (micro w) ->
Forall (fun t => speaksLater (task t) = false) (timers w) ->
forallb (fun e => negb (isCallSpeak e)) es = true ->
let w1 := step w CallStopSpeaking in
(speechQueue (svc w1) = []
 /\ isSpeaking (svc w1) = false
 /\ trace w1 = TtsStop :: trace w
 /\ settled w1 = settled w
 /\ spoken (trace (run w1 es)) = spoken (trace w))
/\ (isListening (svc w) = false ->
    let w2 := step w (CallStartListening o) in
    speechQueue (svc w2) = []
    /\ isSpeaking (svc w2) = false
    /\ trace w2 = TtsStop :: trace w
    /\ settled w2 = settled w
    /\ spoken (trace (run w2 es)) = spoken (trace w)).
Proof.
intros Hs Hm Ht Hes w1.
assert (H1 : w1 = this (setQueue [])
                       (this (setSpeaking false) (emit TtsStop w))).
{ subst w1. cbn [step]. unfold stopSpeaking. now rewrite Hs. }
assert (C1 : Hushed (spoken (trace w)) w1).
{ rewrite H1. split; [split|]; world; auto. }
split.
- repeat split; try (rewrite H1; reflexivity).
  now apply (hushed_run es Hes C1).
- intros Hl w2.
  assert (H2 : w2 = setTimeout (ListenTry o (nextId w)) 800
                               (stopSpeaking (bump w))).
  { subst w2. cbn [step]. unfold startListening. world.
    now rewrite Hl, Hs. }
  assert (H3 : stopSpeaking (bump w)
               = this (setQueue [])
                      (this (setSpeaking false) (emit TtsStop (bump w)))).
  { unfold stopSpeaking. world. now rewrite Hs. }
  assert (C2 : Hushed (spoken (trace w)) w2).
  { rewrite H2, H3. apply hushed_setTimeout; [reflexivity|].
    split; [split|]; world; auto. }
  repeat split; try (rewrite H2, H3; reflexivity).
  now apply (hushed_run es Hes C2).
Qed.

Lemma stopSpeaking_discards_queue_witness :
let w := run boot [CallSpeak (lit "Question one") [];
                   CallSpeak (lit "Option A") []] in
spoken (trace (run (step w CallStopSpeaking) [TtsStopped 1; Tick]))
= spoken (trace w).
Proof.
cbv zeta.
refine (proj2 (proj2 (proj2 (proj2 (proj1
  (@stopSpeaking_discards_queue
     (run boot [CallSpeak (lit "Question one") [];
                CallSpeak (lit "Option A") []])
     [] [TtsStopped 1; Tick] _ _ _ _))))));
  try reflexivity; constructor.
Defined.

(** ** C8 *)

(** C8, as stated, fails: when the text-to-speech engine reports an
  error, the promise returned by [speak] is rejected, so the caller
  awaiting it receives the error as an exception. *)
Lemma speak_throws_on_engine_error :
let w1 := step boot (CallSpeak (lit "Question one") []) in
let w2 := step w1 (TtsError 1 sampleError) in
live w1 = [(1, [nextPromise boot])]
/\ awaited w2 (nextPromise boot) = Some (inr sampleError)
/\ isSpeaking (svc w2) = false.
Proof. repeat split. Qed.

(** C8, amended. On an error of an engine the service releases its flag
  and reports the failure: an error of the text-to-speech engine clears
  [isSpeaking], invokes the speech-end callback and rejects the promise
  returned by [speak] (the awaiting caller receives the error as an
  exception); an error event of the recognition engine clears
  [isListening] and is passed to the error callback; when the
  recognition engine refuses to start, [isListening] is cleared, the
  error callback is invoked (twice) and the promise returned by
  [startListening] resolves, so that [startListening] does not throw. *)
Theorem engine_errors_release_turn (w : World) :
micro w = [] ->
(forall u e ws,
    find (fun x => fst x =? u) (live w) = Some (u, ws) ->
    let w' := step w (TtsError u e) in
    isSpeaking (svc w') = false
    /\ (forall p, In p ws -> outcome w p = None ->
                  awaited w' p = Some (inr e))
    /\ (forall cb, onSpeechEndCallback (svc w) = Some cb ->
                   trace w' = SpeechEnd cb :: TtsEnded u :: trace w))
/\ (forall e cb,
       currentRecognitionSubscriptions (svc w) = true ->
       onRecognitionErrorCallback (svc w) = Some cb ->
       let w' := step w (SttErrorEv e) in
       isListening (svc w') = false
       /\ trace w'
          = RecognitionErrorCb cb
              {| type := Some (orDefault (err_error e) "unknown");
                 message := Some (orDefault (err_message e)
                                            "Speech recognition error") |}
            :: trace w)
/\ (forall e o cb,
       sttFault w = Some e ->
       isListening (svc w) = false ->
       isSpeaking (svc w) = false ->
       currentRecognition (svc w) = false ->
       onRecognitionErrorCallback (svc w) = Some cb ->
       outcome w (nextPromise w) = None ->
       let w' := step w (CallStartListening o) in
       isListening (svc w') = false
       /\ awaited w' (nextPromise w) = Some (inl tt)
       /\ trace w'
          = RecognitionErrorCb cb
              {| type := None; message := err_message e |}
            :: RecognitionErrorCb cb
                 {| type := Some (lit "unknown");
                    message := Some (orDefault (err_message e)
                                       "Failed to start recognition") |}
            :: trace w).
Proof.
intro Hm.
assert (Hd : drain w = w).
{ unfold drain. rewrite Hm. destruct w; cbn in *. now subst. }
repeat split.
- cbn [step]. rewrite Hd. unfold ended. rewrite H.
  unfold onSpeakError.
  match goal with
  | |- context [settle ?o ?ps ?x] =>
      destruct (settle_frame o ps x) as (A & _)
  end.
  rewrite A. unfold notifySpeechEnd. break; reflexivity.
- intros p Hp Ho. cbn [step]. rewrite Hd. unfold ended. rewrite H.
  unfold onSpeakError, awaited.
  rewrite (@outcome_settle (Rejected e) ws _ p Hp); [reflexivity|].
  unfold notifySpeechEnd. break; exact Ho.
- intros cb Hcb. cbn [step]. rewrite Hd. unfold ended. rewrite H.
  unfold onSpeakError.
  match goal with
  | |- context [settle ?o ?ps ?x] =>
      destruct (settle_frame o ps x) as (_ & B & _)
  end.
  rewrite B. unfold notifySpeechEnd. world. now rewrite Hcb.
- cbn [step]. rewrite Hd. unfold heard. rewrite H.
  unfold onError, clearSilence. break; reflexivity.
- cbn [step]. rewrite Hd. unfold heard. rewrite H.
  unfold onError, clearSilence.
  destruct (silenceTimeout (svc w)); world; now rewrite H0.
- cbn [step]. unfold startListening. world. rewrite H0, H1.
  unfold listenTry. world. rewrite H2. unfold listenStart.
  world.
  destruct (silenceTimeout (svc w));
    repeat (progress (world; rewrite ?H, ?H3));
    cbn [settle fold_left];
    match goal with
    | |- context [settle1 ?o ?x ?p] =>
        destruct (settle1_svc o x p) as (A & _)
    end; now rewrite A.
- cbn [step]. unfold startListening. world. rewrite H0, H1.
  unfold listenTry. world. rewrite H2. unfold listenStart.
  unfold awaited, nextPromise in *.
  world.
  destruct (silenceTimeout (svc w));
    repeat (progress (world; rewrite ?H, ?H3));
    cbn [settle fold_left];
    (rewrite outcome_settle1_same; [reflexivity|exact H4]).
- cbn [step]. unfold startListening. world. rewrite H0, H1.
  unfold listenTry. world. rewrite H2. unfold listenStart.
  world.
  destruct (silenceTimeout (svc w));
    repeat (progress (world; rewrite ?H, ?H3));
    cbn [settle fold_left];
    match goal with
    | |- context [settle1 ?o ?x ?p] =>
        destruct (settle1_svc o x p) as (_ & B & _)
    end; now rewrite B.
Qed.

Lemma engine_errors_release_turn_witness :
let w := step boot (CallSpeak (lit "Question one") []) in
isSpeaking (svc w) = true
/\ isSpeaking (svc (step w (TtsError 1 sampleError))) = false.
Proof.
cbv zeta. split; [reflexivity|].
refine (proj1 (proj1 (@engine_errors_release_turn
                        (step boot (CallSpeak (lit "Question one") [])) _)
                     1 sampleError [0] _)); reflexivity.
Defined.

(** ** C2 *)

Lemma clearTimeout_none (id : TimerId) (x : World) :
timers x = [] -> clearTimeout id x = x.
Proof.
intro H. unfold clearTimeout. rewrite H. destruct x; cbn in *. now subst.
Qed.

(** C2, as stated, fails: listening is started and nothing is heard; when
  the silence timer fires, one [silence_timeout] error is delivered but
  the service is still listening, not idle. *)
Lemma silence_timeout_leaves_listening :
let w := run boot [CallSetOnRecognitionError (Some 1);
                   CallStartListening []; Tick] in
silenceErrors w = 1
/\ now w = 10000%N
/\ isListening (svc w) = true
/\ turnState w <> Idle.
Proof. repeat split. discriminate. Qed.

(** A recognition event that is not final cancels the silence timer as
  well: after it, silence is never reported. *)
Lemma interim_result_cancels_silence_timer :
let interim :=
  {| results := None;
     own := {| transcript := Some (lit "opt"); alt_text := None;
               isFinal := Some false |} |} in
let w := run boot [CallSetOnRecognitionError (Some 1);
                   CallSetOnRecognitionResult (Some 2);
                   CallStartListening [];
                   SttResultEv (Some interim);
                   Tick] in
silenceErrors w = 0 /\ timers w = [] /\ isListening (svc w) = true.
Proof. repeat split. Qed.

(** C2, amended. When [startListening] is called on an idle service with
  an error callback registered and the engine starts, the silence timer
  is armed for 10 seconds; if it fires with nothing having happened in
  between, exactly one error of kind [silence_timeout] is delivered to
  the error callback, once (the timer is spent); the service does not
  clear [isListening] itself. *)
Theorem silence_timeout_reported_once
      (w : World) (o : Options) (cb : Callback) :
isListening (svc w) = false ->
isSpeaking (svc w) = false ->
currentRecognition (svc w) = false ->
onRecognitionErrorCallback (svc w) = Some cb ->
silenceTimeoutDuration (svc w) = 10000%N ->
sttFault w = None ->
micro w = [] ->
timers w = [] ->
let w1 := step w (CallStartListening o) in
let w2 := step w1 Tick in
isListening (svc w1) = true
/\ timers w1 = [{| tid := S (nextId w);
                   deadline := (now w + 10000)%N;
                   task := SilenceTimeout |}]
/\ trace w2 = RecognitionErrorCb cb silence_timeout :: SttStart o :: trace w
/\ now w2 = (now w + 10000)%N
/\ timers w2 = []
/\ isListening (svc w2) = true.
Proof.
intros Hl Hs Hr Hcb Hd Hf Hm Ht w1 w2.
assert (H1 : w1 =
  settle1 Resolved
    (this (setRecognition true)
       (emit (SttStart o)
          (this (setSubscriptions true)
             (this (setSubscriptions false)
                (this (setSilenceTimeout (Some (S (nextId w))))
                   (setTimeout SilenceTimeout 10000
                      (this (setListening true) (bump w))))))))
    (nextId w)).
{ subst w1. cbn [step]. unfold startListening. world. rewrite Hl, Hs.
  unfold listenTry. world. rewrite Hr. unfold listenStart. world.
  destruct (silenceTimeout (svc w)) as [id|];
    [rewrite clearTimeout_none by (world; exact Ht)|];
    world; rewrite Hd, Hf; reflexivity. }
destruct (settle1_svc Resolved
            (this (setRecognition true)
               (emit (SttStart o)
                  (this (setSubscriptions true)
                     (this (setSubscriptions false)
                        (this (setSilenceTimeout (Some (S (nextId w))))
                           (setTimeout SilenceTimeout 10000
                              (this (setListening true) (bump w))))))))
            (nextId w))
  as (A & B & C & D & E & F & G & H).
rewrite <- H1 in *. clearbody w1. world. rewrite Ht in C. cbn [app] in C.
assert (H2 : w2 = emit (RecognitionErrorCb cb silence_timeout)
                       (withNow (now w + 10000)%N (withTimers [] w1))).
{ subst w2. cbn [step]. unfold drain. rewrite D, Hm. cbn [fold_left].
  unfold fire. world. rewrite C. cbn [earliest].
  unfold clearTimeout. world. rewrite C.
  cbn [filter tid negb]. rewrite Nat.eqb_refl. cbn [negb].
  cbn [task runTask]. unfold onSilence. world. rewrite A. world.
  rewrite Hcb, G. cbn [deadline].
  unfold emit, withNow, withTimers, withMicro. world.
  rewrite D, Hm, N.max_r by lia. reflexivity. }
repeat split.
- now rewrite A.
- exact C.
- rewrite H2. world. now rewrite B.
- rewrite H2. reflexivity.
- rewrite H2. reflexivity.
- rewrite H2. world. now rewrite A.
Qed.

Lemma silence_timeout_reported_once_witness :
let w := step boot (CallSetOnRecognitionError (Some 1)) in
trace (step (step w (CallStartListening [])) Tick)
= [RecognitionErrorCb 1 silence_timeout; SttStart []].
Proof.
cbv zeta.
refine (proj1 (proj2 (proj2
  (@silence_timeout_reported_once
     (step boot (CallSetOnRecognitionError (Some 1))) [] 1
     _ _ _ _ _ _ _ _)))); reflexivity.
Defined.

(** ** C1 *)

(** C1. The code does not keep the flags apart: [startListening],
  then [speak] (which stops the recognition and waits 500 ms), then
  [startListening] again during that wait; when the wait is over,
  [speak] raises [isSpeaking] without looking at [isListening] again,
  and both flags are true. *)
Theorem turn_flags_overlap :
let w := run boot [CallStartListening [];
                   CallSpeak (lit "Question one") [];
                   Microtask;
                   CallStartListening [];
                   Tick] in
now w = 500%N
/\ isSpeaking (svc w) = true
/\ isListening (svc w) = true
/\ turnState w = Both.
Proof. repeat split. Qed.

End SpeechSteps.

(* ===================================================================== *)
(** * The speech queue *)
(* ===================================================================== *)

Section SpeechQueue.
Import JsString Speech SpeechProps.

Ltac world :=
cbn [svc now nextId timers micro live settled sttFault trace
     this emit bump withTimers withMicro withLive withSettled withFault
     withNow setTimeout clearTimeout await
     isSpeaking isListening isInitialized speechQueue currentRecognition
     currentRecognitionSubscriptions onSpeechEndCallback
     onRecognitionResultCallback onRecognitionErrorCallback
     silenceTimeout silenceTimeoutDuration lastSpokenMessage
     setSpeaking setListening setQueue setRecognition setSubscriptions
     setCallbacks setSilenceTimeout setLastSpoken] in *.

Lemma drain_nothing (w : World) : micro w = [] -> drain w = w.
Proof.
intro H. unfold drain. rewrite H. destruct w; cbn in *. now subst.
Qed.

Lemma remove_only (u : nat) : remove Nat.eq_dec u [u] = [].
Proof. cbn [remove]. destruct (Nat.eq_dec u u); [reflexivity|congruence]. Qed.

(** [settle] touches the promises only. *)
Lemma fifo_settle (arrived : list jsstring) (o : Outcome)
    (ps : list PromiseId) (w : World) :
Fifo arrived w -> Fifo arrived (settle o ps w).
Proof.
intros [L M T P O1 O2].
destruct (settle_frame o ps w) as (A & B & C & D & E & _).
split; try congruence.
destruct P as [u ws H1 H2 H3 H4|ws id d H1 H2 H3 H4|H1 H2 H3 H4 H5].
- apply (@InUtterance _ u ws); congruence.
- apply (@InBuffer _ ws id d); congruence.
- apply Drained; congruence.
Qed.

(** A request arriving while the service speaks joins the queue. *)
Lemma fifo_speak (arrived : list jsstring) (w : World)
    (t : jsstring) (o : Options) :
isSpeaking (svc w) = true ->
Fifo arrived w ->
Fifo (arrived ++ if blank t then [] else [t]) (step w (CallSpeak t o)).
Proof.
intros Hs F. cbn [step]. unfold speakBody.
destruct (blank t) eqn:Hb.
- rewrite app_nil_r. apply fifo_settle.
  destruct F as [L M T P O1 O2].
  split; world; auto.
  destruct P as [u ws H1 H2 H3 H4|ws id d H1 H2 H3 H4|H1 H2 H3 H4 H5].
  + now apply (@InUtterance _ u ws).
  + now apply (@InBuffer _ ws id d).
  + now apply Drained.
- world. rewrite Hs. apply fifo_settle.
  destruct F as [L M T P O1 O2].
  split; world; auto.
  + apply Forall_app. split; [exact T|]. now constructor.
  + destruct P as [u ws H1 H2 H3 H4|ws id d H1 H2 H3 H4|H1 H2 H3 H4 H5];
      try congruence.
    now apply (@InUtterance _ u ws).
  + rewrite map_app, app_assoc, O2. reflexivity.
Qed.

(** The end of an utterance opens the post-speech buffer. *)
Lemma fifo_done (arrived : list jsstring) (w : World) (u : UtteranceId) :
Fifo arrived w -> Fifo arrived (step w (TtsDone u)).
Proof.
intro F. cbn [step]. rewrite drain_nothing by apply F.
unfold ended.
destruct F as [L M T P O1 O2].
destruct P as [v ws H1 H2 H3 H4|ws id d H1 H2 H3 H4|H1 H2 H3 H4 H5].
- rewrite H2. cbn [find fst].
  destruct (v =? u) eqn:E.
  + apply Nat.eqb_eq in E. subst v.
    unfold onDone. split; world; auto.
    apply (@InBuffer _ ws (nextId w) (now w + 300)%N); world; auto.
    * cbn [filter fst]. now rewrite Nat.eqb_refl.
    * now rewrite H3.
    * cbn [unfinished]. rewrite H4. apply remove_only.
  + split; auto. now apply (@InUtterance _ v ws).
- rewrite H2. cbn [find]. split; auto. now apply (@InBuffer _ ws id d).
- rewrite H2. cbn [find]. split; auto. now apply Drained.
Qed.

(** When the buffer has elapsed, the head of the queue is spoken. *)
Lemma fifo_tick (arrived : list jsstring) (w : World) :
Fifo arrived w -> Fifo arrived (step w Tick).
Proof.
intro F. cbn [step]. rewrite drain_nothing by apply F.
unfold fire.
destruct F as [L M T P O1 O2].
destruct P as [v ws H1 H2 H3 H4|ws id d H1 H2 H3 H4|H1 H2 H3 H4 H5].
- rewrite H3. cbn [earliest]. split; auto. now apply (@InUtterance _ v ws).
- rewrite H3. cbn [earliest task runTask tid deadline].
  unfold postSpeech. world.
  destruct (speechQueue (svc w)) as [|next queue'] eqn:Q.
  + apply fifo_settle. unfold notifySpeechEnd. world.
    assert (Hf : filter (fun t => negb (tid t =? id)) (timers w) = []).
    { rewrite H3. cbn [filter tid]. now rewrite Nat.eqb_refl. }
    destruct (onSpeechEndCallback (svc w));
      (split; world; auto; [rewrite Q; constructor|apply Drained; world; auto
                           |now rewrite Q]).
  + inversion T as [|r rs Hr Hrs]; subst.
    unfold speakBody. rewrite Hr. world. rewrite H1, L.
    unfold speakStart. world.
    assert (Hf : filter (fun t => negb (tid t =? id)) (timers w) = []).
    { rewrite H3. cbn [filter tid]. now rewrite Nat.eqb_refl. }
    split; world; auto.
    * apply (@InUtterance _ (nextId w) ws); world; auto.
      -- now rewrite H2.
      -- cbn [unfinished]. now rewrite H4.
    * cbn [oneAtATime]. now split.
    * cbn [spoken map]. now rewrite <- app_assoc.
- rewrite H3. cbn [earliest]. split; auto. now apply Drained.
Qed.

Lemma fifo_run (es : list Event) :
forall (arrived : list jsstring) (w : World),
  queueing w es -> Fifo arrived w ->
  Fifo (arrived ++ requested es) (run w es).
Proof.
induction es as [|e es IH]; intros arrived w Q F.
- cbn [requested run fold_left]. now rewrite app_nil_r.
- inversion Q as [|w' t o es' Hs Hq|w' u es' Hq|w' es' Hq]; subst;
    cbn [requested run fold_left].
  + pose proof (@fifo_speak arrived w t o Hs F) as F'.
    specialize (IH _ _ Hq F').
    destruct (blank t); rewrite <- app_assoc in IH; exact IH.
  + apply IH; [assumption|]. now apply fifo_done.
  + apply IH; [assumption|]. now apply fifo_tick.
Qed.

(** The first utterance of a service at rest. *)
Lemma fifo_start (w : World) (t : jsstring) (o : Options) :
AtRest w -> blank t = false ->
Fifo (spoken (trace w) ++ [t]) (step w (CallSpeak t o)).
Proof.
intros [Sp L Q T M V U O] Hb. cbn [step]. unfold speakBody.
rewrite Hb. world. rewrite Sp, L. unfold speakStart. world.
split; world; auto.
- rewrite Q. constructor.
- apply (@InUtterance _ (S (nextId w)) [nextId w]); world; auto.
  + now rewrite V.
  + cbn [unfinished]. now rewrite U.
- cbn [oneAtATime]. now split.
- rewrite Q. cbn [spoken map]. now rewrite app_nil_r.
Qed.

(** ** The queue is drained *)

Lemma done_queue (arrived : list jsstring) (w : World)
    (u : UtteranceId) (ws : list PromiseId)
    (l : list (UtteranceId * list PromiseId)) :
Fifo arrived w -> live w = (u, ws) :: l ->
isSpeaking (svc (step w (TtsDone u))) = false
/\ speechQueue (svc (step w (TtsDone u))) = speechQueue (svc w).
Proof.
intros F H. cbn [step]. rewrite drain_nothing by apply F.
unfold ended. rewrite H. cbn [find fst]. rewrite Nat.eqb_refl.
unfold onDone. world. split; reflexivity.
Qed.

Lemma tick_queue (arrived : list jsstring) (w : World) :
Fifo arrived w -> isSpeaking (svc w) = false ->
speechQueue (svc (step w Tick)) = tl (speechQueue (svc w))
/\ (speechQueue (svc w) = [] -> isSpeaking (svc (step w Tick)) = false).
Proof.
intros F Hs. cbn [step]. rewrite drain_nothing by apply F.
unfold fire.
destruct F as [L M T P O1 O2].
destruct P as [v ws H1 H2 H3 H4|ws id d H1 H2 H3 H4|H1 H2 H3 H4 H5].
- congruence.
- rewrite H3. cbn [earliest task runTask tid deadline].
  unfold postSpeech. world.
  destruct (speechQueue (svc w)) as [|next queue'] eqn:Q.
  + match goal with
    | |- context [settle ?o ?ps ?x] =>
        destruct (settle_frame o ps x) as (A & _)
    end.
    rewrite A. unfold notifySpeechEnd.
    destruct (onSpeechEndCallback _); world; rewrite Q; now split.
  + inversion T as [|r rs Hr Hrs]; subst.
    unfold speakBody. rewrite Hr. world. rewrite H1, L.
    unfold speakStart. world. split; [reflexivity|discriminate].
- rewrite H3. cbn [earliest]. rewrite H4. now split.
Qed.

Lemma finishCurrent_progress (arrived : list jsstring) (w : World) :
Fifo arrived w ->
Fifo arrived (finishCurrent w)
/\ speechQueue (svc (finishCurrent w)) = tl (speechQueue (svc w))
/\ (speechQueue (svc w) = [] ->
    isSpeaking (svc (finishCurrent w)) = false).
Proof.
intro F. unfold finishCurrent.
destruct (live w) as [|[u ws] l] eqn:E.
- split; [now apply fifo_tick|].
  apply (@tick_queue arrived); [exact F|].
  destruct F as [L M T P O1 O2].
  destruct P as [v ws H1 H2 H3 H4|ws id d H1 H2 H3 H4|H1 H2 H3 H4 H5];
    congruence.
- destruct (@done_queue arrived w u ws l F E) as [D1 D2].
  pose proof (@fifo_done arrived w u F) as F1.
  split; [now apply fifo_tick|].
  destruct (@tick_queue arrived _ F1 D1) as [T1 T2].
  rewrite <- D2. split; [exact T1|exact T2].
Qed.

Lemma finishCurrent_drains (n : nat) :
forall (arrived : list jsstring) (w : World),
  Fifo arrived w ->
  length (speechQueue (svc w)) = n ->
  let w' := Nat.iter (S n) finishCurrent w in
  Fifo arrived w'
  /\ speechQueue (svc w') = []
  /\ isSpeaking (svc w') = false.
Proof.
induction n as [|n IH]; intros arrived w F Hn; cbv zeta.
- cbn [Nat.iter nat_rect].
  destruct (speechQueue (svc w)) eqn:Q; [|discriminate Hn].
  destruct (finishCurrent_progress F) as (F1 & Q1 & S1).
  rewrite Q in Q1. split; [exact F1|]. split; [exact Q1|]. now apply S1.
- rewrite Nat.iter_succ_r.
  destruct (finishCurrent_progress F) as (F1 & Q1 & _).
  apply IH; [exact F1|].
  rewrite Q1. destruct (speechQueue (svc w)); [discriminate Hn|].
  cbn [tl length] in *. lia.
Qed.

(** What the queue does ensure. [speak] is called on a service at rest
  and then, any number of times, only while the service is speaking,
  the engine finishing utterances and the timers firing in between (no
  call falls into the 300 ms pause after an utterance, when
  [isSpeaking] is false): at every moment the texts handed to
  the engine so far, followed by the texts still queued, are the texts
  requested, in the order of their arrival, and each text was handed to
  the engine only after every earlier utterance had ended; and once the
  engine has finished as many utterances as were pending, every
  requested text has been spoken, in that order, and the service is
  idle. *)
Theorem queued_requests_spoken_in_order
      (w0 : World) (t0 : jsstring) (o0 : Options) (es : list Event) :
AtRest w0 ->
blank t0 = false ->
queueing (step w0 (CallSpeak t0 o0)) es ->
let w := run (step w0 (CallSpeak t0 o0)) es in
let w' := Nat.iter (S (length (speechQueue (svc w)))) finishCurrent w in
(spoken (trace w) ++ map text (speechQueue (svc w))
 = spoken (trace w0) ++ t0 :: requested es
 /\ oneAtATime (trace w))
/\ (spoken (trace w') = spoken (trace w0) ++ t0 :: requested es
    /\ oneAtATime (trace w')
    /\ speechQueue (svc w') = []
    /\ turnState w' = Idle).
Proof.
intros R Hb Q w w'.
pose proof (fifo_run Q (@fifo_start w0 t0 o0 R Hb)) as F.
fold w in F. rewrite <- app_assoc in F. cbn [app] in F.
split.
- destruct F as [_ _ _ _ O1 O2]. now split.
- destruct (@finishCurrent_drains _ _ w F eq_refl) as (F' & Q' & S').
  fold w' in F', Q', S'.
  destruct F' as [L' _ _ _ O1 O2].
  rewrite Q' in O2. cbn [map] in O2. rewrite app_nil_r in O2.
  repeat split; auto.
  unfold turnState. now rewrite S', L'.
Qed.

Lemma queued_requests_spoken_in_order_witness :
let es := [CallSpeak (lit "Option A") []; CallSpeak (lit "Option B") [];
           TtsDone 1; Tick; CallSpeak (lit "Option C") []] in
let w := run (step boot (CallSpeak (lit "Question one") [])) es in
spoken (trace w) ++ map text (speechQueue (svc w))
= [lit "Question one"; lit "Option A"; lit "Option B"; lit "Option C"]
/\ spoken (trace (Nat.iter 3 finishCurrent w))
   = [lit "Question one"; lit "Option A"; lit "Option B"; lit "Option C"].
Proof.
cbv zeta.
destruct (@queued_requests_spoken_in_order boot (lit "Question one") []
            [CallSpeak (lit "Option A") []; CallSpeak (lit "Option B") [];
             TtsDone 1; Tick; CallSpeak (lit "Option C") []])
  as [[H1 _] [H2 _]].
- repeat split.
- reflexivity.
- repeat (constructor; try reflexivity).
- split; [exact H1|exact H2].
Defined.

(** C5. The code does not keep the arrival order. "Option A" and then
  "Option B" are queued while "Question one" is spoken; the engine
  finishes, and during the 300 ms pause that follows ([isSpeaking] is
  false, the queue is not empty) [speak] is called once more: its text
  goes to the engine at once. When the pause is over, [onDone] shifts
  "Option A" and calls [speak], which finds the service speaking and
  appends the request to the queue again, behind "Option B": "Option
  B" is spoken before "Option A". *)
Theorem queued_requests_overtaken :
let es := [CallSpeak (lit "Question one") [];
           CallSpeak (lit "Option A") [];
           CallSpeak (lit "Option B") [];
           TtsDone 1;
           CallSpeak (lit "Please hurry") [];
           Tick] in
let w := run boot es in
isSpeaking (svc (run boot (firstn 1 es))) = true
/\ isSpeaking (svc (run boot (firstn 2 es))) = true
/\ map text (speechQueue (svc (run boot (firstn 3 es))))
   = [lit "Option A"; lit "Option B"]
/\ isSpeaking (svc (run boot (firstn 4 es))) = false
/\ map text (speechQueue (svc w)) = [lit "Option B"; lit "Option A"]
/\ spoken (trace (Nat.iter 3 finishCurrent w))
   = [lit "Question one"; lit "Please hurry";
      lit "Option B"; lit "Option A"]
/\ speechQueue (svc (Nat.iter 3 finishCurrent w)) = [].
Proof. repeat split. Qed.

End SpeechQueue.

(* ===================================================================== *)
(** * Taking turns *)
(* ===================================================================== *)

Section TurnTaking.
Import JsString Speech SpeechProps.

Ltac world :=
cbn [svc now nextId timers micro live settled sttFault trace
     this emit bump withTimers withMicro withLive withSettled withFault
     withNow setTimeout clearTimeout await
     isSpeaking isListening isInitialized speechQueue currentRecognition
     currentRecognitionSubscriptions onSpeechEndCallback
     onRecognitionResultCallback onRecognitionErrorCallback
     silenceTimeout silenceTimeoutDuration lastSpokenMessage
     setSpeaking setListening setQueue setRecognition setSubscriptions
     setCallbacks setSilenceTimeout setLastSpoken] in *.

Ltac break :=
repeat match goal with
       | |- context [match ?x with _ => _ end] => destruct x
       end.

(** ** The pending tasks *)

Lemma tasks_same (a b : Task -> bool) (w w' : World) :
micro w' = micro w -> timers w' = timers w ->
Tasks a b w -> Tasks a b w'.
Proof. unfold Tasks. intros -> ->. auto. Qed.

Lemma tasks_setTimeout (a b : Task -> bool) (k : Task) (d : N) (w : World) :
b k = true -> Tasks a b w -> Tasks a b (setTimeout k d w).
Proof.
intros Hk [M T]. split; world; [assumption|].
apply Forall_app. split; [assumption|].
constructor; [exact Hk|constructor].
Qed.

Lemma tasks_clearTimeout (a b : Task -> bool) (id : TimerId) (w : World) :
Tasks a b w -> Tasks a b (clearTimeout id w).
Proof.
intros [M T]. split; world; [assumption|].
rewrite Forall_forall in *. intros t Ht.
apply filter_In in Ht. apply T, Ht.
Qed.

Lemma tasks_await (a b : Task -> bool) (k : Task) (w : World) :
a k = true -> Tasks a b w -> Tasks a b (await k w).
Proof.
intros Hk [M T]. split; world; [|assumption].
apply Forall_app. split; [assumption|].
constructor; [exact Hk|constructor].
Qed.

Lemma tasks_withMicro (a b : Task -> bool) (ks : list Task) (w : World) :
Forall (fun k => a k = true) ks ->
Tasks a b w -> Tasks a b (withMicro ks w).
Proof. intros Hk [M T]. split; world; assumption. Qed.

Lemma tasks_weaken (a b a' b' : Task -> bool) (w : World) :
(forall k, a k = true -> a' k = true) ->
(forall k, b k = true -> b' k = true) ->
Tasks a b w -> Tasks a' b' w.
Proof.
intros Ha Hb [M T]. split.
- eapply Forall_impl; [|exact M]. auto.
- eapply Forall_impl; [|exact T]. cbv beta. auto.
Qed.

Lemma withMicro_eta (w : World) : withMicro (micro w) w = w.
Proof. now destruct w. Qed.

(** ** Frames *)

Lemma frame_refl (s l : bool) (w : World) : Frame s l w w.
Proof. split; auto. Qed.

Lemma frame_trans (s l : bool) (w x y : World) :
Frame s l w x -> Frame s l x y -> Frame s l w y.
Proof.
intros [M1 T1 Q1 S1 L1] [M2 T2 Q2 S2 L2]. split; auto.
- congruence.
- destruct Q2 as [Q2|Q2]; [|now right].
  rewrite Q2. exact Q1.
Qed.

Lemma frame_weaken (s l s' l' : bool) (w w' : World) :
(s = true -> s' = true) -> (l = true -> l' = true) ->
Frame s l w w' -> Frame s' l' w w'.
Proof.
intros Hs Hl [M T Q Sp L]. split; auto.
- intro E. apply Sp. destruct s; [|reflexivity].
  rewrite Hs in E; [discriminate E|reflexivity].
- intro E. apply L. destruct l; [|reflexivity].
  rewrite Hl in E; [discriminate E|reflexivity].
Qed.

(** A step that leaves the pending tasks alone. *)
Lemma frame_same (s l : bool) (w x y : World) :
micro y = micro x -> timers y = timers x ->
(speechQueue (svc y) = speechQueue (svc x)
 \/ speechQueue (svc y) = []) ->
(s = false -> isSpeaking (svc y) = true -> isSpeaking (svc x) = true) ->
(l = false -> isListening (svc y) = true -> isListening (svc x) = true) ->
Frame s l w x -> Frame s l w y.
Proof.
intros M T Q Sp L H. eapply frame_trans; [exact H|].
split; auto. intros a b _. now apply tasks_same.
Qed.

Ltac same := apply frame_same; world; auto; intros; discriminate.

Lemma frame_emit (s l : bool) (o : Output) (w x : World) :
Frame s l w x -> Frame s l w (emit o x).
Proof. same. Qed.

Lemma frame_bump (s l : bool) (w x : World) :
Frame s l w x -> Frame s l w (bump x).
Proof. same. Qed.

Lemma frame_withLive (s l : bool) (v : list (UtteranceId * list PromiseId))
    (w x : World) :
Frame s l w x -> Frame s l w (withLive v x).
Proof. same. Qed.

Lemma frame_withNow (s l : bool) (n : N) (w x : World) :
Frame s l w x -> Frame s l w (withNow n x).
Proof. same. Qed.

Lemma frame_withFault (s l : bool) (f : option EngineError) (w x : World) :
Frame s l w x -> Frame s l w (withFault f x).
Proof. same. Qed.

Lemma frame_settle (s l : bool) (o : Outcome) (ps : list PromiseId)
    (w x : World) :
Frame s l w x -> Frame s l w (settle o ps x).
Proof.
destruct (settle_frame o ps x) as (A & _ & T & M & _).
apply frame_same; rewrite ?A; auto.
Qed.

Lemma frame_clearTimeout (s l : bool) (id : TimerId) (w x : World) :
Frame s l w x -> Frame s l w (clearTimeout id x).
Proof.
intro H. eapply frame_trans; [exact H|].
split; world; auto. intros a b _. apply tasks_clearTimeout.
Qed.

Lemma frame_setTimeout (s l : bool) (k : Task) (d : N) (w x : World) :
harmless k = true ->
Frame s l w x -> Frame s l w (setTimeout k d x).
Proof.
intros Hk H. eapply frame_trans; [exact H|].
split; world; auto. intros a b Hb. apply tasks_setTimeout. auto.
Qed.

Lemma frame_silence (s l : bool) (d : N) (w x : World) :
Frame s l w x -> Frame s l w (setTimeout SilenceTimeout d x).
Proof. now apply frame_setTimeout. Qed.

Lemma frame_deliver (s l : bool) (t : jsstring) (d : N) (w x : World) :
Frame s l w x -> Frame s l w (setTimeout (DeliverResult t) d x).
Proof. now apply frame_setTimeout. Qed.

Lemma frame_buffer (s l : bool) (ws : list PromiseId) (d : N)
    (w x : World) :
Frame s l w x -> Frame s l w (setTimeout (PostSpeech ws) d x).
Proof. now apply frame_setTimeout. Qed.

Lemma frame_setSpeaking_false (s l : bool) (w x : World) :
Frame s l w x -> Frame s l w (this (setSpeaking false) x).
Proof. same. Qed.

Lemma frame_setSpeaking_true (l : bool) (w x : World) :
Frame true l w x -> Frame true l w (this (setSpeaking true) x).
Proof. same. Qed.

Lemma frame_setListening_false (s l : bool) (w x : World) :
Frame s l w x -> Frame s l w (this (setListening false) x).
Proof. same. Qed.

Lemma frame_setListening_true (s : bool) (w x : World) :
Frame s true w x -> Frame s true w (this (setListening true) x).
Proof. same. Qed.

Lemma frame_setQueue_nil (s l : bool) (w x : World) :
Frame s l w x -> Frame s l w (this (setQueue []) x).
Proof. same. Qed.

Lemma frame_setRecognition (s l b : bool) (w x : World) :
Frame s l w x -> Frame s l w (this (setRecognition b) x).
Proof. same. Qed.

Lemma frame_setSubscriptions (s l b : bool) (w x : World) :
Frame s l w x -> Frame s l w (this (setSubscriptions b) x).
Proof. same. Qed.

Lemma frame_setSilenceTimeout (s l : bool) (t : option TimerId)
    (w x : World) :
Frame s l w x -> Frame s l w (this (setSilenceTimeout t) x).
Proof. same. Qed.

Lemma frame_setLastSpoken (s l : bool) (m : option jsstring) (w x : World) :
Frame s l w x -> Frame s l w (this (setLastSpoken m) x).
Proof. same. Qed.

Lemma frame_setCallbacks (s l : bool)
    (f : SpeechService -> option Callback * option Callback
                          * option Callback)
    (w x : World) :
Frame s l w x ->
Frame s l w
      (this (fun v => setCallbacks (fst (fst (f v))) (snd (fst (f v)))
                                   (snd (f v)) v) x).
Proof. same. Qed.

Create HintDb frames.

#[local] Hint Resolve frame_refl frame_emit frame_bump frame_withLive
frame_withNow frame_withFault frame_settle frame_clearTimeout
frame_silence frame_deliver frame_buffer
frame_setSpeaking_false frame_setSpeaking_true
frame_setListening_false frame_setListening_true frame_setQueue_nil
frame_setRecognition frame_setSubscriptions frame_setSilenceTimeout
frame_setLastSpoken : frames.

Ltac frames := auto 40 with frames.

Lemma frame_clearSilence (s l : bool) (w x : World) :
Frame s l w x -> Frame s l w (clearSilence x).
Proof. intro H. unfold clearSilence. break; frames. Qed.

#[local] Hint Resolve frame_clearSilence : frames.

Lemma frame_stopListening (s l : bool) (w x : World) :
Frame s l w x -> Frame s l w (stopListening x).
Proof. intro H. unfold stopListening. break; frames. Qed.

Lemma frame_abortListening (s l : bool) (w x : World) :
Frame s l w x -> Frame s l w (abortListening x).
Proof. intro H. unfold abortListening. break; frames. Qed.

Lemma frame_stopSpeaking (s l : bool) (w x : World) :
Frame s l w x -> Frame s l w (stopSpeaking x).
Proof. intro H. unfold stopSpeaking. break; frames. Qed.

Lemma frame_notifySpeechEnd (s l : bool) (w x : World) :
Frame s l w x -> Frame s l w (notifySpeechEnd x).
Proof. intro H. unfold notifySpeechEnd. break; frames. Qed.

#[local] Hint Resolve frame_stopListening frame_abortListening
frame_stopSpeaking frame_notifySpeechEnd : frames.

Lemma frame_cleanupRest (s l : bool) (p : PromiseId) (w x : World) :
Frame s l w x -> Frame s l w (cleanupRest p x).
Proof.
intro H. unfold cleanupRest.
apply frame_settle, frame_setLastSpoken.
apply (@frame_setCallbacks s l (fun _ => (None, None, None))).
frames.
Qed.

Lemma frame_listenStart (s : bool) (o : Options) (p : PromiseId)
    (w x : World) :
Frame s true w x -> Frame s true w (listenStart o p x).
Proof. intro H. unfold listenStart. break; frames. Qed.

Lemma frame_speakStart (l : bool) (t : jsstring) (o : Options)
    (ws : list PromiseId) (w x : World) :
Frame true l w x -> Frame true l w (speakStart t o ws x).
Proof. intro H. unfold speakStart. frames. Qed.

Lemma frame_onResult (s l : bool) (e : option SttEvent) (w x : World) :
Frame s l w x -> Frame s l w (onResult e x).
Proof. intro H. unfold onResult. break; frames. Qed.

Lemma frame_onError (s l : bool) (e : EngineError) (w x : World) :
Frame s l w x -> Frame s l w (onError e x).
Proof. intro H. unfold onError. break; frames. Qed.

Lemma frame_onSilence (s l : bool) (w x : World) :
Frame s l w x -> Frame s l w (onSilence x).
Proof. intro H. unfold onSilence. break; frames. Qed.

Lemma frame_deliverResult (s l : bool) (t : jsstring) (w x : World) :
Frame s l w x -> Frame s l w (deliverResult t x).
Proof. intro H. unfold deliverResult. break; frames. Qed.

Lemma frame_onDone (s l : bool) (ws : list PromiseId) (w x : World) :
Frame s l w x -> Frame s l w (onDone ws x).
Proof. intro H. unfold onDone. frames. Qed.

Lemma frame_onStopped (s l : bool) (ws : list PromiseId) (w x : World) :
Frame s l w x -> Frame s l w (onStopped ws x).
Proof. intro H. unfold onStopped. frames. Qed.

Lemma frame_onSpeakError (s l : bool) (e : EngineError)
    (ws : list PromiseId) (w x : World) :
Frame s l w x -> Frame s l w (onSpeakError e ws x).
Proof. intro H. unfold onSpeakError. frames. Qed.

#[local] Hint Resolve frame_cleanupRest frame_listenStart frame_speakStart
frame_onResult frame_onError frame_onSilence frame_deliverResult
frame_onDone frame_onStopped frame_onSpeakError : frames.

Lemma frame_ended (s l : bool) (u : UtteranceId)
    (k : list PromiseId -> World -> World) (w x : World) :
(forall ws y, Frame s l w y -> Frame s l w (k ws y)) ->
Frame s l w x -> Frame s l w (ended u k x).
Proof.
intros Hk H. unfold ended. break; auto. apply Hk. frames.
Qed.

Lemma frame_heard (s l : bool) (k : World -> World) (w x : World) :
(forall y, Frame s l w y -> Frame s l w (k y)) ->
Frame s l w x -> Frame s l w (heard k x).
Proof. intros Hk H. unfold heard. break; auto. Qed.

(** ** Whose turn it is *)

Lemma harmless_placed (k : Task) :
harmless k = true -> negb (continuation k) = true.
Proof. now destruct k. Qed.

Lemma harmless_speaks (k : Task) :
harmless k = true -> negb (speaksLater k) = true.
Proof. now destruct k. Qed.

Lemma harmless_listens (k : Task) :
harmless k = true -> negb (listensLater k) = true.
Proof. now destruct k. Qed.

Lemma harmless_tries (k : Task) :
harmless k = true -> negb (triesLater k) = true.
Proof. now destruct k. Qed.

Lemma frame_wellPlaced (s l : bool) (w w' : World) :
Frame s l w w' -> WellPlaced w -> WellPlaced w'.
Proof. intros F. apply (fr_tasks F), harmless_placed. Qed.

Lemma frame_speakersTurn (s : bool) (w w' : World) :
Frame s false w w' -> SpeakersTurn w -> SpeakersTurn w'.
Proof.
intros F [L P]. split.
- destruct (isListening (svc w')) eqn:E; [|reflexivity].
  rewrite <- L. symmetry. now apply (fr_listening F).
- apply (fr_tasks F); [apply harmless_listens|exact P].
Qed.

Lemma frame_listenersTurn (l : bool) (w w' : World) :
Frame false l w w' -> ListenersTurn w -> ListenersTurn w'.
Proof.
intros F (Sp & P & Q). split; [|split].
- destruct (isSpeaking (svc w')) eqn:E; [|reflexivity].
  rewrite <- Sp. symmetry. now apply (fr_speaking F).
- apply (fr_tasks F); [apply harmless_speaks|exact P].
- destruct Q as [Q|Q].
  + left. apply (fr_tasks F); [apply harmless_tries|exact Q].
  + right. destruct (fr_queue F) as [E|E]; congruence.
Qed.

Lemma frame_exclusive (w w' : World) :
Frame false false w w' -> Exclusive w -> Exclusive w'.
Proof.
intros F [P [T|T]]; split.
- now apply (frame_wellPlaced F).
- left. now apply (frame_speakersTurn F).
- now apply (frame_wellPlaced F).
- right. now apply (frame_listenersTurn F).
Qed.

Lemma exclusive_turnState (w : World) : Exclusive w -> turnState w <> Both.
Proof.
intros [_ [[L _]|[Sp _]]]; unfold turnState.
- rewrite L. now destruct (isSpeaking (svc w)).
- rewrite Sp. now destruct (isListening (svc w)).
Qed.

(** ** The transitions *)

Lemma tries_listens (w : World) :
WellPlaced w -> micro w = [] ->
nonePending triesLater w -> nonePending listensLater w.
Proof.
intros [_ T] M [_ T']. split.
- rewrite M. constructor.
- rewrite Forall_forall in *. intros t Ht.
  specialize (T t Ht). specialize (T' t Ht). cbv beta in *.
  destruct (task t); try discriminate; reflexivity.
Qed.

Lemma listens_tries (w : World) :
nonePending listensLater w -> nonePending triesLater w.
Proof.
apply tasks_weaken; intros k; now destruct k.
Qed.

Lemma speakBody_exclusive (t : jsstring) (o : Options)
    (ws : list PromiseId) (w : World) :
Exclusive w -> nonePending listensLater w ->
Exclusive (speakBody t o ws w).
Proof.
intros E P. unfold speakBody.
destruct (blank t).
{ apply (@frame_exclusive w); [frames|exact E]. }
destruct (isSpeaking (svc w)) eqn:Sp.
{ apply (@frame_exclusive
           (this (fun s => setQueue (speechQueue s ++
                                     [{| text := t; options := o |}]) s)
                 w)); [frames|].
  destruct E as [W [[L P']|[Sp' _]]]; [|congruence].
  split; [exact W|]. left. split; [exact L|exact P']. }
destruct (isListening (svc w)) eqn:L.
- assert (F : Frame false false w (stopListening w)) by frames.
  destruct E as [W _]. split.
  + apply tasks_await; [reflexivity|]. now apply (frame_wellPlaced F).
  + left. split.
    * unfold stopListening. reflexivity.
    * apply tasks_await; [reflexivity|].
      apply (fr_tasks F); [apply harmless_listens|exact P].
- assert (F : Frame true false w (speakStart t o ws w)) by frames.
  destruct E as [W _]. split.
  + now apply (frame_wellPlaced F).
  + left. apply (frame_speakersTurn F). now split.
Qed.

Lemma postSpeech_exclusive (ws : list PromiseId) (w : World) :
Exclusive w -> micro w = [] -> Exclusive (postSpeech ws w).
Proof.
intros E M. unfold postSpeech.
destruct (speechQueue (svc w)) as [|next queue'] eqn:Q.
{ apply (@frame_exclusive w); [frames|exact E]. }
assert (P : nonePending listensLater w).
{ destruct E as [W [[_ P]|(_ & _ & [P|P])]]; [exact P| |congruence].
  now apply tries_listens. }
apply speakBody_exclusive; [|exact P].
destruct E as [W [[L P']|(Sp & P1 & P2)]]; split; try exact W.
- left. split; [exact L|exact P'].
- right. split; [exact Sp|]. split; [exact P1|].
  left. now apply listens_tries.
Qed.

Lemma listenTry_exclusive (o : Options) (p : PromiseId) (w : World) :
WellPlaced w -> ListenersTurn w -> Exclusive (listenTry o p w).
Proof.
intros W T. unfold listenTry.
destruct (currentRecognition (svc w)).
- assert (F : Frame false false w (stopListening w)) by frames.
  apply (frame_listenersTurn F) in T. destruct T as (Sp & P & Q).
  split.
  + apply tasks_await; [reflexivity|]. now apply (frame_wellPlaced F).
  + right. split; [exact Sp|]. split.
    * now apply tasks_await.
    * destruct Q as [Q|Q]; [left|right; exact Q].
      now apply tasks_await.
- assert (F : Frame false true w (listenStart o p w)) by frames.
  split.
  + now apply (frame_wellPlaced F).
  + right. now apply (frame_listenersTurn F).
Qed.

Lemma cleanup_exclusive (p : PromiseId) (w : World) :
Exclusive w -> Exclusive (cleanup p w).
Proof.
intro E. unfold cleanup.
assert (F : Frame false false w (stopListening (stopSpeaking w)))
  by frames.
apply (frame_exclusive F) in E.
set (v := stopListening (stopSpeaking w)) in *. clearbody v.
destruct E as [W [[L P]|(Sp & P & Q)]]; split;
  try (apply tasks_await; [reflexivity|exact W]).
- left. split; [exact L|]. now apply tasks_await.
- right. split; [exact Sp|]. split; [now apply tasks_await|].
  destruct Q as [Q|Q]; [left|right; exact Q]. now apply tasks_await.
Qed.

Lemma startListening_exclusive (o : Options) (p : PromiseId) (w : World) :
Exclusive w -> Settled w -> Exclusive (startListening o p w).
Proof.
intros E [Ps Pl]. unfold startListening.
destruct (isListening (svc w)).
{ apply (@frame_exclusive w); [frames|exact E]. }
destruct E as [W _].
destruct (isSpeaking (svc w)) eqn:Sp.
- assert (F : Frame false false w (stopSpeaking w)) by frames.
  split.
  + apply tasks_setTimeout; [reflexivity|].
    now apply (frame_wellPlaced F).
  + right. split; [|split].
    * unfold stopSpeaking. now rewrite Sp.
    * apply tasks_setTimeout; [reflexivity|].
      apply (fr_tasks F); [apply harmless_speaks|exact Ps].
    * right. unfold stopSpeaking. now rewrite Sp.
- apply listenTry_exclusive; [exact W|].
  split; [exact Sp|]. split; [exact Ps|].
  left. now apply listens_tries.
Qed.

(** ** The event loop *)

Lemma frame_timers (s l : bool) (b : Task -> bool) (w w' : World) :
Frame s l w w' ->
(forall k, harmless k = true -> b k = true) ->
Forall (fun t => b (task t) = true) (timers w) ->
Forall (fun t => b (task t) = true) (timers w').
Proof.
intros F Hb T.
apply (@fr_tasks _ _ _ _ F (fun _ => true) b Hb). split; [|exact T].
apply Forall_forall. reflexivity.
Qed.

Lemma runTask_micro (k : Task) (w : World) :
continuation k = true -> micro (runTask k w) = micro w.
Proof.
destruct k; try discriminate; intros _; cbn [runTask].
- reflexivity.
- assert (F : Frame false true w (listenStart o p w)) by frames.
  apply (fr_micro F).
- assert (F : Frame false false w (cleanupRest p w)) by frames.
  apply (fr_micro F).
Qed.

(** A pending microtask runs; [ks] are those still to run. *)
Lemma continuation_exclusive (k : Task) (ks : list Task) (w : World) :
Exclusive (withMicro (k :: ks) w) ->
Exclusive (withMicro ks (runTask k w)).
Proof.
intros [[M T] Turn]. world.
inversion M as [|k' ks' Hk Hks]; subst.
destruct k; try discriminate Hk; cbn [runTask].
- (* the 500 ms wait of [speak] starts *)
  destruct Turn as [[L [Pm Pt]]|(_ & [Pm _] & _)]; world.
  2:{ inversion Pm as [|? ? Hd _]. discriminate Hd. }
  inversion Pm as [|? ? _ Pm']; subst.
  split.
  + split; world; [exact Hks|].
    apply Forall_app. split; [exact T|]. now repeat constructor.
  + left. split; [exact L|].
    split; world; [exact Pm'|].
    apply Forall_app. split; [exact Pt|]. now repeat constructor.
- (* the recognition starts once the previous one is stopped *)
  destruct Turn as [[_ [Pm _]]|(Sp & [Pm Pt] & Q)]; world.
  1:{ inversion Pm as [|? ? Hd _]. discriminate Hd. }
  inversion Pm as [|? ? _ Pm']; subst.
  assert (F : Frame false true w (listenStart o p w)) by frames.
  set (v := listenStart o p w) in *. clearbody v.
  split.
  + split; world; [exact Hks|].
    apply (@frame_timers _ _ (fun k => negb (continuation k)) _ _ F);
      [apply harmless_placed|exact T].
  + right. split; [|split].
    * world. destruct (isSpeaking (svc v)) eqn:E; [|reflexivity].
      rewrite <- Sp. symmetry. now apply (fr_speaking F).
    * split; world; [exact Pm'|].
      apply (@frame_timers _ _ (fun k => negb (speaksLater k)) _ _ F);
      [apply harmless_speaks|exact Pt].
    * destruct Q as [[Qm Qt]|Q]; world.
      -- left. inversion Qm; subst. split; world; [assumption|].
         apply (@frame_timers _ _ (fun k => negb (triesLater k)) _ _ F);
      [apply harmless_tries|exact Qt].
      -- right. destruct (fr_queue F) as [E|E]; congruence.
- (* [cleanup] drops the callbacks once the recognition is stopped *)
  assert (F : Frame false false w (cleanupRest p w)) by frames.
  set (v := cleanupRest p w) in *. clearbody v.
  assert (later : forall b : Task -> bool,
             (forall k, harmless k = true -> negb (b k) = true) ->
             nonePending b (withMicro (CleanupRest p :: ks) w) ->
             nonePending b (withMicro ks v)).
  { intros b Hb [Pm Pt]. world. inversion Pm; subst.
    split; world; [assumption|].
    now apply (@frame_timers _ _ (fun k => negb (b k)) _ _ F). }
  split.
  + split; world; [exact Hks|].
    apply (@frame_timers _ _ (fun k => negb (continuation k)) _ _ F);
      [apply harmless_placed|exact T].
  + destruct Turn as [[L P]|(Sp & P & Q)]; world.
    * left. split.
      -- world. destruct (isListening (svc v)) eqn:E; [|reflexivity].
         rewrite <- L. symmetry. now apply (fr_listening F).
      -- apply later; [apply harmless_listens|exact P].
    * right. split; [|split].
      -- world. destruct (isSpeaking (svc v)) eqn:E; [|reflexivity].
         rewrite <- Sp. symmetry. now apply (fr_speaking F).
      -- apply later; [apply harmless_speaks|exact P].
      -- destruct Q as [Q|Q]; world.
         ++ left. apply later; [apply harmless_tries|exact Q].
         ++ right. destruct (fr_queue F) as [E|E]; congruence.
Qed.

Lemma microtask_exclusive (k : Task) (ks : list Task) (w : World) :
Exclusive (withMicro (k :: ks) w) ->
Exclusive (runTask k (withMicro ks w)).
Proof.
intro E.
assert (Hk : continuation k = true).
{ destruct E as [[M _] _]. world. now inversion M. }
rewrite <- (withMicro_eta (runTask k (withMicro ks w))).
rewrite runTask_micro by exact Hk.
apply (@continuation_exclusive k ks (withMicro ks w)). exact E.
Qed.

Lemma fold_exclusive (ks : list Task) :
forall w,
  micro w = [] ->
  Exclusive (withMicro ks w) ->
  Exclusive (fold_left (fun w k => runTask k w) ks w)
  /\ micro (fold_left (fun w k => runTask k w) ks w) = [].
Proof.
induction ks as [|k ks IH]; intros w M E; cbn [fold_left].
- split; [|exact M]. rewrite <- M in E. now rewrite withMicro_eta in E.
- assert (Hk : continuation k = true).
  { destruct E as [[Mk _] _]. world. now inversion Mk. }
  apply IH.
  + now rewrite runTask_micro.
  + now apply continuation_exclusive.
Qed.

Lemma drain_exclusive (w : World) :
Exclusive w -> Exclusive (drain w) /\ micro (drain w) = [].
Proof.
intro E. unfold drain. apply fold_exclusive; [reflexivity|].
rewrite <- (withMicro_eta w) in E. exact E.
Qed.

(** The earliest timer fires, all microtasks having run. *)
Lemma fire_exclusive (w : World) :
Exclusive w -> micro w = [] -> Exclusive (fire w).
Proof.
intros E M. unfold fire.
destruct (earliest (timers w)) as [t|] eqn:Et; [|exact E].
apply earliest_In in Et.
set (w1 := withNow _ _).
assert (F : Frame false false w w1) by (subst w1; frames).
assert (M1 : micro w1 = []) by exact M.
assert (E1 : Exclusive w1) by now apply (frame_exclusive F).
clearbody w1.
destruct E as [W Turn].
pose proof (proj1 (Forall_forall _ _) (proj2 W) t Et) as Hk.
cbv beta in Hk.
destruct (task t) eqn:Ek; try discriminate Hk; cbn [runTask].
- (* the 500 ms wait of [speak] is over *)
  destruct Turn as [T|(_ & [_ Pt] & _)].
  2:{ pose proof (proj1 (Forall_forall _ _) Pt t Et) as Hs.
      cbv beta in Hs. rewrite Ek in Hs. discriminate Hs. }
  assert (F' : Frame true false w (speakStart t0 o waiters w1)).
  { apply frame_speakStart. revert F. apply frame_weaken; auto. }
  destruct E1 as [W1 _]. split.
  + now apply (frame_wellPlaced F').
  + left. now apply (frame_speakersTurn F').
- (* the 800 ms wait of [startListening] is over *)
  destruct Turn as [[_ [_ Pt]]|T].
  1:{ pose proof (proj1 (Forall_forall _ _) Pt t Et) as Hs.
      cbv beta in Hs. rewrite Ek in Hs. discriminate Hs. }
  destruct E1 as [W1 _].
  apply listenTry_exclusive; [exact W1|].
  now apply (frame_listenersTurn F).
- now apply postSpeech_exclusive.
- apply (@frame_exclusive w1); [frames|exact E1].
- apply (@frame_exclusive w1); [frames|exact E1].
Qed.

Lemma step_exclusive (w : World) (e : Event) :
Exclusive w -> (startsTurn e = true -> Settled w) ->
Exclusive (step w e).
Proof.
intros E Hs.
assert (Fb : Frame false false w (bump w)) by frames.
pose proof (drain_exclusive E) as [E' M'].
destruct e; cbn [step].
- destruct (Hs eq_refl) as [Ps Pl].
  apply speakBody_exclusive.
  + now apply (frame_exclusive Fb).
  + apply (fr_tasks Fb); [apply harmless_listens|exact Pl].
- apply (@frame_exclusive w); [frames|exact E].
- destruct (Hs eq_refl) as [Ps Pl].
  apply startListening_exclusive.
  + now apply (frame_exclusive Fb).
  + split.
    * apply (fr_tasks Fb); [apply harmless_speaks|exact Ps].
    * apply (fr_tasks Fb); [apply harmless_listens|exact Pl].
- apply (@frame_exclusive w); [frames|exact E].
- apply (@frame_exclusive w); [frames|exact E].
- apply cleanup_exclusive. now apply (frame_exclusive Fb).
- apply (@frame_exclusive w); [|exact E].
  apply (@frame_setCallbacks false false
           (fun s => (cb, onRecognitionResultCallback s,
                      onRecognitionErrorCallback s))). frames.
- apply (@frame_exclusive w); [|exact E].
  apply (@frame_setCallbacks false false
           (fun s => (onSpeechEndCallback s, cb,
                      onRecognitionErrorCallback s))). frames.
- apply (@frame_exclusive w); [|exact E].
  apply (@frame_setCallbacks false false
           (fun s => (onSpeechEndCallback s,
                      onRecognitionResultCallback s, cb))). frames.
- destruct (micro w) as [|k ks] eqn:M; [exact E|].
  apply microtask_exclusive. rewrite <- M. now rewrite withMicro_eta.
- now apply fire_exclusive.
- apply (@frame_exclusive (drain w)); [|exact E'].
  apply frame_ended; frames.
- apply (@frame_exclusive (drain w)); [|exact E'].
  apply frame_ended; frames.
- apply (@frame_exclusive (drain w)); [|exact E'].
  apply frame_ended; frames.
- apply (@frame_exclusive (drain w)); [|exact E'].
  apply frame_heard; frames.
- apply (@frame_exclusive (drain w)); [|exact E'].
  apply frame_heard; frames.
- apply (@frame_exclusive w); [frames|exact E].
Qed.

Lemma run_exclusive (es : list Event) :
forall w, Exclusive w -> serialized w es -> Exclusive (run w es).
Proof.
induction es as [|e es IH]; intros w E S; cbn [run fold_left].
- exact E.
- inversion S as [|w' e' es' Hs S']; subst.
  apply IH; [|exact S']. now apply step_exclusive.
Qed.

Lemma serialized_firstn (es : list Event) :
forall (n : nat) (w : World),
  serialized w es -> serialized w (firstn n es).
Proof.
induction es as [|e es IH]; intros [|n] w S; cbn [firstn];
  try constructor.
- inversion S; subst. assumption.
- inversion S; subst. now apply IH.
Qed.

Lemma exclusive_boot : Exclusive boot.
Proof.
split; [split; constructor|].
left. split; [reflexivity|split; constructor].
Qed.

Lemma noneb_spec (P : Task -> bool) (w : World) :
noneb P w = true <-> nonePending P w.
Proof.
unfold noneb, nonePending, Tasks.
rewrite andb_true_iff, !forallb_forall, !Forall_forall. reflexivity.
Qed.

Lemma settledb_spec (w : World) : settledb w = true <-> Settled w.
Proof.
unfold settledb, Settled.
now rewrite andb_true_iff, !noneb_spec.
Qed.

Lemma serializedb_spec (es : list Event) :
forall w, serializedb w es = true <-> serialized w es.
Proof.
induction es as [|e es IH]; intro w; cbn [serializedb].
- split; [constructor|reflexivity].
- rewrite andb_true_iff, orb_true_iff, negb_true_iff, IH, settledb_spec.
  split.
  + intros [H S]. constructor; [|exact S].
    intro E. destruct H as [H|H]; [congruence|exact H].
  + intro S. inversion S as [|w' e' es' H S']; subst.
    split; [|exact S'].
    destruct (startsTurn e); [right; now apply H|now left].
Qed.

(** X13. What the service does ensure. When the caller waits for a transition
  to be over before it calls [speak] or [startListening] again, the two
  flags are never raised together, at any instant of the schedule. *)
Theorem serialized_turns_never_overlap (es : list Event) (n : nat) :
serialized boot es ->
turnState (run boot (firstn n es)) <> Both.
Proof.
intro S. apply exclusive_turnState, run_exclusive.
- exact exclusive_boot.
- now apply serialized_firstn.
Qed.

(** A caller that waits: the recognition is running, [speak] stops it
  and speaks 500 ms later; once the speech has started,
  [startListening] stops it and listens 800 ms later. *)
Example waiting_caller_takes_turns :
let es := [CallStartListening [];
           CallSpeak (lit "Question one") [];
           Microtask;
           Tick;
           CallStartListening [];
           Tick] in
serialized boot es
/\ turnState (run boot (firstn 4 es)) = Speaking
/\ turnState (run boot es) = Listening.
Proof.
cbv zeta. split; [|split; reflexivity].
now apply serializedb_spec.
Qed.

(** The schedule on which the flags overlap calls [startListening]
  while the 500 ms wait of [speak] is under way. *)
Example impatient_caller_is_not_serialized :
~ serialized boot [CallStartListening [];
                   CallSpeak (lit "Question one") [];
                   Microtask;
                   CallStartListening [];
                   Tick].
Proof.
intro S. apply serializedb_spec in S. discriminate S.
Qed.

End TurnTaking.

(* ===================================================================== *)
(** * The context gate *)
(* ===================================================================== *)

Section ContextGate.
Import JsString ScreenContext Dialog Screens.

Lemma exam_gate (env : Env) (p : ExamPage.Page) (t : jsstring) :
getContext (ExamPage.screenContextService p) <> EXAM ->
ExamPage.handleVoiceCommand env t p = dropped p.
Proof.
intro H. apply sameContext_neq in H.
unfold ExamPage.handleVoiceCommand, dropped.
unfold bind at 1, get at 1.
destruct (ExamPage.isProcessingCommandRef p); [reflexivity|].
destruct t as [|c t]; [reflexivity|].
rewrite H. reflexivity.
Qed.

Lemma home_gate (env : Env) (p : HomePage.Page) (t : jsstring) :
getContext (HomePage.screenContextService p) <> HOME ->
HomePage.handleVoiceCommand env t p = dropped p.
Proof.
intro H. apply sameContext_neq in H.
unfold HomePage.handleVoiceCommand, dropped.
unfold bind at 1, get at 1.
destruct (HomePage.isProcessingCommandRef p); [reflexivity|].
destruct (trim t) as [|c r]; [reflexivity|].
rewrite H. reflexivity.
Qed.

(** C7. A transcript delivered to the handler of a screen while the
  current context is not the one the screen registered is dropped
  silently: the handler returns without running its command
  interpreter (no effect on any collaborator), without throwing, and
  with the state of the screen unchanged. *)
Theorem context_gate_drops_transcript
      (s : Screen) (env : Env) (p : pageOf s) (t : jsstring) :
contextOf s p <> registeredContext s ->
handler s env t p = dropped p.
Proof.
destruct s; simpl; intro H.
- now apply exam_gate.
- now apply home_gate.
Qed.

Lemma context_gate_drops_transcript_witness :
handler ExamScreen ExamPageProps.quietEnv (lit "next") ExamPageProps.leftPage
= dropped ExamPageProps.leftPage.
Proof.
apply (@context_gate_drops_transcript ExamScreen). discriminate.
Defined.

End ContextGate.

(* ===================================================================== *)
(** * The confirmation dialog and the countdown *)
(* ===================================================================== *)

Section Confirmation.
Import JsString ScreenContext Dialog ExamCommand ExamPage ExamPageProps.

Lemma submissions_app (a b : list Effect) :
submissions (a ++ b) = submissions a + submissions b.
Proof.
unfold submissions. now rewrite filter_app, length_app.
Qed.

Lemma submissions_notify
    (l : list (nat * option jsstring * option jsstring)) :
submissions
  (map (fun n => Notify (fst (fst n)) (snd (fst n)) (snd n)) l) = 0.
Proof. induction l; simpl; auto. Qed.

Lemma submissions_cons (e : Effect) (l : list Effect) :
submissions (e :: l) = (if isSubmit e then 1 else 0) + submissions l.
Proof. unfold submissions. simpl. destruct (isSubmit e); reflexivity. Qed.

Lemma HOME_valid :
sameContext HOME HOME || sameContext HOME EXAM || sameContext HOME None
= true.
Proof. reflexivity. Qed.

(** Running the code of a handler: the combinators and the field
  updates compute, the texts stay folded. *)
Ltac async :=
cbv [bind catch finally modify perform performAll speak ret get
     value after did];
cbn [app fst snd
     screenContextService exam uid submitting timeRemaining
     currentQuestionIndexRef totalQuestionsRef answersRef
     isProcessingCommandRef isWaitingForConfirmationRef
     setScreenContext setSubmitting setTimeRemaining
     setCurrentQuestionIndex setAnswers setProcessing setWaiting
     negb andb orb].

(** The submission calls the sink once, whatever the collaborators
  answer, and cancels a pending confirmation. *)
Lemma submitExamAnswers_once (env : Env) (p : Page) :
exam p <> None -> userId p <> None ->
submissions (did (submitExamAnswers env p)) = 1
/\ isWaitingForConfirmationRef (after (submitExamAnswers env p)) = false
/\ timeRemaining (after (submitExamAnswers env p)) = timeRemaining p.
Proof.
intros He Hu.
unfold submitExamAnswers. async.
destruct (exam p) as [e|]; [|congruence].
destruct (userId p) as [u|]; [|congruence].
unfold changeContext, setContext. async.
rewrite HOME_valid.
destruct (sinkFails env); async;
  repeat match goal with
         | |- context [ttsFails env ?t] => destruct (ttsFails env t); async
         end;
  rewrite ?submissions_cons, ?submissions_app, ?submissions_notify;
  repeat split.
Qed.

(** ** What leaves a pending confirmation pending *)

Lemma keeps_ret : keepsWaiting (ret tt).
Proof. intros s H. exact H. Qed.

Lemma keeps_bind (A : Type) (m : M Page A) (f : A -> M Page unit) :
(forall s, isWaitingForConfirmationRef s = true ->
           isWaitingForConfirmationRef (after (m s)) = true) ->
(forall a, keepsWaiting (f a)) ->
keepsWaiting (bind m f).
Proof.
intros Hm Hf s H. unfold bind.
specialize (Hm s H).
destruct (m s) as [s1 e1 [a|]]; cbn [after] in *; [|exact Hm].
specialize (Hf a s1 Hm).
destruct (f a s1) as [s2 e2 v]. exact Hf.
Qed.

Lemma keeps_catch (m h : M Page unit) :
keepsWaiting m -> keepsWaiting h -> keepsWaiting (catch m h).
Proof.
intros Hm Hh s H. unfold catch.
specialize (Hm s H).
destruct (m s) as [s1 e1 [a|]]; cbn [after] in *; [exact Hm|].
specialize (Hh s1 Hm).
destruct (h s1) as [s2 e2 v]. exact Hh.
Qed.

Lemma keeps_finally (m f : M Page unit) :
keepsWaiting m -> keepsWaiting f -> keepsWaiting (finally m f).
Proof.
intros Hm Hf s H. unfold finally.
specialize (Hm s H).
destruct (m s) as [s1 e1 v1]; cbn [after] in *.
specialize (Hf s1 Hm).
destruct (f s1) as [s2 e2 [u|]]; exact Hf.
Qed.

Lemma keeps_get (s : Page) :
isWaitingForConfirmationRef s = true ->
isWaitingForConfirmationRef (after (get s)) = true.
Proof. auto. Qed.

Lemma keeps_speak (env : Env) (t : jsstring) : keepsWaiting (speak env t).
Proof. intros s H. exact H. Qed.

Lemma keeps_perform (e : Effect) : keepsWaiting (perform e).
Proof. intros s H. exact H. Qed.

Lemma keeps_performAll (es : list Effect) : keepsWaiting (performAll es).
Proof. intros s H. exact H. Qed.

Lemma keeps_modify (f : Page -> Page) :
(forall s, isWaitingForConfirmationRef (f s)
           = isWaitingForConfirmationRef s) ->
keepsWaiting (modify f).
Proof. intros Hf s H. simpl. now rewrite Hf. Qed.

Lemma keeps_setWaiting : keepsWaiting (modify (setWaiting true)).
Proof. intros s H. reflexivity. Qed.

Lemma saveAnswer_waiting (a : jsstring) (s : Page) :
isWaitingForConfirmationRef (saveAnswer a s)
= isWaitingForConfirmationRef s.
Proof.
unfold saveAnswer. destruct (currentQuestion s); [|reflexivity].
destruct (trim a); reflexivity.
Qed.

Ltac keeps_atom :=
first
  [ apply keeps_ret | apply keeps_speak | apply keeps_perform
  | apply keeps_performAll | apply keeps_setWaiting
  | apply keeps_modify; intro; first [reflexivity | apply saveAnswer_waiting]
  | intros ? ?; assumption ].

Ltac keeps_step :=
first
  [ keeps_atom | apply keeps_catch | apply keeps_finally
  | apply keeps_bind; [ try keeps_atom | intro ] ].

Lemma keeps_readOptions (env : Env) (opts : list jsstring) :
forall index, keepsWaiting (readOptions env index opts).
Proof.
induction opts as [|o opts IH]; intro index; simpl.
- apply keeps_ret.
- apply keeps_bind; [apply keeps_speak|intro].
  apply keeps_bind; [|intro; apply IH].
  destruct opts; [apply keeps_ret|apply keeps_perform].
Qed.

Lemma keeps_readCurrentQuestion (env : Env) :
keepsWaiting (readCurrentQuestion env).
Proof.
unfold readCurrentQuestion. keeps_step.
destruct (currentQuestion a); [|apply keeps_ret].
apply keeps_catch; [|apply keeps_ret].
apply keeps_bind; [apply keeps_speak|intro].
apply keeps_bind; [apply keeps_perform|intro].
destruct (qtype q); [|apply keeps_ret].
destruct (options q) as [[|o opts]|]; try apply keeps_ret.
apply keeps_readOptions.
Qed.

Lemma keeps_changeContext (c : option jsstring) :
keepsWaiting (changeContext c).
Proof.
unfold changeContext. keeps_step.
destruct (setContext c (screenContextService a)) as [service notes].
repeat keeps_step.
Qed.

Lemma keeps_navigate (env : Env) (command : jsstring) :
keepsWaiting (navigate env command).
Proof.
unfold navigate. keeps_step.
repeat match goal with
       | |- keepsWaiting (if ?b then _ else _) => destruct b
       end.
- apply keeps_speak.
- unfold handleNextQuestion. keeps_step.
  destruct (exam a0); [|apply keeps_ret].
  destruct (totalQuestions a0 =? 0); [apply keeps_ret|].
  destruct (currentQuestionIndexRef a0 + 1 <? totalQuestions a0).
  + repeat keeps_step.
  + apply keeps_readCurrentQuestion.
- unfold handlePreviousQuestion. keeps_step.
  destruct (currentQuestionIndexRef a0); repeat keeps_step.
- apply keeps_readCurrentQuestion.
- unfold handleSubmitCommand. repeat keeps_step.
- unfold handleExitCommand.
  apply keeps_bind; [apply keeps_speak|intro].
  apply keeps_bind; [apply keeps_perform|intro].
  apply keeps_bind; [apply keeps_changeContext|intro].
  apply keeps_perform.
- apply keeps_speak.
Qed.

Lemma keeps_selectOption (env : Env) (l : jsstring) (opts : list jsstring) :
keepsWaiting (selectOption env l opts).
Proof.
unfold selectOption.
destruct (nth_error opts (optionIndex l)).
- keeps_step. keeps_step.
  apply keeps_bind; [|intro; repeat keeps_step].
  destruct (isLastQuestion a0); apply keeps_speak.
- repeat keeps_step.
Qed.

Lemma keeps_interpret (env : Env) (command : jsstring) :
keepsWaiting (interpret env command).
Proof.
unfold interpret. keeps_step. keeps_step.
destruct (currentQuestion a0) as [[i q [|] [opts|]]|];
  try apply keeps_navigate.
destruct (selectLetter command) as [[|c r]|];
  try apply keeps_navigate.
apply keeps_selectOption.
Qed.

Lemma keeps_processCommand (env : Env) (command : jsstring) :
keepsWaiting (processCommand env command).
Proof.
unfold processCommand. keeps_step.
apply keeps_finally.
- apply keeps_catch; [apply keeps_interpret|apply keeps_speak].
- keeps_step. keeps_step.
  destruct (isWaitingForConfirmationRef a1);
    [apply keeps_ret|apply keeps_perform].
Qed.

(** C3, as stated, fails: with the confirmation pending, the transcript
  "next" is neither "yes" nor "no", and yet it is executed: the exam
  moves to the second question and effects are issued. *)
Lemma confirmation_does_not_ignore_next :
isWaitingForConfirmationRef awaitingPage = true
/\ currentQuestionIndexRef
     (after (handleVoiceCommand quietEnv (lit "next") awaitingPage)) = 1
/\ after (handleVoiceCommand quietEnv (lit "next") awaitingPage)
   <> awaitingPage
/\ did (handleVoiceCommand quietEnv (lit "next") awaitingPage)
   = [SpeechStopListening; SetTimeout ReadCurrentQuestion 300].
Proof.
split; [reflexivity|]. split; [reflexivity|]. split; [|reflexivity].
intro H. apply (f_equal currentQuestionIndexRef) in H.
vm_compute in H. discriminate H.
Qed.

(** C3, amended. While a submit confirmation is awaited (in the EXAM
  context, no command being processed), a transcript that lower-cases
  and trims to "yes" calls the submission sink exactly once and clears
  the flag, provided its spoken acknowledgement does not fail; one that
  lower-cases and trims to "no" clears the flag, releases the guard and
  schedules the re-reading of the question, without submitting; every
  other transcript is handed to the ordinary command interpreter, which
  may act on it, and leaves the confirmation pending. *)
Theorem confirmation_yes_no_otherwise
      (env : Env) (p : Page) (transcript : jsstring) :
isWaitingForConfirmationRef p = true ->
isProcessingCommandRef p = false ->
getContext (screenContextService p) = EXAM ->
transcript <> [] ->
let command := trim (toLowerCase transcript) in
let r := handleVoiceCommand env transcript p in
(command = lit "yes" ->
 ttsFails env (lit "Submitting exam.") = false ->
 exam p <> None -> userId p <> None ->
 submissions (did r) = 1
 /\ isWaitingForConfirmationRef (after r) = false)
/\ (command = lit "no" ->
    ttsFails env (lit "Returning to current question.") = false ->
    did r = [SpeechStopListening;
             SpeechSpeak (lit "Returning to current question.");
             SetTimeout RereadThenListen 500]
    /\ after r = setWaiting false p)
/\ (command <> lit "yes" -> command <> lit "no" ->
    r = processCommand env command p
    /\ isWaitingForConfirmationRef (after r) = true).
Proof.
intros Hw Hp Hc Ht command r.
assert (Hr : r =
  (if eqb command (lit "yes") then
     (confirmSubmit env ;; confirmSubmitResumed env)%async p
   else if eqb command (lit "no") then
     (modify (setProcessing true) ;;
      perform SpeechStopListening ;;
      speak env (lit "Returning to current question.") ;;
      modify (setWaiting false) ;;
      perform (SetTimeout RereadThenListen 500) ;;
      modify (setProcessing false))%async p
   else processCommand env command p)).
{ subst r command. unfold handleVoiceCommand at 1.
  unfold bind at 1, get at 1. cbn [value after did].
  rewrite Hp. destruct transcript as [|c t]; [congruence|].
  apply sameContext_spec in Hc. rewrite Hc, Hw. cbn [negb andb].
  destruct (eqb _ (lit "yes")); [|destruct (eqb _ (lit "no"))];
    match goal with
    | |- match ?x with _ => _ end = _ => destruct x; reflexivity
    end. }
repeat split.
- rewrite Hr, H, eqb_refl. unfold confirmSubmit, confirmSubmitResumed.
  async. rewrite H0. async.
  destruct (submitExamAnswers_once env
              (setWaiting false (setProcessing true p)) H1 H2)
    as [Hs _].
  destruct (submitExamAnswers env _) as [s2 e2 v].
  cbn [value after did] in *.
  now rewrite !submissions_cons, Hs.
- rewrite Hr, H, eqb_refl. unfold confirmSubmit, confirmSubmitResumed.
  async. rewrite H0. async.
  destruct (submitExamAnswers_once env
              (setWaiting false (setProcessing true p)) H1 H2)
    as [_ [Ha _]].
  destruct (submitExamAnswers env _) as [s2 e2 v].
  exact Ha.
- rewrite Hr, H.
  replace (eqb (lit "no") (lit "yes")) with false by reflexivity.
  rewrite eqb_refl. async. now rewrite H0.
- rewrite Hr, H.
  replace (eqb (lit "no") (lit "yes")) with false by reflexivity.
  rewrite eqb_refl. async. rewrite H0. cbn [after].
  destruct p; cbn in *; subst; reflexivity.
- now rewrite Hr, (eqb_neq H), (eqb_neq H0).
- rewrite Hr, (eqb_neq H), (eqb_neq H0).
  now apply keeps_processCommand.
Qed.

Lemma confirmation_yes_no_otherwise_witness :
submissions (did (handleVoiceCommand quietEnv (lit " Yes") awaitingPage))
= 1
/\ isWaitingForConfirmationRef
     (after (handleVoiceCommand quietEnv (lit " Yes") awaitingPage))
   = false.
Proof.
refine (proj1 (@confirmation_yes_no_otherwise quietEnv awaitingPage
                 (lit " Yes") _ _ _ _) _ _ _ _);
  try reflexivity; discriminate.
Defined.

(** ** The countdown *)

Lemma quiet_bind (A B : Type) (m : M Page A) (f : A -> M Page B) :
neverSubmits m -> (forall a, neverSubmits (f a)) -> neverSubmits (bind m f).
Proof.
intros Hm Hf s. unfold bind. specialize (Hm s).
destruct (m s) as [s1 e1 [a|]]; cbn [did] in *; [|exact Hm].
specialize (Hf a s1). destruct (f a s1) as [s2 e2 v]; cbn [did] in *.
now rewrite submissions_app, Hm, Hf.
Qed.

Lemma quiet_catch (A : Type) (m h : M Page A) :
neverSubmits m -> neverSubmits h -> neverSubmits (catch m h).
Proof.
intros Hm Hh s. unfold catch. specialize (Hm s).
destruct (m s) as [s1 e1 [a|]]; cbn [did] in *; [exact Hm|].
specialize (Hh s1). destruct (h s1) as [s2 e2 v]; cbn [did] in *.
now rewrite submissions_app, Hm, Hh.
Qed.

Lemma quiet_finally (A : Type) (m : M Page A) (f : M Page unit) :
neverSubmits m -> neverSubmits f -> neverSubmits (finally m f).
Proof.
intros Hm Hf s. unfold finally. specialize (Hm s).
destruct (m s) as [s1 e1 v1]; cbn [did] in *.
specialize (Hf s1). destruct (f s1) as [s2 e2 [u|]]; cbn [did] in *;
  now rewrite submissions_app, Hm, Hf.
Qed.

Lemma quiet_ret (A : Type) (a : A) : neverSubmits (@ret Page A a).
Proof. intro s. reflexivity. Qed.

Lemma quiet_get : neverSubmits (@get Page).
Proof. intro s. reflexivity. Qed.

Lemma quiet_modify (f : Page -> Page) : neverSubmits (modify f).
Proof. intro s. reflexivity. Qed.

Lemma quiet_speak (env : Env) (t : jsstring) :
neverSubmits (@speak Page env t).
Proof. intro s. reflexivity. Qed.

Lemma quiet_perform (e : Effect) :
isSubmit e = false -> neverSubmits (@perform Page e).
Proof.
intros H s. cbn [perform did]. now rewrite submissions_cons, H.
Qed.

Lemma quiet_changeContext (c : option jsstring) :
neverSubmits (changeContext c).
Proof.
unfold changeContext. apply quiet_bind; [apply quiet_get|intro p].
destruct (setContext c (screenContextService p)) as [service notes].
apply quiet_bind; [apply quiet_modify|intros _].
intro s. apply submissions_notify.
Qed.

Ltac quiet_step :=
first
  [ apply quiet_ret | apply quiet_get | apply quiet_speak
  | apply quiet_modify | apply quiet_changeContext
  | apply quiet_perform; reflexivity
  | apply quiet_catch | apply quiet_finally
  | apply quiet_bind; [|intro] ].

Lemma quiet_readOptions (env : Env) (opts : list jsstring) :
forall index, neverSubmits (readOptions env index opts).
Proof.
induction opts as [|o opts IH]; intro index; cbn [readOptions].
- apply quiet_ret.
- apply quiet_bind; [apply quiet_speak|intro].
  apply quiet_bind; [|intro; apply IH].
  destruct opts; quiet_step.
Qed.

Lemma quiet_readCurrentQuestion (env : Env) :
neverSubmits (readCurrentQuestion env).
Proof.
unfold readCurrentQuestion. quiet_step; [quiet_step|].
destruct (currentQuestion a); [|quiet_step].
apply quiet_catch; [|quiet_step].
do 2 (apply quiet_bind; [quiet_step|intro]).
destruct (qtype q); [|quiet_step].
destruct (options q) as [[|o opts]|];
  [quiet_step|apply quiet_readOptions|quiet_step].
Qed.

Lemma quiet_navigate (env : Env) (command : jsstring) :
neverSubmits (navigate env command).
Proof.
unfold navigate. apply quiet_bind; [apply quiet_get|intro p].
repeat match goal with
       | |- neverSubmits (if ?b then _ else _) => destruct b
       end.
- apply quiet_speak.
- unfold handleNextQuestion. apply quiet_bind; [apply quiet_get|intro p'].
  destruct (exam p'); [|quiet_step].
  destruct (totalQuestions p' =? 0); [quiet_step|].
  destruct (currentQuestionIndexRef p' + 1 <? totalQuestions p').
  + repeat quiet_step.
  + apply quiet_readCurrentQuestion.
- unfold handlePreviousQuestion.
  apply quiet_bind; [apply quiet_get|intro p'].
  destruct (currentQuestionIndexRef p'); repeat quiet_step.
- apply quiet_readCurrentQuestion.
- unfold handleSubmitCommand. repeat quiet_step.
- unfold handleExitCommand. repeat quiet_step.
- apply quiet_speak.
Qed.

Lemma quiet_selectOption (env : Env) (l : jsstring) (opts : list jsstring) :
neverSubmits (selectOption env l opts).
Proof.
unfold selectOption.
destruct (nth_error opts (optionIndex l)); [|repeat quiet_step].
apply quiet_bind; [quiet_step|intro].
apply quiet_bind; [quiet_step|intro p].
apply quiet_bind; [|intro; repeat quiet_step].
destruct (isLastQuestion p); apply quiet_speak.
Qed.

Lemma quiet_interpret (env : Env) (command : jsstring) :
neverSubmits (interpret env command).
Proof.
unfold interpret. apply quiet_bind; [quiet_step|intro].
apply quiet_bind; [quiet_step|intro p].
destruct (currentQuestion p) as [[i q [|] [opts|]]|];
  try apply quiet_navigate.
destruct (selectLetter command) as [[|c r]|];
  try apply quiet_navigate.
apply quiet_selectOption.
Qed.

(** Interpreting an ordinary command never submits: only the "yes" of a
  pending confirmation and the countdown do. *)
Lemma quiet_processCommand (env : Env) (command : jsstring) :
neverSubmits (processCommand env command).
Proof.
unfold processCommand. apply quiet_bind; [quiet_step|intro].
apply quiet_finally.
- apply quiet_catch; [apply quiet_interpret|apply quiet_speak].
- apply quiet_bind; [quiet_step|intro].
  apply quiet_bind; [quiet_step|intro p].
  destruct (isWaitingForConfirmationRef p); quiet_step.
Qed.

Lemma no_submission_without_confirmation
    (env : Env) (p : Page) (transcript : jsstring) :
isWaitingForConfirmationRef p = false ->
submissions (did (handleVoiceCommand env transcript p)) = 0.
Proof.
intros Hw.
unfold handleVoiceCommand. unfold bind at 1, get at 1.
destruct (isProcessingCommandRef p); [reflexivity|].
destruct transcript as [|c t]; [reflexivity|].
destruct (negb _); [reflexivity|].
rewrite Hw. cbn [andb].
pose proof (quiet_processCommand env (trim (toLowerCase (c :: t))) p) as H.
destruct (processCommand env _ p) as [s2 e2 v]. exact H.
Qed.

(** What the countdown does ensure. When it reaches zero while a submit
  confirmation is awaited, the tick calls the submission sink directly,
  exactly once; the awaiting flag is cleared, so that no transcript
  handled afterwards ("yes" included) submits again through the dialog;
  and the countdown has stopped, so that no later tick submits
  either. *)
Theorem countdown_preempts_confirmation (env : Env) (p : Page) :
exam p <> None ->
userId p <> None ->
submitting p = false ->
timeRemaining p = 1 ->
isWaitingForConfirmationRef p = true ->
let r := tick env p in
submissions (did r) = 1
/\ isWaitingForConfirmationRef (after r) = false
/\ timeRemaining (after r) = 0
/\ (forall transcript,
       submissions (did (handleVoiceCommand env transcript (after r))) = 0)
/\ did (tick env (after r)) = [].
Proof.
intros He Hu Hs Ht Hw r.
assert (Hr : r = {| after := setTimeRemaining 0
                               (after (submitExamAnswers env p));
                    did := did (submitExamAnswers env p);
                    value := Some tt |}).
{ subst r. unfold tick, countdownRuns, handleAutoSubmit.
  unfold bind at 1, get at 1.
  destruct (exam p); [|congruence]. rewrite Ht, Hs.
  cbn [Nat.ltb Nat.leb negb andb].
  destruct (submitExamAnswers env p) as [s1 e1 v]. reflexivity. }
destruct (submitExamAnswers_once env p He Hu) as [H1 [H2 H3]].
rewrite Hr. cbn [value after did].
split; [exact H1|]. split; [exact H2|]. split; [reflexivity|].
split.
- intro t. now apply no_submission_without_confirmation.
- unfold tick, countdownRuns. unfold bind at 1, get at 1.
  cbn [timeRemaining setTimeRemaining exam Nat.ltb Nat.leb andb].
  destruct (exam (after (submitExamAnswers env p))); reflexivity.
Qed.

Lemma countdown_preempts_confirmation_witness :
submissions (did (tick quietEnv awaitingPage)) = 1
/\ isWaitingForConfirmationRef (after (tick quietEnv awaitingPage)) = false.
Proof.
destruct (@countdown_preempts_confirmation quietEnv awaitingPage)
  as [H1 [H2 _]]; try reflexivity; try discriminate.
split; assumption.
Defined.

(** Nothing else running in between, the two parts are the handler of
  a confirming "yes". *)
Lemma confirmWhile_nothing (env : Env) (transcript : jsstring) (p : Page) :
isWaitingForConfirmationRef p = true ->
isProcessingCommandRef p = false ->
getContext (screenContextService p) = EXAM ->
trim (toLowerCase transcript) = lit "yes" ->
handleVoiceCommand env transcript p = confirmWhile env (ret tt) p.
Proof.
intros Hw Hp Hc Hy. unfold handleVoiceCommand, confirmWhile.
unfold bind at 1, get at 1. rewrite Hp, Hc, Hw, Hy.
destruct transcript as [|c t]; [discriminate Hy|].
cbn [sameContext EXAM negb andb]. rewrite !eqb_refl. cbn [negb andb].
unfold bind, ret. cbn [after did value app].
destruct (confirmSubmit env p) as [s1 e1 [[]|]]; [|reflexivity].
destruct (confirmSubmitResumed env s1) as [s2 e2 v2]. reflexivity.
Qed.

(** C9. The code submits twice. The student has answered "yes": the
  handler is suspended at [await speak("Submitting exam.")], the
  confirmation flag still raised, when the countdown finds one second
  left. The tick calls the submission sink, and clears the flag too
  late for the handler, which resumes after the [await] and calls the
  sink again. *)
Theorem countdown_and_confirmation_both_submit :
let suspended := after (confirmSubmit quietEnv awaitingPage) in
let r := confirmWhile quietEnv (tick quietEnv) awaitingPage in
handleVoiceCommand quietEnv (lit "yes") awaitingPage
= confirmWhile quietEnv (ret tt) awaitingPage
/\ isWaitingForConfirmationRef suspended = true
/\ timeRemaining suspended = 1
/\ submissions (did (tick quietEnv suspended)) = 1
/\ isWaitingForConfirmationRef (after (tick quietEnv suspended)) = false
/\ submissions (did r) = 2
/\ filter isSubmit (did r)
   = [SubmitExam (lit "exam-1") (lit "student-1") [];
      SubmitExam (lit "exam-1") (lit "student-1") []].
Proof. repeat split. Qed.

End Confirmation.

(* ===================================================================== *)
(** * The screen context service *)
(* ===================================================================== *)

Section ScreenContextFacts.
Import JsString ScreenContext ScreenContextProps.

Lemma setContext_known (c : option jsstring) (s : ScreenContextService) :
  In (getContext s) [HOME; EXAM; None] ->
  In (getContext (fst (setContext c s))) [HOME; EXAM; None].
Proof.
  intro H. unfold setContext.
  destruct (sameContext c HOME) eqn:E1; cbn [orb fst getContext].
  { apply sameContext_spec in E1. subst c. now left. }
  destruct (sameContext c EXAM) eqn:E2; cbn [orb fst].
  { apply sameContext_spec in E2. subst c. right. now left. }
  destruct (sameContext c None) eqn:E3; cbn [orb fst].
  { apply sameContext_spec in E3. subst c. right. right. now left. }
  exact H.
Qed.

Lemma calls_known (cs : list Call) :
  In (getContext (calls cs)) [HOME; EXAM; None].
Proof.
  unfold calls.
  assert (H : In (getContext constructor) [HOME; EXAM; None])
    by (right; right; now left).
  revert H. generalize constructor.
  induction cs as [|c cs IH]; intros s H; cbn [fold_left]; [exact H|].
  apply IH. destruct c; cbn [call].
  - now apply setContext_known.
  - now apply setContext_known.
  - exact H.
  - unfold unsubscribe. now destruct (indexOf listener (listeners s)).
Qed.

(** X1. Whatever is passed to [setContext], and whatever else is
    called, the current context is always "HOME", "EXAM" or [null]:
    one of these three becomes the context, every listener being told
    the new and the previous one; any other value is refused, and the
    service is left as it was, context and listeners, nobody being
    told. *)
Theorem context_is_always_known (cs : list Call) :
  In (getContext (calls cs)) [HOME; EXAM; None]
  /\ (forall context,
        In context [HOME; EXAM; None] ->
        setContext context (calls cs)
        = ({| currentScreenContext := context;
              listeners := listeners (calls cs) |},
           map (fun listener =>
                  (listener, context, getContext (calls cs)))
               (listeners (calls cs))))
  /\ (forall context,
        ~ In context [HOME; EXAM; None] ->
        setContext context (calls cs) = (calls cs, [])).
Proof.
  split; [apply calls_known|]. generalize (calls cs). intro s. split.
  - intros context [<-|[<-|[<-|[]]]]; reflexivity.
  - intros context N. unfold setContext.
    destruct (sameContext context HOME) eqn:E1.
    { apply sameContext_spec in E1. exfalso. apply N. now left. }
    destruct (sameContext context EXAM) eqn:E2.
    { apply sameContext_spec in E2. exfalso. apply N. right. now left. }
    destruct (sameContext context None) eqn:E3.
    { apply sameContext_spec in E3. exfalso. apply N.
      right. right. now left. }
    reflexivity.
Qed.

Lemma indexOf_fresh (l : nat) (ls : list nat) :
  ~ In l ls -> indexOf l (ls ++ [l]) = Some (length ls).
Proof.
  induction ls as [|a ls IH]; intro H; cbn [indexOf app length].
  - now rewrite Nat.eqb_refl.
  - destruct (a =? l) eqn:E.
    + apply Nat.eqb_eq in E. subst a. exfalso. apply H. now left.
    + rewrite IH; [reflexivity|]. intro Hin. apply H. now right.
Qed.

Lemma splice1_count (l : nat) (ls : list nat) :
  forall index,
    indexOf l ls = Some index ->
    forall x, count_occ Nat.eq_dec (splice1 index ls) x
              = count_occ Nat.eq_dec ls x
                - (if Nat.eq_dec l x then 1 else 0).
Proof.
  unfold splice1.
  induction ls as [|a ls IH]; intros index H x; cbn [indexOf] in H.
  - discriminate H.
  - destruct (a =? l) eqn:E.
    + apply Nat.eqb_eq in E. subst a. inversion H; subst index.
      cbn [firstn skipn app count_occ].
      destruct (Nat.eq_dec l x); lia.
    + destruct (indexOf l ls) as [i|]; [|discriminate H].
      inversion H; subst index.
      change (skipn (S (S i)) (a :: ls)) with (skipn (S i) ls).
      cbn [firstn app count_occ].
      specialize (IH i eq_refl x).
      apply Nat.eqb_neq in E.
      destruct (Nat.eq_dec a x) as [->|Hax]; [|exact IH].
      destruct (Nat.eq_dec l x) as [->|Hlx]; [congruence|].
      rewrite IH. lia.
Qed.

Lemma indexOf_In (l : nat) (ls : list nat) :
  In l ls -> exists index, indexOf l ls = Some index.
Proof.
  induction ls as [|a ls IH]; intro H; [destruct H|].
  cbn [indexOf]. destruct (a =? l) eqn:E; [now exists 0|].
  destruct H as [H|H]; [apply Nat.eqb_neq in E; congruence|].
  destruct (IH H) as [i Hi]. rewrite Hi. now exists (S i).
Qed.

(** X2. Calling the function returned by [subscribe] undoes the
    subscription: every listener is registered as many times as before
    and the context is untouched; when the listener was not registered
    before, the service is exactly as it was. *)
Theorem unsubscribe_undoes_subscribe
        (l : nat) (s : ScreenContextService) :
  let s' := unsubscribe l (subscribe l s) in
  getContext s' = getContext s
  /\ (forall x, count_occ Nat.eq_dec (listeners s') x
                = count_occ Nat.eq_dec (listeners s) x)
  /\ (~ In l (listeners s) -> s' = s).
Proof.
  cbv zeta. unfold unsubscribe, subscribe. cbn [listeners].
  destruct (@indexOf_In l (listeners s ++ [l])) as [i Hi].
  { apply in_or_app. right. now left. }
  rewrite Hi. cbn [getContext currentScreenContext listeners].
  split; [reflexivity|]. split.
  - intro x. rewrite (splice1_count _ _ Hi).
    rewrite count_occ_app. cbn [count_occ].
    destruct (Nat.eq_dec l x); lia.
  - intro Hn. rewrite (@indexOf_fresh l _ Hn) in Hi. inversion Hi; subst i.
    unfold splice1. rewrite firstn_app, Nat.sub_diag, firstn_all.
    cbn [firstn]. rewrite app_nil_r.
    rewrite skipn_all2 by (rewrite length_app; cbn [length]; lia).
    rewrite app_nil_r. now destruct s.
Qed.

End ScreenContextFacts.

(* ===================================================================== *)
(** * The exam screen: answers, navigation, countdown *)
(* ===================================================================== *)

Section ExamPageFacts.
Import JsString ScreenContext Dialog ExamCommand ExamPage.
Import DialogProps ExamPageMoreProps ExamPageProps.

Ltac async :=
  cbv [bind catch finally modify perform performAll speak ret get
       value after did];
  cbn [app fst snd
       screenContextService exam uid submitting timeRemaining
       currentQuestionIndexRef totalQuestionsRef answersRef
       isProcessingCommandRef isWaitingForConfirmationRef
       setScreenContext setSubmitting setTimeRemaining
       setCurrentQuestionIndex setAnswers setProcessing setWaiting
       negb andb orb].

(** ** Invariants of the page *)

Section Invariants.
Variable I : Page -> Prop.

Lemma inv_ret (A : Type) (a : A) : Keeps I (ret a).
Proof. intros s H. exact H. Qed.

Lemma inv_bind (A B : Type) (m : M Page A) (f : A -> M Page B) :
  Keeps I m -> (forall a, Keeps I (f a)) -> Keeps I (bind m f).
Proof.
  intros Hm Hf s H. unfold bind.
  specialize (Hm s H).
  destruct (m s) as [s1 e1 [a|]]; cbn [after] in *; [|exact Hm].
  specialize (Hf a s1 Hm).
  destruct (f a s1) as [s2 e2 v]. exact Hf.
Qed.

(** [p <- get ;; f p]: the code that follows a reading of the state *)
Lemma inv_get (B : Type) (f : Page -> M Page B) :
  (forall s, I s -> I (after (f s s))) -> Keeps I (bind get f).
Proof.
  intros Hf s H. unfold bind, get. specialize (Hf s H).
  destruct (f s s) as [s2 e2 v]. exact Hf.
Qed.

Lemma inv_catch (A : Type) (m h : M Page A) :
  Keeps I m -> Keeps I h -> Keeps I (catch m h).
Proof.
  intros Hm Hh s H. unfold catch.
  specialize (Hm s H).
  destruct (m s) as [s1 e1 [a|]]; cbn [after] in *; [exact Hm|].
  specialize (Hh s1 Hm).
  destruct (h s1) as [s2 e2 v]. exact Hh.
Qed.

Lemma inv_finally (A : Type) (m : M Page A) (f : M Page unit) :
  Keeps I m -> Keeps I f -> Keeps I (finally m f).
Proof.
  intros Hm Hf s H. unfold finally.
  specialize (Hm s H).
  destruct (m s) as [s1 e1 v1]; cbn [after] in *.
  specialize (Hf s1 Hm).
  destruct (f s1) as [s2 e2 [u|]]; exact Hf.
Qed.

Lemma inv_speak (env : Env) (t : jsstring) : Keeps I (speak env t).
Proof. intros s H. exact H. Qed.

Lemma inv_perform (e : Effect) : Keeps I (perform e).
Proof. intros s H. exact H. Qed.

Lemma inv_performAll (es : list Effect) : Keeps I (performAll es).
Proof. intros s H. exact H. Qed.

Lemma inv_modify (f : Page -> Page) :
  (forall s, I s -> I (f s)) -> Keeps I (modify f).
Proof. intros Hf s H. now apply Hf. Qed.

Hypothesis stable : Stable I.

Ltac inv_atom :=
  lazymatch goal with
  | |- Keeps _ (ret _) => apply inv_ret
  | |- Keeps _ (speak _ _) => apply inv_speak
  | |- Keeps _ (perform _) => apply inv_perform
  | |- Keeps _ (performAll _) => apply inv_performAll
  | |- Keeps _ (modify _) =>
      apply inv_modify; intros ? ?;
      first [ now apply (st_context stable)
            | now apply (st_submitting stable)
            | now apply (st_waiting stable)
            | now apply (st_processing stable)
            | now apply (st_answer stable) ]
  end.

Ltac inv_step :=
  lazymatch goal with
  | |- Keeps _ (catch _ _) => apply inv_catch
  | |- Keeps _ (finally _ _) => apply inv_finally
  | |- Keeps _ (bind _ _) => apply inv_bind; [ try inv_atom | intro ]
  | |- _ => inv_atom
  end.

Lemma readOptions_after (env : Env) (opts : list jsstring) :
  forall index s, after (readOptions env index opts s) = s.
Proof.
  induction opts as [|o opts IH]; intros index s; [reflexivity|].
  cbn [readOptions]. unfold bind at 1. unfold speak at 1.
  destruct (ttsFails env _); [reflexivity|].
  specialize (IH (S index) s).
  destruct opts as [|o' opts'].
  - reflexivity.
  - unfold bind at 1. unfold perform at 1.
    destruct (readOptions env (S index) (o' :: opts') s) as [s2 e2 v].
    exact IH.
Qed.

Lemma readCurrentQuestion_after (env : Env) (s : Page) :
  after (readCurrentQuestion env s) = s.
Proof.
  unfold readCurrentQuestion. unfold bind at 1, get.
  destruct (currentQuestion s) as [q|]; [|reflexivity].
  unfold catch.
  unfold bind at 1. unfold speak at 1.
  destruct (ttsFails env _); [reflexivity|].
  unfold bind at 1. unfold perform at 1.
  destruct (qtype q); [|reflexivity].
  destruct (options q) as [[|o opts]|]; try reflexivity.
  pose proof (readOptions_after env (o :: opts) 0 s) as H.
  destruct (readOptions env 0 (o :: opts) s) as [s2 e2 [u|]];
    cbn [after] in *; exact H.
Qed.

Lemma inv_readCurrentQuestion (env : Env) :
  Keeps I (readCurrentQuestion env).
Proof. intros s H. now rewrite readCurrentQuestion_after. Qed.

Lemma inv_changeContext (c : option jsstring) :
  Keeps I (changeContext c).
Proof.
  unfold changeContext. apply inv_get. intros s H.
  destruct (setContext c (screenContextService s)) as [service notes].
  async. now apply (st_context stable).
Qed.

Lemma inv_submitExamAnswers (env : Env) : Keeps I (submitExamAnswers env).
Proof.
  unfold submitExamAnswers. apply inv_bind; [intros s H; exact H|intro p].
  destruct (exam p); [|apply inv_ret].
  destruct (userId p); [|apply inv_ret].
  inv_step. inv_step.
  apply inv_catch.
  - inv_step. inv_step.
    apply inv_bind; [intros s H; exact H|intro p'].
    inv_step.
    apply inv_bind; [destruct (sinkFails env);
                     [intros s H; exact H|apply inv_ret]|intro].
    inv_step. inv_step.
    apply inv_bind; [apply inv_changeContext|intro].
    inv_atom.
  - repeat inv_step.
Qed.

Lemma inv_handleNextQuestion (env : Env) :
  Keeps I (handleNextQuestion env).
Proof.
  unfold handleNextQuestion. apply inv_get. intros s H.
  destruct (exam s); [|exact H].
  destruct (totalQuestions s =? 0); [exact H|].
  destruct (currentQuestionIndexRef s + 1 <? totalQuestions s) eqn:E.
  - async. apply (st_next stable); [|exact H]. now apply Nat.ltb_lt.
  - now rewrite readCurrentQuestion_after.
Qed.

Lemma inv_handlePreviousQuestion (env : Env) :
  Keeps I (handlePreviousQuestion env).
Proof.
  unfold handlePreviousQuestion. apply inv_get. intros s H.
  destruct (currentQuestionIndexRef s) as [|n] eqn:E.
  - exact H.
  - async. now apply (st_previous stable).
Qed.

Lemma inv_navigate (env : Env) (command : jsstring) :
  Keeps I (navigate env command).
Proof.
  unfold navigate. apply inv_bind; [intros s H; exact H|intro p].
  repeat match goal with
         | |- Keeps I (if ?b then _ else _) => destruct b
         end.
  - apply inv_speak.
  - apply inv_handleNextQuestion.
  - apply inv_handlePreviousQuestion.
  - apply inv_readCurrentQuestion.
  - unfold handleSubmitCommand. repeat inv_step.
  - unfold handleExitCommand.
    inv_step. inv_step.
    apply inv_bind; [apply inv_changeContext|intro].
    inv_atom.
  - apply inv_speak.
Qed.

Lemma inv_selectOption (env : Env) (l : jsstring) (opts : list jsstring) :
  Keeps I (selectOption env l opts).
Proof.
  unfold selectOption.
  destruct (nth_error opts (optionIndex l)).
  - inv_step.
    apply inv_bind; [intros s H; exact H|intro p].
    apply inv_bind; [destruct (isLastQuestion p); apply inv_speak|intro].
    repeat inv_step.
  - repeat inv_step.
Qed.

Lemma inv_interpret (env : Env) (command : jsstring) :
  Keeps I (interpret env command).
Proof.
  unfold interpret. inv_step.
  apply inv_bind; [intros s H; exact H|intro p].
  destruct (currentQuestion p) as [[i q [|] [opts|]]|];
    try apply inv_navigate.
  destruct (selectLetter command) as [[|c r]|];
    try apply inv_navigate.
  apply inv_selectOption.
Qed.

Lemma inv_processCommand (env : Env) (command : jsstring) :
  Keeps I (processCommand env command).
Proof.
  unfold processCommand. inv_step.
  apply inv_finally.
  - apply inv_catch; [apply inv_interpret|apply inv_speak].
  - inv_step.
    apply inv_bind; [intros s H; exact H|intro p].
    destruct (isWaitingForConfirmationRef p); inv_atom.
Qed.

Lemma inv_handleVoiceCommand (env : Env) (transcript : jsstring) :
  Keeps I (handleVoiceCommand env transcript).
Proof.
  unfold handleVoiceCommand.
  apply inv_bind; [intros s H; exact H|intro p].
  destruct (isProcessingCommandRef p); [apply inv_ret|].
  destruct transcript as [|c t]; [apply inv_ret|].
  destruct (negb _); [apply inv_ret|].
  destruct (isWaitingForConfirmationRef p && _).
  { unfold confirmSubmit, confirmSubmitResumed.
    apply inv_bind; [repeat inv_step|intros _].
    inv_step. apply inv_submitExamAnswers. }
  destruct (isWaitingForConfirmationRef p && _).
  { repeat inv_step. }
  apply inv_processCommand.
Qed.

End Invariants.

(** ** The current question stays in the exam *)

Lemma inRange_stable : Stable InRange.
Proof.
  split; unfold InRange, totalQuestions; intros; cbn in *; auto.
  - unfold saveAnswer. destruct (currentQuestion p); [|assumption].
    destruct (trim a); assumption.
  - lia.
Qed.

(** X3. No voice command moves the current question out of the
    exam: when the index is below the number of questions before a
    transcript is handled, it is so afterwards, whatever the transcript
    and whatever fails. *)
Theorem voice_commands_keep_question_in_range
        (env : Env) (transcript : jsstring) (p : Page) :
  InRange p -> InRange (after (handleVoiceCommand env transcript p)).
Proof. apply inv_handleVoiceCommand, inRange_stable. Qed.

Lemma voice_commands_keep_question_in_range_witness :
  InRange awaitingPage
  /\ InRange (after (handleVoiceCommand quietEnv (lit "next") awaitingPage)).
Proof.
  assert (H : InRange awaitingPage) by (unfold InRange; cbn; lia).
  split; [exact H|].
  exact (@voice_commands_keep_question_in_range
           quietEnv (lit "next") awaitingPage H).
Defined.

(** ** One answer per question *)

Lemma NoDup_map_filter (A B : Type) (f : A -> B) (g : A -> bool)
      (l : list A) :
  NoDup (map f l) -> NoDup (map f (filter g l)).
Proof.
  induction l as [|a l IH]; intro H; cbn [filter map]; [constructor|].
  inversion H as [|? ? Hn Hd]; subst.
  destruct (g a); cbn [map]; [|now apply IH].
  constructor; [|now apply IH].
  intro Hin. apply Hn. apply in_map_iff in Hin.
  destruct Hin as (x & Hx & Hin). apply filter_In in Hin.
  apply in_map_iff. exists x. tauto.
Qed.

Lemma saveAnswer_answers (a : jsstring) (p : Page) (q : Question) :
  currentQuestion p = Some q -> trim a <> [] ->
  answersRef (saveAnswer a p)
  = filter (fun entry => negb (eqb (questionId entry) (id q)))
           (answersRef p)
    ++ [{| questionId := id q; answer := trim a |}].
Proof.
  intros Hq Ha. unfold saveAnswer. rewrite Hq.
  destruct (trim a); [congruence|reflexivity].
Qed.

Lemma oneAnswerEach_stable : Stable OneAnswerEach.
Proof.
  split; unfold OneAnswerEach; intros; cbn in *; auto.
  destruct (currentQuestion p) as [q|] eqn:Hq.
  2:{ unfold saveAnswer. now rewrite Hq. }
  destruct (trim a) as [|c r] eqn:Ha.
  { unfold saveAnswer. now rewrite Hq, Ha. }
  rewrite (saveAnswer_answers a p Hq) by congruence.
  rewrite map_app. cbn [map questionId].
  apply NoDup_app; [now apply NoDup_map_filter|repeat constructor; auto|].
  intros x Hx [<-|[]]. apply in_map_iff in Hx.
  destruct Hx as (e & He & Hin). apply filter_In in Hin.
  destruct Hin as [_ Hin]. rewrite He in Hin.
  now rewrite eqb_refl in Hin.
Qed.

(** X4. No voice command records two answers for one question:
    when the recorded answers bear distinct question identifiers before
    a transcript is handled, they do afterwards. *)
Theorem voice_commands_keep_one_answer_each
        (env : Env) (transcript : jsstring) (p : Page) :
  OneAnswerEach p ->
  OneAnswerEach (after (handleVoiceCommand env transcript p)).
Proof. apply inv_handleVoiceCommand, oneAnswerEach_stable. Qed.

Lemma voice_commands_keep_one_answer_each_witness :
  OneAnswerEach (setCurrentQuestionIndex 1 awaitingPage)
  /\ OneAnswerEach
       (after (handleVoiceCommand quietEnv (lit "option b")
                 (setCurrentQuestionIndex 1 awaitingPage))).
Proof.
  assert (H : OneAnswerEach (setCurrentQuestionIndex 1 awaitingPage))
    by constructor.
  split; [exact H|].
  exact (@voice_commands_keep_one_answer_each
           quietEnv (lit "option b")
           (setCurrentQuestionIndex 1 awaitingPage) H).
Defined.

Lemma find_last (A : Type) (f : A -> bool) (l : list A) (x : A) :
  forallb (fun y => negb (f y)) l = true -> f x = true ->
  find f (l ++ [x]) = Some x.
Proof.
  induction l as [|a l IH]; cbn [forallb app find]; intros H Hx.
  - now rewrite Hx.
  - apply andb_true_iff in H. destruct H as [Ha Hl].
    apply negb_true_iff in Ha. rewrite Ha. now apply IH.
Qed.

(** X5. [saveAnswer] then [getCurrentAnswer]: a blank answer
    is refused and leaves the page as it was; any other answer becomes,
    trimmed, the answer of the current question, replacing the previous
    one, and the answers of the other questions are untouched. *)
Theorem saved_answer_is_current_answer
        (a : jsstring) (p : Page) (q : Question) :
  currentQuestion p = Some q ->
  (trim a = [] -> saveAnswer a p = p)
  /\ (trim a <> [] ->
      getCurrentAnswer (saveAnswer a p) = trim a
      /\ filter (fun entry => negb (eqb (questionId entry) (id q)))
                (answersRef (saveAnswer a p))
         = filter (fun entry => negb (eqb (questionId entry) (id q)))
                  (answersRef p)).
Proof.
  intro Hq. split.
  - intro Ha. unfold saveAnswer. now rewrite Hq, Ha.
  - intro Ha. rewrite (saveAnswer_answers a p Hq Ha).
    assert (Hc : currentQuestion (saveAnswer a p) = Some q).
    { unfold saveAnswer. rewrite Hq. now destruct (trim a). }
    split.
    + unfold getCurrentAnswer. rewrite Hc.
      rewrite (saveAnswer_answers a p Hq Ha).
      rewrite find_last; [reflexivity| |cbn [questionId]; apply eqb_refl].
      apply forallb_forall. intros e He. apply filter_In in He.
      now destruct He as [_ ->].
    + rewrite filter_app. cbn [filter questionId].
      rewrite eqb_refl. cbn [negb]. rewrite app_nil_r.
      clear. induction (answersRef p) as [|e l IH]; [reflexivity|].
      cbn [filter].
      destruct (negb (eqb (questionId e) (id q))) eqn:E; cbn [filter].
      * now rewrite E, IH.
      * exact IH.
Qed.

Lemma saved_answer_is_current_answer_witness :
  getCurrentAnswer
    (saveAnswer (lit " four ") (setCurrentQuestionIndex 1 awaitingPage))
  = lit "four".
Proof.
  refine (proj1 (proj2 (@saved_answer_is_current_answer
                          (lit " four ")
                          (setCurrentQuestionIndex 1 awaitingPage)
                          _ eq_refl) _)).
  discriminate.
Defined.

End ExamPageFacts.

(* ===================================================================== *)
(** * The exam screen: countdown, clock, reading, guard *)
(* ===================================================================== *)

Section ExamPageCountdown.
Import JsString ScreenContext Dialog ExamCommand ExamPage.
Import DialogProps ExamPageMoreProps ExamPageProps.

Ltac async :=
  cbv [bind catch finally modify perform performAll speak ret get
       value after did];
  cbn [app fst snd
       screenContextService exam uid submitting timeRemaining
       currentQuestionIndexRef totalQuestionsRef answersRef
       isProcessingCommandRef isWaitingForConfirmationRef
       setScreenContext setSubmitting setTimeRemaining
       setCurrentQuestionIndex setAnswers setProcessing setWaiting
       negb andb orb].

Lemma tick_stopped (env : Env) (p : Page) :
  timeRemaining p = 0 ->
  tick env p = {| after := p; did := []; value := Some tt |}.
Proof.
  intro H. unfold tick, countdownRuns. async. rewrite H.
  now destruct (exam p).
Qed.

Lemma ticks_stopped (env : Env) (k : nat) :
  forall p, timeRemaining p = 0 ->
            ticks env k p = {| after := p; did := []; value := Some tt |}.
Proof.
  induction k as [|k IH]; intros p H; [reflexivity|].
  cbn [ticks]. unfold bind. rewrite tick_stopped by exact H.
  now rewrite IH.
Qed.

Lemma tick_counts (env : Env) (p : Page) (n : nat) :
  exam p <> None -> submitting p = false -> timeRemaining p = S (S n) ->
  tick env p = {| after := setTimeRemaining (S n) p; did := [];
                  value := Some tt |}.
Proof.
  intros He Hs Ht. unfold tick, countdownRuns. async.
  rewrite Ht, Hs. destruct (exam p); [|congruence].
  cbn [Nat.ltb Nat.leb negb andb Nat.sub]. reflexivity.
Qed.

Lemma tick_last (env : Env) (p : Page) :
  exam p <> None -> submitting p = false -> timeRemaining p = 1 ->
  tick env p
  = {| after := setTimeRemaining 0 (after (submitExamAnswers env p));
       did := did (submitExamAnswers env p);
       value := Some tt |}.
Proof.
  intros He Hs Ht. unfold tick, countdownRuns.
  unfold bind at 1, get at 1. rewrite Ht, Hs.
  destruct (exam p) eqn:E; [|congruence].
  cbn [Nat.ltb Nat.leb negb andb].
  unfold handleAutoSubmit.
  now destruct (submitExamAnswers env p) as [s1 e1 v1].
Qed.

Lemma tick_fires (env : Env) (p : Page) :
  exam p <> None -> userId p <> None ->
  submitting p = false -> timeRemaining p = 1 ->
  submissions (did (tick env p)) = 1
  /\ timeRemaining (after (tick env p)) = 0
  /\ value (tick env p) = Some tt.
Proof.
  intros He Hu Hs Ht. rewrite (@tick_last env p He Hs Ht).
  destruct (@submitExamAnswers_once env p He Hu) as (H1 & _ & _).
  cbn [did after value]. repeat split. exact H1.
Qed.

(** X6. The countdown submits the exam once, when it reaches
    zero: with an exam loaded, a user logged in, nothing being submitted
    and [n] seconds left, fewer than [n] ticks submit nothing and leave
    the remaining seconds; [n] ticks or more have called the submission
    sink exactly once and leave zero, whether the submission succeeded
    or not. *)
Theorem countdown_submits_once_at_zero (env : Env) (k : nat) :
  forall (p : Page) (n : nat),
    exam p <> None -> userId p <> None -> submitting p = false ->
    timeRemaining p = n -> 0 < n ->
    (k < n ->
     submissions (did (ticks env k p)) = 0
     /\ timeRemaining (after (ticks env k p)) = n - k)
    /\ (n <= k ->
        submissions (did (ticks env k p)) = 1
        /\ timeRemaining (after (ticks env k p)) = 0).
Proof.
  induction k as [|k IH]; intros p n He Hu Hs Ht Hn.
  - split; [|lia]. intros _. cbn [ticks ret did after]. split; [reflexivity|lia].
  - cbn [ticks]. unfold bind.
    destruct n as [|[|n]]; [lia| |].
    + (* the last second *)
      destruct (@tick_fires env p He Hu Hs Ht) as (H1 & H2 & H3).
      destruct (tick env p) as [s1 e1 v1]. cbn [did after value] in *.
      subst v1. rewrite (@ticks_stopped env k s1 H2). cbn [did after].
      rewrite app_nil_r. split; [lia|]. intros _. now split.
    + rewrite (@tick_counts env p n He Hs Ht).
      destruct (IH (setTimeRemaining (S n) p) (S n)) as [A B];
        try assumption; try reflexivity; try lia.
      destruct (ticks env k (setTimeRemaining (S n) p)) as [s2 e2 v2].
      cbn [did after app] in *. split; intro Hk.
      * destruct A as [A1 A2]; [lia|]. split; [exact A1|lia].
      * apply B. lia.
Qed.

Lemma countdown_submits_once_at_zero_witness :
  submissions (did (ticks quietEnv 5 (setTimeRemaining 3 awaitingPage))) = 1
  /\ timeRemaining (after (ticks quietEnv 5 (setTimeRemaining 3 awaitingPage)))
     = 0.
Proof.
  refine (proj2 (@countdown_submits_once_at_zero
                   quietEnv 5 (setTimeRemaining 3 awaitingPage) 3
                   _ _ eq_refl eq_refl _) _);
    try discriminate; repeat constructor.
Defined.

End ExamPageCountdown.

Section ExamPageClock.
Import JsString Dialog ExamPage ExamPageMoreProps.

Lemma parseInt_uint (d : Decimal.uint) :
  forall acc,
    fold_left (fun n c => 10 * n + (code c - 48))
              (lit (NilEmpty.string_of_uint d)) acc
    = Nat.of_uint_acc d acc.
Proof.
  induction d; intro acc;
    cbn [NilEmpty.string_of_uint lit list_ascii_of_string fold_left
         Nat.of_uint_acc];
    [reflexivity|..];
    (etransitivity; [apply IHd|]); f_equal;
    rewrite Nat.tail_mul_spec;
    match goal with
    | |- context [code ?c - 48] =>
        let v := eval vm_compute in (code c - 48) in
        change (code c - 48) with v
    end; lia.
Qed.

Lemma parseInt_ofNat (n : nat) : parseInt (ofNat n) = n.
Proof.
  unfold parseInt, ofNat. rewrite parseInt_uint.
  apply DecimalNat.Unsigned.of_to.
Qed.


Lemma uint_digits (d : Decimal.uint) :
  Forall (fun c => isDigit c = true) (lit (NilEmpty.string_of_uint d)).
Proof.
  induction d; cbn [NilEmpty.string_of_uint lit list_ascii_of_string];
    constructor; try exact IHd; reflexivity.
Qed.

Lemma ofNat_digits (n : nat) : Forall (fun c => isDigit c = true) (ofNat n).
Proof. apply uint_digits. Qed.






End ExamPageClock.

Section ExamPageReading.
Import JsString ScreenContext Dialog ExamCommand ExamPage.
Import DialogProps ExamPageMoreProps ExamPageProps Screens.

Ltac async :=
  cbv [bind catch finally modify perform performAll speak ret get
       value after did];
  cbn [app fst snd
       screenContextService exam uid submitting timeRemaining
       currentQuestionIndexRef totalQuestionsRef answersRef
       isProcessingCommandRef isWaitingForConfirmationRef
       setScreenContext setSubmitting setTimeRemaining
       setCurrentQuestionIndex setAnswers setProcessing setWaiting
       negb andb orb].


Lemma bind_speak (B : Type) (env : Env) (t : jsstring)
      (f : unit -> M Page B) (s : Page) :
  bind (speak env t) f s
  = if ttsFails env t
    then {| after := s; did := [SpeechSpeak t]; value := None |}
    else {| after := after (f tt s);
            did := SpeechSpeak t :: did (f tt s);
            value := value (f tt s) |}.
Proof.
  unfold bind, speak. destruct (ttsFails env t); [reflexivity|].
  now destruct (f tt s).
Qed.

Lemma bind_perform (B : Type) (e : Effect) (f : unit -> M Page B)
      (s : Page) :
  bind (perform e) f s
  = {| after := after (f tt s); did := e :: did (f tt s);
       value := value (f tt s) |}.
Proof. unfold bind, perform. now destruct (f tt s). Qed.

Lemma bind_ret (A B : Type) (a : A) (f : A -> M Page B) (s : Page) :
  bind (ret a) f s = f a s.
Proof. unfold bind, ret. now destruct (f a s). Qed.

Lemma readOptions_lines (env : Env) (opts : list jsstring) :
  forall index s,
    (exists k, spokenTexts (did (readOptions env index opts s))
               = firstn k (optionLines index opts))
    /\ ((forall t, ttsFails env t = false) ->
        spokenTexts (did (readOptions env index opts s))
        = optionLines index opts
        /\ value (readOptions env index opts s) = Some tt).
Proof.
  induction opts as [|o opts IH]; intros index s.
  - split; [now exists 0|]. intros _. now split.
  - cbn [readOptions optionLines]. rewrite bind_speak.
    destruct (IH (S index) s) as [[k Hk] Hall].
    destruct (ttsFails env _) eqn:F.
    + split; [now exists 1|]. intro H. rewrite H in F. discriminate F.
    + cbn [did value spokenTexts].
      destruct opts as [|o' opts'].
      * rewrite bind_ret. split.
        -- exists (S k). cbn [firstn]. now rewrite Hk.
        -- intro H. destruct (Hall H) as [-> ->]. now split.
      * rewrite bind_perform. cbn [did value spokenTexts]. split.
        -- exists (S k). cbn [firstn]. now rewrite Hk.
        -- intro H. destruct (Hall H) as [-> ->]. now split.
Qed.

Lemma readOptions_upToRejected (env : Env) (opts : list jsstring) :
  forall index s,
    spokenTexts (did (readOptions env index opts s))
    = upToRejected env (optionLines index opts).
Proof.
  induction opts as [|o opts IH]; intros index s; [reflexivity|].
  cbn [readOptions optionLines upToRejected]. rewrite bind_speak.
  destruct (ttsFails env _); [reflexivity|].
  cbn [did spokenTexts]. f_equal.
  destruct opts as [|o' opts'].
  - rewrite bind_ret. apply IH.
  - rewrite bind_perform. cbn [did spokenTexts]. apply IH.
Qed.

Lemma readCurrentQuestion_value (env : Env) (p : Page) :
  value (readCurrentQuestion env p) = Some tt.
Proof.
  unfold readCurrentQuestion. unfold bind at 1, get.
  destruct (currentQuestion p) as [q|]; [|reflexivity].
  unfold catch. now destruct (bind _ _ p) as [s1 e1 [[]|]].
Qed.

Lemma readCurrentQuestion_did (env : Env) (p : Page) :
  did (readCurrentQuestion env p)
  = match currentQuestion p with
    | None => []
    | Some q =>
        did ((speak env (cat [lit "Question ";
                              ofNat (currentQuestionIndexRef p + 1);
                              lit ". "; question q; lit ". "]) ;;
              perform (Wait 300) ;;
              match qtype q, options q with
              | MultipleChoice, Some (o :: opts) =>
                  readOptions env 0 (o :: opts)
              | _, _ => ret tt
              end)%async p)
    end.
Proof.
  unfold readCurrentQuestion. unfold bind at 1, get.
  destruct (currentQuestion p) as [q|]; [|reflexivity].
  unfold catch.
  destruct (bind _ _ p) as [s1 e1 [u|]]; cbn [did ret app];
    now rewrite ?app_nil_r.
Qed.

(** X8. [readCurrentQuestion] never throws and never changes the
    page; what it hands to the speech service is an initial part of the
    question followed by every option of a multiple-choice question,
    in order and lettered from A: the texts up to the first one the
    service rejects, that one included, and all of them when the
    service rejects nothing. *)
Theorem readCurrentQuestion_reads_in_order (env : Env) (p : Page) :
  value (readCurrentQuestion env p) = Some tt
  /\ after (readCurrentQuestion env p) = p
  /\ (exists k, spokenTexts (did (readCurrentQuestion env p))
                = firstn k (questionLines p))
  /\ ((forall t, ttsFails env t = false) ->
      spokenTexts (did (readCurrentQuestion env p)) = questionLines p)
  /\ spokenTexts (did (readCurrentQuestion env p))
     = upToRejected env (questionLines p).
Proof.
  split; [apply readCurrentQuestion_value|].
  split; [apply readCurrentQuestion_after|].
  assert (U : spokenTexts (did (readCurrentQuestion env p))
              = upToRejected env (questionLines p)).
  { rewrite readCurrentQuestion_did. unfold questionLines.
    destruct (currentQuestion p) as [q|]; [|reflexivity].
    cbn [upToRejected]. rewrite bind_speak.
    destruct (ttsFails env _); [reflexivity|].
    rewrite bind_perform. cbn [did spokenTexts]. f_equal.
    destruct (qtype q); [|reflexivity].
    destruct (options q) as [[|o opts]|]; try reflexivity.
    apply readOptions_upToRejected. }
  enough (H : (exists k, spokenTexts (did (readCurrentQuestion env p))
                         = firstn k (questionLines p))
              /\ ((forall t, ttsFails env t = false) ->
                  spokenTexts (did (readCurrentQuestion env p))
                  = questionLines p))
    by (destruct H as [H1 H2]; repeat split; assumption).
  clear U.
  rewrite readCurrentQuestion_did. unfold questionLines.
  destruct (currentQuestion p) as [q|].
  2:{ split; [now exists 0|reflexivity]. }
  rewrite bind_speak.
  destruct (ttsFails env _) eqn:F.
  { cbn [did spokenTexts]. split; [now exists 1|].
    intro H. rewrite H in F. discriminate F. }
  rewrite bind_perform. cbn [did spokenTexts].
  destruct (qtype q).
  2:{ cbn [did spokenTexts ret]. split; [now exists 1|reflexivity]. }
  destruct (options q) as [[|o opts]|].
  1,3: cbn [did spokenTexts ret optionLines];
       (split; [now exists 1|reflexivity]).
  destruct (readOptions_lines env (o :: opts) 0 p) as [[k Hk] Hall].
  split.
  - exists (S k). cbn [firstn]. now rewrite Hk.
  - intro H. now destruct (Hall H) as [-> _].
Qed.

(** ** The command guard *)

Lemma submitExamAnswers_guard (env : Env) (p : Page) :
  isProcessingCommandRef (after (submitExamAnswers env p))
  = isProcessingCommandRef p.
Proof.
  set (I := fun s => isProcessingCommandRef s = isProcessingCommandRef p).
  enough (H : Keeps I (submitExamAnswers env)) by (now apply H).
  unfold submitExamAnswers. apply inv_get. intros s Hs.
  destruct (exam s); [|exact Hs].
  destruct (userId s); [|exact Hs].
  revert s Hs. change (Keeps I ?m) with (Keeps I m).
  intros s Hs.
  match goal with
  | |- I (after (?m s)) => enough (K : Keeps I m) by (now apply K)
  end.
  repeat first
    [ apply inv_ret | apply inv_speak | apply inv_perform
    | apply inv_performAll
    | apply inv_modify; intros ? H; exact H
    | apply inv_catch
    | apply inv_bind; [|intro]
    | apply inv_get; intros ? H ].
  all: try (destruct (sinkFails env); [intros ? H; exact H|apply inv_ret]).
  all: try (intros ? H; exact H).
Qed.

(** X9. After a confirmation by "yes" the command guard stays
    raised, whether the submission succeeded or failed: the screen
    drops every later transcript, doing nothing and changing nothing. *)
Theorem confirmed_submission_leaves_guard_raised
        (env : Env) (transcript : jsstring) (p : Page) :
  isWaitingForConfirmationRef p = true ->
  isProcessingCommandRef p = false ->
  getContext (screenContextService p) = EXAM ->
  trim (toLowerCase transcript) = lit "yes" ->
  let p' := after (handleVoiceCommand env transcript p) in
  isProcessingCommandRef p' = true
  /\ forall env' transcript',
       handleVoiceCommand env' transcript' p' = dropped p'.
Proof.
  intros Hw Hp Hc Hy. cbv zeta.
  assert (G : isProcessingCommandRef
                (after (handleVoiceCommand env transcript p)) = true).
  { unfold handleVoiceCommand. unfold bind at 1, get at 1.
    rewrite Hp, Hc, Hw, Hy.
    destruct transcript as [|c t]; [discriminate Hy|].
    cbn [sameContext EXAM negb andb].
    rewrite !eqb_refl. cbn [negb andb].
    unfold confirmSubmit, confirmSubmitResumed. async.
    destruct (ttsFails env _); [reflexivity|]. async.
    pose proof (submitExamAnswers_guard env
                  (setWaiting false (setProcessing true p))) as H.
    destruct (submitExamAnswers env _) as [s2 e2 v2].
    cbn [after value did] in *. exact H. }
  split; [exact G|].
  set (p' := after (handleVoiceCommand env transcript p)) in *.
  clearbody p'.
  intros env' t'. unfold handleVoiceCommand, dropped.
  unfold bind at 1, get at 1. now rewrite G.
Qed.

Lemma confirmed_submission_leaves_guard_raised_witness :
  isProcessingCommandRef
    (after (handleVoiceCommand quietEnv (lit "Yes") awaitingPage)) = true
  /\ handleVoiceCommand quietEnv (lit "next")
       (after (handleVoiceCommand quietEnv (lit "Yes") awaitingPage))
     = dropped (after (handleVoiceCommand quietEnv (lit "Yes") awaitingPage)).
Proof.
  destruct (@confirmed_submission_leaves_guard_raised
              quietEnv (lit "Yes") awaitingPage
              eq_refl eq_refl eq_refl eq_refl) as [G D].
  split; [exact G|]. exact (D quietEnv (lit "next")).
Defined.

Lemma processCommand_shape (env : Env) (command : jsstring) (p : Page) :
  exists s1 e1 v1,
    processCommand env command p
    = {| after := setProcessing false s1;
         did := e1 ++ (if isWaitingForConfirmationRef s1 then []
                       else [SetTimeout (ListenIfContext EXAM) 500]);
         value := v1 |}.
Proof.
  unfold processCommand. unfold bind at 1, modify at 1.
  unfold finally.
  destruct (catch (interpret env command) _ (setProcessing true p))
    as [s1 e1 v1].
  exists s1, e1, v1.
  unfold bind at 1, modify at 1. unfold bind at 1, get at 1.
  cbn [isWaitingForConfirmationRef setProcessing].
  destruct (isWaitingForConfirmationRef s1);
    cbn [ret perform app]; now rewrite ?app_nil_r.
Qed.

(** X10. Outside a confirmation, [handleVoiceCommand] always
    releases the command guard, whether the command was understood,
    failed or threw; and once it has interpreted a transcript in the
    EXAM context, it re-arms the recognition as its last act (the 500 ms
    timer) unless a confirmation has been opened meanwhile. *)
Theorem command_guard_is_released
        (env : Env) (transcript : jsstring) (p : Page) :
  isWaitingForConfirmationRef p = false ->
  isProcessingCommandRef p = false ->
  let r := handleVoiceCommand env transcript p in
  isProcessingCommandRef (after r) = false
  /\ (getContext (screenContextService p) = EXAM ->
      transcript <> [] ->
      isWaitingForConfirmationRef (after r) = false ->
      exists es, did r = es ++ [SetTimeout (ListenIfContext EXAM) 500]).
Proof.
  intros Hw Hp. cbv zeta.
  destruct transcript as [|c t].
  { assert (R : handleVoiceCommand env [] p = dropped p).
    { unfold handleVoiceCommand, bind, get. now rewrite Hp. }
    rewrite R. split; [exact Hp|]. intros _ H. congruence. }
  destruct (sameContext (getContext (screenContextService p)) EXAM) eqn:Hc.
  2:{ rewrite exam_gate
        by (intro H; rewrite H in Hc; discriminate Hc).
      split; [exact Hp|]. intro H. rewrite H in Hc. discriminate Hc. }
  assert (R : handleVoiceCommand env (c :: t) p
              = processCommand env (trim (toLowerCase (c :: t))) p).
  { unfold handleVoiceCommand. unfold bind at 1, get at 1.
    rewrite Hp, Hc, Hw. cbn [negb andb].
    now destruct (processCommand env _ p). }
  rewrite R.
  destruct (processCommand_shape env (trim (toLowerCase (c :: t))) p)
    as (s1 & e1 & v1 & E).
  rewrite E. cbn [after did isProcessingCommandRef setProcessing
                  isWaitingForConfirmationRef].
  split; [reflexivity|]. intros _ _ W. rewrite W. now exists e1.
Qed.

Lemma command_guard_is_released_witness :
  isProcessingCommandRef
    (after (handleVoiceCommand quietEnv (lit "repeat")
              (setWaiting false awaitingPage))) = false.
Proof.
  exact (proj1 (@command_guard_is_released
                  quietEnv (lit "repeat") (setWaiting false awaitingPage)
                  eq_refl eq_refl)).
Defined.

End ExamPageReading.

(* ===================================================================== *)
(** * The home screen *)
(* ===================================================================== *)

Section HomePageFacts.
Import JsString Regex ScreenContext Dialog HomePage.
Import DialogProps ExamPageProps HomePageProps Screens.

Lemma home_bind_speak (B : Type) (env : Env) (t : jsstring)
      (f : unit -> M Page B) (s : Page) :
  bind (speak env t) f s
  = if ttsFails env t
    then {| after := s; did := [SpeechSpeak t]; value := None |}
    else {| after := after (f tt s);
            did := SpeechSpeak t :: did (f tt s);
            value := value (f tt s) |}.
Proof.
  unfold bind, speak. destruct (ttsFails env t); [reflexivity|].
  now destruct (f tt s).
Qed.

Lemma home_bind_perform (B : Type) (e : Effect) (f : unit -> M Page B)
      (s : Page) :
  bind (perform e) f s
  = {| after := after (f tt s); did := e :: did (f tt s);
       value := value (f tt s) |}.
Proof. unfold bind, perform. now destruct (f tt s). Qed.


(** ** "Begin exam N" *)

Lemma digit_not_space (c : ascii) : isDigit c = true -> isSpace c = false.
Proof.
  unfold isDigit, isSpace, between. intro H.
  apply andb_true_iff in H. destruct H as [H1 H2].
  apply Nat.leb_le in H1. apply Nat.leb_le in H2.
  repeat match goal with
         | |- context [?a <=? ?b] =>
             destruct (Nat.leb_spec a b)
         | |- context [?a =? ?b] =>
             destruct (Nat.eqb_spec a b)
         end; cbn; try reflexivity; lia.
Qed.

Lemma digit_lower (c : ascii) : isDigit c = true -> lowerChar c = c.
Proof.
  unfold lowerChar, hasLower, isUpper, isDigit, between. intro H.
  apply andb_true_iff in H. destruct H as [H1 H2].
  apply Nat.leb_le in H1. apply Nat.leb_le in H2.
  repeat match goal with
         | |- context [?a <=? ?b] =>
             destruct (Nat.leb_spec a b)
         | |- context [?a =? ?b] =>
             destruct (Nat.eqb_spec a b)
         end; cbn; try reflexivity; lia.
Qed.

Lemma digits_lower (ds : jsstring) :
  Forall (fun c => isDigit c = true) ds -> toLowerCase ds = ds.
Proof.
  induction 1 as [|c ds Hc Hd IH]; [reflexivity|].
  unfold toLowerCase in *. cbn [map]. now rewrite IH, digit_lower.
Qed.


Lemma trimEnd_digits (pre ds : jsstring) :
  Forall (fun c => isDigit c = true) ds -> ds <> [] ->
  trimEnd (pre ++ ds) = pre ++ ds.
Proof.
  intros Hd Hn. unfold trimEnd. rewrite rev_app_distr.
  destruct (rev ds) as [|c r] eqn:E.
  { apply (f_equal (@rev ascii)) in E. rewrite rev_involutive in E.
    now subst ds. }
  assert (Hc : isDigit c = true).
  { rewrite Forall_forall in Hd. apply Hd. apply in_rev.
    rewrite E. now left. }
  cbn [app trimStart]. rewrite (digit_not_space _ Hc).
  change (c :: r ++ rev pre) with ((c :: r) ++ rev pre).
  rewrite <- E, <- rev_app_distr. apply rev_involutive.
Qed.

Lemma startsWith_head (c : ascii) (p s : jsstring) :
  startsWith (c :: p) s = true -> In c s.
Proof.
  destruct s as [|b s]; cbn [startsWith]; [discriminate|].
  destruct (ascii_dec c b); [|discriminate]. intros _. now left.
Qed.

Lemma includes_head (c : ascii) (p s : jsstring) :
  includes (c :: p) s = true -> In c s.
Proof.
  induction s as [|b s IH]; cbn [includes].
  - cbn [startsWith orb]. discriminate.
  - intro H. apply orb_true_iff in H. destruct H as [H|H].
    + now apply startsWith_head in H.
    + right. now apply IH.
Qed.

Lemma exact_needs_head (c0 : ascii) (s0 : string) (g : regex)
      (s : jsstring) :
  ~ In c0 s ->
  forall b, searchFrom (Seq (Exact (String c0 s0)) g) b s = None.
Proof.
  induction s as [|c s IH]; intros Hn b; cbn [searchFrom].
  - reflexivity.
  - assert (E : matchAt (Seq (Exact (String c0 s0)) g)
                        {| before := b; rest := c :: s |} = None).
    { unfold matchAt. cbn [run lit list_ascii_of_string litAt rest].
      unfold sameChar. destruct (ascii_dec c0 c) as [->|]; [|reflexivity].
      exfalso. apply Hn. now left. }
    rewrite E. apply IH. intro H. apply Hn. now right.
Qed.

Lemma litAt_prefix (l s : jsstring) :
  forall b, exists b',
    litAt sameChar l {| before := b; rest := l ++ s |}
    = Some {| before := b'; rest := s |}.
Proof.
  induction l as [|a l IH]; intro b; cbn [litAt app rest].
  - now exists b.
  - unfold sameChar. destruct (ascii_dec a a); [|congruence]. apply IH.
Qed.

Lemma star_all (A : Type) (cls : ascii -> bool) (k : pos -> option A)
      (s : jsstring) :
  Forall (fun c => cls c = true) s ->
  (forall p, k p <> None) ->
  forall b, exists b', star cls k b s = k {| before := b'; rest := [] |}.
Proof.
  intros Hs Hk. induction Hs as [|c s Hc Hs IH]; intro b; cbn [star].
  - now exists b.
  - rewrite Hc. destruct (IH (Some c)) as [b' E]. rewrite E.
    destruct (k {| before := b'; rest := [] |}) eqn:K.
    + now exists b'.
    + now apply Hk in K.
Qed.

Lemma search_beginExam (ds : jsstring) :
  Forall (fun c => isDigit c = true) ds -> ds <> [] ->
  exists found,
    search beginExam (lit "begin exam " ++ ds) = Some found
    /\ capture found = ds.
Proof.
  intros Hd Hn. unfold search.
  destruct ds as [|d ds]; [congruence|].
  inversion Hd as [|? ? Hd1 Hd2]; subst.
  assert (M : exists found,
             matchAt beginExam
               {| before := None; rest := lit "begin exam " ++ d :: ds |}
             = Some found /\ capture found = d :: ds).
  { unfold matchAt, beginExam. cbn [run].
    destruct (litAt_prefix (lit "begin exam ") (d :: ds) None) as [b' E].
    rewrite E. cbn [rest]. rewrite Hd1.
    destruct (@star_all _ isDigit
                (fun p' =>
                   Some {| stop := p';
                           group1 :=
                             Some (firstn (length (d :: ds)
                                           - length (rest p'))
                                          (d :: ds)) |})
                ds Hd2) with (b := Some d) as [b2 E2];
      [discriminate|].
    rewrite E2. eexists. split; [reflexivity|].
    unfold capture. cbn [group1 rest]. rewrite Nat.sub_0_r.
    apply firstn_all. }
  destruct M as (found & M & C).
  exists found. split; [|exact C].
  destruct (lit "begin exam " ++ d :: ds) eqn:L; cbn [searchFrom];
    now rewrite M.
Qed.

Lemma begin_no_letter (c : ascii) (ds : jsstring) :
  Forall (fun x => isDigit x = true) ds ->
  isDigit c = false ->
  ~ In c (lit "begin exam ") ->
  ~ In c (lit "begin exam " ++ ds).
Proof.
  intros Hd Hc Hl H. apply in_app_or in H. destruct H as [H|H].
  - now apply Hl.
  - rewrite Forall_forall in Hd. apply Hd in H. congruence.
Qed.

Lemma interpret_begin (env : Env) (ds : jsstring) (p : Page) :
  Forall (fun c => isDigit c = true) ds -> ds <> [] ->
  interpret env (lit "begin exam " ++ ds) p
  = (perform SpeechStopListening ;;
     handleSelectExam env (parseInt ds))%async p.
Proof.
  intros Hd Hn. unfold interpret.
  assert (E1 : includes (lit "list exams") (lit "begin exam " ++ ds)
               = false).
  { destruct (includes _ _) eqn:E; [|reflexivity].
    apply includes_head in E. exfalso. revert E.
    apply begin_no_letter; [exact Hd|reflexivity|].
    cbn. intuition discriminate. }
  assert (E2 : eqb (lit "begin exam " ++ ds) (lit "list exam") = false).
  { apply eqb_neq. cbn. discriminate. }
  assert (E3 : includes (lit "begin exam") (lit "begin exam " ++ ds)
               = true).
  { cbn [lit list_ascii_of_string app includes startsWith].
    repeat (destruct (ascii_dec _ _); [|congruence]). reflexivity. }
  assert (E4 : search selectExamNumber (lit "begin exam " ++ ds) = None).
  { apply exact_needs_head.
    apply begin_no_letter; [exact Hd|reflexivity|].
    cbn. intuition discriminate. }
  destruct (search_beginExam Hd Hn) as (found & E5 & C).
  rewrite E1, E2, E3, E4, E5, C, orb_true_r. cbn [orb].
  destruct ds; [congruence|reflexivity].
Qed.

Lemma trim_phrase (c : ascii) (pre ds : jsstring) :
  isSpace c = false ->
  Forall (fun x => isDigit x = true) ds -> ds <> [] ->
  trim ((c :: pre) ++ ds) = (c :: pre) ++ ds.
Proof.
  intros Hc Hd Hn. unfold trim. cbn [app trimStart]. rewrite Hc.
  change (c :: pre ++ ds) with ((c :: pre) ++ ds).
  now apply trimEnd_digits.
Qed.

Lemma ofNat_nonempty (n : nat) : ofNat (S n) <> [].
Proof.
  intro H. pose proof (parseInt_ofNat (S n)) as P.
  rewrite H in P. discriminate P.
Qed.

Ltac hasync :=
  cbv [bind catch finally modify perform performAll speak ret get
       value after did];
  cbn [app fst snd screenContextService examsRef uid
       isProcessingCommandRef setScreenContext setProcessing
       negb andb orb].

Lemma changeContext_run (c : option jsstring) (s : Page) :
  In c [HOME; EXAM; None] ->
  changeContext c s
  = {| after :=
         setScreenContext
           {| currentScreenContext := c;
              listeners := listeners (screenContextService s) |} s;
       did := map (fun l => Notify l c
                              (currentScreenContext (screenContextService s)))
                  (listeners (screenContextService s));
       value := Some tt |}.
Proof.
  intro H. unfold changeContext, setContext.
  assert (V : sameContext c HOME || sameContext c EXAM
              || sameContext c None = true).
  { destruct H as [<-|[<-|[<-|[]]]]; reflexivity. }
  unfold bind at 1, get at 1. rewrite V.
  hasync. now rewrite map_map, ?app_nil_r.
Qed.

Lemma handleSelectExam_run
      (env : Env) (s : Page) (n : nat) (e : ExamInfo) (u : jsstring)
      (m : option jsstring) :
  nth_error (examsRef s) n = Some e ->
  userId s = Some u ->
  canAttemptExam env (examId e) u = Some (true, m) ->
  (forall t, ttsFails env t = false) ->
  handleSelectExam env (S n) s
  = {| after :=
         setScreenContext
           {| currentScreenContext := EXAM;
              listeners := listeners (screenContextService s) |} s;
       did :=
         SpeechSpeak (cat [title e; lit " selected. Starting exam."])
         :: map (fun l => Notify l EXAM
                            (currentScreenContext (screenContextService s)))
                (listeners (screenContextService s))
         ++ [Navigate "ExamPage" (examId e)];
       value := Some tt |}.
Proof.
  intros Hn Hu Ha Htts.
  unfold handleSelectExam. unfold bind at 1, get at 1.
  destruct (examsRef s) as [|e0 es] eqn:Ex.
  { destruct n; discriminate Hn. }
  rewrite Hn, Hu. unfold catch. rewrite Ha.
  rewrite home_bind_speak, Htts.
  unfold bind.
  rewrite changeContext_run by (right; now left).
  cbn [perform after did value app]. now rewrite ?app_nil_r.
Qed.

(** X11. The spoken command "Begin exam N" starts the N-th exam of
    the list: on the home screen, with a user logged in who may attempt
    that exam and a speech service that rejects nothing, the handler
    stops the recognition, announces the exam, sets the context to
    "EXAM" (telling every listener), navigates to that very exam, and
    releases its guard; the recognition timer it still arms is for the
    HOME context. *)
Theorem begin_exam_command_starts_exam
        (env : Env) (p : Page) (n : nat) (e : ExamInfo) (u : jsstring)
        (m : option jsstring) :
  isProcessingCommandRef p = false ->
  getContext (screenContextService p) = HOME ->
  nth_error (examsRef p) n = Some e ->
  userId p = Some u ->
  canAttemptExam env (examId e) u = Some (true, m) ->
  (forall t, ttsFails env t = false) ->
  let r := handleVoiceCommand env (lit "Begin exam " ++ ofNat (S n)) p in
  did r
  = SpeechStopListening
    :: SpeechSpeak (cat [title e; lit " selected. Starting exam."])
    :: map (fun l => Notify l EXAM HOME)
           (listeners (screenContextService p))
    ++ [Navigate "ExamPage" (examId e);
        SetTimeout (ListenIfContext HOME) 500]
  /\ getContext (screenContextService (after r)) = EXAM
  /\ isProcessingCommandRef (after r) = false
  /\ value r = Some tt.
Proof.
  intros Hp Hc Hn Hu Ha Htts. cbv zeta.
  pose proof (ofNat_digits (S n)) as Hd.
  pose proof (@ofNat_nonempty n) as Hne.
  pose proof (parseInt_ofNat (S n)) as Hparse.
  set (ds := ofNat (S n)) in *. clearbody ds.
  assert (T1 : trim (lit "Begin exam " ++ ds) = lit "Begin exam " ++ ds)
    by (apply (@trim_phrase "B" (lit "egin exam ") ds); auto).
  assert (T2 : trim (toLowerCase (lit "Begin exam " ++ ds))
               = lit "begin exam " ++ ds).
  { unfold toLowerCase. rewrite map_app.
    change (map lowerChar ds) with (toLowerCase ds).
    rewrite (digits_lower Hd).
    apply (@trim_phrase "b" (lit "egin exam ") ds); auto. }
  assert (R : handleVoiceCommand env (lit "Begin exam " ++ ds) p
              = finally
                  (catch (interpret env (lit "begin exam " ++ ds))
                         (speak env
                            (lit "Sorry, an error occurred. Please try again.")))
                  (modify (setProcessing false) ;;
                   perform (SetTimeout (ListenIfContext HOME) 500))%async
                  (setProcessing true p)).
  { unfold handleVoiceCommand. unfold bind at 1, get at 1.
    rewrite Hp, T1, T2, Hc.
    change (lit "Begin exam " ++ ds)
      with ("B"%char :: lit "egin exam " ++ ds).
    cbn [sameContext HOME negb]. rewrite eqb_refl. cbn [negb].
    unfold bind at 1, modify at 1.
    now destruct (finally _ _ (setProcessing true p)). }
  rewrite R. unfold finally, catch.
  rewrite (@interpret_begin env ds (setProcessing true p) Hd Hne).
  rewrite home_bind_perform, Hparse.
  rewrite (@handleSelectExam_run env (setProcessing true p) n e u m)
    by assumption.
  unfold getContext in *.
  hasync. rewrite Hc. repeat split.
  now rewrite <- app_assoc.
Qed.

Lemma begin_exam_command_starts_exam_witness :
  did (handleVoiceCommand quietEnv (lit "Begin exam 2") sampleHome)
  = [SpeechStopListening;
     SpeechSpeak (lit "Botany selected. Starting exam.");
     Notify 7 EXAM HOME;
     Navigate "ExamPage" (lit "e2");
     SetTimeout (ListenIfContext HOME) 500].
Proof.
  refine (proj1 (@begin_exam_command_starts_exam
                   quietEnv sampleHome 1
                   {| examId := lit "e2"; title := lit "Botany" |}
                   (lit "student-1") None
                   eq_refl eq_refl eq_refl eq_refl eq_refl _)).
  reflexivity.
Defined.

(** X12. Once [handleVoiceCommand] of the home screen has
    taken a transcript (the guard was free, the transcript not blank,
    the context HOME), it stops the recognition first, and whatever the
    command does, fails or throws, it releases the guard and arms the
    500 ms recognition timer as its last act. *)
Theorem home_guard_is_released
        (env : Env) (transcript : jsstring) (p : Page) :
  isProcessingCommandRef p = false ->
  getContext (screenContextService p) = HOME ->
  trim transcript <> [] ->
  let r := handleVoiceCommand env transcript p in
  isProcessingCommandRef (after r) = false
  /\ exists es,
       did r = SpeechStopListening :: es
               ++ [SetTimeout (ListenIfContext HOME) 500].
Proof.
  intros Hp Hc Ht. cbv zeta.
  assert (R : handleVoiceCommand env transcript p
              = finally
                  (catch (interpret env (trim (toLowerCase transcript)))
                         (speak env
                            (lit "Sorry, an error occurred. Please try again.")))
                  (modify (setProcessing false) ;;
                   perform (SetTimeout (ListenIfContext HOME) 500))%async
                  (setProcessing true p)).
  { unfold handleVoiceCommand. unfold bind at 1, get at 1.
    rewrite Hp, Hc.
    destruct (trim transcript) as [|c t]; [congruence|].
    cbn [sameContext HOME negb]. rewrite eqb_refl. cbn [negb].
    unfold bind at 1, modify at 1.
    now destruct (finally _ _ (setProcessing true p)). }
  rewrite R. unfold finally, catch.
  assert (I : exists s1 es v,
             interpret env (trim (toLowerCase transcript))
                       (setProcessing true p)
             = {| after := s1; did := SpeechStopListening :: es;
                  value := v |}).
  { unfold interpret. rewrite home_bind_perform. eauto. }
  destruct I as (s1 & es & v & I). rewrite I.
  destruct v as [[]|].
  - hasync. split; [reflexivity|]. exists es. now rewrite ?app_nil_r.
  - unfold speak.
    destruct (ttsFails env _); hasync; (split; [reflexivity|]).
    + exists (es ++ [SpeechSpeak
                       (lit "Sorry, an error occurred. Please try again.")]).
      now rewrite <- !app_assoc.
    + exists (es ++ [SpeechSpeak
                       (lit "Sorry, an error occurred. Please try again.")]).
      now rewrite <- !app_assoc.
Qed.

Lemma home_guard_is_released_witness :
  isProcessingCommandRef
    (after (handleVoiceCommand quietEnv (lit "list exams") sampleHome))
  = false.
Proof.
  refine (proj1 (@home_guard_is_released quietEnv (lit "list exams")
                   sampleHome eq_refl eq_refl _)).
  discriminate.
Defined.

End HomePageFacts.

(* ===================================================================== *)
(** * The speech service: callbacks, timers, last message *)
(* ===================================================================== *)

Section SpeechCallbacks.
Import JsString Speech SpeechProps SpeechMoreProps.

Ltac world :=
  cbn [svc now nextId timers micro live settled sttFault trace
       this emit bump withTimers withMicro withLive withSettled withFault
       withNow setTimeout clearTimeout await
       isSpeaking isListening isInitialized speechQueue currentRecognition
       currentRecognitionSubscriptions onSpeechEndCallback
       onRecognitionResultCallback onRecognitionErrorCallback
       silenceTimeout silenceTimeoutDuration lastSpokenMessage
       setSpeaking setListening setQueue setRecognition setSubscriptions
       setCallbacks setSilenceTimeout setLastSpoken] in *.

Ltac break :=
  repeat match goal with
         | |- context [match ?x with _ => _ end] => destruct x
         end.

(** ** Tracking the timers *)

Lemma tracked_same (x y : World) :
  timers y = timers x ->
  silenceTimeout (svc y) = silenceTimeout (svc x) ->
  nextId x <= nextId y ->
  Tracked x -> Tracked y.
Proof.
  intros T S N [F D L]. split; rewrite ?T, ?S; auto.
  eapply Forall_impl; [|exact F]. cbv beta. intros. lia.
Qed.

Lemma tracked_setTimeout (k : Task) (d : N) (x : World) :
  (match k with SilenceTimeout => false | _ => true end) = true ->
  Tracked x -> Tracked (setTimeout k d x).
Proof.
  intros K [F D L]. split; world.
  - apply Forall_app. split.
    + eapply Forall_impl; [|exact F]. cbv beta. intros. lia.
    + constructor; [cbn [tid]; lia|constructor].
  - rewrite map_app. cbn [map tid].
    apply NoDup_app; [exact D|repeat constructor; auto|].
    intros i Hi [<-|[]]. apply in_map_iff in Hi.
    destruct Hi as (t & E & Hin).
    rewrite Forall_forall in F. apply F in Hin. lia.
  - apply Forall_app. split; [exact L|].
    repeat constructor. unfold isSilenceTimer. cbn [task].
    destruct k; try discriminate K; discriminate.
Qed.

Lemma Forall_filter (A : Type) (P : A -> Prop) (g : A -> bool)
      (l : list A) :
  Forall P l -> Forall P (filter g l).
Proof.
  intro H. rewrite Forall_forall in *. intros x Hx.
  apply filter_In in Hx. now apply H.
Qed.

Lemma tracked_clearTimeout (id : TimerId) (x : World) :
  Tracked x -> Tracked (clearTimeout id x).
Proof.
  intros [F D L]. split; world.
  - now apply Forall_filter.
  - now apply NoDup_map_filter.
  - now apply Forall_filter.
Qed.

(** Once the timer whose handle the service holds is cleared, no
    silence timer is pending. *)
Lemma cleared_silence (x : World) (id : TimerId) :
  Tracked x -> silenceTimeout (svc x) = Some id ->
  Forall (fun t => isSilenceTimer t = false)
         (filter (fun t => negb (tid t =? id)) (timers x)).
Proof.
  intros [_ _ L] S. rewrite Forall_forall in *. intros t Ht.
  apply filter_In in Ht. destruct Ht as [Hin Hne].
  destruct (isSilenceTimer t) eqn:E; [|reflexivity].
  specialize (L t Hin E). rewrite S in L. inversion L; subst.
  now rewrite Nat.eqb_refl in Hne.
Qed.

Lemma no_handle_no_silence (x : World) :
  Tracked x -> silenceTimeout (svc x) = None ->
  Forall (fun t => isSilenceTimer t = false) (timers x).
Proof.
  intros [_ _ L] S. rewrite Forall_forall in *. intros t Ht.
  destruct (isSilenceTimer t) eqn:E; [|reflexivity].
  specialize (L t Ht E). congruence.
Qed.

Lemma tracked_clearSilence (x : World) :
  Tracked x ->
  Tracked (clearSilence x)
  /\ Forall (fun t => isSilenceTimer t = false) (timers (clearSilence x)).
Proof.
  intro T. unfold clearSilence.
  destruct (silenceTimeout (svc x)) as [id|] eqn:S.
  - pose proof (@cleared_silence x id T S) as C.
    destruct (@tracked_clearTimeout id x T) as [F D _].
    split; [split|]; world; auto.
    eapply Forall_impl; [|exact C]. cbv beta. intros t E1 E2. congruence.
  - split; [exact T|]. now apply no_handle_no_silence.
Qed.

Lemma tracked_armSilence (x : World) :
  Tracked x -> Tracked (armSilence x).
Proof.
  intro T. unfold armSilence. cbv zeta. world.
  set (y := match silenceTimeout (svc x) with
            | Some id => clearTimeout id (this (setListening true) x)
            | None => this (setListening true) x
            end).
  assert (Y : Forall (fun t => tid t < nextId y) (timers y)
              /\ NoDup (map tid (timers y))
              /\ Forall (fun t => isSilenceTimer t = false) (timers y)).
  { subst y. destruct (silenceTimeout (svc x)) as [id|] eqn:S.
    - pose proof (@cleared_silence x id T S) as C.
      destruct (@tracked_clearTimeout id x T) as [F D _].
      world. auto.
    - destruct T as [F D L]. world. repeat split; auto.
      apply no_handle_no_silence; [now split|exact S]. }
  destruct Y as (F & D & C). clearbody y.
  split; world.
  - apply Forall_app. split.
    + eapply Forall_impl; [|exact F]. cbv beta. intros. lia.
    + constructor; [cbn [tid]; lia|constructor].
  - rewrite map_app. cbn [map tid].
    apply NoDup_app; [exact D|repeat constructor; auto|].
    intros i Hi [<-|[]]. apply in_map_iff in Hi.
    destruct Hi as (t & E & Hin).
    rewrite Forall_forall in F. apply F in Hin. lia.
  - apply Forall_app. split.
    + eapply Forall_impl; [|exact C]. cbv beta. intros t E1 E2. congruence.
    + repeat constructor.
Qed.

(** ** What the service leaves alone *)

Lemma same_refl (t : bool) (w : World) : Same t w w.
Proof. split; auto. Qed.

Lemma same_detached (t : bool) (w x : World) :
  Same t w x -> Detached w -> Detached x.
Proof.
  intros H (D1 & D2 & D3).
  destruct (sm_callbacks H) as [D|(E & R & X)]; [exact D|].
  repeat split; congruence.
Qed.

Lemma same_trans (t : bool) (w x y : World) :
  Same t w x -> Same t x y -> Same t w y.
Proof.
  intros H1 H2. pose proof (same_detached H1) as Dx.
  destruct H1 as [L1 S1 P1 K1 C1 T1], H2 as [L2 S2 P2 K2 C2 T2].
  split; auto.
  - intro Ht. rewrite L2, L1; auto.
  - intro Ht. rewrite S2, S1; auto.
  - destruct K2 as [D|(E2 & R2 & X2)]; [now left|].
    destruct K1 as [(D1 & D2 & D3)|(E1 & R1 & X1)].
    + left. repeat split; congruence.
    + right. repeat split; congruence.
  - intro D. rewrite C2, C1; auto.
Qed.

Lemma pending_same (P : Task -> bool) (x y : World) :
  micro y = micro x -> timers y = timers x ->
  nonePending P x -> nonePending P y.
Proof. intros M T [Pm Pt]. split; rewrite ?M, ?T; assumption. Qed.

(** What awaits nothing and adds harmless timers at most leaves no
    [cleanup] pending. *)
Lemma pending_frame (s l : bool) (x y : World) :
  Frame s l x y -> nonePending cleansLater x -> nonePending cleansLater y.
Proof.
  intro F. apply (fr_tasks F). intros k Hk. now destruct k.
Qed.


(** A step that touches none of this. *)
Lemma same_keep (t : bool) (w x y : World) :
  lastSpokenMessage (svc y) = lastSpokenMessage (svc x) ->
  spoken (trace y) = spoken (trace x) ->
  onSpeechEndCallback (svc y) = onSpeechEndCallback (svc x) ->
  onRecognitionResultCallback (svc y)
  = onRecognitionResultCallback (svc x) ->
  onRecognitionErrorCallback (svc y)
  = onRecognitionErrorCallback (svc x) ->
  appCalls (trace y) = appCalls (trace x) ->
  timers y = timers x ->
  micro y = micro x ->
  silenceTimeout (svc y) = silenceTimeout (svc x) ->
  nextId x <= nextId y ->
  Same t w x -> Same t w y.
Proof.
  intros L S E R X C T M H N H1. eapply same_trans; [exact H1|].
  split; auto.
  - intros _. now apply pending_same.
  - now apply tracked_same.
Qed.

Lemma same_emit (t : bool) (o : Output) (w x : World) :
  quietOutput o = true -> Same t w x -> Same t w (emit o x).
Proof.
  intros Q. apply same_keep; world; auto.
  - destruct o; try reflexivity; discriminate Q.
  - unfold appCalls. cbn [filter].
    destruct o; try reflexivity; discriminate Q.
Qed.


(** A call to the application is made through a registered callback. *)
Lemma same_call (t : bool) (o : Output) (w x : World) :
  isTtsSpeak o = false -> ~ Detached x -> Same t w x ->
  Same t w (emit o x).
Proof.
  intros Q N H. eapply same_trans; [exact H|].
  split; world; auto.
  - intros _. destruct o; try reflexivity; discriminate Q.
  - intro D. contradiction.
  - intros [F D L]. split; world; auto.
Qed.

Lemma same_setSpeaking (t b : bool) (w x : World) :
  Same t w x -> Same t w (this (setSpeaking b) x).
Proof. apply same_keep; world; auto. Qed.

Lemma same_setListening (t b : bool) (w x : World) :
  Same t w x -> Same t w (this (setListening b) x).
Proof. apply same_keep; world; auto. Qed.

Lemma same_setQueue (t : bool) (q : SpeechService -> list SpeechRequest)
      (w x : World) :
  Same t w x -> Same t w (this (fun s => setQueue (q s) s) x).
Proof. apply same_keep; world; auto. Qed.

Lemma same_setQueue' (t : bool) (q : list SpeechRequest) (w x : World) :
  Same t w x -> Same t w (this (setQueue q) x).
Proof. apply same_keep; world; auto. Qed.

Lemma same_setRecognition (t b : bool) (w x : World) :
  Same t w x -> Same t w (this (setRecognition b) x).
Proof. apply same_keep; world; auto. Qed.

Lemma same_setSubscriptions (t b : bool) (w x : World) :
  Same t w x -> Same t w (this (setSubscriptions b) x).
Proof. apply same_keep; world; auto. Qed.

Lemma same_bump (t : bool) (w x : World) :
  Same t w x -> Same t w (bump x).
Proof. apply same_keep; world; auto. Qed.

Lemma same_withLive (t : bool) (l : list (UtteranceId * list PromiseId))
      (w x : World) :
  Same t w x -> Same t w (withLive l x).
Proof. apply same_keep; world; auto. Qed.

Lemma same_withNow (t : bool) (n : N) (w x : World) :
  Same t w x -> Same t w (withNow n x).
Proof. apply same_keep; world; auto. Qed.

Lemma same_withFault (t : bool) (f : option EngineError) (w x : World) :
  Same t w x -> Same t w (withFault f x).
Proof. apply same_keep; world; auto. Qed.

Lemma same_withMicro (ms : list Task) (w x : World) :
  Same true w x -> Same true w (withMicro ms x).
Proof.
  intro H. eapply same_trans; [exact H|].
  split; world; auto; try discriminate.
  intro T. apply tracked_same with (x := x); world; auto.
Qed.

Lemma same_await (t : bool) (k : Task) (w x : World) :
  ordinary k = true -> Same t w x -> Same t w (await k x).
Proof.
  intros K H. eapply same_trans; [exact H|].
  split; world; auto.
  - intros _. apply tasks_await. now destruct k.
  - intro T. apply tracked_same with (x := x); world; auto.
Qed.

Lemma same_cleanup_later (p : PromiseId) (w x : World) :
  Same true w x -> Same true w (await (CleanupRest p) x).
Proof. apply same_withMicro. Qed.

Lemma same_settle (t : bool) (o : Outcome) (ps : list PromiseId)
      (w x : World) :
  Same t w x -> Same t w (settle o ps x).
Proof.
  destruct (settle_frame o ps x) as (A & B & C & M & _ & F & _).
  apply same_keep; rewrite ?A, ?B, ?C, ?F; auto.
Qed.


Lemma same_tracked (t : bool) (x y : World) :
  lastSpokenMessage (svc y) = lastSpokenMessage (svc x) ->
  spoken (trace y) = spoken (trace x) ->
  onSpeechEndCallback (svc y) = onSpeechEndCallback (svc x) ->
  onRecognitionResultCallback (svc y)
  = onRecognitionResultCallback (svc x) ->
  onRecognitionErrorCallback (svc y)
  = onRecognitionErrorCallback (svc x) ->
  appCalls (trace y) = appCalls (trace x) ->
  (nonePending cleansLater x -> nonePending cleansLater y) ->
  (Tracked x -> Tracked y) ->
  Same t x y.
Proof. intros. split; auto. Qed.

Lemma same_setTimeout (t : bool) (k : Task) (d : N) (w x : World) :
  ordinary k = true ->
  Same t w x -> Same t w (setTimeout k d x).
Proof.
  intros K H. eapply same_trans; [exact H|].
  apply same_tracked; world; auto.
  - apply tasks_setTimeout. now destruct k.
  - apply tracked_setTimeout. now destruct k.
Qed.

Lemma same_clearTimeout (t : bool) (id : TimerId) (w x : World) :
  Same t w x -> Same t w (clearTimeout id x).
Proof.
  intros H. eapply same_trans; [exact H|].
  apply same_tracked; world; auto.
  - apply tasks_clearTimeout.
  - apply tracked_clearTimeout.
Qed.

Lemma same_clearSilence (t : bool) (w x : World) :
  Same t w x -> Same t w (clearSilence x).
Proof.
  intros H. eapply same_trans; [exact H|].
  apply same_tracked.
  1-6: unfold clearSilence; destruct (silenceTimeout (svc x)); reflexivity.
  - apply (@pending_frame false false).
    apply frame_clearSilence, frame_refl.
  - intro T. now apply tracked_clearSilence.
Qed.

Lemma same_armSilence (t : bool) (w x : World) :
  Same t w x -> Same t w (armSilence x).
Proof.
  intros H. eapply same_trans; [exact H|].
  apply same_tracked.
  1-6: unfold armSilence; cbv zeta; world;
       destruct (silenceTimeout (svc x)); reflexivity.
  - intros [Pm Pt]. unfold armSilence. cbv zeta. split; world.
    + now destruct (silenceTimeout (svc x)).
    + apply Forall_app. split; [|now repeat constructor].
      destruct (silenceTimeout (svc x)); world; [|exact Pt].
      now apply Forall_filter.
  - apply tracked_armSilence.
Qed.

Create HintDb sames.
#[local] Hint Resolve same_refl same_emit same_setSpeaking same_setListening
  same_setQueue same_setQueue' same_setRecognition same_setSubscriptions
  same_bump same_withLive same_withNow same_withFault same_withMicro
  same_await same_cleanup_later same_settle same_setTimeout
  same_clearTimeout same_clearSilence same_armSilence : sames.
#[local] Hint Extern 1 (_ = true) => reflexivity : sames.

Ltac sames := auto 40 with sames.

Lemma same_stopListening (t : bool) (w x : World) :
  Same t w x -> Same t w (stopListening x).
Proof.
  intro H. unfold stopListening. cbv zeta.
  destruct (currentRecognition (svc (clearSilence x))); sames.
Qed.

Lemma same_abortListening (t : bool) (w x : World) :
  Same t w x -> Same t w (abortListening x).
Proof.
  intro H. unfold abortListening. cbv zeta.
  destruct (currentRecognition (svc x)); sames.
Qed.

Lemma same_stopSpeaking (t : bool) (w x : World) :
  Same t w x -> Same t w (stopSpeaking x).
Proof.
  intro H. unfold stopSpeaking. cbv zeta.
  destruct (isSpeaking (svc x)); sames.
Qed.

Lemma same_notifySpeechEnd (t : bool) (w x : World) :
  Same t w x -> Same t w (notifySpeechEnd x).
Proof.
  intro H. unfold notifySpeechEnd.
  destruct (onSpeechEndCallback (svc x)) eqn:E; [|exact H].
  apply same_call; auto. intros (D & _). congruence.
Qed.

Lemma same_onError_call (t : bool) (e : Callback -> RecognitionError)
      (w x : World) :
  Same t w x ->
  Same t w match onRecognitionErrorCallback (svc x) with
           | Some cb => emit (RecognitionErrorCb cb (e cb)) x
           | None => x
           end.
Proof.
  intro H.
  destruct (onRecognitionErrorCallback (svc x)) eqn:E; [|exact H].
  apply same_call; auto. intros (_ & _ & D). congruence.
Qed.

#[local] Hint Resolve same_stopListening same_abortListening
  same_stopSpeaking same_notifySpeechEnd : sames.

(** [startListening] arms the silence timer before anything else. *)
Lemma listenStart_arms (o : Options) (p : PromiseId) (x : World) :
  exists k : World -> World,
    listenStart o p x = k (armSilence x)
    /\ forall (t : bool) (w y : World), Same t w y -> Same t w (k y).
Proof.
  exists (fun w =>
    let w := this (setSubscriptions false) w in
    let w := this (setSubscriptions true) w in
    match sttFault w with
    | None =>
        let w := emit (SttStart o) w in
        let w := this (setRecognition true) w in
        settle Resolved [p] w
    | Some startError =>
        let w := this (setSubscriptions false) w in
        let w := this (setListening false) w in
        let w := this (setListening false) w in
        let w :=
          match onRecognitionErrorCallback (svc w) with
          | Some cb =>
              emit (RecognitionErrorCb cb
                      {| type := Some (lit "unknown");
                         message :=
                           Some (orDefault (err_message startError)
                                           "Failed to start recognition") |})
                   w
          | None => w
          end in
        let w := this (setListening false) w in
        let w :=
          match onRecognitionErrorCallback (svc w) with
          | Some cb =>
              emit (RecognitionErrorCb cb
                      {| type := None;
                         message := err_message startError |})
                   w
          | None => w
          end in
        settle Resolved [p] w
    end).
  split; [reflexivity|].
  intros t w y H. cbv zeta.
  set (y1 := this (setSubscriptions true) (this (setSubscriptions false) y)).
  assert (H1 : Same t w y1) by (subst y1; sames).
  clearbody y1. destruct (sttFault y1) as [err|]; [|sames].
  apply same_settle.
  set (y2 := this (setListening false)
               (this (setListening false)
                  (this (setSubscriptions false) y1))).
  assert (H2 : Same t w y2) by (subst y2; sames).
  clearbody y2.
  pose proof (@same_onError_call t
    (fun _ => {| type := Some (lit "unknown");
                 message := Some (orDefault (err_message err)
                                    "Failed to start recognition") |})
    w y2 H2) as H3.
  cbv beta in H3.
  set (y3 := match onRecognitionErrorCallback (svc y2) with
             | Some cb => _ | None => y2 end) in *.
  clearbody y3.
  apply (@same_onError_call t
    (fun _ => {| type := None; message := err_message err |})).
  sames.
Qed.

Lemma same_listenStart (t : bool) (o : Options) (p : PromiseId)
      (w x : World) :
  Same t w x -> Same t w (listenStart o p x).
Proof.
  intro H. destruct (listenStart_arms o p x) as (k & -> & K).
  apply K. sames.
Qed.

#[local] Hint Resolve same_listenStart : sames.

Lemma same_listenTry (t : bool) (o : Options) (p : PromiseId)
      (w x : World) :
  Same t w x -> Same t w (listenTry o p x).
Proof.
  intro H. unfold listenTry. cbv zeta.
  destruct (currentRecognition (svc x)); sames.
Qed.

#[local] Hint Resolve same_listenTry : sames.

Lemma same_startListening (t : bool) (o : Options) (p : PromiseId)
      (w x : World) :
  Same t w x -> Same t w (startListening o p x).
Proof.
  intro H. unfold startListening. cbv zeta.
  destruct (isListening (svc x)); [sames|].
  destruct (isSpeaking (svc x)); sames.
Qed.

Lemma same_speakStart (m : jsstring) (o : Options) (ps : list PromiseId)
      (w x : World) :
  Same true w x -> Same true w (speakStart m o ps x).
Proof.
  intro H. unfold speakStart. cbv zeta. world.
  eapply same_trans; [exact H|].
  split; world; auto; try discriminate.
  intro T. apply tracked_same with (x := x); world; auto.
Qed.

#[local] Hint Resolve same_startListening same_speakStart : sames.

Lemma same_speakBody (m : jsstring) (o : Options) (ps : list PromiseId)
      (w x : World) :
  Same true w x -> Same true w (speakBody m o ps x).
Proof.
  intro H. unfold speakBody. cbv zeta.
  destruct (blank m); [sames|].
  destruct (isSpeaking (svc x)).
  - apply same_settle.
    apply (@same_setQueue true
             (fun s => speechQueue s ++ [{| text := m; options := o |}])).
    exact H.
  - destruct (isListening (svc x)); sames.
Qed.

#[local] Hint Resolve same_speakBody : sames.

Lemma same_postSpeech (ps : list PromiseId) (w x : World) :
  Same true w x -> Same true w (postSpeech ps x).
Proof.
  intro H. unfold postSpeech. cbv zeta.
  destruct (speechQueue (svc x)); sames.
Qed.

Lemma same_onResult (t : bool) (e : option SttEvent) (w x : World) :
  Same t w x -> Same t w (onResult e x).
Proof.
  intro H. unfold onResult. cbv zeta.
  set (y := clearSilence x). assert (Hy : Same t w y) by (subst y; sames).
  clearbody y. break; sames.
Qed.

Lemma same_onError (t : bool) (e : EngineError) (w x : World) :
  Same t w x -> Same t w (onError e x).
Proof.
  intro H. unfold onError. cbv zeta.
  apply (@same_onError_call t
    (fun _ => {| type := Some (orDefault (err_error e) "unknown");
                 message := Some (orDefault (err_message e)
                                    "Speech recognition error") |})).
  sames.
Qed.

Lemma same_onSilence (t : bool) (w x : World) :
  Same t w x -> Same t w (onSilence x).
Proof.
  intro H. unfold onSilence.
  destruct (isListening (svc x)); [|exact H].
  now apply (@same_onError_call t (fun _ => silence_timeout)).
Qed.

Lemma same_deliverResult (t : bool) (m : jsstring) (w x : World) :
  Same t w x -> Same t w (deliverResult m x).
Proof.
  intro H. unfold deliverResult.
  destruct (onRecognitionResultCallback (svc x)) eqn:E; [|exact H].
  apply same_call; auto. intros (_ & D & _). congruence.
Qed.

Lemma same_onDone (t : bool) (ps : list PromiseId) (w x : World) :
  Same t w x -> Same t w (onDone ps x).
Proof. intro H. unfold onDone. cbv zeta. sames. Qed.

Lemma same_onStopped (t : bool) (ps : list PromiseId) (w x : World) :
  Same t w x -> Same t w (onStopped ps x).
Proof. intro H. unfold onStopped. cbv zeta. sames. Qed.

Lemma same_onSpeakError (t : bool) (e : EngineError) (ps : list PromiseId)
      (w x : World) :
  Same t w x -> Same t w (onSpeakError e ps x).
Proof. intro H. unfold onSpeakError. cbv zeta. sames. Qed.

#[local] Hint Resolve same_postSpeech same_onResult same_onError
  same_onSilence same_deliverResult same_onDone same_onStopped
  same_onSpeakError : sames.

(** The continuation of [cleanup] drops the three callbacks at once. *)
Lemma same_cleanupRest (p : PromiseId) (w x : World) :
  Same true w x -> Same true w (cleanupRest p x).
Proof.
  intro H. unfold cleanupRest. cbv zeta. apply same_settle.
  eapply same_trans; [exact H|].
  split; world; auto; try discriminate.
  - left. repeat split.
  - intro T. apply tracked_same with (x := x); world; auto.
Qed.

Lemma same_runTask (k : Task) (w x : World) :
  Same true w x -> Same true w (runTask k x).
Proof.
  intro H. destruct k; cbn [runTask]; sames. now apply same_cleanupRest.
Qed.

#[local] Hint Resolve same_runTask : sames.

Lemma same_fold (ks : list Task) :
  forall w x : World,
    Same true w x ->
    Same true w (fold_left (fun w k => runTask k w) ks x).
Proof.
  induction ks as [|k ks IH]; intros w x H; cbn [fold_left]; [exact H|].
  apply IH. sames.
Qed.

Lemma same_drain (w x : World) : Same true w x -> Same true w (drain x).
Proof. intro H. unfold drain. apply same_fold. sames. Qed.

Lemma same_fire (w x : World) : Same true w x -> Same true w (fire x).
Proof.
  intro H. unfold fire. cbv zeta.
  destruct (earliest (timers x)); sames.
Qed.

Lemma same_ended (u : UtteranceId) (k : list PromiseId -> World -> World)
      (w x : World) :
  (forall ps y, Same true w y -> Same true w (k ps y)) ->
  Same true w x -> Same true w (ended u k x).
Proof.
  intros K H. unfold ended.
  destruct (find (fun e => fst e =? u) (live x)) as [[? ps]|]; [|exact H].
  cbv zeta. apply K. sames.
Qed.

Lemma same_heard (k : World -> World) (w x : World) :
  (forall y, Same true w y -> Same true w (k y)) ->
  Same true w x -> Same true w (heard k x).
Proof.
  intros K H. unfold heard.
  destruct (currentRecognitionSubscriptions (svc x)); auto.
Qed.

#[local] Hint Resolve same_drain same_fire : sames.

Lemma same_step (w : World) (e : Event) :
  registers e = false -> Same true w (step w e).
Proof.
  intro P. destruct e; try discriminate P; cbn [step]; sames.
  - unfold cleanup. cbv zeta. sames.
  - destruct (micro w); sames.
  - apply same_ended; sames.
  - apply same_ended; sames.
  - apply same_ended; sames.
  - apply same_heard; sames.
  - apply same_heard; sames.
Qed.


(** ** The callbacks of the application *)

Lemma calls_step (w : World) (e : Event) :
  registers e = false -> Detached w ->
  Detached (step w e) /\ appCalls (trace (step w e)) = appCalls (trace w).
Proof.
  intros R D. pose proof (@same_step w e R) as H.
  split; [now apply (same_detached H)|now apply (sm_calls H)].
Qed.

(** X14. While no callback is registered - before the first
    registration, or once the continuation of [cleanup] has dropped the
    three callbacks - the service never calls the application, whatever
    happens: calls to its methods, timers which were pending, late
    events of the engines. The callbacks stay unregistered until one is
    set again. *)
Theorem unregistered_callbacks_are_never_called
        (w : World) (es : list Event) :
  Detached w ->
  forallb (fun e => negb (registers e)) es = true ->
  Detached (run w es)
  /\ appCalls (trace (run w es)) = appCalls (trace w).
Proof.
  revert w. induction es as [|e es IH]; intros w D R.
  - now split.
  - change (run w (e :: es)) with (run (step w e) es).
    cbn [forallb] in R. apply andb_true_iff in R. destruct R as [Re Res].
    apply negb_true_iff in Re.
    destruct (@calls_step w e Re D) as [D1 C1].
    destruct (@IH (step w e) D1 Res) as [D2 C2].
    split; [exact D2|]. now rewrite C2.
Qed.

(** A final result is waiting for its 0 ms timer when [cleanup] is
    called: once the continuation of [cleanup] has run, the timer
    fires and the transcript is dropped. *)
Lemma unregistered_callbacks_are_never_called_witness :
  let heardNext :=
    {| results := None;
       own := {| transcript := Some (lit "next");
                 alt_text := None;
                 isFinal := Some true |} |} in
  let w := run boot [CallSetOnRecognitionResult (Some 7);
                     CallStartListening [];
                     SttResultEv (Some heardNext);
                     CallCleanup;
                     Microtask] in
  (Detached w /\ forallb (fun e => negb (registers e)) [Tick] = true)
  /\ map task (timers w) = [DeliverResult (lit "next")]
  /\ Detached (run w [Tick])
  /\ appCalls (trace (run w [Tick])) = appCalls (trace w).
Proof.
  cbv zeta.
  set (w := run boot _).
  assert (D : Detached w) by (repeat split).
  split; [split; [exact D|reflexivity]|].
  split; [reflexivity|].
  exact (@unregistered_callbacks_are_never_called w [Tick] D eq_refl).
Defined.

(** Between the call to [cleanup] and its continuation the callbacks
    are still registered: a [startListening] which the engine refuses
    in that interval reports to the error callback. *)
Lemma cleanup_drops_callbacks_late :
  let refused := {| err_error := None; err_message := None |} in
  let w := run boot [CallSetOnRecognitionError (Some 9);
                     EngineFault (Some refused);
                     CallCleanup] in
  onRecognitionErrorCallback (svc w) = Some 9
  /\ micro w = [CleanupRest 0]
  /\ length (appCalls (trace (step w (CallStartListening [])))) = 2
  /\ Detached (step (step w (CallStartListening [])) Microtask).
Proof. cbv zeta. repeat split. Qed.

(** ** The last spoken message *)

Lemma lastSpoken_speak (u : UtteranceId) (m : jsstring) (o : Options)
      (tr : list Output) :
  lastSpoken (TtsSpeak u m o :: tr) = Some m.
Proof.
  unfold lastSpoken. cbn [spoken]. rewrite map_app. cbn [map].
  apply last_last.
Qed.

Lemma remembers_same (w x : World) :
  Same false w x -> Remembers w -> Remembers x.
Proof.
  intros [L S P _ _ _] [R Q]. split; [|now apply P].
  unfold getLastSpokenMessage, lastSpoken in *. rewrite L, S; auto.
Qed.

Lemma remembers_speakStart (m : jsstring) (o : Options)
      (ps : list PromiseId) (x : World) :
  nonePending cleansLater x -> Remembers (speakStart m o ps x).
Proof.
  intro Q. split.
  - unfold getLastSpokenMessage, speakStart. cbv zeta. world.
    now rewrite lastSpoken_speak.
  - revert Q. now apply pending_same.
Qed.

Lemma remembers_speakBody (m : jsstring) (o : Options)
      (ps : list PromiseId) (x : World) :
  Remembers x -> Remembers (speakBody m o ps x).
Proof.
  intro R. unfold speakBody. cbv zeta.
  destruct (blank m).
  { apply remembers_same with (w := x); [sames|exact R]. }
  destruct (isSpeaking (svc x)).
  { apply remembers_same with (w := x); [|exact R].
    apply same_settle.
    apply (@same_setQueue false
             (fun s => speechQueue s ++ [{| text := m; options := o |}])).
    apply same_refl. }
  destruct (isListening (svc x)).
  { apply remembers_same with (w := x); [sames|exact R]. }
  apply remembers_speakStart, R.
Qed.

Lemma remembers_postSpeech (ps : list PromiseId) (x : World) :
  Remembers x -> Remembers (postSpeech ps x).
Proof.
  intro R. unfold postSpeech. cbv zeta.
  destruct (speechQueue (svc x)) as [|next q].
  - apply remembers_same with (w := x); [sames|exact R].
  - apply remembers_speakBody.
    apply remembers_same with (w := x); [sames|exact R].
Qed.

Lemma remembers_runTask (k : Task) (x : World) :
  cleansLater k = false -> Remembers x -> Remembers (runTask k x).
Proof.
  intros K R. destruct k; try discriminate K; cbn [runTask].
  - apply remembers_same with (w := x); [sames|exact R].
  - apply remembers_speakStart, R.
  - apply remembers_same with (w := x); [sames|exact R].
  - apply remembers_same with (w := x); [sames|exact R].
  - now apply remembers_postSpeech.
  - apply remembers_same with (w := x); [sames|exact R].
  - apply remembers_same with (w := x); [sames|exact R].
Qed.

(** Some of the pending microtasks are left to run. *)
Lemma remembers_withMicro (ks : list Task) (x : World) :
  Forall (fun k => negb (cleansLater k) = true) ks ->
  Remembers x -> Remembers (withMicro ks x).
Proof. intros K [R [_ Pt]]. now repeat split. Qed.

Lemma remembers_fold (ks : list Task) :
  Forall (fun k => negb (cleansLater k) = true) ks ->
  forall x : World,
    Remembers x -> Remembers (fold_left (fun w k => runTask k w) ks x).
Proof.
  induction 1 as [|k ks K Ks IH]; intros x R; cbn [fold_left]; [exact R|].
  apply IH. apply remembers_runTask; [|exact R].
  now apply negb_true_iff.
Qed.

Lemma remembers_drain (x : World) : Remembers x -> Remembers (drain x).
Proof.
  intro R. unfold drain. apply remembers_fold; [apply R|].
  apply remembers_withMicro; [constructor|exact R].
Qed.

Lemma remembers_fire (x : World) : Remembers x -> Remembers (fire x).
Proof.
  intro R. unfold fire. cbv zeta.
  destruct (earliest (timers x)) as [t|] eqn:E; [|exact R].
  apply remembers_runTask.
  - apply earliest_In in E. destruct R as [_ [_ Pt]].
    rewrite Forall_forall in Pt. apply negb_true_iff. now apply Pt.
  - apply remembers_same with (w := x); [sames|exact R].
Qed.

Lemma remembers_ended (u : UtteranceId)
      (k : list PromiseId -> World -> World) (x : World) :
  (forall t ps w y, Same t w y -> Same t w (k ps y)) ->
  Remembers x -> Remembers (ended u k x).
Proof.
  intros K R. unfold ended.
  destruct (find (fun e => fst e =? u) (live x)) as [[? ps]|]; [|exact R].
  cbv zeta. apply remembers_same with (w := x); [|exact R].
  apply K. sames.
Qed.

Lemma remembers_set (f : SpeechService -> SpeechService) (w : World) :
  (forall s, lastSpokenMessage (f s) = lastSpokenMessage s) ->
  Remembers w -> Remembers (this f w).
Proof.
  intros F [R Q]. split.
  - unfold getLastSpokenMessage in *. world. now rewrite F.
  - revert Q. now apply pending_same.
Qed.

Lemma remembers_step (w : World) (e : Event) :
  isCleanup e = false -> Remembers w -> Remembers (step w e).
Proof.
  intros C R. destruct e; try discriminate C; cbn [step];
    try (apply remembers_same with (w := w); [solve [sames]|exact R]);
    try (apply remembers_set; [reflexivity|exact R]).
  - apply remembers_speakBody.
    apply remembers_same with (w := w); [sames|exact R].
  - destruct (micro w) as [|k ks] eqn:M; [exact R|].
    destruct R as [R [Pm Pt]]. rewrite M in Pm.
    inversion Pm as [|? ? K Ks]; subst.
    apply remembers_runTask; [now apply negb_true_iff|].
    apply remembers_withMicro; [exact Ks|].
    split; [exact R|]. split; [rewrite M; exact Pm|exact Pt].
  - apply remembers_fire. now apply remembers_drain.
  - apply remembers_ended; [|now apply remembers_drain].
    intros. sames.
  - apply remembers_ended; [|now apply remembers_drain].
    intros. sames.
  - apply remembers_ended; [|now apply remembers_drain].
    intros. sames.
  - unfold heard. pose proof (@remembers_drain w R) as R'.
    destruct (currentRecognitionSubscriptions (svc (drain w)));
      [|exact R'].
    apply remembers_same with (w := drain w); [sames|exact R'].
  - unfold heard. pose proof (@remembers_drain w R) as R'.
    destruct (currentRecognitionSubscriptions (svc (drain w)));
      [|exact R'].
    apply remembers_same with (w := drain w); [sames|exact R'].
Qed.

(** X15. As long as [cleanup] is not called, [getLastSpokenMessage]
    returns the text most recently handed to the text-to-speech engine,
    and [null] when none was: a request which is still queued, or which
    was dropped because its text was blank, is not the last spoken
    message. *)
Theorem last_spoken_message_is_latest_utterance (es : list Event) :
  forallb (fun e => negb (isCleanup e)) es = true ->
  getLastSpokenMessage (run boot es) = lastSpoken (trace (run boot es)).
Proof.
  intro C. apply rm_last.
  assert (R : Remembers boot) by (repeat split; constructor).
  revert R C. generalize boot.
  induction es as [|e es IH]; intros w R C; [exact R|].
  change (run w (e :: es)) with (run (step w e) es).
  cbn [forallb] in C. apply andb_true_iff in C. destruct C as [Ce Ces].
  apply negb_true_iff in Ce.
  apply IH; [|exact Ces]. now apply remembers_step.
Qed.

(** The second request waits in the queue: the first is the last
    spoken message. *)
Lemma last_spoken_message_is_latest_utterance_witness :
  let es := [CallSpeak (lit "Question one") [];
             CallSpeak (lit "Question two") []] in
  forallb (fun e => negb (isCleanup e)) es = true
  /\ getLastSpokenMessage (run boot es)
     = lastSpoken (trace (run boot es)).
Proof.
  cbv zeta. split; [reflexivity|].
  exact (@last_spoken_message_is_latest_utterance
           [CallSpeak (lit "Question one") [];
            CallSpeak (lit "Question two") []] eq_refl).
Defined.

(** ** The silence timer *)

Lemma tracked_boot : Tracked boot.
Proof. split; cbn; constructor. Qed.

Lemma tracked_step (w : World) (e : Event) :
  Tracked w -> Tracked (step w e).
Proof.
  intro T. destruct (registers e) eqn:P.
  - destruct e; try discriminate P; cbn [step];
      apply tracked_same with (x := w); auto.
  - exact (sm_tracked (@same_step w e P) T).
Qed.

Lemma tracked_run (es : list Event) :
  forall w : World, Tracked w -> Tracked (run w es).
Proof.
  induction es as [|e es IH]; intros w T; [exact T|].
  change (run w (e :: es)) with (run (step w e) es).
  apply IH. now apply tracked_step.
Qed.

Lemma filter_same_tid (id : TimerId) (ts : list Timer) :
  NoDup (map tid ts) ->
  Forall (fun t => isSilenceTimer t = true -> tid t = id) ts ->
  length (filter isSilenceTimer ts) <= 1.
Proof.
  induction ts as [|t ts IH]; intros D F; cbn [filter length]; [lia|].
  inversion D as [|? ? Hn Hd]; subst.
  inversion F as [|? ? Ht Hts]; subst.
  destruct (isSilenceTimer t) eqn:E; [|now apply IH].
  cbn [length].
  destruct (filter isSilenceTimer ts) as [|u us] eqn:Fu; [cbn; lia|].
  exfalso. apply Hn.
  assert (Hu : In u (filter isSilenceTimer ts))
    by (rewrite Fu; now left).
  apply filter_In in Hu. destruct Hu as [Hin Hs].
  rewrite Forall_forall in Hts.
  rewrite (Ht eq_refl), <- (Hts u Hin Hs).
  now apply in_map.
Qed.

(** X16. However the service is driven, at most one silence
    timer is pending: [startListening] clears the timer of the previous
    session before it arms a new one. *)
Theorem at_most_one_silence_timer (es : list Event) :
  length (filter isSilenceTimer (timers (run boot es))) <= 1.
Proof.
  destruct (@tracked_run es boot tracked_boot) as [_ D L].
  destruct (silenceTimeout (svc (run boot es))) as [id|] eqn:S.
  - apply filter_same_tid with (id := id); [exact D|].
    eapply Forall_impl; [|exact L]. cbv beta. intros t H E.
    specialize (H E). congruence.
  - apply filter_same_tid with (id := 0); [exact D|].
    eapply Forall_impl; [|exact L]. cbv beta. intros t H E.
    specialize (H E). congruence.
Qed.


Lemma silent_stopListening (x : World) :
  Tracked x ->
  Forall (fun t => isSilenceTimer t = false) (timers (stopListening x)).
Proof.
  intro T. destruct (@tracked_clearSilence x T) as [_ C].
  unfold stopListening. cbv zeta.
  destruct (currentRecognition (svc (clearSilence x))); world; exact C.
Qed.

Lemma silent_abortListening (x : World) :
  Tracked x ->
  Forall (fun t => isSilenceTimer t = false) (timers (abortListening x)).
Proof.
  intro T. unfold abortListening. cbv zeta. world.
  destruct (currentRecognition (svc x)).
  - set (y := this (setRecognition false)
                (this (setSubscriptions false) (emit SttAbort x))).
    assert (Ty : Tracked y).
    { apply tracked_same with (x := x); subst y; world; auto. }
    now apply tracked_clearSilence.
  - now apply tracked_clearSilence.
Qed.

(** X17. Once [stopListening] or [abortListening] has returned, no
    silence timer is pending, however the service was driven before: a
    session that was stopped is never followed by a [silence_timeout]
    of its own timer. *)
Theorem stopping_cancels_silence_timer (es : list Event) (e : Event) :
  stops e = true ->
  filter isSilenceTimer (timers (step (run boot es) e)) = [].
Proof.
  intro S. pose proof (@tracked_run es boot tracked_boot) as T.
  set (w := run boot es) in *. clearbody w.
  assert (B : Tracked (bump w))
    by (apply tracked_same with (x := w); world; auto).
  assert (F : Forall (fun t => isSilenceTimer t = false)
                     (timers (step w e))).
  { destruct e; try discriminate S; cbn [step].
    - destruct (settle_frame Resolved [nextId w] (stopListening (bump w)))
        as (_ & _ & -> & _).
      now apply silent_stopListening.
    - destruct (settle_frame Resolved [nextId w] (abortListening (bump w)))
        as (_ & _ & -> & _).
      now apply silent_abortListening. }
  induction (timers (step w e)) as [|t ts IH]; [reflexivity|].
  inversion F as [|? ? Ht Hts]; subst. cbn [filter]. rewrite Ht.
  now apply IH.
Qed.

Lemma stopping_cancels_silence_timer_witness :
  stops CallStopListening = true
  /\ filter isSilenceTimer
            (timers (step (run boot [CallStartListening []])
                          CallStopListening)) = [].
Proof.
  split; [reflexivity|].
  exact (@stopping_cancels_silence_timer [CallStartListening []]
           CallStopListening eq_refl).
Defined.

(** The caller that waits, on the schedule of
    [waiting_caller_takes_turns]. *)
Lemma serialized_turns_never_overlap_witness :
  let es := [CallStartListening [];
             CallSpeak (lit "Question one") [];
             Microtask;
             Tick;
             CallStartListening [];
             Tick] in
  serialized boot es /\ turnState (run boot (firstn 4 es)) <> Both.
Proof.
  cbv zeta.
  set (es := [CallStartListening []; _; _; _; _; _]).
  assert (S : serialized boot es) by (apply serializedb_spec; reflexivity).
  split; [exact S|].
  exact (@serialized_turns_never_overlap es 4 S).
Defined.

End SpeechCallbacks.

(* ===================================================================== *)
(** * Grading *)
(* ===================================================================== *)

Section GradingFacts.
Import JsString Dialog Grading.



Lemma written_is_not_multiple_choice (q : Question) :
  isWritten q = true -> isMultipleChoice q = false.
Proof.
  unfold isWritten, isMultipleChoice. destruct (type q) as [t|]; [|easy].
  intro H. apply orb_true_iff in H.
  destruct H as [H|H]; apply eqb_spec in H; subst t; reflexivity.
Qed.



(** ** The answers that are graded *)

Lemma mapGet_mapSet (key value k : jsstring) (m : list (jsstring * jsstring)) :
  mapGet k (mapSet key value m)
  = if eqb key k then Some value else mapGet k m.
Proof.
  induction m as [|[k0 v0] m IH]; cbn [mapSet mapGet].
  - destruct (eqb key k); reflexivity.
  - destruct (eqb k0 key) eqn:E0; cbn [mapGet].
    + apply eqb_spec in E0. subst k0.
      destruct (eqb key k); reflexivity.
    + destruct (eqb k0 k) eqn:E1; [|exact IH].
      apply eqb_spec in E1. subst k0.
      destruct (eqb key k) eqn:E2; [|reflexivity].
      apply eqb_spec in E2. subst key.
      rewrite eqb_refl in E0. discriminate E0.
Qed.

(** The map holds, for a key, the last answer that bears it. *)
Lemma answerMap_last (answers : list Answer) (key : jsstring) :
  key <> [] ->
  forall m,
    mapGet key
      (fold_left (fun m a =>
                    match questionId a with
                    | _ :: _ => mapSet (questionId a) (answer a) m
                    | [] => m
                    end)
                 answers m)
    = match find (fun e => eqb (questionId e) key) (rev answers) with
      | Some e => Some (answer e)
      | None => mapGet key m
      end.
Proof.
  intro K. induction answers as [|a answers IH]; intro m;
    cbn [fold_left rev find]; [reflexivity|].
  rewrite IH. clear IH.
  assert (F : forall l,
             find (fun e => eqb (questionId e) key) (l ++ [a])
             = match find (fun e => eqb (questionId e) key) l with
               | Some e => Some e
               | None => if eqb (questionId a) key then Some a else None
               end).
  { induction l as [|x l IHl]; cbn [app find]; [reflexivity|].
    destruct (eqb (questionId x) key); [reflexivity|exact IHl]. }
  rewrite F.
  destruct (find (fun e => eqb (questionId e) key) (rev answers));
    [reflexivity|].
  destruct (eqb (questionId a) key) eqn:E.
  - apply eqb_spec in E.
    destruct (questionId a) as [|c r] eqn:Q; [congruence|].
    rewrite mapGet_mapSet. rewrite <- E. now rewrite eqb_refl.
  - destruct (questionId a) as [|c r] eqn:Q; [reflexivity|].
    rewrite mapGet_mapSet. now rewrite E.
Qed.

(** With one answer a question, the first and the last are the same. *)
Lemma find_rev_unique (answers : list Answer) (key : jsstring) :
  NoDup (map questionId answers) ->
  find (fun e => eqb (questionId e) key) (rev answers)
  = find (fun e => eqb (questionId e) key) answers.
Proof.
  induction answers as [|a answers IH]; intro D; [reflexivity|].
  inversion D as [|? ? Hn Hd]; subst. cbn [rev find].
  assert (F : forall l,
             find (fun e => eqb (questionId e) key) (l ++ [a])
             = match find (fun e => eqb (questionId e) key) l with
               | Some e => Some e
               | None => if eqb (questionId a) key then Some a else None
               end).
  { induction l as [|x l IHl]; cbn [app find]; [reflexivity|].
    destruct (eqb (questionId x) key); [reflexivity|exact IHl]. }
  rewrite F, (@IH Hd).
  destruct (eqb (questionId a) key) eqn:E.
  - apply eqb_spec in E.
    destruct (find (fun e => eqb (questionId e) key) answers) as [e|] eqn:Fe;
      [|reflexivity].
    exfalso. apply Hn. apply find_some in Fe. destruct Fe as [Hin He].
    apply eqb_spec in He. rewrite E, <- He. now apply in_map.
  - now destruct (find (fun e => eqb (questionId e) key) answers).
Qed.

(** The graded questions, one by question, in order. *)
Lemma gradeAll_graded (m : list (jsstring * jsstring))
      (questions : list Question) :
  forall (t : Tally) (index i : nat) (q : Question),
    nth_error questions i = Some q ->
    nth_error (t_graded (gradeAll m t index questions))
              (length (t_graded t) + i)
    = Some {| gq_questionId := keyOf q (index + i);
              gq_questionText := orEmpty (orElse (question q) (text q));
              gq_questionType := type q;
              gq_studentAnswer := orEmpty (mapGet (keyOf q (index + i)) m);
              gq_grade :=
                gradeQuestion (Some q) (mapGet (keyOf q (index + i)) m) |}.
Proof.
  induction questions as [|q0 questions IH]; intros t index i q H.
  - now destruct i.
  - cbn [gradeAll].
    assert (L : t_graded (gradeOne m t q0 index)
                = t_graded t
                  ++ [{| gq_questionId := keyOf q0 index;
                         gq_questionText :=
                           orEmpty (orElse (question q0) (text q0));
                         gq_questionType := type q0;
                         gq_studentAnswer :=
                           orEmpty (mapGet (keyOf q0 index) m);
                         gq_grade :=
                           gradeQuestion (Some q0)
                                         (mapGet (keyOf q0 index) m) |}]).
    { unfold gradeOne. cbv zeta.
      destruct (isMultipleChoice q0); [reflexivity|].
      destruct (isWritten q0); reflexivity. }
    destruct i as [|i].
    + cbn [nth_error] in H. inversion H; subst q0. clear H.
      rewrite !Nat.add_0_r.
      assert (P : forall qs t' idx,
                 length (t_graded t) < length (t_graded t') ->
                 nth_error (t_graded (gradeAll m t' idx qs))
                           (length (t_graded t))
                 = nth_error (t_graded t') (length (t_graded t))).
      { clear. induction qs as [|q1 qs IHq]; intros t' idx Hl;
          [reflexivity|].
        cbn [gradeAll]. rewrite IHq.
        - unfold gradeOne. cbv zeta.
          destruct (isMultipleChoice q1);
            [|destruct (isWritten q1)]; cbn [t_graded];
            now rewrite nth_error_app1.
        - unfold gradeOne. cbv zeta.
          destruct (isMultipleChoice q1);
            [|destruct (isWritten q1)]; cbn [t_graded];
            rewrite length_app; lia. }
      rewrite P by (rewrite L, length_app; cbn [length]; lia).
      rewrite L, nth_error_app2 by lia.
      now rewrite Nat.sub_diag.
    + cbn [nth_error] in H.
      specialize (IH (gradeOne m t q0 index) (S index) i q H).
      rewrite L, length_app in IH. cbn [length] in IH.
      replace (length (t_graded t) + S i)
        with (length (t_graded t) + 1 + i) by lia.
      replace (index + S i) with (S index + i) by lia.
      exact IH.
Qed.

Lemma keyOf_nonempty (q : Question) (index : nat) : keyOf q index <> [].
Proof.
  unfold keyOf. destruct (id q) as [[|c r]|]; discriminate.
Qed.

Lemma gradeExam_graded (questions : list Question) (answers : list Answer)
      (i : nat) (q : Question) :
  nth_error questions i = Some q ->
  nth_error (gradedQuestions (gradeExam questions answers)) i
  = Some {| gq_questionId := keyOf q i;
            gq_questionText := orEmpty (orElse (question q) (text q));
            gq_questionType := type q;
            gq_studentAnswer :=
              orEmpty (mapGet (keyOf q i) (answerMap answers));
            gq_grade :=
              gradeQuestion (Some q)
                            (mapGet (keyOf q i) (answerMap answers)) |}.
Proof.
  intro H. unfold gradeExam. cbv zeta. cbn [gradedQuestions].
  exact (@gradeAll_graded (answerMap answers) questions
           {| t_graded := [];
              t_multipleChoiceCorrect := 0;
              t_multipleChoiceTotal := 0;
              t_writtenQuestionsTotal := 0;
              t_gradedWrittenQuestions := 0;
              t_totalPossible := 0 |} 0 i q H).
Qed.

Lemma answerMap_get (answers : list Answer) (key : jsstring) :
  key <> [] ->
  mapGet key (answerMap answers)
  = option_map answer
      (find (fun e => eqb (questionId e) key) (rev answers)).
Proof.
  intro K. unfold answerMap. rewrite (@answerMap_last answers key K []).
  now destruct (find (fun e => eqb (questionId e) key) (rev answers)).
Qed.

(** X19. [gradeExam] after the exam screen: when the recorded
    answers hold one answer a question, the answer graded for the
    question on the screen is the one [getCurrentAnswer] shows for it,
    and the empty text when there is none. *)
Theorem graded_answer_is_current_answer
        (p : ExamPage.Page) (q : ExamPage.Question)
        (questions : list Question) (i : nat) (stored : Question) :
  ExamPageMoreProps.OneAnswerEach p ->
  ExamPage.currentQuestion p = Some q ->
  nth_error questions i = Some stored ->
  id stored = Some (ExamPage.id q) ->
  ExamPage.id q <> [] ->
  exists g,
    nth_error (gradedQuestions (gradeExam questions (ExamPage.answersRef p)))
              i = Some g
    /\ gq_studentAnswer g = ExamPage.getCurrentAnswer p
    /\ (ExamPage.getCurrentAnswer p <> [] ->
        gq_grade g
        = gradeQuestion (Some stored)
                        (Some (ExamPage.getCurrentAnswer p))).
Proof.
  intros D C N I K.
  eexists. split; [exact (@gradeExam_graded _ _ _ _ N)|].
  cbn [gq_studentAnswer gq_grade].
  assert (Hk : keyOf stored i = ExamPage.id q).
  { unfold keyOf. rewrite I. destruct (ExamPage.id q); congruence. }
  rewrite Hk, (@answerMap_get _ _ K), (@find_rev_unique _ _ D).
  unfold ExamPage.getCurrentAnswer. rewrite C.
  destruct (find (fun e => eqb (questionId e) (ExamPage.id q))
                 (ExamPage.answersRef p)) as [e|];
    cbn [option_map orEmpty]; split; congruence.
Qed.

Lemma graded_answer_is_current_answer_witness :
  let p := ExamPage.saveAnswer (lit " four ")
             (ExamPage.setCurrentQuestionIndex
                1 ExamPageProps.awaitingPage) in
  let stored :=
    {| id := Some (lit "q2");
       question := Some (lit "Two plus two?");
       text := None;
       type := Some (lit "written");
       options := None;
       correctIndex := Undefined;
       correctAnswer := None;
       expectedAnswer := Some (lit "four") |} in
  exists g,
    nth_error (gradedQuestions (gradeExam [stored] (ExamPage.answersRef p)))
              0 = Some g
    /\ gq_studentAnswer g = ExamPage.getCurrentAnswer p
    /\ (ExamPage.getCurrentAnswer p <> [] ->
        gq_grade g
        = gradeQuestion (Some stored)
                        (Some (ExamPage.getCurrentAnswer p))).
Proof.
  cbv zeta.
  match goal with
  | |- context [gradeExam [?x] (ExamPage.answersRef ?y)] =>
      set (stored := x); set (p := y)
  end.
  assert (D : ExamPageMoreProps.OneAnswerEach p)
    by (repeat constructor; cbn; tauto).
  refine (@graded_answer_is_current_answer
            p _ [stored] 0 stored D eq_refl eq_refl eq_refl _).
  discriminate.
Defined.

Lemma find_in (answers : list Answer) (key : jsstring) (e : Answer) :
  In e answers -> questionId e = key ->
  find (fun e => eqb (questionId e) key) answers <> None.
Proof.
  intros H Q F. apply (find_none _ _ F) in H.
  rewrite Q, eqb_refl in H. discriminate H.
Qed.

(** X20. A written question without expected answer that the
    student has answered is marked by [gradeExam] as requiring manual
    grading and not graded; still the summary counts no question as
    pending and [submitExam] stores the submission as graded. *)
Theorem manual_grading_is_never_pending
        (questions : list Question) (answers : list Answer)
        (i : nat) (q : Question) (e : Answer) :
  nth_error questions i = Some q ->
  isWritten q = true ->
  truthy (orElse (expectedAnswer q) (correctAnswer q)) = false ->
  In e answers ->
  questionId e = keyOf q i ->
  let r := gradeExam questions answers in
  exists g,
    nth_error (gradedQuestions r) i = Some g
    /\ requiresManualGrading (gq_grade g) = true
    /\ graded (gq_grade g) = false
    /\ pendingManualGrading (summary r) = 0
    /\ ExamService.statusOf (Some r) = "graded"%string.
Proof.
  intros N W T H Q. cbv zeta.
  eexists. split; [exact (@gradeExam_graded _ _ _ _ N)|].
  cbn [gq_grade].
  rewrite (@answerMap_get answers (keyOf q i) (@keyOf_nonempty q i)).
  assert (F : find (fun e => eqb (questionId e) (keyOf q i)) (rev answers)
              <> None).
  { apply find_in with (e := e); [now apply in_rev in H|exact Q]. }
  destruct (find (fun e => eqb (questionId e) (keyOf q i)) (rev answers))
    as [e'|]; [|congruence].
  cbn [option_map]. unfold gradeQuestion.
  rewrite (@written_is_not_multiple_choice q W), W.
  unfold gradeWritten.
  destruct (orElse (expectedAnswer q) (correctAnswer q)) as [[|c r]|];
    try discriminate T; repeat split.
Qed.

Lemma manual_grading_is_never_pending_witness :
  let q := {| id := Some (lit "q1");
              question := Some (lit "Describe the water cycle.");
              text := None;
              type := Some (lit "written");
              options := None;
              correctIndex := Undefined;
              correctAnswer := None;
              expectedAnswer := None |} in
  let e := {| questionId := lit "q1"; answer := lit "Rain and rivers" |} in
  let r := gradeExam [q] [e] in
  exists g,
    nth_error (gradedQuestions r) 0 = Some g
    /\ requiresManualGrading (gq_grade g) = true
    /\ graded (gq_grade g) = false
    /\ pendingManualGrading (summary r) = 0
    /\ ExamService.statusOf (Some r) = "graded"%string.
Proof.
  cbv zeta.
  match goal with
  | |- context [gradeExam [?x] [?y]] => set (q := x); set (e := y)
  end.
  refine (@manual_grading_is_never_pending
            [q] [e] 0 q e eq_refl eq_refl eq_refl _ eq_refl).
  now left.
Defined.

End GradingFacts.

(* ===================================================================== *)
(** * The exam service *)
(* ===================================================================== *)

Section ExamServiceFacts.
Import JsString Dialog Grading ExamService ExamServiceProps.

(** ** Shuffling *)

(** Writing [v] over [y] trades one for the other. *)
Lemma assign_trade (A : Type) (v y : A) (array : list A) :
  forall j, nth_error array j = Some y ->
            Permutation (y :: assign j v array) (v :: array).
Proof.
  induction array as [|a array IH]; intros [|j] H; try discriminate H.
  - cbn in H. inversion H; subst. cbn [assign]. apply perm_swap.
  - cbn [nth_error] in H. cbn [assign].
    eapply perm_trans; [apply perm_swap|].
    eapply perm_trans; [apply perm_skip, (IH j H)|].
    apply perm_swap.
Qed.

Lemma swap_inside (A : Type) (array : list A) :
  forall i j,
    i < length array -> j < length array ->
    exists swapped,
      swap i j array = Some swapped /\ Permutation swapped array.
Proof.
  intros i j Hi Hj. unfold swap.
  destruct (nth_error array i) as [x|] eqn:Ei;
    [|apply nth_error_None in Ei; lia].
  destruct (nth_error array j) as [y|] eqn:Ej;
    [|apply nth_error_None in Ej; lia].
  eexists. split; [reflexivity|]. clear Hi Hj.
  revert i j Ei Ej.
  induction array as [|a array IH]; intros [|i] [|j] Ei Ej;
    try discriminate Ei; try discriminate Ej; cbn [nth_error] in *.
  - inversion Ei; inversion Ej; subst. reflexivity.
  - inversion Ei; subst. cbn [assign]. now apply assign_trade.
  - inversion Ej; subst. cbn [assign]. now apply assign_trade.
  - cbn [assign]. apply perm_skip. now apply IH.
Qed.

Lemma shuffleFrom_lawful (A : Type) (random : Random) :
  lawful random ->
  forall (i k : nat) (shuffled : list A),
    i < length shuffled \/ i = 0 ->
    exists result,
      shuffleFrom random k i shuffled = Some (result, k + i)
      /\ Permutation result shuffled.
Proof.
  intros R. induction i as [|i IH]; intros k shuffled Hi;
    cbn [shuffleFrom].
  - exists shuffled. rewrite Nat.add_0_r. now split.
  - destruct Hi as [Hi|Hi]; [|discriminate Hi].
    assert (Hj : random k (S i + 1) < length shuffled).
    { specialize (R k (S i + 1)). lia. }
    destruct (@swap_inside A shuffled (S i) (random k (S i + 1)) Hi Hj)
      as (swapped & -> & P).
    destruct (IH (S k) swapped) as (result & E & P').
    { left. rewrite (Permutation_length P). lia. }
    exists result. split.
    + rewrite E. f_equal. f_equal. lia.
    + now apply perm_trans with (l' := swapped).
Qed.

Lemma shuffleArray_lawful_aux (random : Random) (k : nat)
      (array : list jsstring) :
  lawful random ->
  exists shuffled,
    shuffleArray random k array = Some (shuffled, k + (length array - 1))
    /\ Permutation shuffled array.
Proof.
  intro R. unfold shuffleArray. apply shuffleFrom_lawful; [exact R|].
  destruct array; cbn [length]; lia.
Qed.

(** X21. [shuffleArray] returns its argument in another order:
    no element is lost, added or repeated, whatever [Math.random]
    yields within its range; it calls [Math.random] once for every
    element but the first. *)
Theorem shuffleArray_is_a_permutation
        (A : Type) (random : Random) (k : nat) (array : list A) :
  lawful random ->
  exists shuffled,
    shuffleArray random k array = Some (shuffled, k + (length array - 1))
    /\ Permutation shuffled array.
Proof.
  intro R. unfold shuffleArray. apply shuffleFrom_lawful; [exact R|].
  destruct array; cbn [length]; lia.
Qed.

Lemma lawful_sampleRandom : lawful sampleRandom.
Proof.
  intros k n Hn. unfold sampleRandom. apply Nat.mod_upper_bound. lia.
Qed.

Lemma shuffleArray_is_a_permutation_witness :
  lawful sampleRandom
  /\ exists shuffled,
       shuffleArray sampleRandom 0 [lit "A"; lit "B"; lit "C"; lit "D"]
       = Some (shuffled, 3)
       /\ Permutation shuffled [lit "A"; lit "B"; lit "C"; lit "D"].
Proof.
  split; [exact lawful_sampleRandom|].
  exact (@shuffleArray_is_a_permutation
           jsstring sampleRandom 0 [lit "A"; lit "B"; lit "C"; lit "D"]
           lawful_sampleRandom).
Defined.

(** ** The correct answer of a shuffled question *)

Lemma indexOf_found (value : jsstring) (array : list jsstring) :
  In value array ->
  exists n, indexOf value array = Z.of_nat n
            /\ nth_error array n = Some value.
Proof.
  induction array as [|a array IH]; intro H; [destruct H|].
  cbn [indexOf]. destruct (eqb a value) eqn:E.
  - apply eqb_spec in E. subst a. now exists 0.
  - destruct H as [H|H].
    + subst a. rewrite eqb_refl in E. discriminate E.
    + destruct (IH H) as (n & -> & Hn). exists (S n).
      replace (Z.of_nat n <? 0)%Z with false
        by (symmetry; apply Z.ltb_ge; lia).
      split; [lia|exact Hn].
Qed.

Lemma at_of_nat (A : Type) (array : list A) (n : nat) :
  at_ array (Num (Z.of_nat n)) = nth_error array n.
Proof.
  unfold at_.
  replace (Z.of_nat n <? 0)%Z with false
    by (symmetry; apply Z.ltb_ge; lia).
  now rewrite Nat2Z.id.
Qed.

Lemma at_In (A : Type) (array : list A) (index : Index) (a : A) :
  at_ array index = Some a -> In a array.
Proof.
  unfold at_. destruct index as [| |z]; try discriminate.
  destruct (z <? 0)%Z; [discriminate|]. apply nth_error_In.
Qed.

(** What [shuffleOptionsOf] returns for a multiple-choice question
    whose index marks an option. *)
Lemma shuffleOptionsOf_keyed (random : Random) (k : nat) (q : Question)
      (opts : list jsstring) (a : jsstring) :
  lawful random ->
  isMultipleChoice q = true ->
  options q = Some opts ->
  at_ opts (correctIndex q) = Some a ->
  exists shuffled n,
    shuffleOptionsOf random k q
    = Some ({| id := id q;
               question := question q;
               text := text q;
               type := type q;
               options := Some shuffled;
               correctIndex := Num (Z.of_nat n);
               correctAnswer := Some a;
               expectedAnswer := expectedAnswer q |},
            k + (length opts - 1))
    /\ Permutation shuffled opts
    /\ nth_error shuffled n = Some a.
Proof.
  intros R M O K. unfold shuffleOptionsOf. rewrite M, O.
  destruct (@shuffleArray_lawful_aux random k opts R)
    as (shuffled & -> & P).
  assert (T : match correctIndex q with
              | Undefined => correctAnswer q
              | index => at_ opts index
              end = Some a).
  { destruct (correctIndex q); [discriminate K|exact K|exact K]. }
  rewrite T.
  assert (Hin : In a shuffled).
  { apply (Permutation_in a (Permutation_sym P)).
    now apply at_In with (index := correctIndex q). }
  destruct (indexOf_found a shuffled Hin) as (n & -> & Hn).
  exists shuffled, n. now repeat split.
Qed.

(** X22. Shuffling the options of a multiple-choice question keeps
    its correct answer: the options are the same in another order, the
    new index points to the text that the old index pointed to, and
    [gradeQuestion] on the shuffled question accepts exactly the
    answers equal to that text up to surrounding white space. *)
Theorem shuffled_options_keep_correct_answer
        (random : Random) (k : nat) (q : Question)
        (opts : list jsstring) (a : jsstring) :
  lawful random ->
  isMultipleChoice q = true ->
  options q = Some opts ->
  at_ opts (correctIndex q) = Some a ->
  a <> [] ->
  exists q' k' opts',
    shuffleOptionsOf random k q = Some (q', k')
    /\ options q' = Some opts'
    /\ Permutation opts' opts
    /\ at_ opts' (correctIndex q') = Some a
    /\ forall studentAnswer,
         isCorrect (gradeQuestion (Some q') (Some studentAnswer))
         = Some (eqb (trim studentAnswer) (trim a)).
Proof.
  intros R M O K N.
  destruct (@shuffleOptionsOf_keyed random k q opts a R M O K)
    as (shuffled & n & E & P & Hn).
  eexists. eexists. exists shuffled.
  split; [exact E|].
  cbn [options correctIndex]. rewrite at_of_nat.
  repeat split; auto.
  intro studentAnswer. unfold gradeQuestion.
  change (isMultipleChoice _) with (isMultipleChoice q). rewrite M.
  unfold gradeMultipleChoice. cbn [correctAnswer].
  destruct a as [|c r]; [congruence|]. reflexivity.
Qed.

Lemma shuffled_options_keep_correct_answer_witness :
  let q := {| id := Some (lit "q1");
              question := Some (lit "Two plus two?");
              text := None;
              type := Some (lit "multiple-choice");
              options := Some [lit "3"; lit "4"; lit "5"; lit "22"];
              correctIndex := Num 1;
              correctAnswer := None;
              expectedAnswer := None |} in
  exists q' k' opts',
    shuffleOptionsOf sampleRandom 0 q = Some (q', k')
    /\ options q' = Some opts'
    /\ Permutation opts' [lit "3"; lit "4"; lit "5"; lit "22"]
    /\ at_ opts' (correctIndex q') = Some (lit "4")
    /\ forall studentAnswer,
         isCorrect (gradeQuestion (Some q') (Some studentAnswer))
         = Some (eqb (trim studentAnswer) (trim (lit "4"))).
Proof.
  cbv zeta.
  match goal with
  | |- context [shuffleOptionsOf _ _ ?x] => set (q := x)
  end.
  refine (@shuffled_options_keep_correct_answer
            sampleRandom 0 q [lit "3"; lit "4"; lit "5"; lit "22"]
            (lit "4") lawful_sampleRandom eq_refl eq_refl eq_refl _).
  discriminate.
Defined.

(** ** The questions of a randomized exam *)

Lemma rearranged_refl (q : Question) : Rearranged q q.
Proof.
  split; auto. destruct (options q); [reflexivity|exact I].
Qed.

Lemma shuffleOptionsOf_rearranged (random : Random) (k : nat)
      (q : Question) :
  lawful random ->
  exists q' k',
    shuffleOptionsOf random k q = Some (q', k') /\ Rearranged q q'.
Proof.
  intro R. unfold shuffleOptionsOf.
  destruct (isMultipleChoice q) eqn:M.
  2:{ exists q, k. split; [reflexivity|apply rearranged_refl]. }
  destruct (options q) as [opts|] eqn:O.
  2:{ exists q, k. split; [reflexivity|apply rearranged_refl]. }
  destruct (@shuffleArray_lawful_aux random k opts R)
    as (shuffled & E & P).
  rewrite E. eexists. eexists. split; [reflexivity|].
  split; cbn [id question text type expectedAnswer options]; auto.
  - now rewrite O.
  - intros a Ka. unfold keyed in *. rewrite O in Ka.
    cbn [options correctIndex].
    assert (T : match correctIndex q with
                | Undefined => correctAnswer q
                | index => at_ opts index
                end = Some a).
    { destruct (correctIndex q); [discriminate Ka|exact Ka|exact Ka]. }
    rewrite T.
    assert (Hin : In a shuffled).
    { apply (Permutation_in a (Permutation_sym P)).
      now apply at_In with (index := correctIndex q). }
    destruct (indexOf_found a shuffled Hin) as (n & -> & Hn).
    now rewrite at_of_nat.
Qed.

Lemma shuffleAllOptions_rearranged (random : Random) :
  lawful random ->
  forall (qs : list Question) (k : nat),
    exists result k',
      shuffleAllOptions random k qs = Some (result, k')
      /\ Forall2 Rearranged qs result.
Proof.
  intro R. induction qs as [|q qs IH]; intro k;
    cbn [shuffleAllOptions].
  - exists [], k. split; [reflexivity|constructor].
  - destruct (@shuffleOptionsOf_rearranged random k q R)
      as (q' & k' & -> & Hq).
    destruct (IH k') as (rest & k'' & -> & Hr).
    exists (q' :: rest), k''. split; [reflexivity|now constructor].
Qed.

Lemma Forall2_refl (A : Type) (P : A -> A -> Prop) (l : list A) :
  (forall a, P a a) -> Forall2 P l l.
Proof. intro H. induction l; constructor; auto. Qed.

Lemma shuffleQuestions_lawful (random : Random) (k : nat)
      (qs : list Question) :
  lawful random ->
  exists shuffled,
    shuffleArray random k qs = Some (shuffled, k + (length qs - 1))
    /\ Permutation shuffled qs.
Proof.
  intro R. unfold shuffleArray. apply shuffleFrom_lawful; [exact R|].
  destruct qs; cbn [length]; lia.
Qed.

(** X23. [getExamWithRandomization] asks the questions of the
    exam, each once: they are the stored questions in some order, each
    with the same identifier, text, type and expected answer, with the
    same options in some order and, where the index marked an option
    as correct, with an index that marks the same text. *)
Theorem randomization_keeps_the_questions
        (D : Type) (random : Random) (exam : Exam D) :
  lawful random ->
  exists r ordered,
    getExamWithRandomization random exam = Some r
    /\ Permutation ordered
                   (match questions exam with
                    | Some qs => qs
                    | None => []
                    end)
    /\ Forall2 Rearranged ordered (asked r)
    /\ wasShuffled r = shuffleQuestions exam || shuffleOptions exam.
Proof.
  intro R. unfold getExamWithRandomization. cbv zeta.
  set (qs := match questions exam with Some qs => qs | None => [] end).
  assert (S1 : exists ordered k,
             (if shuffleQuestions exam then shuffleArray random 0 qs
              else Some (qs, 0)) = Some (ordered, k)
             /\ Permutation ordered qs).
  { destruct (shuffleQuestions exam).
    - destruct (@shuffleQuestions_lawful random 0 qs R) as (l & E & P).
      eexists. eexists. split; [exact E|exact P].
    - exists qs, 0. now split. }
  destruct S1 as (ordered & k & -> & P).
  assert (S2 : exists result k',
             (if shuffleOptions exam
              then shuffleAllOptions random k ordered
              else Some (ordered, k)) = Some (result, k')
             /\ Forall2 Rearranged ordered result).
  { destruct (shuffleOptions exam).
    - now apply shuffleAllOptions_rearranged.
    - exists ordered, k. split; [reflexivity|].
      apply Forall2_refl, rearranged_refl. }
  destruct S2 as (result & k' & -> & F).
  eexists. exists ordered. split; [reflexivity|].
  cbn [asked wasShuffled]. now repeat split.
Qed.

Lemma randomization_keeps_the_questions_witness :
  let q1 := {| id := Some (lit "q1");
               question := Some (lit "Two plus two?");
               text := None;
               type := Some (lit "multiple-choice");
               options := Some [lit "3"; lit "4"; lit "5"; lit "22"];
               correctIndex := Num 1;
               correctAnswer := None;
               expectedAnswer := None |} in
  let q2 := {| id := Some (lit "q2");
               question := Some (lit "Name the largest planet.");
               text := None;
               type := Some (lit "written");
               options := None;
               correctIndex := Undefined;
               correctAnswer := None;
               expectedAnswer := Some (lit "Jupiter") |} in
  let exam := {| maxAttempts := Some (ofCount 2);
                 questions := Some [q1; q2];
                 shuffleQuestions := true;
                 shuffleOptions := true;
                 details := tt |} in
  lawful sampleRandom
  /\ exists r ordered,
       getExamWithRandomization sampleRandom exam = Some r
       /\ Permutation ordered [q1; q2]
       /\ Forall2 Rearranged ordered (asked r)
       /\ wasShuffled r = true.
Proof.
  cbv zeta. split; [exact lawful_sampleRandom|].
  match goal with
  | |- context [getExamWithRandomization _ ?x] => set (exam := x)
  end.
  exact (@randomization_keeps_the_questions
           unit sampleRandom exam lawful_sampleRandom).
Defined.

(** ** Attempts *)

Lemma lessThan_spec (a b : Q) : lessThan a b = true <-> (a < b)%Q.
Proof.
  unfold lessThan. rewrite negb_true_iff.
  destruct (Qle_bool b a) eqn:E.
  - apply Qle_bool_iff in E. split; [discriminate|]. intro H. lra.
  - split; [intros _|reflexivity].
    destruct (Qlt_le_dec a b) as [H|H]; [exact H|].
    apply Qle_bool_iff in H. congruence.
Qed.

(** A whole limit gives at least one attempt. *)
Lemma maxAttemptsOr1_whole (m : option Q) :
  wholeLimit m ->
  exists z, (1 <= z)%Z /\ (maxAttemptsOr1 m == inject_Z z)%Q.
Proof.
  destruct m as [q|]; cbn [wholeLimit maxAttemptsOr1].
  2:{ intros _. exists 1%Z. split; [lia|reflexivity]. }
  intros (z & [Hz _] & Hq). destruct (Qeq_bool q 0) eqn:E.
  - exists 1%Z. split; [lia|reflexivity].
  - exists z. split; [|exact Hq].
    destruct (Z.eq_dec z 0) as [->|N]; [|lia].
    apply Qeq_bool_neq in E. contradiction.
Qed.

(** X24. When the attempt limit of the exam is absent or a whole
    number up to [Number.MAX_SAFE_INTEGER], what [canAttemptExam]
    returns adds up, whether the exam and the attempts could be read
    or not: at least one attempt is allowed; when the student may attempt, the attempts used and the
    remaining ones make the allowed ones and at least one remains;
    otherwise none remains; the student is told that the attempt is the
    last one exactly when one remains. The two failures go opposite
    ways: when the exam cannot be read, the student may not attempt
    it; when the exam is read but the attempts cannot be counted, the
    failure counts as no attempt used and the student may attempt the
    exam, however many attempts were used. *)
Theorem canAttemptExam_adds_up
        (D : Type) (toText : Q -> jsstring)
        (exam : option (Exam D)) (size : option nat) :
  (forall e, exam = Some e -> wholeLimit (maxAttempts e)) ->
  let r := canAttemptExam toText exam size in
  (1 <= eligibleFor r)%Q
  /\ (canAttempt r = true ->
      (ofCount (attemptsUsed r) + remaining r == eligibleFor r)%Q
      /\ (1 <= remaining r)%Q)
  /\ (canAttempt r = false -> remaining r = 0%Q)
  /\ (message r = lit "This is your last attempt."
      <-> canAttempt r = true /\ (remaining r == 1)%Q)
  /\ (exam = None -> canAttempt r = false)
  /\ (exam <> None -> size = None ->
      canAttempt r = true /\ attemptsUsed r = 0).
Proof.
  intro W. cbv zeta. destruct exam as [exam|]; cbn [canAttemptExam].
  2:{ cbn [canAttempt attemptsUsed eligibleFor remaining message].
      split; [apply Qle_refl|]. split; [discriminate|].
      split; [reflexivity|]. split.
      - split; [discriminate|]. intros [H _]. discriminate H.
      - split; [reflexivity|]. congruence. }
  cbv zeta. cbn [canAttempt attemptsUsed eligibleFor remaining message].
  destruct (@maxAttemptsOr1_whole _ (W exam eq_refl)) as (z & Hz & Hm).
  assert (F : size = None -> getAttemptCount size = 0) by now intros ->.
  set (m := maxAttemptsOr1 (maxAttempts exam)) in *.
  set (u := getAttemptCount size) in *. clearbody m u.
  assert (M : (1 <= m)%Q).
  { rewrite Hm. change 1%Q with (inject_Z 1). now rewrite <- Zle_Qle. }
  split; [exact M|].
  destruct (lessThan (ofCount u) m) eqn:C.
  - apply lessThan_spec in C.
    assert (R : (1 <= m - ofCount u)%Q).
    { rewrite Hm in C. unfold ofCount in *. rewrite <- Zlt_Qlt in C.
      assert (H : (Z.of_nat u + 1 <= z)%Z) by lia.
      rewrite Zle_Qle, inject_Z_plus, <- Hm in H.
      change (inject_Z 1) with 1%Q in H. lra. }
    split; [intros _; split; [ring|exact R]|].
    split; [discriminate|]. split.
    + destruct (Qeq_bool (m - ofCount u) 1) eqn:L.
      * apply Qeq_bool_iff in L. now split.
      * apply Qeq_bool_neq in L. split.
        -- destruct (u =? 0); [destruct (Qeq_bool m 1)|]; discriminate.
        -- intros [_ H]. contradiction.
    + split; [discriminate|]. intros _ S. split; [reflexivity|].
      now apply F.
  - split; [discriminate|]. split; [reflexivity|]. split.
    + split; [discriminate|]. intros [H _]. discriminate H.
    + split; [discriminate|]. intros _ S. apply F in S.
      exfalso. rewrite S in C.
      assert (H : lessThan (ofCount 0) m = true)
        by (apply lessThan_spec; change (ofCount 0) with 0%Q; lra).
      congruence.
Qed.

(** A limit of two attempts, one of them used. *)
Lemma canAttemptExam_adds_up_witness :
  let exam := {| maxAttempts := Some (ofCount 2);
                 questions := None;
                 shuffleQuestions := false;
                 shuffleOptions := false;
                 details := tt |} in
  let r := canAttemptExam (fun _ => lit "2") (Some exam) (Some 1) in
  (forall e, Some exam = Some e -> wholeLimit (maxAttempts e))
  /\ canAttempt r = true
  /\ message r = lit "This is your last attempt."
  /\ (ofCount (attemptsUsed r) + remaining r == eligibleFor r)%Q.
Proof.
  cbv zeta.
  match goal with
  | |- context [canAttemptExam _ (Some ?x)] => set (exam := x)
  end.
  assert (W : forall e, Some exam = Some e -> wholeLimit (maxAttempts e)).
  { intros e E. injection E as <-. exists 2%Z. now repeat split. }
  split; [exact W|]. split; [reflexivity|]. split; [reflexivity|].
  exact (proj1 (proj1 (proj2
           (@canAttemptExam_adds_up unit (fun _ => lit "2")
              (Some exam) (Some 1) W)) eq_refl)).
Defined.

(** The limit is taken as it is stored: with one attempt and a half
    allowed and one used, the student may attempt the exam with half
    an attempt remaining; with a negative limit, no attempt is
    allowed at all. *)
Lemma canAttemptExam_takes_any_limit :
  let exam (limit : Q) :=
    {| maxAttempts := Some limit; questions := None;
       shuffleQuestions := false; shuffleOptions := false;
       details := tt |} in
  let half := canAttemptExam (fun _ => lit "0.5")
                             (Some (exam (3 # 2)%Q)) (Some 1) in
  let negative := canAttemptExam (fun _ => lit "-1")
                                 (Some (exam (-1 # 1)%Q)) (Some 0) in
  (canAttempt half = true /\ remaining half = (1 # 2)%Q
   /\ message half
      = lit "You have 0.5 attempt remaining.")
  /\ (canAttempt negative = false
      /\ eligibleFor negative = (-1 # 1)%Q).
Proof. cbv zeta. repeat split. Qed.

End ExamServiceFacts.

(* ===================================================================== *)
(** * The offline queue *)
(* ===================================================================== *)

Section OfflineServiceFacts.
Import JsString OfflineService OfflineServiceProps.

Lemma clearLocalAnswers_pending (A G L C : Type) (f : Faults)
      (e : jsstring) (st : Storage A G L C) :
  pendingSubmissions (clearLocalAnswers f e st) = pendingSubmissions st.
Proof. unfold clearLocalAnswers. now destruct (removeItemFails f). Qed.

(** The loop of [syncPendingSubmissions]. *)
Lemma syncAll_spec (A G L C : Type) (f : Faults)
      (submitFunction : nat -> bool) (pending : list (Submission A G)) :
  forall (n : nat) (s : Sync A G L C),
    let s' := syncAll f submitFunction n s pending in
    calls s' = calls s ++ pending
    /\ failed s' = failed s ++ rejected submitFunction n pending
    /\ synced s' = synced s + length (accepted submitFunction n pending)
    /\ pendingSubmissions (store s') = pendingSubmissions (store s)
    /\ (removeItemFails f = false ->
        forall e,
          In e (map fst (offlineAnswers (store s'))) ->
          In e (map fst (offlineAnswers (store s)))
          /\ ~ In e (map (@examId A G)
                         (accepted submitFunction n pending))).
Proof.
  induction pending as [|p pending IH]; intros n s; cbv zeta;
    cbn [syncAll accepted rejected].
  - rewrite !app_nil_r, Nat.add_0_r. repeat split; auto.
  - specialize (IH (S n) (syncOne f (submitFunction n) s p)).
    cbv zeta in IH. destruct IH as (I1 & I2 & I3 & I4 & I5).
    rewrite I1, I2, I3, I4. unfold syncOne in *.
    destruct (submitFunction n);
      cbn [calls failed synced store length map] in *.
    + rewrite <- !app_assoc. cbn [app].
      rewrite clearLocalAnswers_pending.
      repeat split; auto; try lia.
      * specialize (I5 H e H0). destruct I5 as [I5 _].
        unfold clearLocalAnswers in I5. rewrite H in I5.
        cbn [offlineAnswers] in I5. apply in_map_iff in I5.
        destruct I5 as (x & Hx & Hin). apply filter_In in Hin.
        apply in_map_iff. exists x. tauto.
      * intros [Hp|Hp].
        -- specialize (I5 H e H0). destruct I5 as [I5 _].
           unfold clearLocalAnswers in I5. rewrite H in I5.
           cbn [offlineAnswers] in I5. apply in_map_iff in I5.
           destruct I5 as (x & Hx & Hin). apply filter_In in Hin.
           destruct Hin as [_ Hin]. rewrite Hx, <- Hp in Hin.
           now rewrite eqb_refl in Hin.
        -- now apply (I5 H e H0).
    + rewrite <- !app_assoc. cbn [app].
      repeat split; auto.
      * now apply (I5 H e H0).
      * now apply (I5 H e H0).
Qed.

Lemma accepted_rejected (A G : Type) (submitFunction : nat -> bool)
      (pending : list (Submission A G)) :
  forall n,
    Permutation (accepted submitFunction n pending
                 ++ rejected submitFunction n pending)
                pending.
Proof.
  induction pending as [|p pending IH]; intro n;
    cbn [accepted rejected]; [constructor|].
  destruct (submitFunction n).
  - cbn [app]. apply perm_skip, IH.
  - apply Permutation_sym. eapply perm_trans.
    + apply perm_skip, Permutation_sym, (IH (S n)).
    + apply Permutation_middle.
Qed.

(** X25. [syncPendingSubmissions] loses no submission: every queued
    submission is handed to [submitFunction] once, in the order of the
    queue; those it rejects are what the queue holds afterwards, in
    that order; the two counts returned are those of the accepted and
    of the rejected ones, and they add up to the length of the queue.
    The saved answers of an exam whose submission was accepted are
    removed. *)
Theorem sync_loses_no_submission
        (A G L C : Type) (f : Faults) (submitFunction : nat -> bool)
        (st : Storage A G L C) :
  setItemFails f = false ->
  let pending := getPendingSubmissions f st in
  let sent := accepted submitFunction 0 pending in
  match syncPendingSubmissions f submitFunction st with
  | (st', called, counts) =>
      called = pending
      /\ getPendingSubmissions f st' = rejected submitFunction 0 pending
      /\ counts = Some (length sent,
                        length (getPendingSubmissions f st'))
      /\ length sent + length (getPendingSubmissions f st')
         = length pending
      /\ Permutation (sent ++ getPendingSubmissions f st') pending
      /\ (removeItemFails f = false ->
          forall s, In s sent ->
                    ~ In (examId s) (map fst (offlineAnswers st')))
  end.
Proof.
  intros W. cbv zeta. unfold syncPendingSubmissions.
  destruct (getPendingSubmissions f st) as [|p pending] eqn:E.
  - rewrite E. cbn. repeat split; auto.
  - rewrite W.
    pose proof (@syncAll_spec A G L C f submitFunction (p :: pending) 0
                  {| store := st; calls := []; failed := [];
                     synced := 0 |}) as S.
    cbv zeta in S. cbn [calls failed synced store app] in S.
    destruct S as (S1 & S2 & S3 & S4 & S5).
    set (s' := syncAll f submitFunction 0 _ (p :: pending)) in *.
    clearbody s'.
    assert (Q : getPendingSubmissions f (setPending (failed s') (store s'))
                = rejected submitFunction 0 (p :: pending)).
    { unfold getPendingSubmissions in *. cbn [pendingSubmissions setPending].
      destruct (getItemFails f); [discriminate E|exact S2]. }
    rewrite Q.
    pose proof (accepted_rejected submitFunction (p :: pending) 0) as P.
    repeat split; auto.
    + now rewrite S2, S3.
    + rewrite <- length_app. now apply Permutation_length.
    + intros R s Hs Hin. cbn [offlineAnswers setPending] in Hin.
      destruct (S5 R (examId s) Hin) as [_ N]. apply N.
      now apply in_map.
Qed.

(** Of two queued submissions the first is accepted, the second
    rejected. *)
Lemma sync_loses_no_submission_witness :
  setItemFails noFaults = false
  /\ let pending := getPendingSubmissions noFaults sampleStorage in
     let sent := accepted (fun n => n =? 0) 0 pending in
     match syncPendingSubmissions noFaults (fun n => n =? 0)
                                  sampleStorage with
     | (st', called, counts) =>
         called = pending
         /\ getPendingSubmissions noFaults st'
            = rejected (fun n => n =? 0) 0 pending
         /\ counts = Some (length sent,
                           length (getPendingSubmissions noFaults st'))
         /\ length sent + length (getPendingSubmissions noFaults st')
            = length pending
         /\ Permutation (sent ++ getPendingSubmissions noFaults st')
                        pending
         /\ (removeItemFails noFaults = false ->
             forall s, In s sent ->
                       ~ In (examId s) (map fst (offlineAnswers st')))
     end.
Proof.
  split; [reflexivity|].
  exact (@sync_loses_no_submission
           nat nat nat nat noFaults (fun n => n =? 0) sampleStorage
           eq_refl).
Defined.

(** X26. When the write that ends [syncPendingSubmissions]
    fails, the function throws after it has handed every queued
    submission to [submitFunction]: the queue in the storage is as it
    was, the accepted submissions included, so that the next
    synchronisation sends them again. *)
Theorem failed_write_keeps_accepted_submissions_queued
        (A G L C : Type) (f : Faults) (submitFunction : nat -> bool)
        (st : Storage A G L C) :
  setItemFails f = true ->
  getPendingSubmissions f st <> [] ->
  match syncPendingSubmissions f submitFunction st with
  | (st', called, counts) =>
      counts = None
      /\ called = getPendingSubmissions f st
      /\ getPendingSubmissions f st' = getPendingSubmissions f st
  end.
Proof.
  intros W N. unfold syncPendingSubmissions.
  destruct (getPendingSubmissions f st) as [|p pending] eqn:E;
    [congruence|].
  rewrite W.
  pose proof (@syncAll_spec A G L C f submitFunction (p :: pending) 0
                {| store := st; calls := []; failed := [];
                   synced := 0 |}) as S.
  cbv zeta in S. cbn [calls failed synced store app] in S.
  destruct S as (S1 & _ & _ & S4 & _).
  repeat split; auto.
  unfold getPendingSubmissions in *. now rewrite S4.
Qed.

Lemma failed_write_keeps_accepted_submissions_queued_witness :
  let f := {| getItemFails := false; setItemFails := true;
              removeItemFails := false |} in
  (setItemFails f = true /\ getPendingSubmissions f sampleStorage <> [])
  /\ match syncPendingSubmissions f (fun _ => true) sampleStorage with
     | (st', called, counts) =>
         counts = None
         /\ called = getPendingSubmissions f sampleStorage
         /\ getPendingSubmissions f st'
            = getPendingSubmissions f sampleStorage
     end.
Proof.
  cbv zeta.
  assert (N : getPendingSubmissions
                {| getItemFails := false; setItemFails := true;
                   removeItemFails := false |} sampleStorage <> [])
    by discriminate.
  split; [split; [reflexivity|exact N]|].
  exact (@failed_write_keeps_accepted_submissions_queued
           nat nat nat nat
           {| getItemFails := false; setItemFails := true;
              removeItemFails := false |}
           (fun _ => true) sampleStorage eq_refl N).
Defined.

(** ** Queueing *)

Lemma same_key (A G : Type) (e s : jsstring) (p : Submission A G) :
  sameSubmission e s p = true <-> (examId p, studentId p) = (e, s).
Proof.
  unfold sameSubmission. rewrite andb_true_iff, !eqb_spec.
  split; [intros [-> ->]; reflexivity|intro H; now inversion H].
Qed.

Lemma getPending_setPending (A G L C : Type) (f : Faults)
      (l : list (Submission A G)) (st : Storage A G L C) :
  getItemFails f = false ->
  getPendingSubmissions f (setPending l st) = l.
Proof. intro R. unfold getPendingSubmissions. now rewrite R. Qed.

(** X27. [queueSubmission], when the storage can be read and
    written: it returns [true]; the queue then holds the submission of
    this student for this exam with the answers, the results and the
    time given; the submissions of other students or exams are as they
    were; and a queue that held one submission by student and exam
    holds one by student and exam, the earlier submission of this
    student for this exam being replaced. *)
Theorem queued_submission_replaces_earlier_one
        (A G L C : Type) (f : Faults) (now e s : jsstring)
        (a : A) (g : G) (st : Storage A G L C) :
  getItemFails f = false ->
  setItemFails f = false ->
  match queueSubmission f now e s a g st with
  | (st', ok) =>
      let before := getPendingSubmissions f st in
      let after := getPendingSubmissions f st' in
      ok = true
      /\ find (sameSubmission e s) after
         = Some {| examId := e; studentId := s; answers := a;
                   gradingResults := g; queuedAt := now |}
      /\ filter (fun p => negb (sameSubmission e s p)) after
         = filter (fun p => negb (sameSubmission e s p)) before
      /\ (OnePerStudent before -> OnePerStudent after)
  end.
Proof.
  intros R W. unfold queueSubmission. cbv zeta. rewrite W.
  set (pending := getPendingSubmissions f st).
  rewrite (@getPending_setPending A G L C f _ st R).
  set (new := {| examId := e; studentId := s; answers := a;
                 gradingResults := g; queuedAt := now |}).
  set (upd := fun p : Submission A G =>
                if sameSubmission e s p
                then {| examId := examId p; studentId := studentId p;
                        answers := a; gradingResults := g;
                        queuedAt := now |}
                else p).
  assert (U : forall p, (examId (upd p), studentId (upd p))
                        = (examId p, studentId p)).
  { intro p. subst upd. cbv beta. now destruct (sameSubmission e s p). }
  assert (Us : forall p, sameSubmission e s (upd p) = sameSubmission e s p).
  { intro p. unfold sameSubmission.
    pose proof (U p) as Hp. inversion Hp as [[H1 H2]].
    now rewrite H1, H2. }
  assert (Un : forall p, sameSubmission e s p = true -> upd p = new).
  { intros p Hp. subst upd new. cbv beta. rewrite Hp.
    apply same_key in Hp. inversion Hp; subst. reflexivity. }
  assert (Uo : forall p, sameSubmission e s p = false -> upd p = p).
  { intros p Hp. subst upd. cbv beta. now rewrite Hp. }
  assert (Sn : sameSubmission e s new = true).
  { apply same_key. reflexivity. }
  assert (Kn : (examId new, studentId new) = (e, s)) by reflexivity.
  clearbody upd new pending.
  split; [reflexivity|].
  destruct (existsb (sameSubmission e s) pending) eqn:X.
  - split; [|split].
    + apply existsb_exists in X. clear -X Un Uo Us.
      induction pending as [|p pending IH].
      * destruct X as (x & [] & _).
      * cbn [map find]. rewrite Us.
        destruct (sameSubmission e s p) eqn:Hp.
        -- now rewrite (Un p Hp).
        -- apply IH. destruct X as (x & [Hx|Hx] & Hs).
           ++ subst x. congruence.
           ++ now exists x.
    + clear -Us Uo. induction pending as [|p pending IH]; [reflexivity|].
      cbn [map filter]. rewrite Us.
      destruct (sameSubmission e s p) eqn:Hp; cbn [negb]; [exact IH|].
      now rewrite (Uo p Hp), IH.
    + unfold OnePerStudent. rewrite map_map.
      now rewrite (map_ext _ _ U).
  - assert (Xn : forall p, In p pending -> sameSubmission e s p = false).
    { intros p Hp. destruct (sameSubmission e s p) eqn:Hs; [|reflexivity].
      assert (existsb (sameSubmission e s) pending = true)
        by (apply existsb_exists; now exists p).
      congruence. }
    split; [|split].
    + clear -Xn Sn. induction pending as [|p pending IH];
        cbn [app find].
      * now rewrite Sn.
      * rewrite (Xn p (or_introl eq_refl)). apply IH.
        intros q Hq. apply Xn. now right.
    + rewrite filter_app. cbn [filter]. rewrite Sn. cbn [negb].
      now rewrite app_nil_r.
    + unfold OnePerStudent. intro D. rewrite map_app. cbn [map].
      apply NoDup_app; [exact D|repeat constructor; auto|].
      intros k Hk [<-|[]]. apply in_map_iff in Hk.
      destruct Hk as (p & Hp & Hin).
      assert (sameSubmission e s p = true)
        by (apply same_key; now rewrite Hp).
      rewrite (Xn p Hin) in H. discriminate H.
Qed.

Lemma queued_submission_replaces_earlier_one_witness :
  (getItemFails noFaults = false /\ setItemFails noFaults = false)
  /\ match queueSubmission noFaults (lit "t3") (lit "e1") (lit "s1")
                           7 70 sampleStorage with
     | (st', ok) =>
         let before := getPendingSubmissions noFaults sampleStorage in
         let after := getPendingSubmissions noFaults st' in
         ok = true
         /\ find (sameSubmission (lit "e1") (lit "s1")) after
            = Some {| examId := lit "e1"; studentId := lit "s1";
                      answers := 7; gradingResults := 70;
                      queuedAt := lit "t3" |}
         /\ filter (fun p => negb (sameSubmission (lit "e1") (lit "s1") p))
                   after
            = filter (fun p => negb (sameSubmission (lit "e1") (lit "s1") p))
                     before
         /\ (OnePerStudent before -> OnePerStudent after)
     end.
Proof.
  split; [split; reflexivity|].
  exact (@queued_submission_replaces_earlier_one
           nat nat nat nat noFaults (lit "t3") (lit "e1") (lit "s1")
           7 70 sampleStorage eq_refl eq_refl).
Defined.

End OfflineServiceFacts.

(* ===================================================================== *)
(** * The metrics tracker *)
(* ===================================================================== *)

Section MetricsFacts.
Import JsString Metrics MetricsProps.

Lemma within_more (t t' : Tracker) (d : QuestionData) :
  totalVoiceAnswers t <= totalVoiceAnswers t' ->
  totalReadAloudRequests t <= totalReadAloudRequests t' ->
  Within t d -> Within t' d.
Proof. unfold Within. intros. lia. Qed.

Lemma consistent_create : Consistent createMetricsTracker.
Proof. split; cbn; auto. Qed.

Lemma completed_le (l : list QuestionData) :
  length (filter wasAnswered l) <= length l.
Proof.
  induction l as [|d l IH]; cbn [filter length]; [lia|].
  destruct (wasAnswered d); cbn [length]; lia.
Qed.

Lemma consistent_call (t : Tracker) (c : Call) :
  Consistent t -> Consistent (call t c).
Proof.
  intro H. pose proof H as [R N A L Cu Re Co].
  assert (W : forall t', totalVoiceAnswers t <= totalVoiceAnswers t' ->
                         totalReadAloudRequests t
                         <= totalReadAloudRequests t' ->
                         Forall (Within t') (questionMetrics t)).
  { intros t' H1 H2. eapply Forall_impl; [|exact Re].
    intros d Hd. now apply within_more with (t := t). }
  destruct c; cbn [call].
  - split; cbn; auto. unfold Within. cbn. lia.
  - unfold endQuestion. destruct (currentQuestionData t) as [d|] eqn:E.
    + split; cbn; auto.
      * apply Forall_app. split; [exact Re|]. repeat constructor; apply Cu.
      * unfold completedQuestions. cbn [questionMetrics].
        apply completed_le.
    + exact H.
  - split; cbn; auto.
    + destruct (currentQuestionData t) as [d|]; cbn [option_map]; auto.
      unfold Within in *. cbn. lia.
    + apply W; cbn; lia.
  - split; cbn; auto.
    + destruct wasSuccessful; lia.
    + destruct (currentQuestionData t) as [d|]; cbn [option_map]; auto.
      unfold Within in *. cbn. destruct wasSuccessful; lia.
    + apply W; cbn; lia.
  - split; cbn; auto.
    + destruct wasRecognized; lia.
  - split; cbn; auto.
Qed.

(** X28. However the methods of the tracker are called, its
    metrics are consistent: the retries never exceed the voice answers
    and the voice commands together; a feature is flagged as used
    exactly when its count is positive; and for the current question
    and every recorded one, the retries never exceed the attempts, nor
    the attempts and the read-aloud requests those of the session. *)
Theorem tracker_metrics_are_consistent (cs : list Call) :
  Consistent (calls cs).
Proof.
  unfold calls. generalize consistent_create.
  generalize createMetricsTracker.
  induction cs as [|c cs IH]; intros t H; cbn [fold_left]; [exact H|].
  apply IH. now apply consistent_call.
Qed.

End MetricsFacts.

(* ===================================================================== *)
(** * The answers of the exam screen and the summary *)
(* ===================================================================== *)

Section ExamPageAnswers.
Import JsString ScreenContext Dialog ExamPage DialogProps ExamPageProps
       ExamPageMoreProps.

Lemma answersOfExam_stable : Stable AnswersOfExam.
Proof.
  split; unfold AnswersOfExam; intros; cbn in *; auto.
  destruct H as [D I].
  destruct (currentQuestion p) as [q|] eqn:Hq.
  2:{ unfold saveAnswer. now rewrite Hq. }
  destruct (trim a) as [|c r] eqn:Ha.
  { unfold saveAnswer. now rewrite Hq, Ha. }
  assert (E : exam (saveAnswer a p) = exam p).
  { unfold saveAnswer. now rewrite Hq, Ha. }
  rewrite E.
  assert (T : trim a <> []) by congruence.
  rewrite (@saveAnswer_answers a p q Hq T).
  rewrite map_app. cbn [map questionId]. split.
  - apply NoDup_app; [now apply NoDup_map_filter|repeat constructor; auto|].
    intros x Hx [<-|[]]. apply in_map_iff in Hx.
    destruct Hx as (e & He & Hin). apply filter_In in Hin.
    destruct Hin as [_ Hin]. rewrite He in Hin.
    now rewrite eqb_refl in Hin.
  - apply incl_app.
    + intros x Hx. apply I. apply in_map_iff in Hx.
      destruct Hx as (e & He & Hin). apply filter_In in Hin.
      apply in_map_iff. exists e. tauto.
    + intros x [<-|[]]. unfold currentQuestion in Hq.
      destruct (exam p) as [e|]; [|discriminate Hq].
      apply in_map. now apply nth_error_In in Hq.
Qed.

(** X29. The summary never announces more answered questions
    than the exam has questions: the recorded answers are answers to
    questions of the exam, one a question, and no voice command changes
    that; so their number, which [gradeExam] reports as
    [answeredQuestions], is at most the number of questions, which it
    reports as [totalQuestions]. *)
Theorem answers_never_outnumber_questions
        (env : Env) (transcript : jsstring) (p : Page) :
  AnswersOfExam p ->
  let p' := after (handleVoiceCommand env transcript p) in
  AnswersOfExam p'
  /\ length (answersRef p')
     <= match exam p' with
        | Some e => length (questions e)
        | None => 0
        end.
Proof.
  intro H. cbv zeta.
  pose proof (@inv_handleVoiceCommand
                AnswersOfExam answersOfExam_stable env transcript p H)
    as H'.
  split; [exact H'|].
  destruct H' as [D I].
  apply NoDup_incl_length in I; [|exact D].
  rewrite length_map in I.
  destruct (exam (after (handleVoiceCommand env transcript p)));
    [now rewrite length_map in I|exact I].
Qed.

Lemma answers_never_outnumber_questions_witness :
  let p := setCurrentQuestionIndex 1 awaitingPage in
  let p' := after (handleVoiceCommand quietEnv (lit "option b") p) in
  AnswersOfExam p
  /\ AnswersOfExam p'
  /\ length (answersRef p')
     <= match exam p' with
        | Some e => length (questions e)
        | None => 0
        end.
Proof.
  cbv zeta.
  assert (H : AnswersOfExam (setCurrentQuestionIndex 1 awaitingPage)).
  { split; [constructor|]. intros x []. }
  split; [exact H|].
  exact (@answers_never_outnumber_questions
           quietEnv (lit "option b")
           (setCurrentQuestionIndex 1 awaitingPage) H).
Defined.

End ExamPageAnswers.

(* ===================================================================== *)
(** * The transcripts the application receives *)
(* ===================================================================== *)

Section SpeechTranscripts.
Import JsString Speech SpeechProps SpeechMoreProps.

Ltac world :=
  cbn [svc now nextId timers micro live settled sttFault trace
       this emit bump withTimers withMicro withLive withSettled withFault
       withNow setTimeout clearTimeout await] in *.

(** ** [trim] *)

Lemma trimStart_head (s : jsstring) :
  match trimStart s with
  | [] => True
  | c :: _ => isSpace c = false
  end.
Proof.
  induction s as [|c s IH]; cbn [trimStart]; [exact I|].
  destruct (isSpace c) eqn:E; [exact IH|exact E].
Qed.

Lemma trimStart_fixed (s : jsstring) :
  match s with
  | [] => True
  | c :: _ => isSpace c = false
  end ->
  trimStart s = s.
Proof. destruct s as [|c s]; cbn [trimStart]; [easy|]. now intros ->. Qed.

Lemma trimStart_idempotent (s : jsstring) :
  trimStart (trimStart s) = trimStart s.
Proof. apply trimStart_fixed, trimStart_head. Qed.

Lemma trimStart_snoc (c : ascii) (l : jsstring) :
  isSpace c = false -> trimStart (l ++ [c]) = trimStart l ++ [c].
Proof.
  intro E. induction l as [|a l IH]; cbn [app trimStart].
  - now rewrite E.
  - destruct (isSpace a); [exact IH|reflexivity].
Qed.

Lemma trimEnd_cons (c : ascii) (r : jsstring) :
  isSpace c = false -> trimEnd (c :: r) = c :: trimEnd r.
Proof.
  intro E. unfold trimEnd. cbn [rev].
  rewrite (@trimStart_snoc c (rev r) E), rev_app_distr.
  reflexivity.
Qed.

Lemma trim_idempotent (s : jsstring) : trim (trim s) = trim s.
Proof.
  unfold trim.
  assert (H : trimStart (trimEnd (trimStart s)) = trimEnd (trimStart s)).
  { apply trimStart_fixed. pose proof (trimStart_head s) as Hs.
    destruct (trimStart s) as [|c r]; [exact I|].
    now rewrite (@trimEnd_cons c r Hs). }
  rewrite H. unfold trimEnd. rewrite rev_involutive.
  now rewrite trimStart_idempotent.
Qed.

Lemma cleanText_trim (t : jsstring) :
  eqb (trim t) [] = false -> cleanText (trim t).
Proof.
  intro E. split; [|apply trim_idempotent].
  intro H. rewrite H in E. discriminate E.
Qed.

(** ** What keeps the transcripts clean *)

Lemma clean_keep (x y : World) :
  timers y = timers x -> micro y = micro x -> trace y = trace x ->
  Clean x -> Clean y.
Proof. intros T M R [A B C]. split; congruence. Qed.

Lemma clean_this (f : SpeechService -> SpeechService) (x : World) :
  Clean x -> Clean (this f x).
Proof. now apply clean_keep. Qed.

Lemma clean_bump (x : World) : Clean x -> Clean (bump x).
Proof. now apply clean_keep. Qed.

Lemma clean_withLive (l : list (UtteranceId * list PromiseId))
      (x : World) :
  Clean x -> Clean (withLive l x).
Proof. now apply clean_keep. Qed.

Lemma clean_withNow (n : N) (x : World) : Clean x -> Clean (withNow n x).
Proof. now apply clean_keep. Qed.

Lemma clean_withFault (f : option EngineError) (x : World) :
  Clean x -> Clean (withFault f x).
Proof. now apply clean_keep. Qed.

Lemma clean_settle (o : Outcome) (ps : list PromiseId) (x : World) :
  Clean x -> Clean (settle o ps x).
Proof.
  destruct (settle_frame o ps x) as (_ & B & C & D & _).
  now apply clean_keep.
Qed.

Lemma clean_emit (o : Output) (x : World) :
  cleanOutput o -> Clean x -> Clean (emit o x).
Proof. intros O [A B C]. split; world; auto. Qed.

Lemma clean_setTimeout (k : Task) (d : N) (x : World) :
  cleanTask k -> Clean x -> Clean (setTimeout k d x).
Proof.
  intros K [A B C]. split; world; auto.
  apply Forall_app. split; [exact A|]. now repeat constructor.
Qed.

Lemma clean_clearTimeout (id : TimerId) (x : World) :
  Clean x -> Clean (clearTimeout id x).
Proof.
  intros [A B C]. split; world; auto. now apply Forall_filter.
Qed.

Lemma clean_await (k : Task) (x : World) :
  cleanTask k -> Clean x -> Clean (await k x).
Proof.
  intros K [A B C]. split; world; auto.
  apply Forall_app. split; [exact B|]. now repeat constructor.
Qed.

Lemma clean_withMicro (ms : list Task) (x : World) :
  Forall cleanTask ms -> Clean x -> Clean (withMicro ms x).
Proof. intros M [A B C]. split; world; auto. Qed.

Create HintDb cleans.
#[local] Hint Resolve clean_this clean_bump clean_withLive clean_withNow
  clean_withFault clean_settle clean_emit clean_setTimeout
  clean_clearTimeout clean_await : cleans.
#[local] Hint Extern 1 (cleanOutput _) => exact I : cleans.
#[local] Hint Extern 1 (cleanTask _) => exact I : cleans.

Ltac cleans := auto 40 with cleans.

Ltac branches :=
  repeat match goal with
         | |- context [match ?x with _ => _ end] => destruct x
         end.

Lemma clean_clearSilence (x : World) : Clean x -> Clean (clearSilence x).
Proof. intro H. unfold clearSilence. branches; cleans. Qed.

#[local] Hint Resolve clean_clearSilence : cleans.

Lemma clean_stopListening (x : World) : Clean x -> Clean (stopListening x).
Proof. intro H. unfold stopListening. cbv zeta. branches; cleans. Qed.

Lemma clean_abortListening (x : World) :
  Clean x -> Clean (abortListening x).
Proof. intro H. unfold abortListening. cbv zeta. branches; cleans. Qed.

Lemma clean_stopSpeaking (x : World) : Clean x -> Clean (stopSpeaking x).
Proof. intro H. unfold stopSpeaking. cbv zeta. branches; cleans. Qed.

Lemma clean_notifySpeechEnd (x : World) :
  Clean x -> Clean (notifySpeechEnd x).
Proof. intro H. unfold notifySpeechEnd. branches; cleans. Qed.

#[local] Hint Resolve clean_stopListening clean_abortListening
  clean_stopSpeaking clean_notifySpeechEnd : cleans.

Lemma clean_errorCallback (e : Callback -> RecognitionError) (x : World) :
  Clean x ->
  Clean match onRecognitionErrorCallback (svc x) with
        | Some cb => emit (RecognitionErrorCb cb (e cb)) x
        | None => x
        end.
Proof. intro H. branches; cleans. Qed.

Lemma clean_listenStart (o : Options) (p : PromiseId) (x : World) :
  Clean x -> Clean (listenStart o p x).
Proof.
  intro H. unfold listenStart. cbv zeta.
  set (y := match silenceTimeout (svc (this (setListening true) x)) with
            | Some id => clearTimeout id (this (setListening true) x)
            | None => this (setListening true) x
            end).
  assert (Hy : Clean y) by (subst y; branches; cleans).
  clearbody y.
  set (z := this (setSubscriptions true)
              (this (setSubscriptions false)
                 (this (setSilenceTimeout (Some (nextId y)))
                    (setTimeout SilenceTimeout
                       (silenceTimeoutDuration (svc y)) y)))).
  assert (Hz : Clean z) by (subst z; cleans).
  clearbody z.
  destruct (sttFault z) as [err|]; [|cleans].
  apply clean_settle.
  set (z1 := this (setListening false)
               (this (setListening false)
                  (this (setSubscriptions false) z))).
  assert (H1 : Clean z1) by (subst z1; cleans).
  clearbody z1.
  pose proof (@clean_errorCallback
    (fun _ => {| type := Some (lit "unknown");
                 message := Some (orDefault (err_message err)
                                    "Failed to start recognition") |})
    z1 H1) as H2.
  cbv beta in H2.
  set (z2 := match onRecognitionErrorCallback (svc z1) with
             | Some cb => _ | None => z1 end) in *.
  clearbody z2.
  apply (@clean_errorCallback
    (fun _ => {| type := None; message := err_message err |})).
  cleans.
Qed.

#[local] Hint Resolve clean_listenStart : cleans.

Lemma clean_listenTry (o : Options) (p : PromiseId) (x : World) :
  Clean x -> Clean (listenTry o p x).
Proof. intro H. unfold listenTry. cbv zeta. branches; cleans. Qed.

#[local] Hint Resolve clean_listenTry : cleans.

Lemma clean_startListening (o : Options) (p : PromiseId) (x : World) :
  Clean x -> Clean (startListening o p x).
Proof. intro H. unfold startListening. cbv zeta. branches; cleans. Qed.

Lemma clean_speakStart (m : jsstring) (o : Options) (ps : list PromiseId)
      (x : World) :
  Clean x -> Clean (speakStart m o ps x).
Proof. intro H. unfold speakStart. cbv zeta. cleans. Qed.

#[local] Hint Resolve clean_startListening clean_speakStart : cleans.

Lemma clean_speakBody (m : jsstring) (o : Options) (ps : list PromiseId)
      (x : World) :
  Clean x -> Clean (speakBody m o ps x).
Proof. intro H. unfold speakBody. cbv zeta. branches; cleans. Qed.

#[local] Hint Resolve clean_speakBody : cleans.

Lemma clean_postSpeech (ps : list PromiseId) (x : World) :
  Clean x -> Clean (postSpeech ps x).
Proof. intro H. unfold postSpeech. cbv zeta. branches; cleans. Qed.

(** The result listener schedules trimmed, non-blank transcripts. *)
Lemma clean_onResult (e : option SttEvent) (x : World) :
  Clean x -> Clean (onResult e x).
Proof.
  intro H. unfold onResult. cbv zeta.
  set (y := clearSilence x). assert (Hy : Clean y) by (subst y; cleans).
  clearbody y.
  destruct e as [e|]; [|exact Hy].
  destruct (firstResult e) as [r|]; [|exact Hy].
  destruct (transcriptOf r) as [t|]; [|exact Hy].
  destruct (onRecognitionResultCallback (svc y)); [|exact Hy].
  destruct (eqb (trim t) []) eqn:E; [exact Hy|].
  destruct (finalOf e r); [|exact Hy].
  apply clean_setTimeout; [|cleans].
  now apply cleanText_trim.
Qed.

Lemma clean_onError (e : EngineError) (x : World) :
  Clean x -> Clean (onError e x).
Proof.
  intro H. unfold onError. cbv zeta.
  apply (@clean_errorCallback
    (fun _ => {| type := Some (orDefault (err_error e) "unknown");
                 message := Some (orDefault (err_message e)
                                    "Speech recognition error") |})).
  cleans.
Qed.

Lemma clean_onSilence (x : World) : Clean x -> Clean (onSilence x).
Proof. intro H. unfold onSilence. branches; cleans. Qed.

Lemma clean_deliverResult (t : jsstring) (x : World) :
  cleanText t -> Clean x -> Clean (deliverResult t x).
Proof.
  intros T H. unfold deliverResult.
  destruct (onRecognitionResultCallback (svc x)); [|exact H].
  now apply clean_emit.
Qed.

Lemma clean_onDone (ps : list PromiseId) (x : World) :
  Clean x -> Clean (onDone ps x).
Proof. intro H. unfold onDone. cbv zeta. cleans. Qed.

Lemma clean_onStopped (ps : list PromiseId) (x : World) :
  Clean x -> Clean (onStopped ps x).
Proof. intro H. unfold onStopped. cbv zeta. cleans. Qed.

Lemma clean_onSpeakError (e : EngineError) (ps : list PromiseId)
      (x : World) :
  Clean x -> Clean (onSpeakError e ps x).
Proof. intro H. unfold onSpeakError. cbv zeta. cleans. Qed.

Lemma clean_cleanup (p : PromiseId) (x : World) :
  Clean x -> Clean (cleanup p x).
Proof. intro H. unfold cleanup. cbv zeta. cleans. Qed.

Lemma clean_cleanupRest (p : PromiseId) (x : World) :
  Clean x -> Clean (cleanupRest p x).
Proof. intro H. unfold cleanupRest. cbv zeta. cleans. Qed.

#[local] Hint Resolve clean_postSpeech clean_onResult clean_onError
  clean_onSilence clean_onDone clean_onStopped clean_onSpeakError
  clean_cleanup clean_cleanupRest : cleans.

Lemma clean_runTask (k : Task) (x : World) :
  cleanTask k -> Clean x -> Clean (runTask k x).
Proof.
  intros K H. destruct k; cbn [runTask]; cleans.
  now apply clean_deliverResult.
Qed.

Lemma clean_fold (ks : list Task) :
  forall x : World,
    Forall cleanTask ks -> Clean x ->
    Clean (fold_left (fun w k => runTask k w) ks x).
Proof.
  induction ks as [|k ks IH]; intros x K H; cbn [fold_left]; [exact H|].
  inversion K; subst. apply IH; [assumption|]. now apply clean_runTask.
Qed.

Lemma clean_drain (x : World) : Clean x -> Clean (drain x).
Proof.
  intro H. unfold drain. apply clean_fold; [apply H|].
  apply clean_withMicro; [constructor|exact H].
Qed.

Lemma clean_fire (x : World) : Clean x -> Clean (fire x).
Proof.
  intro H. unfold fire. cbv zeta.
  destruct (earliest (timers x)) as [t|] eqn:E; [|exact H].
  apply clean_runTask; [|cleans].
  apply earliest_In in E. destruct H as [A _ _].
  rewrite Forall_forall in A. now apply A.
Qed.

Lemma clean_ended (u : UtteranceId)
      (k : list PromiseId -> World -> World) (x : World) :
  (forall ps y, Clean y -> Clean (k ps y)) ->
  Clean x -> Clean (ended u k x).
Proof.
  intros K H. unfold ended.
  destruct (find (fun e => fst e =? u) (live x)) as [[? ps]|]; [|exact H].
  cbv zeta. apply K. cleans.
Qed.

Lemma clean_step (w : World) (e : Event) : Clean w -> Clean (step w e).
Proof.
  intro H. destruct e; cbn [step]; cleans.
  - destruct (micro w) as [|k ks] eqn:M; [exact H|].
    destruct H as [A B C]. rewrite M in B. inversion B; subst.
    apply clean_runTask; [assumption|].
    apply clean_withMicro; [assumption|]. split; auto. now rewrite M.
  - now apply clean_fire, clean_drain.
  - apply clean_ended; [intros; cleans|now apply clean_drain].
  - apply clean_ended; [intros; cleans|now apply clean_drain].
  - apply clean_ended; [intros; cleans|now apply clean_drain].
  - unfold heard. pose proof (@clean_drain w H) as D.
    destruct (currentRecognitionSubscriptions (svc (drain w))); cleans.
  - unfold heard. pose proof (@clean_drain w H) as D.
    destruct (currentRecognitionSubscriptions (svc (drain w))); cleans.
Qed.

Lemma clean_run (es : list Event) :
  forall w : World, Clean w -> Clean (run w es).
Proof.
  induction es as [|e es IH]; intros w H; [exact H|].
  change (run w (e :: es)) with (run (step w e) es).
  apply IH. now apply clean_step.
Qed.

Lemma transcripts_clean (tr : list Output) :
  Forall cleanOutput tr -> Forall cleanText (transcripts tr).
Proof.
  induction tr as [|o tr IH]; intro H; cbn [transcripts];
    [constructor|].
  inversion H as [|? ? Ho Ht]; subst.
  destruct o; auto.
  apply Forall_app. split; [now apply IH|].
  constructor; [exact Ho|constructor].
Qed.

(** X30. However the service is driven, every transcript it
    hands to the recognition callback is trimmed and not empty: the
    result listener drops a blank transcript and trims the others
    before it schedules their delivery. *)
Theorem delivered_transcripts_are_trimmed (es : list Event) :
  Forall (fun t => t <> [] /\ trim t = t)
         (transcripts (trace (run boot es))).
Proof.
  apply transcripts_clean.
  assert (B : Clean boot) by (split; constructor).
  exact (cl_trace (@clean_run es boot B)).
Qed.

End SpeechTranscripts.
